(** * The norostat versioned diff store ([norostat_sql.py])

    A shallow embedding of [record_long_raw] and [update_point]: the MySQL
    tables are lists of rows, every [cursor.execute] is a function on the
    state of the connection, and the Python control flow (exceptions,
    [try]/[finally], the final [commit]) is a small state-and-exception
    monad.

    Conventions of the model.
    - A [DATE] is a day number and a [DATETIME(6)] a number of microseconds,
      both in [Z]; row comparison [(a,b) < (c,d)] is MySQL's lexicographic
      one.
    - The string columns are [NVARCHAR(255)] with no [COLLATE] clause:
      MySQL compares their values under the default collation of the
      national character set, which is neither case sensitive nor sensitive
      to trailing spaces. The collation is a parameter of the embedding,
      [collation], given as a key function: two strings are equal for MySQL
      (in [=], [IN], [USING], [DISTINCT] and in the unique and primary keys)
      exactly when their keys are equal. [general_ci] is that collation on
      ASCII text; the examples use it.
    - An insertion longer than the declared [NVARCHAR(255)] is refused
      (strict SQL mode).
    - [AUTO_INCREMENT] is a counter kept with the rows of its pool; it
      advances by one for every inserted row, and an insertion that finds
      it above the largest [INT] fails. The values that a transaction
      takes before it is rolled back are not modelled as lost.
    - Every statement may also raise for reasons outside the data (lost
      connection, lock time-out): an oracle, indexed by the source line of
      the call, says which statements do. *)

From Stdlib Require Import ZArith List String Ascii Bool Lia.
Import ListNotations.
Open Scope string_scope.
Open Scope list_scope.
Open Scope Z_scope.

(** ** Versions: [(release_date, parse_time)] under tuple ordering *)

Definition Version : Type := (Z * Z)%type.

Definition vlt (a b : Version) : Prop :=
  fst a < fst b \/ (fst a = fst b /\ snd a < snd b).
Definition vle (a b : Version) : Prop :=
  fst a < fst b \/ (fst a = fst b /\ snd a <= snd b).

Definition vltb (a b : Version) : bool :=
  (fst a <? fst b) || ((fst a =? fst b) && (snd a <? snd b)).
Definition vleb (a b : Version) : bool :=
  (fst a <? fst b) || ((fst a =? fst b) && (snd a <=? snd b)).
Definition veqb (a b : Version) : bool :=
  (fst a =? fst b) && (snd a =? snd b).

(** ** Python exceptions *)

Inductive exn : Type :=
| IntegrityError                 (* key, foreign key or NOT NULL violation *)
| DataError                      (* data too long for the column *)
| DatabaseError                  (* AUTO_INCREMENT exhausted *)
| ProgrammingError               (* table does not exist *)
| OperationalError (line : nat)  (* the statement at [line] failed *)
| TypeError                      (* [prog.match(None)] *)
| ValueError                     (* [int] of a malformed literal *)
| UtilsError                     (* raised inside [norostat_utils] *)
| Exception (original : exn).    (* line 250: [raise Exception([..., e])] *)

Definition result (A : Type) : Type := (exn + A)%type.

(** ** Rows of the tables *)

(** [norostat_raw_datatable_diffs] *)
Module Diff.
Record row : Type := mk {
    release_date : Z;
    parse_time : Z;
    measurement_type_id : Z;
    location_id : Z;
    week_id : Z;
    new_value : option string  (* NULL: the cell was removed *)
  }.
Definition version (d : row) : Version := (release_date d, parse_time d).
Definition cell (d : row) : Z * Z * Z :=
    (measurement_type_id d, location_id d, week_id d).
  (* PRIMARY KEY (release_date, parse_time, measurement_type_id,
     location_id, week_id) *)
Definition same_key (a b : row) : bool :=
    veqb (version a) (version b)
    && (measurement_type_id a =? measurement_type_id b)
    && (location_id a =? location_id b)
    && (week_id a =? week_id b).
End Diff.

(** [norostat_raw_datatable_parsed] *)
Module Parsed.
Record row : Type := mk {
    measurement_type : string;
    location : string;
    week : string;
    value : string
  }.
  (* PRIMARY KEY (measurement_type, location, week), the three columns
     compared under the collation *)
Definition same_key (collation : string -> string) (a b : row) : bool :=
    (collation (measurement_type a) =? collation (measurement_type b))%string
    && (collation (location a) =? collation (location b))%string
    && (collation (week a) =? collation (week b))%string.
  (* the four columns are NVARCHAR(255) *)
Definition fits (r : row) : bool :=
    (String.length (measurement_type r) <=? 255)%nat
    && (String.length (location r) <=? 255)%nat
    && (String.length (week r) <=? 255)%nat
    && (String.length (value r) <=? 255)%nat.
End Parsed.

(** [norostat_raw_datatable_previous] and [norostat_raw_datatable_next] *)
Module State.
Record row : Type := mk {
    measurement_type_id : Z;
    location_id : Z;
    week_id : Z;
    value : string
  }.
Definition cell (s : row) : Z * Z * Z :=
    (measurement_type_id s, location_id s, week_id s).
  (* PRIMARY KEY (measurement_type_id, location_id, week_id) *)
Definition same_key (a b : row) : bool :=
    (measurement_type_id a =? measurement_type_id b)
    && (location_id a =? location_id b)
    && (week_id a =? week_id b).
End State.

(** [norostat_point_diffs] *)
Module Point.
Record row : Type := mk {
    release_date : Z;
    parse_time : Z;
    location_id : Z;
    epiweek : Z;
    new_value : option Z  (* the Python [int], or None *)
  }.
Definition version (d : row) : Version := (release_date d, parse_time d).
  (* PRIMARY KEY (release_date, parse_time, location_id, epiweek) *)
Definition same_key (a b : row) : bool :=
    veqb (version a) (version b)
    && (location_id a =? location_id b)
    && (epiweek a =? epiweek b).
End Point.

(** A string pool: [<var>_id INT PRIMARY KEY AUTO_INCREMENT],
    [<var> NVARCHAR(255) NOT NULL UNIQUE KEY]. *)
Record Pool : Type := mkPool {
  pool_rows : list (Z * string);
  auto_increment : Z
}.

(** ** The database and the connection *)

Record DB : Type := mkDB {
  norostat_raw_datatable_version_list : list Version;
  norostat_raw_datatable_measurement_type_pool : Pool;
  norostat_raw_datatable_location_pool : Pool;
  norostat_raw_datatable_week_pool : Pool;
  norostat_raw_datatable_diffs : list Diff.row;
  (* the point tables are created by the first [record_long_raw] *)
  norostat_point_version_list : option (list Version);
  norostat_point_diffs : option (list Point.row)
}.

(** The state left by [ensure_tables_exist] on a fresh server. *)
Definition empty_pool : Pool := mkPool [] 1.
Definition empty_db : DB :=
  mkDB [] empty_pool empty_pool empty_pool [] None None.

(** A connection: what is committed (and seen by everybody), what this
    session sees inside its transaction, and its temporary tables. *)
Record Cnx : Type := mkCnx {
  committed : DB;
  work : DB;
  norostat_raw_datatable_parsed : list Parsed.row;
  norostat_raw_datatable_previous : list State.row;
  norostat_raw_datatable_next : list State.row
}.

Definition connect (db : DB) : Cnx := mkCnx db db [] [] [].

Definition set_work (c : Cnx) (w : DB) : Cnx :=
  mkCnx (committed c) w (norostat_raw_datatable_parsed c)
        (norostat_raw_datatable_previous c) (norostat_raw_datatable_next c).
Definition set_parsed (c : Cnx) (t : list Parsed.row) : Cnx :=
  mkCnx (committed c) (work c) t
        (norostat_raw_datatable_previous c) (norostat_raw_datatable_next c).
Definition set_previous (c : Cnx) (t : list State.row) : Cnx :=
  mkCnx (committed c) (work c) (norostat_raw_datatable_parsed c)
        t (norostat_raw_datatable_next c).
Definition set_next (c : Cnx) (t : list State.row) : Cnx :=
  mkCnx (committed c) (work c) (norostat_raw_datatable_parsed c)
        (norostat_raw_datatable_previous c) t.
Definition do_commit (c : Cnx) : Cnx :=
  mkCnx (work c) (work c) (norostat_raw_datatable_parsed c)
        (norostat_raw_datatable_previous c) (norostat_raw_datatable_next c).

Definition set_version_list (db : DB) (l : list Version) : DB :=
  mkDB l (norostat_raw_datatable_measurement_type_pool db)
       (norostat_raw_datatable_location_pool db)
       (norostat_raw_datatable_week_pool db)
       (norostat_raw_datatable_diffs db)
       (norostat_point_version_list db) (norostat_point_diffs db).
Definition set_measurement_type_pool (db : DB) (p : Pool) : DB :=
  mkDB (norostat_raw_datatable_version_list db) p
       (norostat_raw_datatable_location_pool db)
       (norostat_raw_datatable_week_pool db)
       (norostat_raw_datatable_diffs db)
       (norostat_point_version_list db) (norostat_point_diffs db).
Definition set_location_pool (db : DB) (p : Pool) : DB :=
  mkDB (norostat_raw_datatable_version_list db)
       (norostat_raw_datatable_measurement_type_pool db) p
       (norostat_raw_datatable_week_pool db)
       (norostat_raw_datatable_diffs db)
       (norostat_point_version_list db) (norostat_point_diffs db).
Definition set_week_pool (db : DB) (p : Pool) : DB :=
  mkDB (norostat_raw_datatable_version_list db)
       (norostat_raw_datatable_measurement_type_pool db)
       (norostat_raw_datatable_location_pool db) p
       (norostat_raw_datatable_diffs db)
       (norostat_point_version_list db) (norostat_point_diffs db).
Definition set_diffs (db : DB) (l : list Diff.row) : DB :=
  mkDB (norostat_raw_datatable_version_list db)
       (norostat_raw_datatable_measurement_type_pool db)
       (norostat_raw_datatable_location_pool db)
       (norostat_raw_datatable_week_pool db) l
       (norostat_point_version_list db) (norostat_point_diffs db).
Definition set_point_version_list (db : DB) (l : option (list Version)) : DB :=
  mkDB (norostat_raw_datatable_version_list db)
       (norostat_raw_datatable_measurement_type_pool db)
       (norostat_raw_datatable_location_pool db)
       (norostat_raw_datatable_week_pool db)
       (norostat_raw_datatable_diffs db) l (norostat_point_diffs db).
Definition set_point_diffs (db : DB) (l : option (list Point.row)) : DB :=
  mkDB (norostat_raw_datatable_version_list db)
       (norostat_raw_datatable_measurement_type_pool db)
       (norostat_raw_datatable_location_pool db)
       (norostat_raw_datatable_week_pool db)
       (norostat_raw_datatable_diffs db) (norostat_point_version_list db) l.

(** ** The monad of a Python function holding a connection

    The state survives an exception: [finally: cnx.close()] then keeps what
    was committed and drops the rest. *)

Definition M (A : Type) : Type := Cnx -> result A * Cnx.

Definition ret {A} (a : A) : M A := fun c => (inr a, c).
Definition raise {A} (e : exn) : M A := fun c => (inl e, c).
Definition bind {A B} (m : M A) (k : A -> M B) : M B :=
  fun c => match m c with
           | (inr a, c') => k a c'
           | (inl e, c') => (inl e, c')
           end.
Definition get : M Cnx := fun c => (inr c, c).
Definition put (c : Cnx) : M unit := fun _ => (inr tt, c).
Definition lift {A} (r : result A) : M A := fun c => (r, c).

Notation "x <- m ;; k" := (bind m (fun x => k))
  (at level 61, m at next level, right associativity).
Notation "m ;;; k" := (bind m (fun _ => k))
  (at level 61, right associativity).

(** [try: m except IntegrityError as e: h e] *)
Definition try_except_IntegrityError {A} (m : M A) (h : exn -> M A) : M A :=
  fun c => match m c with
           | (inl IntegrityError, c') => h IntegrityError c'
           | r => r
           end.

(** Which statements fail for reasons of their own, by source line. *)
Definition Faults : Type := nat -> bool.
Definition no_faults : Faults := fun _ => false.

(** [cursor.execute] (and [executemany], [commit]) called at [line]. *)
Definition execute {A} (f : Faults) (line : nat) (stmt : M A) : M A :=
  fun c => if f line then (inl (OperationalError line), c) else stmt c.

(** ** SQL building blocks *)

(** Three-valued logic: [None] is SQL's NULL/UNKNOWN. *)
Definition and3 (a b : option bool) : option bool :=
  match a, b with
  | Some false, _ | _, Some false => Some false
  | Some true, Some true => Some true
  | _, _ => None
  end.
Definition or3 (a b : option bool) : option bool :=
  match a, b with
  | Some true, _ | _, Some true => Some true
  | Some false, Some false => Some false
  | _, _ => None
  end.
Definition not3 (a : option bool) : option bool := option_map negb a.
Definition eq3 (a b : option Z) : option bool :=
  match a, b with
  | Some x, Some y => Some (x =? y)
  | _, _ => None
  end.
(** [x IN (subquery)] and [x NOT IN (subquery)] *)
Definition in3 {A B} (eq : A -> B -> option bool) (x : A) (sub : list B)
  : option bool :=
  fold_right (fun y acc => or3 (eq x y) acc) (Some false) sub.
Definition not_in3 {A B} (eq : A -> B -> option bool) (x : A) (sub : list B)
  : option bool :=
  not3 (in3 eq x sub).
(** [WHERE] keeps the rows on which the condition is TRUE. *)
Definition is_true (a : option bool) : bool :=
  match a with Some true => true | _ => false end.

(** [l LEFT JOIN r ON on] *)
Definition left_join {A B} (on : A -> B -> bool) (l : list A) (r : list B)
  : list (A * option B) :=
  flat_map (fun a => match filter (on a) r with
                     | [] => [(a, None)]
                     | bs => map (fun b => (a, Some b)) bs
                     end) l.

(** [INSERT] of [rows], one after the other, into a table with a primary
    (or unique) key. *)
Fixpoint insert_rows {R} (same_key : R -> R -> bool)
         (table rows : list R) : result (list R) :=
  match rows with
  | [] => inr table
  | r :: rows' =>
      if existsb (same_key r) table then inl IntegrityError
      else insert_rows same_key (table ++ [r]) rows'
  end.

(** [ORDER BY release_date, parse_time] *)
Fixpoint insert_sorted (v : Version) (l : list Version) : list Version :=
  match l with
  | [] => [v]
  | w :: l' => if vleb v w then v :: l else w :: insert_sorted v l'
  end.
Definition order_by_version (l : list Version) : list Version :=
  fold_right insert_sorted [] l.

(** The latest value of every cell at or before version [v] (lines
    172-194 and 220-242): a diff [latest] at or before [v] is kept when the
    LEFT JOIN finds no [later] diff of the same cell at or before [v], and
    when it is not a removal. *)
Definition later_on (latest later : Diff.row) : bool :=
  (Diff.measurement_type_id latest =? Diff.measurement_type_id later)
  && (Diff.location_id latest =? Diff.location_id later)
  && (Diff.week_id latest =? Diff.week_id later)
  && vltb (Diff.version latest) (Diff.version later).

Definition latest_rows (diffs : list Diff.row) (v : Version)
  : list (Diff.row * option Diff.row) :=
  filter (fun j => vleb (Diff.version (fst j)) v
                   && match snd j with None => true | Some _ => false end
                   && match Diff.new_value (fst j) with
                      | Some _ => true | None => false end)
         (left_join later_on diffs
                    (filter (fun d => vleb (Diff.version d) v) diffs)).

Definition select_latest (diffs : list Diff.row) (v : Version)
  : list State.row :=
  flat_map (fun j => match Diff.new_value (fst j) with
                     | Some x => [State.mk (Diff.measurement_type_id (fst j))
                                           (Diff.location_id (fst j))
                                           (Diff.week_id (fst j)) x]
                     | None => []
                     end)
           (latest_rows diffs v).

(** The parsed rows joined with the three pools:
    [parsed LEFT JOIN mt_pool USING (measurement_type)
            LEFT JOIN location_pool USING (location)
            LEFT JOIN week_pool USING (week)]. *)
Module Joined.
Record row : Type := mk {
    parsed : Parsed.row;
    measurement_type_id : option Z;
    location_id : option Z;
    week_id : option Z
  }.
End Joined.

(** A row fetched by the [SELECT] of line 381. *)
Module Selection.
Record row : Type := mk {
    release_date : Z;
    parse_time : Z;
    measurement_type : option string;
    location_id : Z;
    week : option string;
    new_value : option string
  }.
End Selection.

(** The tables of the schema, each of which may be missing: what
    [ensure_tables_exist] and [dangerously_drop_all_norostat_tables] act
    on. *)
Module Server.
Record tables : Type := mk {
    norostat_raw_datatable_version_list : option (list Version);
    norostat_raw_datatable_measurement_type_pool : option Pool;
    norostat_raw_datatable_location_pool : option Pool;
    norostat_raw_datatable_week_pool : option Pool;
    norostat_raw_datatable_diffs : option (list Diff.row);
    norostat_point_version_list : option (list Version);
    norostat_point_diffs : option (list Point.row)
  }.
End Server.

(** ** The collation of the string columns

    MySQL's default collation of the national character set
    ([utf8_general_ci]) on ASCII text: letters compare without case and
    trailing spaces are not significant ([PAD SPACE]). The key of a string
    is the string in upper case, its trailing spaces dropped. *)
Definition upper (a : ascii) : ascii :=
  let n := nat_of_ascii a in
  if ((97 <=? n) && (n <=? 122))%nat then ascii_of_nat (n - 32) else a.

Fixpoint rstrip_spaces (s : string) : string :=
  match s with
  | EmptyString => EmptyString
  | String a s' =>
      match rstrip_spaces s' with
      | EmptyString => if (a =? " ")%char then EmptyString
                       else String a EmptyString
      | r => String a r
      end
  end.

Fixpoint upper_case (s : string) : string :=
  match s with
  | EmptyString => EmptyString
  | String a s' => String (upper a) (upper_case s')
  end.

Definition general_ci (s : string) : string := upper_case (rstrip_spaces s).

Section Collation.

(** The collation of the [NVARCHAR] columns, as a key function. *)
Variable collation : string -> string.

(** [a = b] on two values of a string column. *)
Definition string_eq (a b : string) : bool :=
  (collation a =? collation b)%string.

Definition using_column (text : Parsed.row -> string) (a : Parsed.row)
           (b : Z * string) : bool :=
  string_eq (text a) (snd b).

Definition join_pools (db : DB) (parsed : list Parsed.row)
  : list Joined.row :=
  map (fun j => match j with
                | (((p, m), l), w) =>
                    Joined.mk p (option_map fst m) (option_map fst l)
                              (option_map fst w)
                end)
      (left_join (fun j => using_column Parsed.week (fst (fst j)))
         (left_join (fun j => using_column Parsed.location (fst j))
            (left_join (using_column Parsed.measurement_type) parsed
               (pool_rows (norostat_raw_datatable_measurement_type_pool db)))
            (pool_rows (norostat_raw_datatable_location_pool db)))
         (pool_rows (norostat_raw_datatable_week_pool db))).

(** Row comparisons of the four [NOT IN] conditions. *)
Definition joined_eq_state_value (j : Joined.row) (s : State.row)
  : option bool :=
  and3 (and3 (and3 (eq3 (Joined.measurement_type_id j)
                        (Some (State.measurement_type_id s)))
                   (eq3 (Joined.location_id j) (Some (State.location_id s))))
             (eq3 (Joined.week_id j) (Some (State.week_id s))))
       (Some (string_eq (Parsed.value (Joined.parsed j)) (State.value s))).
Definition joined_eq_state (j : Joined.row) (s : State.row) : option bool :=
  and3 (and3 (eq3 (Joined.measurement_type_id j)
                  (Some (State.measurement_type_id s)))
             (eq3 (Joined.location_id j) (Some (State.location_id s))))
       (eq3 (Joined.week_id j) (Some (State.week_id s))).

(** A row of [norostat_raw_datatable_diffs] to insert; the id columns are
    NOT NULL. *)
Definition diff_of_joined (v : Version) (new_value : option string)
           (j : Joined.row) : result Diff.row :=
  match Joined.measurement_type_id j, Joined.location_id j,
        Joined.week_id j with
  | Some m, Some l, Some w => inr (Diff.mk (fst v) (snd v) m l w new_value)
  | _, _, _ => inl IntegrityError
  end.
Definition diff_of_state (v : Version) (new_value : option string)
           (s : State.row) : Diff.row :=
  Diff.mk (fst v) (snd v) (State.measurement_type_id s)
          (State.location_id s) (State.week_id s) new_value.

Fixpoint sequence {A} (l : list (result A)) : result (list A) :=
  match l with
  | [] => inr []
  | inl e :: _ => inl e
  | inr a :: l' => match sequence l' with
                   | inl e => inl e
                   | inr l'' => inr (a :: l'')
                   end
  end.

(** The foreign keys of [norostat_raw_datatable_diffs]. *)
Definition pool_has_id (p : Pool) (i : Z) : bool :=
  existsb (fun r => fst r =? i) (pool_rows p).
Definition diff_references (db : DB) (d : Diff.row) : bool :=
  existsb (veqb (Diff.version d)) (norostat_raw_datatable_version_list db)
  && pool_has_id (norostat_raw_datatable_measurement_type_pool db)
                 (Diff.measurement_type_id d)
  && pool_has_id (norostat_raw_datatable_location_pool db)
                 (Diff.location_id d)
  && pool_has_id (norostat_raw_datatable_week_pool db) (Diff.week_id d).

(** [INSERT INTO norostat_raw_datatable_diffs ... SELECT ...] *)
Definition insert_diffs (db : DB) (rows : list Diff.row) : result DB :=
  if forallb (diff_references db) rows then
    match insert_rows Diff.same_key (norostat_raw_datatable_diffs db) rows with
    | inr t => inr (set_diffs db t)
    | inl e => inl e
    end
  else inl IntegrityError.

(** [INSERT INTO <var>_pool (<var>) SELECT DISTINCT <var> FROM parsed
    WHERE <var> NOT IN (SELECT <var> FROM <var>_pool)] *)
Definition pool_texts (p : Pool) : list string := map snd (pool_rows p).
Definition mem_string (s : string) (l : list string) : bool :=
  existsb (string_eq s) l.

(** The largest value of an [INT] column. *)
Definition int_max : Z := 2147483647.

(** The rows go in one after the other: each takes the next value of the
    counter, if there is one left, and has to pass the unique key. *)
Fixpoint pool_insert (p : Pool) (texts : list string) : result Pool :=
  match texts with
  | [] => inr p
  | t :: texts' =>
      if int_max <? auto_increment p then inl DatabaseError
      else if mem_string t (pool_texts p) then inl IntegrityError
      else pool_insert (mkPool (pool_rows p ++ [(auto_increment p, t)])
                               (auto_increment p + 1)) texts'
  end.

(** [SELECT DISTINCT]: the rows in the order of the scan, a row being
    dropped when an equal one came before. *)
Fixpoint select_distinct (texts : list string) : list string :=
  match texts with
  | [] => []
  | t :: texts' =>
      t :: filter (fun u => negb (string_eq u t)) (select_distinct texts')
  end.

Definition select_distinct_not_in (texts : list string) (p : Pool)
  : list string :=
  select_distinct
    (filter (fun t => negb (mem_string t (pool_texts p))) texts).

(** ** [record_long_raw] *)

(** The argument [long_raw]: the melted data frame (its columns [week],
    [measurement_type], [value] after [astype(str)]), the version and the
    location string. *)
Record LongRaw : Type := mkLongRaw {
  long_raw_df : list (string * string * string);
  release_date : Z;
  parse_time : Z;
  location : string
}.

Definition version_of (long_raw : LongRaw) : Version :=
  (release_date long_raw, parse_time long_raw).

(** Lines 156-158: the parameters of the [executemany]. *)
Definition parsed_params (long_raw : LongRaw) : list Parsed.row :=
  map (fun r => match r with
                | (week, measurement_type, value) =>
                    Parsed.mk measurement_type (location long_raw) week value
                end)
      (long_raw_df long_raw).

Fixpoint executemany {A} (stmt : A -> M unit) (params : list A) : M unit :=
  match params with
  | [] => ret tt
  | p :: params' => stmt p ;;; executemany stmt params'
  end.

(** Line 144 *)
Definition create_parsed : M unit :=
  fun c => (inr tt, set_parsed c []).

(** Line 153, one row *)
Definition insert_parsed (r : Parsed.row) : M unit :=
  fun c =>
    if Parsed.fits r then
      match insert_rows (Parsed.same_key collation)
              (norostat_raw_datatable_parsed c) [r]
      with
      | inr t => (inr tt, set_parsed c t)
      | inl e => (inl e, c)
      end
    else (inl DataError, c).

(** Line 160 *)
Definition create_previous : M unit :=
  fun c => (inr tt, set_previous c []).

(** Line 172 *)
Definition insert_previous (v : Version) : M unit :=
  fun c =>
    match insert_rows State.same_key (norostat_raw_datatable_previous c)
            (select_latest (norostat_raw_datatable_diffs (work c)) v) with
    | inr t => (inr tt, set_previous c t)
    | inl e => (inl e, c)
    end.

(** Line 197 *)
Definition select_next_version (v : Version) : M (list Version) :=
  fun c =>
    (inr (firstn 1 (order_by_version
                      (filter (vltb v)
                         (norostat_raw_datatable_version_list (work c))))), c).

(** Line 205. [expect_result_in] comes from [norostat_utils], which is not
    part of the sources at hand; by its call it raises unless the length of
    the result is one of [(0,1)]. *)
Definition expect_result_in (next_version_if_any : list Version) : M unit :=
  if (List.length next_version_if_any <=? 1)%nat then ret tt else raise UtilsError.

(** Line 208 *)
Definition create_next : M unit :=
  fun c => (inr tt, set_next c []).

(** Line 220 *)
Definition insert_next (n : Version) : M unit :=
  fun c =>
    match insert_rows State.same_key (norostat_raw_datatable_next c)
            (select_latest (norostat_raw_datatable_diffs (work c)) n) with
    | inr t => (inr tt, set_next c t)
    | inl e => (inl e, c)
    end.

(** Line 245 *)
Definition insert_version (v : Version) : M unit :=
  fun c =>
    match insert_rows veqb (norostat_raw_datatable_version_list (work c)) [v]
    with
    | inr t => (inr tt, set_work c (set_version_list (work c) t))
    | inl e => (inl e, c)
    end.

(** Lines 253, 262, 271 *)
Definition insert_pool (pool : DB -> Pool) (set : DB -> Pool -> DB)
           (text : Parsed.row -> string) : M unit :=
  fun c =>
    match pool_insert (pool (work c))
            (select_distinct_not_in
               (map text (norostat_raw_datatable_parsed c)) (pool (work c)))
    with
    | inr p => (inr tt, set_work c (set (work c) p))
    | inl e => (inl e, c)
    end.
Definition insert_measurement_type_pool : M unit :=
  insert_pool norostat_raw_datatable_measurement_type_pool
              set_measurement_type_pool Parsed.measurement_type.
Definition insert_location_pool : M unit :=
  insert_pool norostat_raw_datatable_location_pool
              set_location_pool Parsed.location.
Definition insert_week_pool : M unit :=
  insert_pool norostat_raw_datatable_week_pool
              set_week_pool Parsed.week.

(** An [INSERT INTO norostat_raw_datatable_diffs] of selected rows. *)
Definition insert_selected (rows : Cnx -> result (list Diff.row)) : M unit :=
  fun c =>
    match rows c with
    | inr l => match insert_diffs (work c) l with
               | inr w => (inr tt, set_work c w)
               | inl e => (inl e, c)
               end
    | inl e => (inl e, c)
    end.

(** The parsed table joined with the pools, as the statements below see
    it. *)
Definition joined_parsed (c : Cnx) : list Joined.row :=
  join_pools (work c) (norostat_raw_datatable_parsed c).

(** Line 282: the cells of the parsed table that are new or changed. *)
Definition forward_values (v : Version) (joined : list Joined.row)
           (previous : list State.row) : result (list Diff.row) :=
  sequence
    (map (fun j => diff_of_joined v (Some (Parsed.value (Joined.parsed j))) j)
       (filter (fun j => is_true (not_in3 joined_eq_state_value j previous))
          joined)).

(** Line 297: the cells of the previous version that are gone. *)
Definition forward_removals (v : Version) (joined : list Joined.row)
           (previous : list State.row) : result (list Diff.row) :=
  inr (map (diff_of_state v None)
         (filter (fun s => is_true
                    (not_in3 (fun s j => joined_eq_state j s) s joined))
            previous)).

(** Line 316 *)
Definition delete_diffs_at (n : Version) : M unit :=
  fun c =>
    (inr tt,
     set_work c
       (set_diffs (work c)
          (filter (fun d => negb ((Diff.release_date d =? fst n)
                                  && (Diff.parse_time d =? snd n)))
             (norostat_raw_datatable_diffs (work c))))).

(** Line 320: the cells of the next version that differ from the parsed
    table. *)
Definition repair_values (n : Version) (joined : list Joined.row)
           (next : list State.row) : result (list Diff.row) :=
  inr (map (fun s => diff_of_state n (Some (State.value s)) s)
         (filter (fun s => is_true
                    (not_in3 (fun s j => joined_eq_state_value j s) s joined))
            next)).

(** Line 336: the cells of the parsed table that the next version lacks. *)
Definition repair_removals (n : Version) (joined : list Joined.row)
           (next : list State.row) : result (list Diff.row) :=
  sequence
    (map (diff_of_joined n None)
       (filter (fun j => is_true (not_in3 joined_eq_state j next)) joined)).

(** Lines 350 and 358: [CREATE TABLE IF NOT EXISTS] of a permanent table
    ends the transaction (implicit commit) and takes effect at once. *)
Definition create_table_if_not_exists (create : DB -> DB) : M unit :=
  fun c => (inr tt, do_commit (set_work c (create (work c)))).
Definition create_point_version_list (db : DB) : DB :=
  match norostat_point_version_list db with
  | None => set_point_version_list db (Some [])
  | Some _ => db
  end.
Definition create_point_diffs (db : DB) : DB :=
  match norostat_point_diffs db with
  | None => set_point_diffs db (Some [])
  | Some _ => db
  end.

(** [cnx.commit()] *)
Definition commit : M unit := fun c => (inr tt, do_commit c).

(** Lines 142-242: the temporary tables and the next version, if any. *)
Definition record_long_raw_read (f : Faults) (long_raw : LongRaw)
  : M (list Version) :=
  let v := version_of long_raw in
  execute f 142 (ret tt) ;;;
  execute f 144 create_parsed ;;;
  execute f 153 (executemany insert_parsed (parsed_params long_raw)) ;;;
  execute f 160 create_previous ;;;
  execute f 172 (insert_previous v) ;;;
  next_version_if_any <- execute f 197 (select_next_version v) ;;
  expect_result_in next_version_if_any ;;;
  match next_version_if_any with
  | [] => ret tt
  | n :: _ =>
      execute f 208 create_next ;;;
      execute f 220 (insert_next n)
  end ;;;
  ret next_version_if_any.

(** Lines 251-349: the pools and the diffs. *)
Definition record_long_raw_diffs (f : Faults) (long_raw : LongRaw)
           (next_version_if_any : list Version) : M unit :=
  let v := version_of long_raw in
  execute f 253 insert_measurement_type_pool ;;;
  execute f 262 insert_location_pool ;;;
  execute f 271 insert_week_pool ;;;
  execute f 282
    (insert_selected
       (fun c => forward_values v (joined_parsed c)
                                (norostat_raw_datatable_previous c))) ;;;
  execute f 297
    (insert_selected
       (fun c => forward_removals v (joined_parsed c)
                                  (norostat_raw_datatable_previous c))) ;;;
  match next_version_if_any with
  | [] => ret tt
  | n :: _ =>
      execute f 316 (delete_diffs_at n) ;;;
      execute f 320
        (insert_selected
           (fun c => repair_values n (joined_parsed c)
                                   (norostat_raw_datatable_next c))) ;;;
      execute f 336
        (insert_selected
           (fun c => repair_removals n (joined_parsed c)
                                     (norostat_raw_datatable_next c)))
  end.

(** Lines 243-349: the version, then the pools and the diffs. *)
Definition record_long_raw_write (f : Faults) (long_raw : LongRaw)
           (next_version_if_any : list Version) : M unit :=
  try_except_IntegrityError
    (execute f 245 (insert_version (version_of long_raw)))
    (fun e => raise (Exception e)) ;;;
  record_long_raw_diffs f long_raw next_version_if_any.

(** Lines 142-349: the statements of the transaction. *)
Definition record_long_raw_transaction (f : Faults) (long_raw : LongRaw)
  : M unit :=
  next_version_if_any <- record_long_raw_read f long_raw ;;
  record_long_raw_write f long_raw next_version_if_any.

(** Lines 350-371: the point tables and the commit. *)
Definition record_long_raw_body (f : Faults) (long_raw : LongRaw) : M unit :=
  record_long_raw_transaction f long_raw ;;;
  execute f 350 (create_table_if_not_exists create_point_version_list) ;;;
  execute f 358 (create_table_if_not_exists create_point_diffs) ;;;
  execute f 371 commit.

(** [try: ... finally: cnx.close()]: whatever happened, what the call
    leaves behind is what was committed. *)
Definition record_long_raw (f : Faults) (long_raw : LongRaw) (db : DB)
  : result unit * DB :=
  let (r, c) := record_long_raw_body f long_raw (connect db) in
  (r, committed c).

(** The reconstruction of the table as of a version, with the interned ids
    resolved: the query of lines 172-194 joined with the three pools. *)
Definition resolve (p : Pool) (i : Z) : list string :=
  map snd (filter (fun r => fst r =? i) (pool_rows p)).
Definition reconstruct (db : DB) (as_of : Version)
  : list (string * string * string * string) :=
  flat_map (fun s =>
    flat_map (fun m =>
      flat_map (fun l =>
        map (fun w => (m, l, w, State.value s))
            (resolve (norostat_raw_datatable_week_pool db)
                     (State.week_id s)))
        (resolve (norostat_raw_datatable_location_pool db)
                 (State.location_id s)))
      (resolve (norostat_raw_datatable_measurement_type_pool db)
               (State.measurement_type_id s)))
    (select_latest (norostat_raw_datatable_diffs db) as_of).

(** ** [update_point] *)

(** [re.compile(r"[0-9]+-[0-9]+$")]: [match] anchors at the start, [+] is
    greedy (a digit is never a dash, so no backtracking can help), and [$]
    matches at the end of the string or before a final newline. *)
Definition is_digit (a : ascii) : bool :=
  ((48 <=? nat_of_ascii a) && (nat_of_ascii a <=? 57))%nat.

Fixpoint span_digits (s : string) : string * string :=
  match s with
  | String a s' =>
      if is_digit a then
        let (d, r) := span_digits s' in (String a d, r)
      else (EmptyString, s)
  | EmptyString => (EmptyString, EmptyString)
  end.

Definition newline : string := String (ascii_of_nat 10) EmptyString.

Definition prog_match (s : string) : bool :=
  let (d1, r1) := span_digits s in
  negb (d1 =? "")%string
  && match r1 with
     | String "-"%char r2 =>
         let (d2, r3) := span_digits r2 in
         negb (d2 =? "")%string && ((r3 =? "")%string || (r3 =? newline)%string)
     | _ => false
     end.

(** Python's [int(s)] on a [str], base 10, for ASCII text: optional
    surrounding whitespace (tab, line feed, vertical tab, form feed,
    carriage return and space), an optional sign, then digits with single
    underscores allowed between them. [None] stands for [ValueError]. On
    text that is not ASCII the built-in also takes other white space and
    other decimal digits: the properties that depend on the conversion
    are stated for ASCII values. *)
Definition is_space (a : ascii) : bool :=
  let n := nat_of_ascii a in
  (((9 <=? n) && (n <=? 13)) || (n =? 32))%nat.

Fixpoint all_space (s : string) : bool :=
  match s with
  | EmptyString => true
  | String a s' => is_space a && all_space s'
  end.

Definition digit_value (a : ascii) : Z := Z.of_nat (nat_of_ascii a) - 48.

Fixpoint int_digits (acc : Z) (s : string) : option Z :=
  match s with
  | EmptyString => Some acc
  | String a s' =>
      if is_digit a then int_digits (acc * 10 + digit_value a) s'
      else if (a =? "_")%char then
        match s' with
        | String b s'' =>
            if is_digit b then int_digits (acc * 10 + digit_value b) s''
            else None
        | EmptyString => None
        end
      else if all_space s then Some acc
      else None
  end.

Definition int_unsigned (s : string) : option Z :=
  match s with
  | String a s' => if is_digit a then int_digits (digit_value a) s' else None
  | EmptyString => None
  end.

Fixpoint lstrip (s : string) : string :=
  match s with
  | String a s' => if is_space a then lstrip s' else s
  | EmptyString => EmptyString
  end.

Definition int (s : string) : option Z :=
  match lstrip s with
  | String "-"%char s' => option_map Z.opp (int_unsigned s')
  | String "+"%char s' => int_unsigned s'
  | s' => int_unsigned s'
  end.

Definition version_eq_dec (a b : Version) : {a = b} + {a <> b}.
Proof. decide equality; apply Z.eq_dec. Defined.

(** Line 381 *)
Definition select_raw_datatable_diffs (db : DB) (projected : list Version)
  : list Selection.row :=
  map (fun j => match j with
                | ((d, m), w) =>
                    Selection.mk (Diff.release_date d) (Diff.parse_time d)
                                 (option_map snd m) (Diff.location_id d)
                                 (option_map snd w) (Diff.new_value d)
                end)
      (filter (fun j => negb (existsb (veqb (Diff.version (fst (fst j))))
                                      projected))
         (left_join (fun j (b : Z * string) =>
                       Diff.week_id (fst j) =? fst b)
            (left_join (fun d (b : Z * string) =>
                          Diff.measurement_type_id d =? fst b)
               (norostat_raw_datatable_diffs db)
               (pool_rows (norostat_raw_datatable_measurement_type_pool db)))
            (pool_rows (norostat_raw_datatable_week_pool db)))).

Definition select_raw_diffs : M (list Selection.row) :=
  fun c =>
    match norostat_point_version_list (work c) with
    | Some projected =>
        (inr (select_raw_datatable_diffs (work c) projected), c)
    | None => (inl ProgrammingError, c)
    end.

(** Line 404 *)
Definition insert_point_versions : M unit :=
  fun c =>
    match norostat_point_version_list (work c) with
    | Some projected =>
        match insert_rows veqb projected
                (nodup version_eq_dec
                   (filter (fun v => negb (existsb (veqb v) projected))
                      (norostat_raw_datatable_version_list (work c)))) with
        | inr t => (inr tt, set_work c (set_point_version_list (work c)
                                                               (Some t)))
        | inl e => (inl e, c)
        end
    | None => (inl ProgrammingError, c)
    end.

(** Line 414, one row. [epiweek] is an [INT] column. *)
Definition point_references (db : DB) (projected : list Version)
           (r : Point.row) : bool :=
  existsb (veqb (Point.version r)) projected
  && pool_has_id (norostat_raw_datatable_location_pool db)
                 (Point.location_id r).
Definition insert_point_diff (r : Point.row) : M unit :=
  fun c =>
    match norostat_point_diffs (work c),
          norostat_point_version_list (work c) with
    | Some t, Some projected =>
        if (Point.epiweek r <? - 2147483648) || (2147483647 <? Point.epiweek r)
        then (inl DataError, c)
        else if point_references (work c) projected r then
          match insert_rows Point.same_key t [r] with
          | inr t' => (inr tt, set_work c (set_point_diffs (work c) (Some t')))
          | inl e => (inl e, c)
          end
        else (inl IntegrityError, c)
    | _, _ => (inl ProgrammingError, c)
    end.

Section UpdatePoint.

  (** [season_db_to_epiweek] comes from [norostat_utils], which is not part
      of the sources at hand: it is a parameter, returning the epiweek or
      raising. *)
Variable season_db_to_epiweek : string -> option string -> result Z.

  (** Lines 394-403: the list comprehension, row by row; the condition is
      evaluated first, then the tuple from left to right. *)
Definition selected (r : Selection.row) : result bool :=
    match Selection.measurement_type r with
    | None => inl TypeError
    | Some measurement_type =>
        inr (prog_match measurement_type
             && match Selection.new_value r with
                | Some new_value_str => negb (new_value_str =? "")%string
                | None => true
                end)
    end.

Definition point_diff (r : Selection.row) : result Point.row :=
    match Selection.measurement_type r with
    | None => inl TypeError
    | Some measurement_type =>
        match season_db_to_epiweek measurement_type (Selection.week r) with
        | inl e => inl e
        | inr epiweek =>
            match Selection.new_value r with
            | None =>
                inr (Point.mk (Selection.release_date r)
                              (Selection.parse_time r)
                              (Selection.location_id r) epiweek None)
            | Some new_value_str =>
                match int new_value_str with
                | Some i =>
                    inr (Point.mk (Selection.release_date r)
                                  (Selection.parse_time r)
                                  (Selection.location_id r) epiweek (Some i))
                | None => inl ValueError
                end
            end
        end
    end.

Fixpoint point_diff_insertion (raw_datatable_diff_selection
                                   : list Selection.row)
    : result (list Point.row) :=
    match raw_datatable_diff_selection with
    | [] => inr []
    | r :: rest =>
        match selected r with
        | inl e => inl e
        | inr false => point_diff_insertion rest
        | inr true =>
            match point_diff r with
            | inl e => inl e
            | inr p => match point_diff_insertion rest with
                       | inl e => inl e
                       | inr ps => inr (p :: ps)
                       end
            end
        end
    end.

Definition update_point_body (f : Faults) : M unit :=
    execute f 380 (ret tt) ;;;
    raw_datatable_diff_selection <- execute f 381 select_raw_diffs ;;
    point_diff_insertion <-
      lift (point_diff_insertion raw_datatable_diff_selection) ;;
    execute f 404 insert_point_versions ;;;
    execute f 414 (executemany insert_point_diff point_diff_insertion) ;;;
    execute f 418 commit.

Definition update_point (f : Faults) (db : DB) : result unit * DB :=
    let (r, c) := update_point_body f (connect db) in
    (r, committed c).

End UpdatePoint.

(** ** [ensure_tables_exist] and [dangerously_drop_all_norostat_tables]

    The two functions act on the schema itself: here each of the seven
    tables may be missing. Their statements are DDL: each one takes
    effect (and commits) on its own, and one that fails has no effect. *)

(** The database that [record_long_raw] and [update_point] work on, once
    the five raw tables exist. *)
Definition database (t : Server.tables) : option DB :=
  match Server.norostat_raw_datatable_version_list t,
        Server.norostat_raw_datatable_measurement_type_pool t,
        Server.norostat_raw_datatable_location_pool t,
        Server.norostat_raw_datatable_week_pool t,
        Server.norostat_raw_datatable_diffs t with
  | Some l, Some m, Some p, Some w, Some d =>
      Some (mkDB l m p w d (Server.norostat_point_version_list t)
                 (Server.norostat_point_diffs t))
  | _, _, _, _, _ => None
  end.

(** [CREATE TABLE IF NOT EXISTS]: an existing table is left alone. *)
Definition if_not_exists {A} (table : option A) (empty : A) : option A :=
  match table with
  | Some rows => Some rows
  | None => Some empty
  end.

(** Line 69 *)
Definition create_version_list (t : Server.tables) : result Server.tables :=
  inr (Server.mk
         (if_not_exists (Server.norostat_raw_datatable_version_list t) [])
         (Server.norostat_raw_datatable_measurement_type_pool t)
         (Server.norostat_raw_datatable_location_pool t)
         (Server.norostat_raw_datatable_week_pool t)
         (Server.norostat_raw_datatable_diffs t)
         (Server.norostat_point_version_list t)
         (Server.norostat_point_diffs t)).
(** Line 76 *)
Definition create_measurement_type_pool (t : Server.tables)
  : result Server.tables :=
  inr (Server.mk
         (Server.norostat_raw_datatable_version_list t)
         (if_not_exists (Server.norostat_raw_datatable_measurement_type_pool t)
                        empty_pool)
         (Server.norostat_raw_datatable_location_pool t)
         (Server.norostat_raw_datatable_week_pool t)
         (Server.norostat_raw_datatable_diffs t)
         (Server.norostat_point_version_list t)
         (Server.norostat_point_diffs t)).
(** Line 82 *)
Definition create_location_pool (t : Server.tables) : result Server.tables :=
  inr (Server.mk
         (Server.norostat_raw_datatable_version_list t)
         (Server.norostat_raw_datatable_measurement_type_pool t)
         (if_not_exists (Server.norostat_raw_datatable_location_pool t)
                        empty_pool)
         (Server.norostat_raw_datatable_week_pool t)
         (Server.norostat_raw_datatable_diffs t)
         (Server.norostat_point_version_list t)
         (Server.norostat_point_diffs t)).
(** Line 88 *)
Definition create_week_pool (t : Server.tables) : result Server.tables :=
  inr (Server.mk
         (Server.norostat_raw_datatable_version_list t)
         (Server.norostat_raw_datatable_measurement_type_pool t)
         (Server.norostat_raw_datatable_location_pool t)
         (if_not_exists (Server.norostat_raw_datatable_week_pool t)
                        empty_pool)
         (Server.norostat_raw_datatable_diffs t)
         (Server.norostat_point_version_list t)
         (Server.norostat_point_diffs t)).
(** Line 94: the new table has foreign keys to the four tables above,
    which have to exist. *)
Definition create_diffs (t : Server.tables) : result Server.tables :=
  match Server.norostat_raw_datatable_diffs t with
  | Some _ => inr t
  | None =>
      match Server.norostat_raw_datatable_version_list t,
            Server.norostat_raw_datatable_measurement_type_pool t,
            Server.norostat_raw_datatable_location_pool t,
            Server.norostat_raw_datatable_week_pool t with
      | Some _, Some _, Some _, Some _ =>
          inr (Server.mk
                 (Server.norostat_raw_datatable_version_list t)
                 (Server.norostat_raw_datatable_measurement_type_pool t)
                 (Server.norostat_raw_datatable_location_pool t)
                 (Server.norostat_raw_datatable_week_pool t)
                 (Some [])
                 (Server.norostat_point_version_list t)
                 (Server.norostat_point_diffs t))
      | _, _, _, _ => inl (OperationalError 94)
      end
  end.

(** Line 123: [DROP TABLE IF EXISTS] of the seven tables. *)
Definition drop_tables (t : Server.tables) : result Server.tables :=
  inr (Server.mk None None None None None None None).

(** The statements of a function, one after the other, up to the first
    that raises; [finally: cnx.close()] keeps what they did. *)
Fixpoint execute_all (f : Faults)
         (statements : list (nat * (Server.tables -> result Server.tables)))
         (t : Server.tables) : result unit * Server.tables :=
  match statements with
  | [] => (inr tt, t)
  | (line, statement) :: rest =>
      if f line then (inl (OperationalError line), t)
      else match statement t with
           | inr t' => execute_all f rest t'
           | inl e => (inl e, t)
           end
  end.

(** Lines 64-115; the [commit] of line 113 has nothing left to commit. *)
Definition ensure_tables_exist (f : Faults) (t : Server.tables)
  : result unit * Server.tables :=
  execute_all f [(69%nat, create_version_list);
                 (76%nat, create_measurement_type_pool);
                 (82%nat, create_location_pool);
                 (88%nat, create_week_pool);
                 (94%nat, create_diffs);
                 (113%nat, fun t => inr t)] t.

(** Lines 117-134 *)
Definition dangerously_drop_all_norostat_tables (f : Faults)
           (t : Server.tables) : result unit * Server.tables :=
  execute_all f [(123%nat, drop_tables); (132%nat, fun t => inr t)] t.

(** * The vocabulary of the properties *)

(** No two rows of [l] share a key. *)
Fixpoint distinct_keys {R : Type} (same_key : R -> R -> bool) (l : list R)
  : Prop :=
  match l with
  | [] => True
  | r :: l' =>
      (forall x, In x l' -> same_key x r = false) /\ distinct_keys same_key l'
  end.

(** The version just before [v] on the discrete timeline. *)
Definition vpred (v : Version) : Version := (fst v, snd v - 1).

(** A cell by its ids: [(measurement_type_id, location_id, week_id)]. *)
Definition Cell : Type := (Z * Z * Z)%type.

(** [d] is the diff of cell [c] with the greatest version at or before
    [w]. *)
Definition latest (D : list Diff.row) (w : Version) (c : Cell)
           (d : Diff.row) : Prop :=
  In d D /\ Diff.cell d = c /\ vle (Diff.version d) w /\
  forall d', In d' D -> Diff.cell d' = c -> vle (Diff.version d') w ->
             vle (Diff.version d') (Diff.version d).

(** Cell [c] has value [x] as of version [w]. *)
Definition holds (D : list Diff.row) (w : Version) (c : Cell) (x : string)
  : Prop :=
  exists d, latest D w c d /\ Diff.new_value d = Some x.

(** The primary key of the diff table, as a property of its rows. *)
Definition diff_key_unique (D : list Diff.row) : Prop :=
  forall d1 d2, In d1 D -> In d2 D ->
                Diff.version d1 = Diff.version d2 ->
                Diff.cell d1 = Diff.cell d2 -> d1 = d2.

(** Two strings that MySQL takes for equal. *)
Definition same_text (x y : string) : Prop := collation x = collation y.

(** Cell [c] has, as of version [w], a value equal to [x] for MySQL. *)
Definition holds_like (D : list Diff.row) (w : Version) (c : Cell)
           (x : string) : Prop :=
  exists y, holds D w c y /\ same_text y x.

(** The diff row of cell [c] at version [v]. *)
Definition diff_at (v : Version) (c : Cell) (nv : option string) : Diff.row :=
  Diff.mk (fst v) (snd v) (fst (fst c)) (snd (fst c)) (snd c) nv.

(** The rows written at lines 282 and 297. *)
Definition forward_diff (D : list Diff.row) (v : Version)
           (S : Cell -> string -> Prop) (d : Diff.row) : Prop :=
  Diff.version d = v /\
  match Diff.new_value d with
  | Some x => S (Diff.cell d) x /\ ~ holds_like D v (Diff.cell d) x
  | None => (exists x, holds D v (Diff.cell d) x)
            /\ forall x, ~ S (Diff.cell d) x
  end.

(** The rows written at lines 320 and 336. *)
Definition repair_diff (D : list Diff.row) (n : Version)
           (S : Cell -> string -> Prop) (d : Diff.row) : Prop :=
  Diff.version d = n /\
  match Diff.new_value d with
  | Some x => holds D n (Diff.cell d) x
              /\ ~ (exists y, S (Diff.cell d) y /\ same_text y x)
  | None => (exists x, S (Diff.cell d) x)
            /\ forall x, ~ holds D n (Diff.cell d) x
  end.

(** The diff table after version [v] with snapshot [S] went in: the rows
    of before except those at [next], the forward diff at [v] and the
    repaired diff at [next]. *)
Definition spliced (D : list Diff.row) (v : Version) (next : option Version)
           (S : Cell -> string -> Prop) (D' : list Diff.row) : Prop :=
  forall d, In d D' <->
            (In d D /\ match next with
                       | Some n => Diff.version d <> n
                       | None => True
                       end)
            \/ forward_diff D v S d
            \/ match next with
               | Some n => repair_diff D n S d
               | None => False
               end.

(** [next] is the least version of the ledger after [v], if any. *)
Definition least_after (L : list Version) (v : Version)
           (next : option Version) : Prop :=
  match next with
  | Some n => In n L /\ vlt v n /\ forall w, In w L -> vlt v w -> vle n w
  | None => forall w, In w L -> ~ vlt v w
  end.

(** Every diff changes the value of its cell: the state just before its
    version differs from what it sets, for MySQL already. *)
Definition changes (D : list Diff.row) (d : Diff.row) : Prop :=
  match Diff.new_value d with
  | Some x => ~ holds_like D (vpred (Diff.version d)) (Diff.cell d) x
  | None => exists x, holds D (vpred (Diff.version d)) (Diff.cell d) x
  end.

(** No diff re-affirms the value its cell already had. *)
Definition no_redundant_diffs (D : list Diff.row) : Prop :=
  forall d, In d D -> changes D d.

(** A pool maps ids and texts one to one, below its counter: the primary
    key, and the unique key under the collation. *)
Definition pool_ok (p : Pool) : Prop :=
  NoDup (map fst (pool_rows p))
  /\ NoDup (map collation (map snd (pool_rows p)))
  /\ forall r, In r (pool_rows p) -> fst r < auto_increment p.

(** The cell of a parsed row joined with the three pools, when all three
    ids were found. *)
Definition joined_cell (j : Joined.row) : option Cell :=
  match Joined.measurement_type_id j, Joined.location_id j,
        Joined.week_id j with
  | Some m, Some l, Some w => Some (m, l, w)
  | _, _, _ => None
  end.

(** The snapshot by cell, as the statements of lines 282-349 see it. *)
Definition snapshot (joined : list Joined.row) (c : Cell) (x : string)
  : Prop :=
  exists j, In j joined /\ joined_cell j = Some c
            /\ Parsed.value (Joined.parsed j) = x.

(** Text [t] has id [i] in pool [p]: the pool holds, under [i], a string
    equal to [t] for MySQL. *)
Definition interned (p : Pool) (t : string) (i : Z) : Prop :=
  exists u, In (i, u) (pool_rows p) /\ same_text u t.

(** The snapshot read off the parsed rows and the pools. *)
Definition parsed_cell (db : DB) (r : Parsed.row) (c : Cell) : Prop :=
  interned (norostat_raw_datatable_measurement_type_pool db)
           (Parsed.measurement_type r) (fst (fst c))
  /\ interned (norostat_raw_datatable_location_pool db)
              (Parsed.location r) (snd (fst c))
  /\ interned (norostat_raw_datatable_week_pool db) (Parsed.week r) (snd c).

(** The pool holds a string equal to [t] for MySQL. *)
Definition pooled (p : Pool) (t : string) : Prop :=
  exists u, In u (pool_texts p) /\ same_text u t.

(** Every string of the parsed rows is in its pool. *)
Definition all_interned (db : DB) (parsed : list Parsed.row) : Prop :=
  forall r, In r parsed ->
    pooled (norostat_raw_datatable_measurement_type_pool db)
           (Parsed.measurement_type r)
    /\ pooled (norostat_raw_datatable_location_pool db) (Parsed.location r)
    /\ pooled (norostat_raw_datatable_week_pool db) (Parsed.week r).

(** A row of a reconstructed state is at cell [c] (with value [x]). *)
Definition cell_eqb (c : Cell) (s : State.row) : bool :=
  (fst (fst c) =? State.measurement_type_id s)
  && (snd (fst c) =? State.location_id s)
  && (snd c =? State.week_id s).

Definition cell_value_eqb (c : Cell) (x : string) (s : State.row) : bool :=
  cell_eqb c s && string_eq x (State.value s).

(** Line 316: the [DELETE] of the diffs at the next version. *)
Definition delete_at (n : Version) (D : list Diff.row) : list Diff.row :=
  filter (fun d => negb ((Diff.release_date d =? fst n)
                         && (Diff.parse_time d =? snd n))) D.

(** What a call that went through did, table by table: [db'] is [db]
    with the version registered, the new strings interned and the diffs
    of lines 282-349 written, [next] being the version selected at line
    197. *)
Record recorded (db : DB) (long_raw : LongRaw) (next : option Version)
       (db' : DB) : Prop := mkRecorded {
  rec_parsed_keys :
    distinct_keys (Parsed.same_key collation) (parsed_params long_raw);
  rec_parsed_fits : forallb Parsed.fits (parsed_params long_raw) = true;
  rec_next :
    firstn 1 (order_by_version
                (filter (vltb (version_of long_raw))
                        (norostat_raw_datatable_version_list db)))
    = match next with Some n => [n] | None => [] end;
  rec_new : ~ In (version_of long_raw)
                 (norostat_raw_datatable_version_list db);
  rec_versions :
    norostat_raw_datatable_version_list db'
    = norostat_raw_datatable_version_list db ++ [version_of long_raw];
  rec_measurement_types :
    pool_insert (norostat_raw_datatable_measurement_type_pool db)
      (select_distinct_not_in
         (map Parsed.measurement_type (parsed_params long_raw))
         (norostat_raw_datatable_measurement_type_pool db))
    = inr (norostat_raw_datatable_measurement_type_pool db');
  rec_locations :
    pool_insert (norostat_raw_datatable_location_pool db)
      (select_distinct_not_in
         (map Parsed.location (parsed_params long_raw))
         (norostat_raw_datatable_location_pool db))
    = inr (norostat_raw_datatable_location_pool db');
  rec_weeks :
    pool_insert (norostat_raw_datatable_week_pool db)
      (select_distinct_not_in
         (map Parsed.week (parsed_params long_raw))
         (norostat_raw_datatable_week_pool db))
    = inr (norostat_raw_datatable_week_pool db');
  rec_keys :
    distinct_keys Diff.same_key (norostat_raw_datatable_diffs db) ->
    distinct_keys Diff.same_key (norostat_raw_datatable_diffs db');
  rec_diffs :
    let v := version_of long_raw in
    let D := norostat_raw_datatable_diffs db in
    let J := join_pools db' (parsed_params long_raw) in
    exists fv fr,
      forward_values v J (select_latest D v) = inr fv
      /\ forward_removals v J (select_latest D v) = inr fr
      /\ match next with
         | None => norostat_raw_datatable_diffs db' = D ++ fv ++ fr
         | Some n =>
             exists rv rr,
               repair_values n J (select_latest D n) = inr rv
               /\ repair_removals n J (select_latest D n) = inr rr
               /\ norostat_raw_datatable_diffs db'
                  = delete_at n (D ++ fv ++ fr) ++ rv ++ rr
         end
}.

(** The order of [ORDER BY release_date, parse_time]. *)
Fixpoint sorted_versions (l : list Version) : Prop :=
  match l with
  | [] => True
  | a :: l' => (forall w, In w l' -> vle a w) /\ sorted_versions l'
  end.

(** The constraints that the schema declares on the permanent raw tables. *)
Record db_ok (db : DB) : Prop := mkOk {
  ok_measurement_types :
    pool_ok (norostat_raw_datatable_measurement_type_pool db);
  ok_locations : pool_ok (norostat_raw_datatable_location_pool db);
  ok_weeks : pool_ok (norostat_raw_datatable_week_pool db);
  (* PRIMARY KEY of the diff table *)
  ok_keys : distinct_keys Diff.same_key (norostat_raw_datatable_diffs db);
  (* FOREIGN KEY (release_date, parse_time) *)
  ok_versions :
    forall d, In d (norostat_raw_datatable_diffs db) ->
              In (Diff.version d) (norostat_raw_datatable_version_list db);
  (* FOREIGN KEYs to the pools *)
  ok_ids :
    forall d, In d (norostat_raw_datatable_diffs db) ->
      In (Diff.measurement_type_id d)
         (map fst (pool_rows (norostat_raw_datatable_measurement_type_pool db)))
      /\ In (Diff.location_id d)
            (map fst (pool_rows (norostat_raw_datatable_location_pool db)))
      /\ In (Diff.week_id d)
            (map fst (pool_rows (norostat_raw_datatable_week_pool db)));
  (* PRIMARY KEY of the version list *)
  ok_ledger : NoDup (norostat_raw_datatable_version_list db)
}.

(** [m] never touches what is committed. *)
Definition keeps_committed {A} (m : M A) : Prop :=
  forall c, committed (snd (m c)) = committed c.

(** [m] never touches the working copy of the permanent tables either. *)
Definition keeps_work {A} (m : M A) : Prop :=
  forall c, work (snd (m c)) = work c.

(** The exceptions other than the one raised at line 250. *)
Definition plain (e : exn) : Prop :=
  match e with Exception _ => False | _ => True end.

(** The exceptions that the statements before line [n] raise: the errors
    of the data, and the failures of the statements themselves. *)
Definition raised_before (n : nat) (e : exn) : Prop :=
  match e with
  | Exception _ => False
  | OperationalError line => (line < n)%nat
  | _ => True
  end.

(** [m] raises only such exceptions. *)
Definition raises_before {A} (n : nat) (m : M A) : Prop :=
  forall c e c', m c = (inl e, c') -> raised_before n e.

(** A run that ends normally under some faults is the run without
    faults. *)
Definition refines {A} (m m0 : M A) : Prop :=
  forall c a c', m c = (inr a, c') -> m0 c = (inr a, c').

(** The permanent tables that [record_long_raw] writes. *)
Definition raw_tables (db : DB) :=
  (norostat_raw_datatable_version_list db,
   norostat_raw_datatable_measurement_type_pool db,
   norostat_raw_datatable_location_pool db,
   norostat_raw_datatable_week_pool db,
   norostat_raw_datatable_diffs db).

(** The database after the whole of [record_long_raw] went through. *)
Definition with_point_tables (db : DB) : DB :=
  create_point_diffs (create_point_version_list db).

(** The snapshot as it was delivered, read off the argument of the call:
    a row [(measurement_type, location, week, value)] for every row
    [(week, measurement_type, value)] of the data frame. *)
Definition snapshot_rows (long_raw : LongRaw)
  : list (string * string * string * string) :=
  map (fun r => (snd (fst r), location long_raw, fst (fst r), snd r))
      (long_raw_df long_raw).

(** Two rows [(measurement_type, location, week, value)] that MySQL takes
    for equal, and two tables with the same rows for MySQL. *)
Definition same_row (a b : string * string * string * string) : Prop :=
  same_text (fst (fst (fst a))) (fst (fst (fst b)))
  /\ same_text (snd (fst (fst a))) (snd (fst (fst b)))
  /\ same_text (snd (fst a)) (snd (fst b))
  /\ same_text (snd a) (snd b).

Definition same_rows (t1 t2 : list (string * string * string * string))
  : Prop :=
  (forall a, In a t1 -> exists b, In b t2 /\ same_row a b)
  /\ (forall b, In b t2 -> exists a, In a t1 /\ same_row a b).

(** Two states of the cells with the same values for MySQL. *)
Definition like_state (P Q : Cell -> string -> Prop) : Prop :=
  (forall c x, P c x -> exists y, Q c y /\ same_text x y)
  /\ (forall c y, Q c y -> exists x, P c x /\ same_text x y).

(** The strings of a call: its location and the three columns of its data
    frame. *)
Definition delivered (long_raw : LongRaw) : list string :=
  location long_raw
  :: flat_map (fun r => [fst (fst r); snd (fst r); snd r])
              (long_raw_df long_raw).

(** The strings of a sequence of calls. *)
Definition delivered_by (calls : list (Faults * LongRaw)) : list string :=
  flat_map (fun c => delivered (snd c)) calls.

(** The strings that the store holds: those of the three pools and the
    values of the diffs. *)
Definition stored (db : DB) (s : string) : Prop :=
  In s (pool_texts (norostat_raw_datatable_measurement_type_pool db))
  \/ In s (pool_texts (norostat_raw_datatable_location_pool db))
  \/ In s (pool_texts (norostat_raw_datatable_week_pool db))
  \/ exists d, In d (norostat_raw_datatable_diffs db)
                /\ Diff.new_value d = Some s.

(** Strings that the collation tells apart: no two different ones are
    equal for MySQL. *)
Definition told_apart (l : list string) : Prop :=
  forall s t, In s l -> In t l -> same_text s t -> s = t.

Definition told_apartb (l : list string) : bool :=
  forallb (fun s => forallb (fun t => implb (string_eq s t) (s =? t)%string)
                            l) l.

(** What interning the strings [texts] does to a pool: the old strings
    stay; a new one is one of [texts] that the pool did not hold, not even
    for the collation; every one of [texts] is then held, at least for the
    collation; and where the collation tells the strings apart the pool
    holds its old strings and [texts], and no other. *)
Definition pool_grown (p p' : Pool) (texts : list string) : Prop :=
  (forall t, In t (pool_texts p) -> In t (pool_texts p'))
  /\ (forall t, In t (pool_texts p') ->
                In t (pool_texts p) \/ (In t texts /\ ~ pooled p t))
  /\ (forall t, In t texts -> pooled p' t)
  /\ (told_apart (pool_texts p ++ texts) ->
      forall t, In t (pool_texts p') <-> In t (pool_texts p) \/ In t texts).

(** The calls of a sequence, each with its own faults, all of which went
    through. *)
Fixpoint record_all (calls : list (Faults * LongRaw)) (db : DB) : result DB :=
  match calls with
  | [] => inr db
  | (f, long_raw) :: rest =>
      match record_long_raw f long_raw db with
      | (inr _, db') => record_all rest db'
      | (inl e, _) => inl e
      end
  end.


(** The state reached by a sequence of calls, whether they succeed or
    fail. *)
Definition run (calls : list (Faults * LongRaw)) (db : DB) : DB :=
  fold_left (fun db c => snd (record_long_raw (fst c) (snd c) db)) calls db.

(** A snapshot that the parsed table accepts: every string fits its
    column and no two rows have the same measurement type, location and
    week. *)
Definition well_formed (long_raw : LongRaw) : Prop :=
  forallb Parsed.fits (parsed_params long_raw) = true
  /\ distinct_keys (Parsed.same_key collation) (parsed_params long_raw).

(** The counters of the three pools leave room for the strings of a
    snapshot of [n] rows. *)
Definition room (db : DB) (n : nat) : Prop :=
  auto_increment (norostat_raw_datatable_measurement_type_pool db)
  + Z.of_nat n <= int_max + 1
  /\ auto_increment (norostat_raw_datatable_location_pool db)
     + Z.of_nat n <= int_max + 1
  /\ auto_increment (norostat_raw_datatable_week_pool db)
     + Z.of_nat n <= int_max + 1.

(** ASCII text: every character is below 128. *)
Fixpoint ascii_text (s : string) : bool :=
  match s with
  | EmptyString => true
  | String a s' => (nat_of_ascii a <? 128)%nat && ascii_text s'
  end.

(** The values of the raw diffs are ASCII text of at most 255 characters:
    what [int] converts as the built-in of Python does, to integers whose
    text the NVARCHAR(255) column of [norostat_point_diffs] holds. *)
Definition ascii_values (db : DB) : Prop :=
  forall d s,
    In d (norostat_raw_datatable_diffs db) -> Diff.new_value d = Some s ->
    ascii_text s = true /\ (String.length s <= 255)%nat.

(** [m] leaves the version list of the working copy as it is. *)
Definition keeps_versions {A} (m : M A) : Prop :=
  forall c, norostat_raw_datatable_version_list (work (snd (m c)))
            = norostat_raw_datatable_version_list (work c).

(** The faults that stop the run at one statement. *)
Definition fails_at (line : nat) : Faults := fun l => Nat.eqb l line.

(** One cell (season 2012-13, location B, week 201201) delivered with the
    given value at the given release date. *)
Definition example_snapshot (release_date : Z) (value : string) : LongRaw :=
  mkLongRaw [("201201", "2012-13", value)] release_date 0 "B".

(** Existing tables are kept as they are. *)
Definition keeps_tables (t t' : Server.tables) : Prop :=
  (forall rows, Server.norostat_raw_datatable_version_list t = Some rows ->
                Server.norostat_raw_datatable_version_list t' = Some rows)
  /\ (forall p, Server.norostat_raw_datatable_measurement_type_pool t = Some p
                -> Server.norostat_raw_datatable_measurement_type_pool t'
                   = Some p)
  /\ (forall p, Server.norostat_raw_datatable_location_pool t = Some p ->
                Server.norostat_raw_datatable_location_pool t' = Some p)
  /\ (forall p, Server.norostat_raw_datatable_week_pool t = Some p ->
                Server.norostat_raw_datatable_week_pool t' = Some p)
  /\ (forall rows, Server.norostat_raw_datatable_diffs t = Some rows ->
                   Server.norostat_raw_datatable_diffs t' = Some rows)
  /\ Server.norostat_point_version_list t'
     = Server.norostat_point_version_list t
  /\ Server.norostat_point_diffs t' = Server.norostat_point_diffs t.

(** A call of one of the two functions that write the store. *)
Inductive call : Type :=
| call_record_long_raw (f : Faults) (long_raw : LongRaw)
| call_update_point (f : Faults).

(** The constraints that the schema declares on the two point tables. *)
Record point_ok (db : DB) : Prop := mkPointOk {
  (* PRIMARY KEY of the point version list, and its FOREIGN KEY to the raw
     version list *)
  ok_point_ledger :
    forall projected, norostat_point_version_list db = Some projected ->
      NoDup projected
      /\ incl projected (norostat_raw_datatable_version_list db);
  (* PRIMARY KEY of the point diffs *)
  ok_point_keys :
    forall rows, norostat_point_diffs db = Some rows ->
      distinct_keys Point.same_key rows;
  (* FOREIGN KEYs of the point diffs, and the range of INT *)
  ok_point_references :
    forall rows p, norostat_point_diffs db = Some rows -> In p rows ->
      (exists projected, norostat_point_version_list db = Some projected
                         /\ In (Point.version p) projected)
      /\ In (Point.location_id p)
            (map fst (pool_rows (norostat_raw_datatable_location_pool db)))
      /\ - 2147483648 <= Point.epiweek p <= 2147483647
}.

Section Calls.
Variable season_db_to_epiweek : string -> option string -> result Z.

(** The store after a call, however the call ended. *)
Definition perform (db : DB) (c : call) : DB :=
  match c with
  | call_record_long_raw f long_raw => snd (record_long_raw f long_raw db)
  | call_update_point f => snd (update_point season_db_to_epiweek f db)
  end.

Definition perform_all (calls : list call) (db : DB) : DB :=
  fold_left perform calls db.
End Calls.

(** The strings of [[0-9]*]. *)
Fixpoint all_digits (s : string) : bool :=
  match s with
  | EmptyString => true
  | String a s' => is_digit a && all_digits s'
  end.
(** A string that [[0-9]*] cannot take a character of. *)
Definition starts_without_digit (r : string) : Prop :=
  match r with
  | String a _ => is_digit a = false
  | EmptyString => True
  end.

(** The cell of a joined row whose three ids were found. *)
Definition cell_of_joined (j : Joined.row) : Cell :=
  match joined_cell j with
  | Some c => c
  | None => (0, 0, 0)
  end.

(** * Properties *)

(** ** Versions *)

Lemma veq_iff (a b : Version) : a = b <-> fst a = fst b /\ snd a = snd b.
Proof.
  destruct a, b; simpl; split.
  - intros H; inversion H; auto.
  - intros [-> ->]; reflexivity.
Qed.

Lemma vltb_spec a b : vltb a b = true <-> vlt a b.
Proof. unfold vltb, vlt; destruct a, b; simpl; lia. Qed.
Lemma vleb_spec a b : vleb a b = true <-> vle a b.
Proof. unfold vleb, vle; destruct a, b; simpl; lia. Qed.
Lemma veqb_spec a b : veqb a b = true <-> a = b.
Proof. rewrite veq_iff; unfold veqb; destruct a, b; simpl; lia. Qed.
Lemma vltb_false a b : vltb a b = false <-> ~ vlt a b.
Proof. rewrite <- vltb_spec; destruct (vltb a b); split; congruence. Qed.
Lemma vleb_false a b : vleb a b = false <-> ~ vle a b.
Proof. rewrite <- vleb_spec; destruct (vleb a b); split; congruence. Qed.
Lemma veqb_false a b : veqb a b = false <-> a <> b.
Proof. rewrite <- veqb_spec; destruct (veqb a b); split; congruence. Qed.

(** Order facts on versions by linear arithmetic on the components. *)
Ltac vsolve :=
  unfold vpred, vlt, vle, Diff.version, Point.version in *;
  repeat match goal with
         | H : context [@eq Version _ _] |- _ => rewrite veq_iff in H
         | |- context [@eq Version _ _] => rewrite veq_iff
         | H : context [@eq (Z * Z) _ _] |- _ => rewrite veq_iff in H
         | |- context [@eq (Z * Z) _ _] => rewrite veq_iff
         end;
  simpl in *; lia.

Lemma vle_refl a : vle a a.
Proof. vsolve. Qed.
Lemma vle_trans a b c : vle a b -> vle b c -> vle a c.
Proof. intros; vsolve. Qed.
Lemma vle_total a b : vle a b \/ vlt b a.
Proof. vsolve. Qed.
Lemma vle_antisym a b : vle a b -> vle b a -> a = b.
Proof. intros; vsolve. Qed.
Lemma vlt_vpred a b : vlt a b <-> vle a (vpred b).
Proof. vsolve. Qed.

(** ** Equality of strings for MySQL *)

Lemma string_eq_spec a b : string_eq a b = true <-> same_text a b.
Proof. unfold string_eq, same_text. apply String.eqb_eq. Qed.

Lemma string_eq_false a b : string_eq a b = false <-> ~ same_text a b.
Proof. unfold string_eq, same_text. apply String.eqb_neq. Qed.

Lemma same_text_refl x : same_text x x.
Proof. reflexivity. Qed.

Lemma same_text_sym x y : same_text x y -> same_text y x.
Proof. unfold same_text. congruence. Qed.

Lemma same_text_trans x y z : same_text x y -> same_text y z -> same_text x z.
Proof. unfold same_text. congruence. Qed.

Lemma same_text_dec x y : same_text x y \/ ~ same_text x y.
Proof.
  unfold same_text. destruct (string_dec (collation x) (collation y)); auto.
Qed.

Lemma string_eq_sym a b : string_eq a b = string_eq b a.
Proof. unfold string_eq. apply String.eqb_sym. Qed.

Lemma like_state_refl P : like_state P P.
Proof.
  split; intros c x H; exists x; (split; [assumption | apply same_text_refl]).
Qed.

Lemma like_state_exact (P Q : Cell -> string -> Prop) :
  (forall c x, P c x <-> Q c x) -> like_state P Q.
Proof.
  intros H. split; intros c x K; exists x;
    (split; [apply H; assumption | apply same_text_refl]).
Qed.

(** ** The SQL building blocks *)

Section Tables.
Context {R : Type}.
Variable same_key : R -> R -> bool.

Lemma insert_rows_inr table rows t :
    insert_rows same_key table rows = inr t ->
    t = table ++ rows
    /\ (forall r x, In r rows -> In x table -> same_key r x = false).
  Proof.
    revert table; induction rows as [|r rows IH]; simpl; intros table H.
    - inversion H; subst. rewrite app_nil_r. split; [reflexivity | tauto].
    - destruct (existsb (same_key r) table) eqn:E; [discriminate|].
      apply IH in H. destruct H as [-> H]. split.
      + rewrite <- app_assoc. reflexivity.
      + intros r' x [<- | Hr] Hx.
        * destruct (same_key r x) eqn:K; [|reflexivity].
          assert (existsb (same_key r) table = true)
            by (apply existsb_exists; eauto).
          congruence.
        * apply H; [assumption | apply in_or_app; auto].
  Qed.

Lemma insert_rows_inl table rows e :
    insert_rows same_key table rows = inl e -> e = IntegrityError.
  Proof.
    revert table; induction rows as [|r rows IH]; simpl; intros table H.
    - discriminate.
    - destruct (existsb (same_key r) table); [congruence | eauto].
  Qed.

Lemma insert_rows_total table rows :
    (forall r x, In r rows -> In x table -> same_key r x = false) ->
    distinct_keys same_key rows ->
    insert_rows same_key table rows = inr (table ++ rows).
  Proof.
    intros H D. revert table H.
    induction rows as [|r rows IH]; simpl; intros table H.
    - rewrite app_nil_r. reflexivity.
    - destruct D as [D1 D2].
      destruct (existsb (same_key r) table) eqn:E.
      + apply existsb_exists in E. destruct E as [x [Hx K]].
        rewrite H in K; [discriminate | auto | assumption].
      + rewrite IH; [rewrite <- app_assoc; reflexivity | assumption |].
        intros r' x Hr' Hx. apply in_app_or in Hx.
        destruct Hx as [Hx | [<- | []]].
        * apply H; auto.
        * apply D1. assumption.
  Qed.

Lemma distinct_keys_app l r :
    distinct_keys same_key (l ++ [r]) <->
    distinct_keys same_key l /\ forall x, In x l -> same_key r x = false.
  Proof.
    induction l as [|a l IH]; simpl.
    - intuition.
    - rewrite IH. split.
      + intros [H1 [H2 H3]]. repeat split; auto.
        * intros x Hx. apply H1. apply in_or_app. auto.
        * intros x [<- | Hx]; auto. apply H1. apply in_or_app.
          right. left. reflexivity.
      + intros [[H1 H2] H3]. repeat split; auto.
        intros x Hx. apply in_app_or in Hx.
        destruct Hx as [Hx | [<- | []]]; auto.
  Qed.

Lemma insert_rows_distinct table rows t :
    distinct_keys same_key table ->
    insert_rows same_key table rows = inr t -> distinct_keys same_key t.
  Proof.
    revert table; induction rows as [|r rows IH]; simpl; intros table D H.
    - inversion H; subst. assumption.
    - destruct (existsb (same_key r) table) eqn:E; [discriminate|].
      apply IH in H; [assumption|]. apply distinct_keys_app.
      split; [assumption|]. intros x Hx.
      destruct (same_key r x) eqn:K; [|reflexivity].
      assert (existsb (same_key r) table = true)
        by (apply existsb_exists; eauto).
      congruence.
  Qed.

Lemma distinct_keys_filter p l :
    distinct_keys same_key l -> distinct_keys same_key (filter p l).
  Proof.
    induction l as [|a l IH]; simpl; [trivial|]. intros [H1 H2].
    destruct (p a); simpl; auto. split; auto.
    intros x Hx. apply filter_In in Hx. apply H1. tauto.
  Qed.

Lemma distinct_keys_unique l :
    (forall a b, same_key a b = same_key b a) ->
    distinct_keys same_key l ->
    forall a b, In a l -> In b l -> same_key a b = true -> a = b.
  Proof.
    intros Sym. induction l as [|r l IH]; simpl; [tauto|].
    intros [H1 H2] a b [<- | Ha] [<- | Hb] K; auto.
    - rewrite Sym, H1 in K by assumption. discriminate.
    - rewrite H1 in K by assumption. discriminate.
  Qed.
End Tables.

Lemma in_left_join_none {A B} (on : A -> B -> bool) l r a :
  In (a, None) (left_join on l r) <->
  In a l /\ forall b, In b r -> on a b = false.
Proof.
  unfold left_join. rewrite in_flat_map. split.
  - intros [a' [Ha H]].
    destruct (filter (on a') r) eqn:F.
    + destruct H as [H | []]. inversion H; subst. split; [assumption|].
      intros b Hb. destruct (on a b) eqn:E; [|reflexivity].
      assert (In b (filter (on a) r)) by (apply filter_In; auto).
      rewrite F in *. contradiction.
    + apply in_map_iff in H. destruct H as [? [H _]]. discriminate.
  - intros [Ha H]. exists a. split; [assumption|].
    replace (filter (on a) r) with (@nil B); [left; reflexivity|].
    symmetry. clear Ha. induction r as [|b r IH]; simpl; [reflexivity|].
    rewrite (H b) by (left; reflexivity). apply IH.
    intros; apply H; right; assumption.
Qed.

Lemma in_left_join_some {A B} (on : A -> B -> bool) l r a b :
  In (a, Some b) (left_join on l r) <->
  In a l /\ In b r /\ on a b = true.
Proof.
  unfold left_join. rewrite in_flat_map. split.
  - intros [a' [Ha H]].
    destruct (filter (on a') r) eqn:F.
    + destruct H as [H | []]. discriminate.
    + rewrite <- F in H. apply in_map_iff in H.
      destruct H as [b' [H Hb]]. inversion H; subst.
      apply filter_In in Hb. tauto.
  - intros [Ha [Hb E]]. exists a. split; [assumption|].
    assert (Hf : In b (filter (on a) r)) by (apply filter_In; auto).
    destruct (filter (on a) r) eqn:F; [contradiction|].
    apply in_map_iff. exists b. split; [reflexivity | assumption].
Qed.

Lemma sequence_inr {A} (l : list (result A)) (l' : list A) :
  sequence l = inr l' -> l = map inr l'.
Proof.
  revert l'; induction l as [|[e|a] l IH]; simpl; intros l' H.
  - inversion H; reflexivity.
  - discriminate.
  - destruct (sequence l); [discriminate|].
    inversion H; subst. simpl. f_equal. auto.
Qed.

(** ** The diff chain as a step function per cell *)

Lemma cell_eq_iff (a b : Diff.row) :
  Diff.cell a = Diff.cell b <->
  Diff.measurement_type_id a = Diff.measurement_type_id b /\
  Diff.location_id a = Diff.location_id b /\
  Diff.week_id a = Diff.week_id b.
Proof.
  unfold Diff.cell. split.
  - intros H; inversion H; auto.
  - intros [-> [-> ->]]; reflexivity.
Qed.

Lemma later_on_spec a b :
  later_on a b = true <->
  Diff.cell a = Diff.cell b /\ vlt (Diff.version a) (Diff.version b).
Proof.
  unfold later_on. rewrite cell_eq_iff, <- vltb_spec.
  rewrite !andb_true_iff, !Z.eqb_eq. tauto.
Qed.

Lemma same_key_spec a b :
  Diff.same_key a b = true <->
  Diff.version a = Diff.version b /\ Diff.cell a = Diff.cell b.
Proof.
  unfold Diff.same_key. rewrite cell_eq_iff, <- veqb_spec.
  rewrite !andb_true_iff, !Z.eqb_eq. tauto.
Qed.

Lemma latest_unique D w c d1 d2 :
  diff_key_unique D -> latest D w c d1 -> latest D w c d2 -> d1 = d2.
Proof.
  intros K (I1 & C1 & L1 & M1) (I2 & C2 & L2 & M2).
  apply K; try assumption; [|congruence].
  apply vle_antisym; auto.
Qed.

Lemma holds_functional D w c x y :
  diff_key_unique D -> holds D w c x -> holds D w c y -> x = y.
Proof.
  intros K (d1 & H1 & V1) (d2 & H2 & V2).
  assert (d1 = d2) by eauto using latest_unique. congruence.
Qed.

(** Either the cell has a latest diff at or before [w], or none at all. *)
Lemma latest_or_none D w c :
  (exists d, latest D w c d) \/
  (forall d, In d D -> Diff.cell d = c -> ~ vle (Diff.version d) w).
Proof.
  induction D as [|a D IH].
  - right. intros d [].
  - assert (Ha : (Diff.cell a = c /\ vle (Diff.version a) w)
                 \/ ~ (Diff.cell a = c /\ vle (Diff.version a) w)).
    { destruct (vle_total (Diff.version a) w) as [Hl | Hl].
      - destruct a as [rd pt m l k nv], c as [[cm cl] ck].
        unfold Diff.cell; simpl.
        destruct (Z.eq_dec m cm), (Z.eq_dec l cl), (Z.eq_dec k ck);
          subst; try (right; intros [E _]; inversion E; congruence).
        left; auto.
      - right. intros [_ ?]. vsolve. }
    destruct IH as [[d (I & C & L & M)] | N].
    + destruct Ha as [[Ca La] | Na].
      * destruct (vle_total (Diff.version a) (Diff.version d)) as [Hl | Hl].
        -- left. exists d. repeat split; auto; [right; assumption|].
           intros d' [<- | I'] C' L'; auto.
        -- left. exists a. repeat split; auto; [left; reflexivity|].
           intros d' [<- | I'] C' L'; [apply vle_refl|].
           specialize (M d' I' C' L'). vsolve.
      * left. exists d. repeat split; auto; [right; assumption|].
        intros d' [<- | I'] C' L'; auto. tauto.
    + destruct Ha as [[Ca La] | Na].
      * left. exists a. repeat split; auto; [left; reflexivity|].
        intros d' [<- | I'] C' L'; [apply vle_refl|].
        exfalso. eapply N; eauto.
      * right. intros d [<- | I] C L; [tauto|]. eapply N; eauto.
Qed.

Lemma holds_or_not D w c :
  diff_key_unique D ->
  (exists x, holds D w c x) \/ (forall x, ~ holds D w c x).
Proof.
  intros K. destruct (latest_or_none D w c) as [[d Hd] | N].
  - destruct (Diff.new_value d) as [x|] eqn:V.
    + left. exists x, d. auto.
    + right. intros x (d' & Hd' & V').
      assert (d = d') by eauto using latest_unique. congruence.
  - right. intros x (d & (I & C & L & _) & _). eapply N; eauto.
Qed.

(** Two chains that have the same diffs of [c] at or before [w] have the
    same latest diff there. *)
Lemma latest_agree D D' w c d :
  (forall d, Diff.cell d = c -> vle (Diff.version d) w ->
             (In d D <-> In d D')) ->
  latest D w c d -> latest D' w c d.
Proof.
  intros A (I & C & L & M). repeat split; auto.
  - apply A; auto.
  - intros d' I' C' L'. apply M; auto. apply A; auto.
Qed.

(** When no diff of [c] lies in the window [(w1, w2]], the latest diffs at
    [w1] and at [w2] are the same. *)
Lemma latest_window D w1 w2 c d :
  vle w1 w2 ->
  (forall d, In d D -> Diff.cell d = c -> vle (Diff.version d) w2 ->
             vle (Diff.version d) w1) ->
  (latest D w2 c d <-> latest D w1 c d).
Proof.
  intros Hw N. split; intros (I & C & L & M); repeat split; auto.
  - intros d' I' C' L'. apply M; auto. vsolve.
  - vsolve.
Qed.

(** The query of lines 172-194 computes [holds]. *)
Lemma in_select_latest D v s :
  In s (select_latest D v) <-> holds D v (State.cell s) (State.value s).
Proof.
  unfold select_latest, latest_rows. rewrite in_flat_map. split.
  - intros [[d o] [Hj Hs]]. apply filter_In in Hj. destruct Hj as [Hj Hc].
    simpl in *. rewrite !andb_true_iff in Hc. destruct Hc as [[Hv Ho] _].
    destruct o as [?|]; [discriminate|].
    apply in_left_join_none in Hj. destruct Hj as [Hd Hn].
    destruct (Diff.new_value d) as [x|] eqn:V; [|contradiction].
    destruct Hs as [<- | []]. exists d. split; [|assumption].
    apply vleb_spec in Hv. repeat split; auto.
    intros d' I' C' L'.
    destruct (vle_total (Diff.version d') (Diff.version d)) as [?|Hl];
      [assumption|].
    assert (later_on d d' = true) by (apply later_on_spec; auto).
    rewrite Hn in *; [discriminate|].
    apply filter_In. split; [assumption | apply vleb_spec; assumption].
  - intros (d & (I & C & L & M) & V). exists (d, None). split.
    + apply filter_In. split.
      * apply in_left_join_none. split; [assumption|].
        intros b Hb. apply filter_In in Hb. destruct Hb as [Ib Lb].
        apply vleb_spec in Lb.
        destruct (later_on d b) eqn:E; [|reflexivity].
        apply later_on_spec in E. destruct E as [E1 E2].
        assert (vle (Diff.version b) (Diff.version d))
          by (apply M; auto; congruence).
        vsolve.
      * simpl. rewrite V. apply vleb_spec in L. rewrite L. reflexivity.
    + simpl. rewrite V. left. destruct s; unfold State.cell in *; simpl in *.
      unfold Diff.cell in C. inversion C. reflexivity.
Qed.

Lemma holds_dec D w c x :
  diff_key_unique D -> holds D w c x \/ ~ holds D w c x.
Proof.
  intros K. destruct (holds_or_not D w c K) as [[y Hy] | N].
  - destruct (string_dec x y) as [-> | Ne]; [left; assumption|].
    right. intros Hx. apply Ne. eapply holds_functional; eauto.
  - right. apply N.
Qed.

Lemma holds_like_dec D w c x :
  diff_key_unique D -> holds_like D w c x \/ ~ holds_like D w c x.
Proof.
  intros K. destruct (holds_or_not D w c K) as [[y Hy] | N].
  - destruct (same_text_dec y x) as [E | Ne]; [left; exists y; auto|].
    right. intros [z [Hz Ez]]. apply Ne.
    rewrite (holds_functional D w c y z K Hy Hz). assumption.
  - right. intros [z [Hz _]]. apply (N z). assumption.
Qed.

Lemma diff_eq (d1 d2 : Diff.row) :
  Diff.version d1 = Diff.version d2 -> Diff.cell d1 = Diff.cell d2 ->
  Diff.new_value d1 = Diff.new_value d2 -> d1 = d2.
Proof.
  destruct d1, d2; unfold Diff.version, Diff.cell; simpl.
  intros H1 H2 H3. inversion H1; inversion H2; subst. reflexivity.
Qed.

Lemma diff_at_version v c nv : Diff.version (diff_at v c nv) = v.
Proof. destruct v; reflexivity. Qed.
Lemma diff_at_cell v c nv : Diff.cell (diff_at v c nv) = c.
Proof. destruct c as [[? ?] ?]; reflexivity. Qed.
Lemma diff_at_value v c nv : Diff.new_value (diff_at v c nv) = nv.
Proof. reflexivity. Qed.

(** ** Splicing a snapshot into the chain

    What [record_long_raw] does to the diff table, stated on the meaning of
    the tables: [S] is the parsed snapshot by cell, [D] the chain before
    and [D'] the chain after. *)

Section Splice.
Variables (D D' : list Diff.row) (L : list Version) (v : Version).
Variable next : option Version.
Variable S : Cell -> string -> Prop.

Hypothesis key_D : diff_key_unique D.
Hypothesis fk_D : forall d, In d D -> In (Diff.version d) L.
Hypothesis v_new : ~ In v L.
Hypothesis next_least : least_after L v next.
Hypothesis S_fun : forall c x y, S c x -> S c y -> x = y.
Hypothesis S_dec : forall c, (exists x, S c x) \/ (forall x, ~ S c x).
Hypothesis D'_spec : spliced D v next S D'.

Lemma next_some n :
    next = Some n ->
    In n L /\ vlt v n /\ forall w, In w L -> vlt v w -> vle n w.
  Proof. intros E. generalize next_least. rewrite E. simpl. auto. Qed.

Lemma next_none : next = None -> forall w, In w L -> ~ vlt v w.
  Proof. intros E. generalize next_least. rewrite E. simpl. auto. Qed.

Lemma next_cases : next = None \/ exists n, next = Some n.
  Proof. destruct next; eauto. Qed.

Lemma old_in d :
    In d D -> (forall n, next = Some n -> Diff.version d <> n) -> In d D'.
  Proof.
    intros I Hn. apply D'_spec. left. split; [assumption|].
    destruct next as [n|]; [apply Hn; reflexivity | trivial].
  Qed.

Lemma forward_in d : forward_diff D v S d -> In d D'.
  Proof. intros F. apply D'_spec. tauto. Qed.

Lemma repair_in n d : next = Some n -> repair_diff D n S d -> In d D'.
  Proof.
    intros E R. apply D'_spec. right; right.
    destruct next as [m|]; [inversion E; subst; assumption | discriminate].
  Qed.

Lemma in_new d :
    In d D' ->
    (In d D /\ forall n, next = Some n -> Diff.version d <> n)
    \/ forward_diff D v S d
    \/ exists n, next = Some n /\ repair_diff D n S d.
  Proof.
    intros I. apply D'_spec in I. destruct I as [[I Hn] | [F | R]].
    - left. split; [assumption|]. intros n E.
      destruct next as [m|]; [inversion E; subst; assumption | discriminate].
    - tauto.
    - destruct next as [n|]; [|contradiction]. right; right; eauto.
  Qed.

  (** No old diff sits at [v], nor strictly between [v] and [next]. *)
Lemma old_not_at d : In d D -> Diff.version d <> v.
  Proof. intros I E. apply v_new. rewrite <- E. auto. Qed.

Lemma old_before_or_after d :
    In d D ->
    vlt (Diff.version d) v
    \/ exists n, next = Some n /\ vle n (Diff.version d).
  Proof.
    intros I. pose proof (old_not_at _ I) as Ne. pose proof (fk_D _ I) as F.
    destruct (vle_total (Diff.version d) v) as [Hl | Hl].
    - left. vsolve.
    - right. destruct next_cases as [E | [n E]].
      + exfalso. eapply next_none; eauto.
      + exists n. split; [assumption|]. apply (next_some n E); assumption.
  Qed.

Lemma new_rows d :
    In d D' ->
    (In d D /\ (vlt (Diff.version d) v
                \/ exists n, next = Some n /\ vlt n (Diff.version d)))
    \/ forward_diff D v S d
    \/ exists n, next = Some n /\ repair_diff D n S d.
  Proof.
    intros I. apply in_new in I. destruct I as [[I Hn] | [F | R]].
    - left. split; [assumption|].
      destruct (old_before_or_after _ I) as [? | [n [E Hl]]]; [tauto|].
      right. exists n. split; [assumption|]. specialize (Hn n E). vsolve.
    - tauto.
    - tauto.
  Qed.

Lemma S_like_dec c x :
    (exists y, S c y /\ same_text y x) \/ ~ (exists y, S c y /\ same_text y x).
  Proof.
    destruct (S_dec c) as [[y Hy] | N].
    - destruct (same_text_dec y x) as [E | Ne]; [left; eauto|].
      right. intros [z [Hz Ez]]. apply Ne. rewrite (S_fun c y z Hy Hz).
      assumption.
    - right. intros [z [Hz _]]. apply (N z). assumption.
  Qed.

Lemma v_lt_next n : next = Some n -> vlt v n.
  Proof. intros E. apply (next_some n E). Qed.

  (** Versions before [v] see the old chain. *)
Lemma splice_before w c x :
    vlt w v -> (holds D' w c x <-> holds D w c x).
  Proof.
    intros Hw.
    assert (A : forall d, Diff.cell d = c -> vle (Diff.version d) w ->
                          (In d D <-> In d D')).
    { intros d _ Hl. split.
      - intros I. apply old_in; [assumption|]. intros n E.
        pose proof (v_lt_next _ E). intros Eq. vsolve.
      - intros I. apply new_rows in I.
        destruct I as [[I _] | [[E _] | [n [E [E' _]]]]].
        + assumption.
        + exfalso. vsolve.
        + pose proof (v_lt_next _ E). exfalso. vsolve. }
    split; intros (d & Hd & V); exists d; split; auto;
      eapply latest_agree; try eassumption.
    intros d0 C0 L0. symmetry. auto.
  Qed.

  (** From [v] up to the next version, a cell shows the value of the
      snapshot: the one just written, or the one it had when the two are
      equal for MySQL. *)
Lemma splice_at w c x :
    vle v w -> (forall n, next = Some n -> vlt w n) ->
    (holds D' w c x <->
     (S c x /\ ~ holds_like D v c x)
     \/ (holds D v c x /\ exists y, S c y /\ same_text x y)).
  Proof.
    intros Hw Hn.
    assert (Below : forall d, In d D' -> vle (Diff.version d) w ->
                              vle (Diff.version d) v).
    { intros d I Hl. apply new_rows in I.
      destruct I as [[_ [? | [n [E ?]]]] | [[E _] | [n [E [E' _]]]]].
      - vsolve.
      - specialize (Hn n E). vsolve.
      - rewrite E. apply vle_refl.
      - specialize (Hn n E). vsolve. }
    assert (Keep : forall d, In d D -> vle (Diff.version d) v -> In d D').
    { intros d I Hl. apply old_in; [assumption|]. intros n E.
      pose proof (v_lt_next _ E). intros Eq. vsolve. }
    split.
    - intros (d & (I & C & Hl & M) & V).
      destruct (new_rows _ I) as [[Id Hd] | [[E F] | [n [E [E' _]]]]].
      + (* the latest diff is an old one: the snapshot did not change the
           cell *)
        assert (Hv : holds D v c x).
        { exists d. split; [|assumption].
          split; [assumption|]. split; [assumption|]. split.
          - apply Below; assumption.
          - intros d' I' C' L'.
            apply M; [apply Keep; assumption | assumption | vsolve]. }
        assert (NoF : forall d', forward_diff D v S d' ->
                                 Diff.cell d' = c -> False).
        { intros d' F C'. assert (I' : In d' D') by (apply forward_in; auto).
          destruct F as [E _]. specialize (M d' I' C').
          pose proof (old_not_at _ Id).
          assert (vle (Diff.version d) v) by (apply Below; assumption).
          assert (vle (Diff.version d') (Diff.version d)) by
            (apply M; vsolve).
          vsolve. }
        right. split; [assumption|].
        destruct (S_dec c) as [[y Hy] | N].
        * destruct (holds_like_dec D v c y key_D) as [[z [Hz Ez]] | Hy'].
          -- exists y. split; [assumption|].
             rewrite (holds_functional D v c x z key_D Hv Hz). assumption.
          -- exfalso. apply (NoF (diff_at v c (Some y))).
             ++ split; [apply diff_at_version|].
                rewrite diff_at_value, diff_at_cell. auto.
             ++ apply diff_at_cell.
        * exfalso. apply (NoF (diff_at v c None)).
          -- split; [apply diff_at_version|].
             rewrite diff_at_value, diff_at_cell. eauto.
          -- apply diff_at_cell.
      + rewrite V in F. rewrite C in F. left. assumption.
      + specialize (Hn n E). exfalso. vsolve.
    - intros [[Sx Nx] | [(d & (I & C & Hl & M) & V) [y [Sy Exy]]]].
      + exists (diff_at v c (Some x)). split; [|apply diff_at_value].
        split; [|split; [apply diff_at_cell|split]].
        * apply forward_in. split; [apply diff_at_version|].
          rewrite diff_at_value, diff_at_cell. auto.
        * rewrite diff_at_version. assumption.
        * intros d' I' C' L'. rewrite diff_at_version.
          apply Below; assumption.
      + exists d. split; [|assumption].
        split; [apply Keep; assumption|]. split; [assumption|]. split.
        * vsolve.
        * intros d' I' C' L'.
          destruct (new_rows _ I') as [[Id' _] | [[E F] | [n [E [E' _]]]]].
          -- apply M; [assumption | assumption |].
             apply Below; assumption.
          -- exfalso. rewrite C' in F.
             destruct (Diff.new_value d') as [y'|].
             ++ destruct F as [Sy' Ny']. apply Ny'.
                rewrite (S_fun c y' y Sy' Sy). exists x. split; [|assumption].
                exists d. split; [|assumption].
                split; [assumption|]. split; [assumption|].
                split; assumption.
             ++ destruct F as [_ F]. eapply F; eauto.
          -- specialize (Hn n E). exfalso. vsolve.
  Qed.

Lemma splice_at_like w :
    vle v w -> (forall n, next = Some n -> vlt w n) ->
    like_state (holds D' w) S.
  Proof.
    intros Hw Hn. split.
    - intros c x H. apply (splice_at w c x Hw Hn) in H.
      destruct H as [[Sx _] | [_ H]]; [|assumption].
      exists x. split; [assumption | apply same_text_refl].
    - intros c y Sy.
      destruct (holds_like_dec D v c y key_D) as [[z [Hz Ez]] | N].
      + exists z. split; [|assumption]. apply (splice_at w c z Hw Hn).
        right. split; [assumption|]. exists y. auto.
      + exists y. split; [|apply same_text_refl].
        apply (splice_at w c y Hw Hn). left. auto.
  Qed.

  (** At the next version the repaired diffs restore its old state, up to
      what MySQL takes for equal. *)
Lemma splice_at_next n :
    next = Some n -> like_state (holds D' n) (holds D n).
  Proof.
    intros E. pose proof (v_lt_next n E) as Hvn.
    assert (Mid : like_state (holds D' (vpred n)) S).
    { apply splice_at_like; [vsolve|].
      intros m Em. rewrite E in Em. inversion Em; subst. vsolve. }
    destruct Mid as [Mid1 Mid2].
    assert (Rep : forall d, In d D' -> Diff.version d = n ->
                            repair_diff D n S d).
    { intros d I Ed. destruct (new_rows d I)
        as [[_ [? | [m [Em ?]]]] | [[Ef _] | [m [Em R]]]].
      - exfalso. vsolve.
      - rewrite E in Em. inversion Em; subst. exfalso. vsolve.
      - exfalso. vsolve.
      - rewrite E in Em. inversion Em; subst. assumption. }
    split.
    - intros c x (d & (I & C & Hl & M) & V).
      destruct (veqb (Diff.version d) n) eqn:Q.
      + apply veqb_spec in Q. destruct (Rep d I Q) as [_ R].
        rewrite V, C in R. exists x. split; [tauto | apply same_text_refl].
      + apply veqb_false in Q.
        assert (Hx : holds D' (vpred n) c x).
        { exists d. split; [|assumption].
          split; [assumption|]. split; [assumption|]. split; [vsolve|].
          intros d' I' C' L'. apply M; [assumption | assumption | vsolve]. }
        destruct (Mid1 c x Hx) as [y [Sy Exy]].
        assert (NoR : forall r, repair_diff D n S r -> Diff.cell r = c ->
                                False).
        { intros r R Cr. pose proof (repair_in n r E R) as Ir.
          destruct R as [Er _].
          assert (vle (Diff.version r) (Diff.version d))
            by (apply M; [assumption | assumption | vsolve]).
          vsolve. }
        destruct (holds_or_not D n c key_D) as [[z Hz] | N].
        * destruct (same_text_dec y z) as [Eyz | Ne].
          -- exists z. split; [assumption|].
             apply (same_text_trans _ _ _ Exy Eyz).
          -- exfalso. apply (NoR (diff_at n c (Some z))).
             ++ split; [apply diff_at_version|].
                rewrite diff_at_value, diff_at_cell. split; [assumption|].
                intros [y' [Sy' Ey']]. apply Ne.
                rewrite (S_fun c y y' Sy Sy'). assumption.
             ++ apply diff_at_cell.
        * exfalso. apply (NoR (diff_at n c None)).
          -- split; [apply diff_at_version|].
             rewrite diff_at_value, diff_at_cell. eauto.
          -- apply diff_at_cell.
    - intros c z Hz.
      destruct (S_like_dec c z) as [[y [Sy Eyz]] | Nz].
      + destruct (Mid2 c y Sy) as [x [(d & (I & C & Hl & M) & V) Exy]].
        exists x. split; [|apply (same_text_trans _ _ _ Exy Eyz)].
        exists d. split; [|assumption].
        split; [assumption|]. split; [assumption|]. split; [vsolve|].
        intros d' I' C' L'.
        destruct (veqb (Diff.version d') n) eqn:Q.
        * apply veqb_spec in Q. destruct (Rep d' I' Q) as [_ R].
          rewrite C' in R. exfalso.
          destruct (Diff.new_value d') as [y0|].
          -- destruct R as [Hy0 Ny0]. apply Ny0.
             rewrite (holds_functional D n c y0 z key_D Hy0 Hz). eauto.
          -- destruct R as [_ R]. eapply R; eauto.
        * apply veqb_false in Q.
          apply M; [assumption | assumption | vsolve].
      + exists z. split; [|apply same_text_refl].
        exists (diff_at n c (Some z)). split; [|apply diff_at_value].
        split; [|split; [apply diff_at_cell|split]].
        * apply (repair_in n); [assumption|].
          split; [apply diff_at_version|].
          rewrite diff_at_value, diff_at_cell. auto.
        * rewrite diff_at_version. apply vle_refl.
        * intros d' I' C' L'. rewrite diff_at_version. assumption.
  Qed.

  (** Versions from the next one on see what they saw before, up to what
      MySQL takes for equal. *)
Lemma splice_after_cell n w c :
    next = Some n -> vle n w ->
    (forall x, holds D' w c x -> exists z, holds D w c z /\ same_text x z)
    /\ (forall z, holds D w c z -> exists x, holds D' w c x /\ same_text x z).
  Proof.
    intros E Hw. pose proof (v_lt_next n E) as Hvn.
    destruct (splice_at_next n E) as [Nx1 Nx2].
    assert (Old : forall d, In d D -> vlt n (Diff.version d) -> In d D').
    { intros d I Hl. apply old_in; [assumption|].
      intros m Em. rewrite E in Em. inversion Em; subst. vsolve. }
    assert (New : forall d, In d D' -> vlt n (Diff.version d) -> In d D).
    { intros d I Hl. destruct (new_rows d I)
        as [[? _] | [[Ef _] | [m [Em [Er _]]]]].
      - assumption.
      - exfalso. vsolve.
      - rewrite E in Em. inversion Em; subst. exfalso. vsolve. }
    assert (Window :
              (forall d, In d D -> Diff.cell d = c ->
                         vle (Diff.version d) w -> vle (Diff.version d) n) ->
              (forall x, holds D' w c x ->
                         exists z, holds D w c z /\ same_text x z)
              /\ (forall z, holds D w c z ->
                            exists x, holds D' w c x /\ same_text x z)).
    { intros WD.
      assert (WD' : forall d, In d D' -> Diff.cell d = c ->
                              vle (Diff.version d) w ->
                              vle (Diff.version d) n).
      { intros d I C Hl.
        destruct (vle_total (Diff.version d) n) as [?|Hgt]; [assumption|].
        apply WD; auto. }
      split.
      - intros x (d & Hd & V).
        apply (latest_window D' n w c d Hw WD') in Hd.
        destruct (Nx1 c x (ex_intro _ d (conj Hd V)))
          as [z [(d' & Hd' & V') Exz]].
        exists z. split; [|assumption]. exists d'. split; [|assumption].
        apply (latest_window D n w c d' Hw WD). assumption.
      - intros z (d & Hd & V).
        apply (latest_window D n w c d Hw WD) in Hd.
        destruct (Nx2 c z (ex_intro _ d (conj Hd V)))
          as [x [(d' & Hd' & V') Exz]].
        exists x. split; [|assumption]. exists d'. split; [|assumption].
        apply (latest_window D' n w c d' Hw WD'). assumption. }
    destruct (latest_or_none D w c) as [[d0 (I0 & C0 & L0 & M0)] | N].
    - destruct (vle_total (Diff.version d0) n) as [Hd0 | Hd0].
      + (* no old diff of the cell after [n] up to [w] *)
        apply Window. intros d I C Hl. specialize (M0 d I C Hl). vsolve.
      + (* the latest old diff lies after [n]: it is untouched *)
        assert (I0' : In d0 D') by (apply Old; assumption).
        split.
        * intros x (d & (I & C & Hl & M) & V). exists x.
          split; [|apply same_text_refl]. exists d. split; [|assumption].
          assert (vle (Diff.version d0) (Diff.version d))
            by (apply M; assumption).
          split; [apply New; [assumption | vsolve]|].
          split; [assumption|]. split; [assumption|].
          intros d' I' C' L'.
          specialize (M0 d' I' C' L'). vsolve.
        * intros x (d & (I & C & Hl & M) & V). exists x.
          split; [|apply same_text_refl]. exists d. split; [|assumption].
          assert (vle (Diff.version d0) (Diff.version d))
            by (apply M; assumption).
          split; [apply Old; [assumption | vsolve]|].
          split; [assumption|]. split; [assumption|].
          intros d' I' C' L'.
          destruct (vle_total (Diff.version d') n) as [?|Hgt]; [vsolve|].
          apply M; [apply New; assumption | assumption | assumption].
    - (* the cell has no old diff up to [w] *)
      apply Window. intros d I C Hl. exfalso. eapply N; eauto.
  Qed.

Lemma splice_after n w :
    next = Some n -> vle n w -> like_state (holds D' w) (holds D w).
  Proof.
    intros E Hw. split; intros c x H.
    - apply (proj1 (splice_after_cell n w c E Hw)). assumption.
    - apply (proj2 (splice_after_cell n w c E Hw)). assumption.
  Qed.

  (** The primary key survives. *)
Lemma splice_key_unique : diff_key_unique D'.
  Proof.
    intros d1 d2 I1 I2 Ev Ec.
    destruct (new_rows d1 I1) as [[J1 H1] | [[E1 F1] | [n1 [N1 [E1 R1]]]]];
      destruct (new_rows d2 I2) as [[J2 H2] | [[E2 F2] | [n2 [N2 [E2 R2]]]]].
    - apply key_D; assumption.
    - exfalso. apply (old_not_at d1 J1). congruence.
    - exfalso. destruct H1 as [H1 | [m [Em H1]]].
      + pose proof (v_lt_next n2 N2). vsolve.
      + rewrite N2 in Em. inversion Em; subst. vsolve.
    - exfalso. apply (old_not_at d2 J2). congruence.
    - apply diff_eq; try assumption. rewrite Ec in F1.
      destruct (Diff.new_value d1) as [x|], (Diff.new_value d2) as [y|].
      + f_equal. destruct F1, F2. eauto.
      + exfalso. destruct F1 as [F1 _], F2 as [_ F2]. eapply F2; eauto.
      + exfalso. destruct F1 as [_ F1], F2 as [F2 _]. eapply F1; eauto.
      + reflexivity.
    - exfalso. pose proof (v_lt_next n2 N2). vsolve.
    - exfalso. destruct H2 as [H2 | [m [Em H2]]].
      + pose proof (v_lt_next n1 N1). vsolve.
      + rewrite N1 in Em. inversion Em; subst. vsolve.
    - exfalso. pose proof (v_lt_next n1 N1). vsolve.
    - apply diff_eq; try assumption. rewrite Ec in R1.
      assert (En : n2 = n1) by congruence. rewrite En in R2.
      destruct (Diff.new_value d1) as [x|], (Diff.new_value d2) as [y|].
      + f_equal. destruct R1 as [R1 _], R2 as [R2 _].
        exact (holds_functional D n1 _ x y key_D R1 R2).
      + exfalso. destruct R1 as [R1 _], R2 as [_ R2]. eapply R2; eauto.
      + exfalso. destruct R1 as [_ R1], R2 as [R2 _]. eapply R1; eauto.
      + reflexivity.
  Qed.

  (** Every diff belongs to a version of the ledger, [v] included. *)
Lemma splice_versions d : In d D' -> In (Diff.version d) (L ++ [v]).
  Proof.
    intros I. apply in_or_app.
    destruct (new_rows d I) as [[J _] | [[E _] | [n [N [E _]]]]].
    - left. auto.
    - right. left. auto.
    - left. rewrite E. apply (next_some n N).
  Qed.

  (** Every diff of the new chain changes its cell. *)
Lemma splice_no_redundant :
    no_redundant_diffs D -> no_redundant_diffs D'.
  Proof.
    intros Inv d I. unfold changes.
    assert (Same : forall w,
               (vlt w v \/ exists n, next = Some n /\ vle n w) ->
               like_state (holds D' w) (holds D w)).
    { intros w [Hw | [n [E Hw]]].
      - apply like_state_exact. intros c x. apply splice_before; assumption.
      - apply (splice_after n); assumption. }
    destruct (new_rows d I) as [[J H] | [[E F] | [n [N [E R]]]]].
    - specialize (Inv d J). unfold changes in Inv.
      assert (Hw : vlt (vpred (Diff.version d)) v
                   \/ exists n, next = Some n
                                /\ vle n (vpred (Diff.version d))).
      { pose proof (old_not_at d J).
        destruct H as [H | [n [N H]]]; [left; vsolve|].
        right. exists n. split; [assumption | vsolve]. }
      destruct (Same _ Hw) as [S1 S2].
      destruct (Diff.new_value d) as [x|].
      + intros [y [Hy Eyx]]. destruct (S1 _ _ Hy) as [z [Hz Eyz]].
        apply Inv. exists z. split; [assumption|].
        apply (same_text_trans _ _ _ (same_text_sym _ _ Eyz) Eyx).
      + destruct Inv as [x Hx]. destruct (S2 _ _ Hx) as [x' [Hx' _]].
        exists x'. assumption.
    - assert (W : forall x, holds D' (vpred (Diff.version d)) (Diff.cell d) x
                            <-> holds D v (Diff.cell d) x).
      { intros x. rewrite splice_before by vsolve. unfold holds.
        assert (Win : forall d0, latest D v (Diff.cell d) d0 <->
                                 latest D (vpred (Diff.version d))
                                        (Diff.cell d) d0).
        { intros d0. apply latest_window; [vsolve|].
          intros d' I' _ L'. pose proof (old_not_at d' I'). vsolve. }
        split; intros (d0 & H0 & V0); exists d0; split; auto;
          apply Win; assumption. }
      destruct (Diff.new_value d) as [x|].
      + destruct F as [_ F]. intros [y [Hy Eyx]]. apply F. exists y.
        split; [apply W; assumption | assumption].
      + destruct F as [[x Hx] _]. exists x. apply W. assumption.
    - assert (W : like_state (holds D' (vpred (Diff.version d))) S).
      { pose proof (v_lt_next n N). apply splice_at_like; [vsolve|].
        intros m Em. rewrite N in Em. inversion Em; subst. vsolve. }
      destruct W as [W1 W2].
      destruct (Diff.new_value d) as [x|].
      + destruct R as [_ R]. intros [y [Hy Eyx]].
        destruct (W1 _ _ Hy) as [y' [Sy' Eyy']]. apply R. exists y'.
        split; [assumption|].
        apply (same_text_trans _ _ _ (same_text_sym _ _ Eyy') Eyx).
      + destruct R as [[x Hx] _]. destruct (W2 _ _ Hx) as [x' [Hx' _]].
        exists x'. assumption.
  Qed.

End Splice.

(** ** String pools *)

Lemma mem_string_spec s l :
  mem_string s l = true <-> exists t, In t l /\ same_text t s.
Proof.
  unfold mem_string. rewrite existsb_exists.
  split; intros [t [H E]]; exists t; (split; [assumption|]).
  - apply same_text_sym. apply string_eq_spec. assumption.
  - apply string_eq_spec. apply same_text_sym. assumption.
Qed.

Lemma mem_string_false s l :
  mem_string s l = false <-> ~ exists t, In t l /\ same_text t s.
Proof.
  rewrite <- mem_string_spec. destruct (mem_string s l); split; congruence.
Qed.

Lemma NoDup_map_injective {A B} (g : A -> B) (l : list A) a b :
  NoDup (map g l) -> In a l -> In b l -> g a = g b -> a = b.
Proof.
  induction l as [|x l IH]; simpl; intros N Ha Hb E; [destruct Ha|].
  apply NoDup_cons_iff in N. destruct N as [N1 N2].
  destruct Ha as [-> | Ha], Hb as [-> | Hb]; auto.
  - exfalso. apply N1. rewrite E. apply in_map. assumption.
  - exfalso. apply N1. rewrite <- E. apply in_map. assumption.
Qed.

Lemma NoDup_map_filter {A B} (g : A -> B) (keep : A -> bool) (l : list A) :
  NoDup (map g l) -> NoDup (map g (filter keep l)).
Proof.
  induction l as [|x l IH]; simpl; intros N; [constructor|].
  apply NoDup_cons_iff in N. destruct N as [N1 N2].
  destruct (keep x); simpl; [|auto].
  constructor; [|auto]. intros H. apply N1. apply in_map_iff in H.
  destruct H as [y [E Hy]]. apply filter_In in Hy. rewrite <- E.
  apply in_map. tauto.
Qed.

Lemma pool_ok_id_text p i t1 t2 :
  pool_ok p -> In (i, t1) (pool_rows p) -> In (i, t2) (pool_rows p) ->
  t1 = t2.
Proof.
  intros [N _] H1 H2.
  assert (E : (i, t1) = (i, t2))
    by (apply (NoDup_map_injective fst (pool_rows p)); auto).
  congruence.
Qed.

(** The unique key: two rows of a pool whose strings are equal for MySQL
    are the same row. *)
Lemma pool_ok_same_text p i1 i2 t1 t2 :
  pool_ok p -> In (i1, t1) (pool_rows p) -> In (i2, t2) (pool_rows p) ->
  same_text t1 t2 -> i1 = i2 /\ t1 = t2.
Proof.
  intros [_ [N _]] H1 H2 E. rewrite map_map in N.
  assert (K : (i1, t1) = (i2, t2))
    by (apply (NoDup_map_injective _ (pool_rows p) _ _ N H1 H2); exact E).
  inversion K. auto.
Qed.

Lemma pool_ok_text_id p i1 i2 t :
  pool_ok p -> In (i1, t) (pool_rows p) -> In (i2, t) (pool_rows p) ->
  i1 = i2.
Proof.
  intros Ok H1 H2.
  apply (pool_ok_same_text p i1 i2 t t Ok H1 H2 (same_text_refl t)).
Qed.

(** An id stands for one string, and two strings have the same id exactly
    when they are equal for MySQL. *)
Lemma interned_same_text p t1 t2 i :
  pool_ok p -> interned p t1 i -> interned p t2 i -> same_text t1 t2.
Proof.
  intros Ok [u1 [H1 E1]] [u2 [H2 E2]].
  rewrite (pool_ok_id_text p i u1 u2 Ok H1 H2) in E1.
  apply (same_text_trans _ _ _ (same_text_sym _ _ E1) E2).
Qed.

Lemma interned_same_id p t1 t2 i1 i2 :
  pool_ok p -> interned p t1 i1 -> interned p t2 i2 -> same_text t1 t2 ->
  i1 = i2.
Proof.
  intros Ok [u1 [H1 E1]] [u2 [H2 E2]] E.
  apply (pool_ok_same_text p i1 i2 u1 u2 Ok H1 H2).
  apply (same_text_trans _ _ _ E1).
  apply (same_text_trans _ _ _ E). apply same_text_sym. assumption.
Qed.

Lemma interned_grows p p' t i :
  incl (pool_rows p) (pool_rows p') -> interned p t i -> interned p' t i.
Proof. intros Inc [u [H E]]. exists u. auto. Qed.

Lemma interned_text p i u : In (i, u) (pool_rows p) -> interned p u i.
Proof. intros H. exists u. split; [assumption | apply same_text_refl]. Qed.

(** Interning keeps the pool well formed, keeps every old entry, and adds
    exactly the given strings, one value of the counter each. *)
Lemma pool_insert_inr p texts p' :
  pool_insert p texts = inr p' -> pool_ok p ->
  pool_ok p'
  /\ exists new, pool_rows p' = pool_rows p ++ new /\ map snd new = texts
                 /\ auto_increment p'
                    = auto_increment p + Z.of_nat (List.length texts).
Proof.
  revert p; induction texts as [|t texts IH]; intros p H Ok.
  - simpl in H. inversion H; subst. split; [assumption|]. exists [].
    rewrite app_nil_r. simpl. repeat split. lia.
  - simpl in H. destruct (int_max <? auto_increment p); [discriminate|].
    destruct (mem_string t (pool_texts p)) eqn:E; [discriminate|].
    apply mem_string_false in E.
    apply IH in H.
    + destruct H as [Ok' [new [E1 [E2 E3]]]]. split; [assumption|].
      exists ((auto_increment p, t) :: new).
      cbn [pool_rows auto_increment] in *.
      rewrite E1, <- app_assoc. split; [reflexivity|].
      split; [simpl; congruence|].
      rewrite E3. cbn [List.length]. lia.
    + destruct Ok as [N1 [N2 B]]. unfold pool_ok.
      cbn [pool_rows auto_increment].
      split; [|split].
      * rewrite map_app. apply NoDup_app; [assumption| |].
        -- simpl. constructor; [tauto | constructor].
        -- intros a Ha Hb. simpl in Hb. destruct Hb as [Hb | []].
           apply in_map_iff in Ha. destruct Ha as [r [Er Hr]].
           apply B in Hr. lia.
      * rewrite !map_app. apply NoDup_app; [assumption| |].
        -- simpl. constructor; [tauto | constructor].
        -- intros a Ha Hb. simpl in Hb. destruct Hb as [Hb | []].
           apply E. apply in_map_iff in Ha. destruct Ha as [u [Eu Hu]].
           exists u. split; [assumption|]. unfold same_text. congruence.
      * intros r Hr. apply in_app_or in Hr.
        destruct Hr as [Hr | [<- | []]]; [apply B in Hr|simpl]; lia.
Qed.

(** [SELECT DISTINCT] keeps one string of every class of the
    collation. *)
Lemma in_select_distinct l t : In t (select_distinct l) -> In t l.
Proof.
  induction l as [|a l IH]; simpl; [tauto|].
  intros [H | H]; [auto|]. apply filter_In in H. right. apply IH. tauto.
Qed.

Lemma select_distinct_covers l t :
  In t l -> exists u, In u (select_distinct l) /\ same_text u t.
Proof.
  induction l as [|a l IH]; simpl; [tauto|].
  intros [<- | H]; [exists a; split; [auto | apply same_text_refl]|].
  destruct (IH H) as [u [Hu Eu]].
  destruct (string_eq u a) eqn:K.
  - apply string_eq_spec in K. exists a. split; [auto|].
    apply (same_text_trans _ _ _ (same_text_sym _ _ K) Eu).
  - exists u. split; [|assumption]. right. apply filter_In.
    rewrite K. auto.
Qed.

Lemma select_distinct_nodup l : NoDup (map collation (select_distinct l)).
Proof.
  induction l as [|a l IH]; simpl; constructor.
  - intros H. apply in_map_iff in H. destruct H as [u [E Hu]].
    apply filter_In in Hu. destruct Hu as [_ Hu].
    apply negb_true_iff in Hu. apply string_eq_false in Hu. apply Hu.
    exact E.
  - apply NoDup_map_filter. assumption.
Qed.

Lemma filter_length {A} (keep : A -> bool) l :
  (List.length (filter keep l) <= List.length l)%nat.
Proof.
  induction l as [|a l IH]; simpl; [lia|]. destruct (keep a); simpl; lia.
Qed.

Lemma select_distinct_length l :
  (List.length (select_distinct l) <= List.length l)%nat.
Proof.
  induction l as [|a l IH]; simpl; [lia|].
  pose proof (filter_length (fun u => negb (string_eq u a))
                            (select_distinct l)). lia.
Qed.

Lemma in_select_distinct_not_in texts p t :
  In t (select_distinct_not_in texts p) -> In t texts /\ ~ pooled p t.
Proof.
  unfold select_distinct_not_in. intros H. apply in_select_distinct in H.
  apply filter_In in H. destruct H as [H K]. split; [assumption|].
  apply negb_true_iff in K. apply mem_string_false in K. exact K.
Qed.

Lemma select_distinct_not_in_covers texts p t :
  In t texts ->
  pooled p t
  \/ exists u, In u (select_distinct_not_in texts p) /\ same_text u t.
Proof.
  intros H. destruct (mem_string t (pool_texts p)) eqn:E.
  - left. apply mem_string_spec in E. exact E.
  - right. unfold select_distinct_not_in. apply select_distinct_covers.
    apply filter_In. rewrite E. auto.
Qed.

Lemma select_distinct_not_in_length texts p :
  (List.length (select_distinct_not_in texts p) <= List.length texts)%nat.
Proof.
  unfold select_distinct_not_in.
  pose proof (select_distinct_length
                (filter (fun t => negb (mem_string t (pool_texts p))) texts)).
  pose proof (filter_length (fun t => negb (mem_string t (pool_texts p)))
                            texts).
  lia.
Qed.

Lemma pooled_grows p p' t :
  incl (pool_rows p) (pool_rows p') -> pooled p t -> pooled p' t.
Proof.
  intros Inc [u [Hu E]]. exists u. split; [|assumption].
  unfold pool_texts in *. apply in_map_iff in Hu. destruct Hu as [r [Er Hr]].
  apply in_map_iff. exists r. auto.
Qed.

(** After lines 253-279 every string of the parsed table is interned. *)
Lemma pool_insert_interns p texts p' :
  pool_insert p (select_distinct_not_in texts p) = inr p' -> pool_ok p ->
  forall t, In t texts -> pooled p' t.
Proof.
  intros H Ok t Ht.
  destruct (pool_insert_inr _ _ _ H Ok) as [_ [new [E1 [E2 _]]]].
  destruct (select_distinct_not_in_covers texts p t Ht) as [K | [u [Hu Eu]]].
  - apply (pooled_grows p); [|assumption]. rewrite E1.
    apply incl_appl, incl_refl.
  - exists u. split; [|assumption]. unfold pool_texts.
    rewrite E1, map_app, E2. apply in_or_app. auto.
Qed.

(** The interning statement cannot fail on a well-formed pool whose
    counter leaves room. *)
Lemma pool_insert_total p texts :
  NoDup (map collation texts) -> (forall t, In t texts -> ~ pooled p t) ->
  auto_increment p + Z.of_nat (List.length texts) <= int_max + 1 ->
  exists p', pool_insert p texts = inr p'.
Proof.
  revert p; induction texts as [|t texts IH]; intros p N F R.
  - simpl. eauto.
  - cbn [pool_insert]. cbn [List.length] in R.
    simpl in N. apply NoDup_cons_iff in N. destruct N as [N1 N2].
    assert (E0 : (int_max <? auto_increment p) = false)
      by (apply Z.ltb_ge; lia).
    rewrite E0.
    destruct (mem_string t (pool_texts p)) eqn:E.
    + apply mem_string_spec in E. exfalso. apply (F t); [left; reflexivity|].
      exact E.
    + apply IH; [assumption| |cbn [auto_increment]; lia].
      intros u Hu [w [Hw Ew]]. unfold pool_texts in Hw. cbn [pool_rows] in Hw.
      rewrite map_app in Hw. apply in_app_or in Hw.
      destruct Hw as [Hw | [<- | []]].
      * apply (F u); [right; assumption|]. exists w. auto.
      * apply N1. simpl in Ew. rewrite Ew. apply in_map. assumption.
Qed.

(** ** The parsed table joined with the pools *)

Lemma left_join_pool {A} (text : A -> string) (l : list A)
      (rows : list (Z * string)) a o :
  In (a, o) (left_join (fun a b => string_eq (text a) (snd b)) l rows) <->
  In a l /\ match o with
            | Some r => In r rows /\ same_text (snd r) (text a)
            | None => ~ exists r, In r rows /\ same_text (snd r) (text a)
            end.
Proof.
  destruct o as [r|].
  - rewrite in_left_join_some, string_eq_spec. split.
    + intros [H1 [H2 H3]]. auto using same_text_sym.
    + intros [H1 [H2 H3]]. auto using same_text_sym.
  - rewrite in_left_join_none. split; intros [H1 H2]; (split; [assumption|]).
    + intros [r [Hr E]]. specialize (H2 r Hr). apply string_eq_false in H2.
      apply H2. apply same_text_sym. assumption.
    + intros b Hb. apply string_eq_false. intros E. apply H2.
      exists b. auto using same_text_sym.
Qed.

Lemma pooled_row p t :
  pooled p t <-> exists r, In r (pool_rows p) /\ same_text (snd r) t.
Proof.
  unfold pooled, pool_texts. split.
  - intros [u [Hu E]]. apply in_map_iff in Hu. destruct Hu as [r [<- Hr]].
    eauto.
  - intros [r [Hr E]]. exists (snd r). split; [apply in_map|]; assumption.
Qed.

Lemma in_join_pools db parsed j :
  all_interned db parsed ->
  (In j (join_pools db parsed) <->
   exists r c, In r parsed /\ parsed_cell db r c
               /\ j = Joined.mk r (Some (fst (fst c))) (Some (snd (fst c)))
                                (Some (snd c))).
Proof.
  intros AI. unfold join_pools. rewrite in_map_iff. split.
  - intros [[[[r om] ol] ow] [<- H]].
    apply (left_join_pool (fun j => Parsed.week (fst (fst j)))) in H.
    destruct H as [H Hw]. simpl in Hw.
    apply (left_join_pool (fun j => Parsed.location (fst j))) in H.
    destruct H as [H Hl]. simpl in Hl.
    apply (left_join_pool Parsed.measurement_type) in H.
    destruct H as [H Hm].
    destruct (AI r H) as [Am [Al Aw]].
    apply pooled_row in Am, Al, Aw.
    destruct om as [[m tm]|]; [|contradiction].
    destruct ol as [[l tl]|]; [|contradiction].
    destruct ow as [[w tw]|]; [|contradiction].
    simpl in *. exists r, (m, l, w). split; [assumption|].
    destruct Hm as [Hm Em], Hl as [Hl El], Hw as [Hw Ew].
    split; [|reflexivity]. unfold parsed_cell, interned. simpl.
    split; [exists tm; auto|]. split; [exists tl; auto | exists tw; auto].
  - intros [r [[[m l] w] [Hr [[[um [Hm Em]] [[ul [Hl El]] [uw [Hw Ew]]]] ->]]]].
    simpl in *.
    exists (((r, Some (m, um)), Some (l, ul)), Some (w, uw)).
    split; [reflexivity|].
    apply (left_join_pool (fun j => Parsed.week (fst (fst j)))).
    split; [|simpl; auto].
    apply (left_join_pool (fun j => Parsed.location (fst j))).
    split; [|simpl; auto].
    apply (left_join_pool Parsed.measurement_type).
    split; [assumption | simpl; auto].
Qed.

Lemma snapshot_parsed db parsed c x :
  all_interned db parsed ->
  (snapshot (join_pools db parsed) c x <->
   exists r, In r parsed /\ parsed_cell db r c /\ Parsed.value r = x).
Proof.
  intros AI. unfold snapshot. split.
  - intros [j [Hj [Hc Hx]]]. apply (in_join_pools _ _ _ AI) in Hj.
    destruct Hj as [r [c' [Hr [Hp ->]]]]. simpl in *.
    unfold joined_cell in Hc. simpl in Hc.
    exists r. split; [assumption|]. split; [|assumption].
    destruct c' as [[? ?] ?]. simpl in *. inversion Hc; subst. assumption.
  - intros [r [Hr [Hp Hx]]].
    exists (Joined.mk r (Some (fst (fst c))) (Some (snd (fst c)))
                      (Some (snd c))).
    split; [apply (in_join_pools _ _ _ AI); eauto|].
    split; [|assumption]. unfold joined_cell. simpl.
    destruct c as [[? ?] ?]. reflexivity.
Qed.

(** ** The four [INSERT ... SELECT ... WHERE ... NOT IN] statements *)

Lemma in3_decided {A B} (eq : A -> B -> option bool) (b : B -> bool) x sub :
  (forall y, In y sub -> eq x y = Some (b y)) ->
  in3 eq x sub = Some (existsb b sub).
Proof.
  induction sub as [|y sub IH]; simpl; intros H; [reflexivity|].
  rewrite (H y) by auto. rewrite IH by auto.
  destruct (b y), (existsb b sub); reflexivity.
Qed.

Lemma not_in3_decided {A B} (eq : A -> B -> option bool) (b : B -> bool)
      x sub :
  (forall y, In y sub -> eq x y = Some (b y)) ->
  is_true (not_in3 eq x sub) = negb (existsb b sub).
Proof.
  intros H. unfold not_in3. rewrite (in3_decided eq b x sub H). simpl.
  destruct (existsb b sub); reflexivity.
Qed.

Lemma cell_eqb_spec c s : cell_eqb c s = true <-> State.cell s = c.
Proof.
  unfold cell_eqb, State.cell. destruct c as [[m l] w]. simpl.
  rewrite !andb_true_iff, !Z.eqb_eq. split.
  - intros [[-> ->] ->]. reflexivity.
  - intros H. inversion H. auto.
Qed.

Lemma cell_value_eqb_spec c x s :
  cell_value_eqb c x s = true <->
  State.cell s = c /\ same_text (State.value s) x.
Proof.
  unfold cell_value_eqb.
  rewrite andb_true_iff, cell_eqb_spec, string_eq_spec.
  split; intros [H1 H2]; auto using same_text_sym.
Qed.

Lemma joined_eq_state_some j c s :
  joined_cell j = Some c -> joined_eq_state j s = Some (cell_eqb c s).
Proof.
  unfold joined_cell, joined_eq_state, cell_eqb.
  destruct (Joined.measurement_type_id j), (Joined.location_id j),
    (Joined.week_id j); try discriminate.
  intros H. inversion H; subst. simpl.
  destruct (z =? _), (z0 =? _), (z1 =? _); reflexivity.
Qed.

Lemma joined_eq_state_value_some j c s :
  joined_cell j = Some c ->
  joined_eq_state_value j s
  = Some (cell_value_eqb c (Parsed.value (Joined.parsed j)) s).
Proof.
  unfold joined_cell, joined_eq_state_value, cell_value_eqb, cell_eqb.
  destruct (Joined.measurement_type_id j), (Joined.location_id j),
    (Joined.week_id j); try discriminate.
  intros H. inversion H; subst. simpl.
  destruct (z =? _), (z0 =? _), (z1 =? _), (string_eq _ _); reflexivity.
Qed.

Lemma diff_of_joined_some v nv j c :
  joined_cell j = Some c -> diff_of_joined v nv j = inr (diff_at v c nv).
Proof.
  unfold joined_cell, diff_of_joined, diff_at.
  destruct (Joined.measurement_type_id j), (Joined.location_id j),
    (Joined.week_id j); try discriminate.
  intros H. inversion H; subst. reflexivity.
Qed.

Lemma diff_of_state_at v nv s :
  diff_of_state v nv s = diff_at v (State.cell s) nv.
Proof. reflexivity. Qed.

Lemma diff_is_at d : d = diff_at (Diff.version d) (Diff.cell d)
                                 (Diff.new_value d).
Proof. destruct d; reflexivity. Qed.

Section Statements.
Variable J : list Joined.row.
Variable T : list State.row.
Variable Hd : Cell -> string -> Prop.

Hypothesis J_ids : forall j, In j J -> exists c, joined_cell j = Some c.
Hypothesis T_spec :
    forall s, In s T <-> Hd (State.cell s) (State.value s).

Lemma T_has c x : Hd c x <-> exists s, In s T /\ State.cell s = c
                                         /\ State.value s = x.
  Proof.
    split.
    - intros H. exists (State.mk (fst (fst c)) (snd (fst c)) (snd c) x).
      destruct c as [[m l] w]. simpl. split; [|auto].
      apply T_spec. assumption.
    - intros [s [Hs [<- <-]]]. apply T_spec. assumption.
  Qed.

Lemma not_in_T j c :
    joined_cell j = Some c ->
    (is_true (not_in3 joined_eq_state_value j T) = true <->
     ~ exists y, Hd c y /\ same_text y (Parsed.value (Joined.parsed j))).
  Proof.
    intros Hc.
    rewrite (not_in3_decided joined_eq_state_value
               (cell_value_eqb c (Parsed.value (Joined.parsed j))))
      by (intros; apply joined_eq_state_value_some; assumption).
    rewrite negb_true_iff. split.
    - intros E [y [Hy Ey]]. apply T_has in Hy.
      destruct Hy as [s [Hs [Hk Hv]]].
      assert (existsb (cell_value_eqb c (Parsed.value (Joined.parsed j))) T
              = true).
      { apply existsb_exists. exists s. split; [assumption|].
        apply cell_value_eqb_spec. rewrite Hv. auto. }
      congruence.
    - intros N. destruct (existsb _ T) eqn:E; [|reflexivity].
      apply existsb_exists in E. destruct E as [s [Hs K]].
      apply cell_value_eqb_spec in K. destruct K as [K1 K2]. exfalso.
      apply N. exists (State.value s). split; [|assumption].
      apply T_has. eauto.
  Qed.

Lemma cell_not_in_T j c :
    joined_cell j = Some c ->
    (is_true (not_in3 joined_eq_state j T) = true <-> forall x, ~ Hd c x).
  Proof.
    intros Hc.
    rewrite (not_in3_decided joined_eq_state (cell_eqb c))
      by (intros; apply joined_eq_state_some; assumption).
    rewrite negb_true_iff. split.
    - intros E x Hx. apply T_has in Hx. destruct Hx as [s [Hs [Hk _]]].
      assert (existsb (cell_eqb c) T = true).
      { apply existsb_exists. exists s. split; [assumption|].
        apply cell_eqb_spec. assumption. }
      congruence.
    - intros N. destruct (existsb _ T) eqn:E; [|reflexivity].
      apply existsb_exists in E. destruct E as [s [Hs K]].
      apply cell_eqb_spec in K. exfalso. apply (N (State.value s)).
      apply T_has. eauto.
  Qed.

Lemma not_in_J s :
    is_true (not_in3 (fun s j => joined_eq_state_value j s) s J) = true <->
    ~ exists y, snapshot J (State.cell s) y /\ same_text y (State.value s).
  Proof.
    rewrite (not_in3_decided (fun s j => joined_eq_state_value j s)
               (fun j => match joined_cell j with
                         | Some c => cell_value_eqb
                                       c (Parsed.value (Joined.parsed j)) s
                         | None => false
                         end)).
    - rewrite negb_true_iff. split.
      + intros E [y [[j [Hj [Hc Hx]]] Ey]].
        assert (existsb (fun j => match joined_cell j with
                                  | Some c => cell_value_eqb
                                       c (Parsed.value (Joined.parsed j)) s
                                  | None => false
                                  end) J = true).
        { apply existsb_exists. exists j. split; [assumption|].
          rewrite Hc. apply cell_value_eqb_spec. rewrite Hx.
          auto using same_text_sym. }
        congruence.
      + intros N. destruct (existsb _ J) eqn:E; [|reflexivity].
        apply existsb_exists in E. destruct E as [j [Hj K]].
        destruct (joined_cell j) as [c|] eqn:Hc; [|discriminate].
        apply cell_value_eqb_spec in K. destruct K as [K1 K2].
        exfalso. apply N. exists (Parsed.value (Joined.parsed j)).
        split; [|auto using same_text_sym]. exists j. rewrite K1. auto.
    - intros j Hj. destruct (J_ids j Hj) as [c Hc]. rewrite Hc.
      apply joined_eq_state_value_some. assumption.
  Qed.

Lemma cell_not_in_J s :
    is_true (not_in3 (fun s j => joined_eq_state j s) s J) = true <->
    forall x, ~ snapshot J (State.cell s) x.
  Proof.
    rewrite (not_in3_decided (fun s j => joined_eq_state j s)
               (fun j => match joined_cell j with
                         | Some c => cell_eqb c s
                         | None => false
                         end)).
    - rewrite negb_true_iff. split.
      + intros E x [j [Hj [Hc Hx]]].
        assert (existsb (fun j => match joined_cell j with
                                  | Some c => cell_eqb c s
                                  | None => false
                                  end) J = true).
        { apply existsb_exists. exists j. split; [assumption|].
          rewrite Hc. apply cell_eqb_spec. reflexivity. }
        congruence.
      + intros N. destruct (existsb _ J) eqn:E; [|reflexivity].
        apply existsb_exists in E. destruct E as [j [Hj K]].
        destruct (joined_cell j) as [c|] eqn:Hc; [|discriminate].
        apply cell_eqb_spec in K.
        exfalso. apply (N (Parsed.value (Joined.parsed j))).
        exists j. rewrite K. auto.
    - intros j Hj. destruct (J_ids j Hj) as [c Hc]. rewrite Hc.
      apply joined_eq_state_some. assumption.
  Qed.

  (** Rows selected from the joined parsed table. *)
Lemma from_joined v (keep : Joined.row -> bool)
        (nv : Joined.row -> option string) rows d :
    sequence (map (fun j => diff_of_joined v (nv j) j) (filter keep J))
    = inr rows ->
    (In d rows <->
     exists j c, In j J /\ keep j = true /\ joined_cell j = Some c
                 /\ d = diff_at v c (nv j)).
  Proof.
    intros H. apply sequence_inr in H. split.
    - intros Hd'. assert (Hin : In (inr d) (map (@inr exn _) rows))
        by (apply in_map; assumption).
      rewrite <- H in Hin. apply in_map_iff in Hin.
      destruct Hin as [j [E Hj]]. apply filter_In in Hj.
      destruct Hj as [Hj K]. destruct (J_ids j Hj) as [c Hc].
      rewrite (diff_of_joined_some v (nv j) j c Hc) in E.
      inversion E. exists j, c. auto.
    - intros [j [c [Hj [K [Hc ->]]]]].
      assert (Hin : In (@inr exn _ (diff_at v c (nv j)))
                       (map (@inr exn _) rows)).
      { rewrite <- H. apply in_map_iff. exists j. split.
        - apply diff_of_joined_some. assumption.
        - apply filter_In. auto. }
      apply in_map_iff in Hin. destruct Hin as [d' [E Hd']].
      inversion E; subst. assumption.
  Qed.

Lemma forward_values_spec v rows d :
    forward_values v J T = inr rows ->
    (In d rows <->
     Diff.version d = v /\
     exists x, Diff.new_value d = Some x /\ snapshot J (Diff.cell d) x
               /\ ~ exists y, Hd (Diff.cell d) y /\ same_text y x).
  Proof.
    intros H. unfold forward_values in H.
    rewrite (from_joined v _ _ rows d H). split.
    - intros [j [c [Hj [K [Hc ->]]]]].
      rewrite diff_at_version, diff_at_cell, diff_at_value.
      split; [reflexivity|]. exists (Parsed.value (Joined.parsed j)).
      split; [reflexivity|]. split; [exists j; auto|].
      apply (not_in_T j c Hc). assumption.
    - intros [Ev [x [En [[j [Hj [Hc Hx]]] N]]]].
      exists j, (Diff.cell d). repeat split; try assumption.
      + apply (not_in_T j _ Hc). rewrite Hx. assumption.
      + rewrite Hx, <- En, <- Ev. apply diff_is_at.
  Qed.

Lemma repair_removals_spec v rows d :
    repair_removals v J T = inr rows ->
    (In d rows <->
     Diff.version d = v /\ Diff.new_value d = None
     /\ (exists x, snapshot J (Diff.cell d) x)
     /\ forall x, ~ Hd (Diff.cell d) x).
  Proof.
    intros H. unfold repair_removals in H.
    rewrite (from_joined v _ (fun _ => None) rows d H). split.
    - intros [j [c [Hj [K [Hc ->]]]]].
      rewrite diff_at_version, diff_at_cell, diff_at_value.
      split; [reflexivity|]. split; [reflexivity|].
      split; [exists (Parsed.value (Joined.parsed j)), j; auto|].
      apply (cell_not_in_T j c Hc). assumption.
    - intros [Ev [En [[x [j [Hj [Hc Hx]]]] N]]].
      exists j, (Diff.cell d). repeat split; try assumption.
      + apply (cell_not_in_T j _ Hc). assumption.
      + rewrite <- En, <- Ev. apply diff_is_at.
  Qed.

Lemma forward_removals_spec v rows d :
    forward_removals v J T = inr rows ->
    (In d rows <->
     Diff.version d = v /\ Diff.new_value d = None
     /\ (exists x, Hd (Diff.cell d) x)
     /\ forall x, ~ snapshot J (Diff.cell d) x).
  Proof.
    intros H. unfold forward_removals in H. inversion H; subst. clear H.
    rewrite in_map_iff. split.
    - intros [s [<- Hs]]. apply filter_In in Hs. destruct Hs as [Hs K].
      rewrite diff_of_state_at, diff_at_version, diff_at_cell, diff_at_value.
      split; [reflexivity|]. split; [reflexivity|].
      split; [exists (State.value s); apply T_spec; assumption|].
      apply cell_not_in_J. assumption.
    - intros [Ev [En [[x Hx] N]]]. apply T_has in Hx.
      destruct Hx as [s [Hs [Hc Hv]]]. exists s. split.
      + rewrite diff_of_state_at, Hc, <- Ev, <- En. symmetry.
        apply diff_is_at.
      + apply filter_In. split; [assumption|]. apply cell_not_in_J.
        rewrite Hc. assumption.
  Qed.

Lemma repair_values_spec v rows d :
    repair_values v J T = inr rows ->
    (In d rows <->
     Diff.version d = v /\
     exists x, Diff.new_value d = Some x /\ Hd (Diff.cell d) x
               /\ ~ exists y, snapshot J (Diff.cell d) y /\ same_text y x).
  Proof.
    intros H. unfold repair_values in H. inversion H; subst. clear H.
    rewrite in_map_iff. split.
    - intros [s [<- Hs]]. apply filter_In in Hs. destruct Hs as [Hs K].
      rewrite diff_of_state_at, diff_at_version, diff_at_cell, diff_at_value.
      split; [reflexivity|]. exists (State.value s).
      split; [reflexivity|]. split; [apply T_spec; assumption|].
      apply not_in_J. assumption.
    - intros [Ev [x [En [Hx N]]]]. apply T_has in Hx.
      destruct Hx as [s [Hs [Hc Hv]]]. exists s. split.
      + rewrite diff_of_state_at, Hc, Hv, <- Ev, <- En. symmetry.
        apply diff_is_at.
      + apply filter_In. split; [assumption|]. apply not_in_J.
        rewrite Hc, Hv. assumption.
  Qed.
End Statements.

(** ** Running the monad *)

Lemma bind_inr {A B} (m : M A) (k : A -> M B) c b c' :
  bind m k c = (inr b, c') ->
  exists a c1, m c = (inr a, c1) /\ k a c1 = (inr b, c').
Proof.
  unfold bind. destruct (m c) as [[e|a] c1]; [discriminate|]. intros H. eauto.
Qed.

Lemma bind_inl {A B} (m : M A) (k : A -> M B) c e c' :
  bind m k c = (inl e, c') ->
  m c = (inl e, c')
  \/ exists a c1, m c = (inr a, c1) /\ k a c1 = (inl e, c').
Proof.
  unfold bind. destruct (m c) as [[e0|a] c1]; intros H;
    [left; inversion H; reflexivity|].
  right. eauto.
Qed.

Lemma execute_inr {A} f line (m : M A) c a c' :
  execute f line m c = (inr a, c') -> f line = false /\ m c = (inr a, c').
Proof. unfold execute. destruct (f line); [discriminate | auto]. Qed.

Lemma execute_no_faults {A} line (m : M A) c :
  execute no_faults line m c = m c.
Proof. reflexivity. Qed.

Lemma try_except_inr {A} (m : M A) c a c' :
  try_except_IntegrityError m (fun e => raise (Exception e)) c
  = (inr a, c') ->
  m c = (inr a, c').
Proof.
  unfold try_except_IntegrityError, raise.
  destruct (m c) as [[[]|a0] c1]; congruence.
Qed.

(** ** What a successful transaction leaves in the working copy *)

Lemma executemany_insert_parsed rows c c' :
  executemany insert_parsed rows c = (inr tt, c') ->
  c' = set_parsed c (norostat_raw_datatable_parsed c ++ rows)
  /\ forallb Parsed.fits rows = true
  /\ (distinct_keys (Parsed.same_key collation)
                     (norostat_raw_datatable_parsed c) ->
      distinct_keys (Parsed.same_key collation)
                    (norostat_raw_datatable_parsed c ++ rows)).
Proof.
  revert c c'; induction rows as [|r rows IH]; simpl; intros c c' H.
  - inversion H; subst. rewrite app_nil_r. destruct c'; auto.
  - apply bind_inr in H. destruct H as (u & c1 & H1 & H2).
    unfold insert_parsed in H1.
    destruct (Parsed.fits r) eqn:F; [|discriminate].
    simpl in H1.
    destruct (existsb (Parsed.same_key collation r)
                      (norostat_raw_datatable_parsed c))
      eqn:E; [discriminate|].
    inversion H1; subst. clear H1. apply IH in H2. simpl in H2.
    destruct H2 as [E2 [H2 H3]].
    split; [rewrite E2, <- app_assoc; reflexivity|].
    split; [assumption|].
    intros Dk.
    replace (norostat_raw_datatable_parsed c ++ r :: rows)
      with ((norostat_raw_datatable_parsed c ++ [r]) ++ rows)
      by (rewrite <- app_assoc; reflexivity).
    apply H3. apply distinct_keys_app. split; [assumption|].
    intros x Hx.
    destruct (Parsed.same_key collation r x) eqn:K; [|reflexivity].
    assert (existsb (Parsed.same_key collation r)
                    (norostat_raw_datatable_parsed c)
            = true) by (apply existsb_exists; eauto).
    congruence.
Qed.

Lemma insert_selected_inr rows c c' :
  insert_selected rows c = (inr tt, c') ->
  exists l, rows c = inr l
            /\ forallb (diff_references (work c)) l = true
            /\ insert_rows Diff.same_key
                 (norostat_raw_datatable_diffs (work c)) l
               = inr (norostat_raw_datatable_diffs (work c) ++ l)
            /\ c' = set_work c (set_diffs (work c)
                        (norostat_raw_datatable_diffs (work c) ++ l)).
Proof.
  unfold insert_selected, insert_diffs. intros H.
  destruct (rows c) as [e|l]; [discriminate|]. exists l.
  destruct (forallb (diff_references (work c)) l); [|discriminate].
  destruct (insert_rows Diff.same_key _ l) as [e|t] eqn:E; [discriminate|].
  destruct (insert_rows_inr _ _ _ _ E) as [-> _].
  inversion H; subst. auto.
Qed.

Lemma insert_pool_inr pool set text c c' :
  insert_pool pool set text c = (inr tt, c') ->
  exists p, pool_insert (pool (work c))
              (select_distinct_not_in
                 (map text (norostat_raw_datatable_parsed c)) (pool (work c)))
            = inr p
            /\ c' = set_work c (set (work c) p).
Proof.
  unfold insert_pool. intros H.
  destruct (pool_insert _ _) as [e|p]; [discriminate|].
  inversion H; subst. eauto.
Qed.

Lemma join_pools_pools db1 db2 parsed :
  norostat_raw_datatable_measurement_type_pool db1
  = norostat_raw_datatable_measurement_type_pool db2 ->
  norostat_raw_datatable_location_pool db1
  = norostat_raw_datatable_location_pool db2 ->
  norostat_raw_datatable_week_pool db1
  = norostat_raw_datatable_week_pool db2 ->
  join_pools db1 parsed = join_pools db2 parsed.
Proof. unfold join_pools. intros -> -> ->. reflexivity. Qed.

Ltac step H H1 :=
  let u := fresh "u" in
  let c := fresh "c" in
  apply bind_inr in H; destruct H as (u & c & H1 & H);
  try match type of u with unit => destruct u end;
  try (apply execute_inr in H1; destruct H1 as [_ H1]).

(** What the read phase leaves in the temporary tables. *)
Lemma read_inr f long_raw c c' next_version_if_any :
  record_long_raw_read f long_raw c = (inr next_version_if_any, c') ->
  next_version_if_any
  = firstn 1 (order_by_version
                (filter (vltb (version_of long_raw))
                        (norostat_raw_datatable_version_list (work c))))
  /\ forallb Parsed.fits (parsed_params long_raw) = true
  /\ distinct_keys (Parsed.same_key collation) (parsed_params long_raw)
  /\ exists nxt,
       c' = mkCnx (committed c) (work c) (parsed_params long_raw)
                  (select_latest (norostat_raw_datatable_diffs (work c))
                                 (version_of long_raw))
                  nxt
       /\ match next_version_if_any with
          | [] => True
          | n :: _ =>
              nxt = select_latest (norostat_raw_datatable_diffs (work c)) n
          end.
Proof.
  unfold record_long_raw_read. intros H.
  step H H1. inversion H1; subst; clear H1.
  step H H1. unfold create_parsed in H1. inversion H1; subst; clear H1.
  step H H1. apply executemany_insert_parsed in H1. simpl in H1.
  destruct H1 as [-> [Fits Keys]]. specialize (Keys Logic.I).
  step H H1. unfold create_previous in H1. inversion H1; subst; clear H1.
  step H H1. unfold insert_previous in H1. simpl in H1.
  destruct (insert_rows State.same_key [] _) as [e|prev] eqn:Eprev;
    [discriminate|].
  apply insert_rows_inr in Eprev. destruct Eprev as [-> _]. simpl in H1.
  inversion H1; subst; clear H1.
  step H H1. unfold select_next_version in H1. cbv beta in H1.
  inversion H1; subst; clear H1.
  step H H1. unfold expect_result_in in H1.
  destruct (_ <=? 1)%nat; [|discriminate]. inversion H1; subst; clear H1.
  step H H1. inversion H; subst; clear H.
  split; [reflexivity|]. split; [assumption|]. split; [assumption|].
  simpl work in *.
  destruct (order_by_version
              (filter (vltb (version_of long_raw))
                      (norostat_raw_datatable_version_list (work c0))))
    as [|n rest] eqn:En; simpl in H1.
  - inversion H1; subst; clear H1. simpl. eexists. split; [reflexivity|].
    trivial.
  - step H1 H2. unfold create_next in H2. inversion H2; subst; clear H2.
    apply execute_inr in H1. destruct H1 as [_ H1].
    unfold insert_next in H1. simpl in H1.
    destruct (insert_rows State.same_key [] _) as [e|nxt] eqn:Enxt;
      [discriminate|].
    apply insert_rows_inr in Enxt. destruct Enxt as [-> _]. simpl in H1.
    inversion H1; subst; clear H1. simpl. eexists. split; reflexivity.
Qed.

(** What a successful write phase leaves in the working copy. *)
Lemma write_inr f long_raw nvl c c' :
  let v := version_of long_raw in
  let D := norostat_raw_datatable_diffs (work c) in
  let L := norostat_raw_datatable_version_list (work c) in
  record_long_raw_write f long_raw nvl c = (inr tt, c') ->
  committed c' = committed c
  /\ norostat_point_version_list (work c')
     = norostat_point_version_list (work c)
  /\ norostat_point_diffs (work c') = norostat_point_diffs (work c)
  /\ ~ In v L
  /\ norostat_raw_datatable_version_list (work c') = L ++ [v]
  /\ pool_insert (norostat_raw_datatable_measurement_type_pool (work c))
       (select_distinct_not_in
          (map Parsed.measurement_type (norostat_raw_datatable_parsed c))
          (norostat_raw_datatable_measurement_type_pool (work c)))
     = inr (norostat_raw_datatable_measurement_type_pool (work c'))
  /\ pool_insert (norostat_raw_datatable_location_pool (work c))
       (select_distinct_not_in
          (map Parsed.location (norostat_raw_datatable_parsed c))
          (norostat_raw_datatable_location_pool (work c)))
     = inr (norostat_raw_datatable_location_pool (work c'))
  /\ pool_insert (norostat_raw_datatable_week_pool (work c))
       (select_distinct_not_in
          (map Parsed.week (norostat_raw_datatable_parsed c))
          (norostat_raw_datatable_week_pool (work c)))
     = inr (norostat_raw_datatable_week_pool (work c'))
  /\ (distinct_keys Diff.same_key D ->
      distinct_keys Diff.same_key (norostat_raw_datatable_diffs (work c')))
  /\ let J := join_pools (work c') (norostat_raw_datatable_parsed c) in
     exists fv fr,
       forward_values v J (norostat_raw_datatable_previous c) = inr fv
       /\ forward_removals v J (norostat_raw_datatable_previous c) = inr fr
       /\ match nvl with
          | [] => norostat_raw_datatable_diffs (work c') = D ++ fv ++ fr
          | n :: _ =>
              exists rv rr,
                repair_values n J (norostat_raw_datatable_next c) = inr rv
                /\ repair_removals n J (norostat_raw_datatable_next c)
                   = inr rr
                /\ norostat_raw_datatable_diffs (work c')
                   = delete_at n (D ++ fv ++ fr) ++ rv ++ rr
          end.
Proof.
  intros v D L. unfold record_long_raw_write, record_long_raw_diffs.
  fold v. intros H.
  step H H1. apply try_except_inr in H1.
  apply execute_inr in H1. destruct H1 as [_ H1].
  unfold insert_version in H1. simpl in H1.
  destruct (existsb _ _) eqn:E; [discriminate|].
  inversion H1; subst; clear H1.
  assert (New : ~ In v L).
  { intros Hin.
    assert (existsb (veqb v) L = true).
    { apply existsb_exists. exists v. split; [assumption|].
      apply veqb_spec. reflexivity. }
    unfold v, L in *. congruence. }
  step H H1. apply insert_pool_inr in H1. destruct H1 as (pm & Epm & ->).
  step H H1. apply insert_pool_inr in H1. destruct H1 as (pl & Epl & ->).
  step H H1. apply insert_pool_inr in H1. destruct H1 as (pw & Epw & ->).
  step H H1. apply insert_selected_inr in H1.
  destruct H1 as (fv & Efv & _ & Ifv & ->).
  step H H1. apply insert_selected_inr in H1.
  destruct H1 as (fr & Efr & _ & Ifr & ->).
  destruct nvl as [|n rest].
  - inversion H; subst; clear H. simpl in *.
    repeat (split; [first [reflexivity | assumption]|]).
    split.
    + intros Dk. eapply insert_rows_distinct; [|exact Ifr].
      eapply insert_rows_distinct; [|exact Ifv]. assumption.
    + exists fv, fr. split; [exact Efv|]. split; [exact Efr|].
      unfold D. rewrite <- app_assoc. reflexivity.
  - step H H1. unfold delete_diffs_at in H1. inversion H1; subst; clear H1.
    step H H1. apply insert_selected_inr in H1.
    destruct H1 as (rv & Erv & _ & Irv & ->).
    apply execute_inr in H. destruct H as [_ H].
    apply insert_selected_inr in H.
    destruct H as (rr & Err & _ & Irr & ->).
    simpl in *.
    repeat (split; [first [reflexivity | assumption]|]).
    split.
    + intros Dk. eapply insert_rows_distinct; [|exact Irr].
      eapply insert_rows_distinct; [|exact Irv].
      apply distinct_keys_filter.
      eapply insert_rows_distinct; [|exact Ifr].
      eapply insert_rows_distinct; [|exact Ifv]. assumption.
    + exists fv, fr. split; [exact Efv|]. split; [exact Efr|].
      exists rv, rr. split; [exact Erv|]. split; [exact Err|].
      unfold delete_at, D. rewrite <- !app_assoc. reflexivity.
Qed.

Lemma transaction_inr f long_raw c c' :
  record_long_raw_transaction f long_raw c = (inr tt, c') ->
  committed c' = committed c
  /\ norostat_point_version_list (work c')
     = norostat_point_version_list (work c)
  /\ norostat_point_diffs (work c') = norostat_point_diffs (work c)
  /\ exists next, recorded (work c) long_raw next (work c').
Proof.
  unfold record_long_raw_transaction. intros H.
  step H H1. apply read_inr in H1.
  destruct H1 as (Envl & Fits & Keys & nxt & -> & Enxt).
  apply write_inr in H. simpl in H.
  destruct H as (Hc & Hpv & Hpd & New & Hl & Hm & Hlo & Hw & Hk & HD).
  split; [assumption|]. split; [assumption|]. split; [assumption|].
  exists (match u with [] => None | n :: _ => Some n end).
  constructor; try assumption.
  - rewrite <- Envl. destruct u as [|n [|m rest]]; try reflexivity.
    exfalso. clear - Envl.
    destruct (order_by_version _) as [|a l]; simpl in Envl; discriminate.
  - cbv zeta. destruct HD as (fv & fr & Efv & Efr & HD).
    exists fv, fr. split; [assumption|]. split; [assumption|].
    destruct u as [|n rest]; [assumption|].
    destruct HD as (rv & rr & Erv & Err & HD). subst nxt. eauto.
Qed.

(** ** The next-version query (line 197) *)

Lemma insert_sorted_in v l x : In x (insert_sorted v l) <-> x = v \/ In x l.
Proof.
  induction l as [|w l IH]; simpl.
  - intuition.
  - destruct (vleb v w); simpl; [intuition|]. rewrite IH. intuition.
Qed.

Lemma insert_sorted_sorted v l :
  sorted_versions l -> sorted_versions (insert_sorted v l).
Proof.
  induction l as [|w l IH]; simpl; intros H.
  - split; [intros ? []|trivial].
  - destruct H as [H1 H2]. destruct (vleb v w) eqn:E; simpl.
    + apply vleb_spec in E. split; [|split; assumption].
      intros x [<- | Hx]; [assumption|].
      specialize (H1 x Hx). vsolve.
    + apply vleb_false in E. split; [|apply IH; assumption].
      intros x Hx. apply insert_sorted_in in Hx.
      destruct Hx as [-> | Hx]; [vsolve | auto].
Qed.

Lemma order_by_version_in l x : In x (order_by_version l) <-> In x l.
Proof.
  induction l as [|w l IH]; simpl; [tauto|].
  rewrite insert_sorted_in, IH. intuition.
Qed.

Lemma order_by_version_sorted l : sorted_versions (order_by_version l).
Proof.
  induction l as [|w l IH]; simpl; [trivial|].
  apply insert_sorted_sorted. assumption.
Qed.

Lemma next_version_least L v next :
  firstn 1 (order_by_version (filter (vltb v) L))
  = match next with Some n => [n] | None => [] end ->
  least_after L v next.
Proof.
  intros H.
  pose proof (order_by_version_sorted (filter (vltb v) L)) as Hs.
  pose proof (order_by_version_in (filter (vltb v) L)) as Hi.
  destruct (order_by_version (filter (vltb v) L)) as [|a l]; simpl in H.
  - destruct next; [discriminate|]. simpl. intros w Hw Hl.
    apply (Hi w). apply filter_In. split; [assumption|].
    apply vltb_spec. assumption.
  - destruct next as [n|]; [|discriminate]. inversion H; subst. simpl.
    assert (Ha : In n (filter (vltb v) L)) by (apply Hi; left; reflexivity).
    apply filter_In in Ha. destruct Ha as [Ha1 Ha2].
    apply vltb_spec in Ha2. split; [assumption|]. split; [assumption|].
    intros w Hw Hl.
    assert (Hw' : In w (n :: l)).
    { apply Hi. apply filter_In. split; [assumption|].
      apply vltb_spec. assumption. }
    destruct Hw' as [<- | Hw']; [apply vle_refl|].
    destruct Hs as [Hs _]. auto.
Qed.

(** ** Well-formed databases *)

Lemma empty_db_ok : db_ok empty_db.
Proof.
  constructor; simpl; try (repeat split; try constructor; intros ? []);
    try constructor; try tauto.
Qed.

Lemma diff_same_key_sym a b : Diff.same_key a b = Diff.same_key b a.
Proof.
  destruct (Diff.same_key a b) eqn:E1, (Diff.same_key b a) eqn:E2;
    try reflexivity.
  - apply same_key_spec in E1. destruct E1 as [E1 E1'].
    assert (Diff.same_key b a = true) by (apply same_key_spec; auto).
    congruence.
  - apply same_key_spec in E2. destruct E2 as [E2 E2'].
    assert (Diff.same_key a b = true) by (apply same_key_spec; auto).
    congruence.
Qed.

Lemma distinct_diff_keys D :
  distinct_keys Diff.same_key D -> diff_key_unique D.
Proof.
  intros Dk d1 d2 I1 I2 Ev Ec.
  apply (distinct_keys_unique Diff.same_key D diff_same_key_sym Dk);
    try assumption.
  apply same_key_spec. auto.
Qed.

Lemma parsed_same_key_spec a b :
  Parsed.same_key collation a b = true <->
  same_text (Parsed.measurement_type a) (Parsed.measurement_type b)
  /\ same_text (Parsed.location a) (Parsed.location b)
  /\ same_text (Parsed.week a) (Parsed.week b).
Proof.
  unfold Parsed.same_key, same_text.
  rewrite !andb_true_iff, !String.eqb_eq. tauto.
Qed.

Lemma parsed_same_key_sym a b :
  Parsed.same_key collation a b = Parsed.same_key collation b a.
Proof.
  unfold Parsed.same_key.
  rewrite (String.eqb_sym (collation (Parsed.measurement_type a))),
    (String.eqb_sym (collation (Parsed.location a))),
    (String.eqb_sym (collation (Parsed.week a))).
  reflexivity.
Qed.

Lemma list_exists_dec {A} (P : A -> Prop) (l : list A) :
  (forall a, P a \/ ~ P a) ->
  (exists a, In a l /\ P a) \/ (forall a, In a l -> ~ P a).
Proof.
  intros Dec. induction l as [|a l IH].
  - right. intros ? [].
  - destruct (Dec a) as [Ha | Ha]; [left; exists a; simpl; auto|].
    destruct IH as [[b [Hb Pb]] | N]; [left; exists b; simpl; auto|].
    right. intros b [<- | Hb]; auto.
Qed.

Lemma snapshot_dec J c :
  (exists x, snapshot J c x) \/ (forall x, ~ snapshot J c x).
Proof.
  destruct (list_exists_dec (fun j => joined_cell j = Some c) J)
    as [[j [Hj Hc]] | N].
  - intros j. destruct (joined_cell j) as [[[m l] w]|]; [|right; discriminate].
    destruct c as [[cm cl] cw].
    destruct (Z.eq_dec m cm), (Z.eq_dec l cl), (Z.eq_dec w cw); subst;
      try (right; intros E; inversion E; congruence).
    left. reflexivity.
  - left. exists (Parsed.value (Joined.parsed j)), j. auto.
  - right. intros x [j [Hj [Hc _]]]. eapply N; eauto.
Qed.

(** ** From the statements to the splice *)

Lemma pool_insert_grows p texts p' :
  pool_insert p texts = inr p' -> pool_ok p ->
  pool_ok p' /\ incl (pool_rows p) (pool_rows p').
Proof.
  intros H K. destruct (pool_insert_inr _ _ _ H K) as [K' [new [E _]]].
  split; [assumption|]. rewrite E. apply incl_appl, incl_refl.
Qed.

Lemma in_delete_at n D d :
  In d (delete_at n D) <-> In d D /\ Diff.version d <> n.
Proof.
  unfold delete_at. rewrite filter_In, negb_true_iff.
  change ((Diff.release_date d =? fst n) && (Diff.parse_time d =? snd n))
    with (veqb (Diff.version d) n).
  rewrite veqb_false. tauto.
Qed.

Section Recorded.
Variables (db db' : DB) (long_raw : LongRaw) (next : option Version).
Hypothesis Ok : db_ok db.
Hypothesis Rec : recorded db long_raw next db'.

Let v := version_of long_raw.
Let D := norostat_raw_datatable_diffs db.
Let D' := norostat_raw_datatable_diffs db'.
Let L := norostat_raw_datatable_version_list db.
Let parsed := parsed_params long_raw.
Let J := join_pools db' parsed.

Lemma recorded_pools :
  (pool_ok (norostat_raw_datatable_measurement_type_pool db')
   /\ incl (pool_rows (norostat_raw_datatable_measurement_type_pool db))
           (pool_rows (norostat_raw_datatable_measurement_type_pool db')))
  /\ (pool_ok (norostat_raw_datatable_location_pool db')
      /\ incl (pool_rows (norostat_raw_datatable_location_pool db))
              (pool_rows (norostat_raw_datatable_location_pool db')))
  /\ (pool_ok (norostat_raw_datatable_week_pool db')
      /\ incl (pool_rows (norostat_raw_datatable_week_pool db))
              (pool_rows (norostat_raw_datatable_week_pool db'))).
Proof.
  split; [|split].
  - apply (pool_insert_grows _ _ _ (rec_measurement_types _ _ _ _ Rec)
             (ok_measurement_types _ Ok)).
  - apply (pool_insert_grows _ _ _ (rec_locations _ _ _ _ Rec)
             (ok_locations _ Ok)).
  - apply (pool_insert_grows _ _ _ (rec_weeks _ _ _ _ Rec) (ok_weeks _ Ok)).
Qed.

Lemma recorded_interned : all_interned db' parsed.
Proof.
  intros r Hr. split; [|split].
  - apply (pool_insert_interns _ _ _ (rec_measurement_types _ _ _ _ Rec)
             (ok_measurement_types _ Ok)).
    apply in_map. assumption.
  - apply (pool_insert_interns _ _ _ (rec_locations _ _ _ _ Rec)
             (ok_locations _ Ok)).
    apply in_map. assumption.
  - apply (pool_insert_interns _ _ _ (rec_weeks _ _ _ _ Rec)
             (ok_weeks _ Ok)).
    apply in_map. assumption.
Qed.

Lemma recorded_J_ids j : In j J -> exists c, joined_cell j = Some c.
Proof.
  intros Hj. apply (in_join_pools _ _ _ recorded_interned) in Hj.
  destruct Hj as [r [[[m l] w] [_ [_ ->]]]]. exists (m, l, w). reflexivity.
Qed.

Lemma recorded_snapshot_functional c x y :
  snapshot J c x -> snapshot J c y -> x = y.
Proof.
  intros Hx Hy.
  apply (snapshot_parsed _ _ _ _ recorded_interned) in Hx, Hy.
  destruct Hx as [r1 [I1 [[M1 [L1 W1]] <-]]].
  destruct Hy as [r2 [I2 [[M2 [L2 W2]] <-]]].
  destruct recorded_pools as [[Pm _] [[Pl _] [Pw _]]].
  unfold interned in *. f_equal.
  apply (distinct_keys_unique (Parsed.same_key collation) parsed
           parsed_same_key_sym
           (rec_parsed_keys _ _ _ _ Rec)); try assumption.
  apply parsed_same_key_spec. repeat split.
  - exact (interned_same_text _ _ _ _ Pm M1 M2).
  - exact (interned_same_text _ _ _ _ Pl L1 L2).
  - exact (interned_same_text _ _ _ _ Pw W1 W2).
Qed.

Lemma recorded_least_after : least_after L v next.
Proof. apply next_version_least. apply (rec_next _ _ _ _ Rec). Qed.

Lemma recorded_spliced : spliced D v next (snapshot J) D'.
Proof.
  pose proof recorded_least_after as LA.
  pose proof (rec_diffs _ _ _ _ Rec) as HR. cbv zeta in HR.
  destruct HR as (fv & fr & Efv & Efr & HD).
  fold v D J in Efv, Efr, HD.
  pose proof recorded_J_ids as Jids.
  assert (Sfv : forall d, In d fv <-> _)
    by (intros d; exact (forward_values_spec J (select_latest D v)
                           (holds D v) Jids (in_select_latest D v)
                           v fv d Efv)).
  assert (Sfr : forall d, In d fr <-> _)
    by (intros d; exact (forward_removals_spec J (select_latest D v)
                           (holds D v) Jids (in_select_latest D v)
                           v fr d Efr)).
  assert (Fwd : forall d, forward_diff D v (snapshot J) d
                          <-> In d fv \/ In d fr).
  { intros d. rewrite Sfv, Sfr. unfold forward_diff.
    destruct (Diff.new_value d) as [x|].
    - split.
      + intros [Ev [Sx Nx]]. left. split; [assumption|]. exists x. auto.
      + intros [[Ev [y [Ey [Sy Ny]]]] | [_ [Ey _]]]; [|discriminate].
        inversion Ey; subst. auto.
    - split.
      + intros [Ev [Hx Nx]]. right. auto.
      + intros [[_ [y [Ey _]]] | [Ev [_ [Hx Nx]]]]; [discriminate|]. auto. }
  intros d. fold D'. rewrite Fwd. destruct next as [n|].
  - destruct HD as (rv & rr & Erv & Err & HD). fold D' in HD.
    pose proof (repair_values_spec J (select_latest D n) (holds D n)
                  Jids (in_select_latest D n) n rv d Erv) as Srv.
    pose proof (repair_removals_spec J (select_latest D n) (holds D n)
                  Jids (in_select_latest D n) n rr d Err) as Srr.
    assert (Rep : repair_diff D n (snapshot J) d <-> In d rv \/ In d rr).
    { rewrite Srv, Srr. unfold repair_diff.
      destruct (Diff.new_value d) as [x|].
      - split.
        + intros [Ev [Sx Nx]]. left. split; [assumption|]. exists x. auto.
        + intros [[Ev [y [Ey [Sy Ny]]]] | [_ [Ey _]]]; [|discriminate].
          inversion Ey; subst. auto.
      - split.
        + intros [Ev [Hx Nx]]. right. auto.
        + intros [[_ [y [Ey _]]] | [Ev [_ [Hx Nx]]]]; [discriminate|]. auto. }
    rewrite Rep, HD. rewrite !in_app_iff, in_delete_at, !in_app_iff.
    assert (Vn : vlt v n) by (apply LA).
    assert (Nfv : In d fv -> Diff.version d <> n).
    { intros H. apply Sfv in H. destruct H as [E _]. intros E'. vsolve. }
    assert (Nfr : In d fr -> Diff.version d <> n).
    { intros H. apply Sfr in H. destruct H as [E _]. intros E'. vsolve. }
    tauto.
  - fold D' in HD. rewrite HD. rewrite !in_app_iff. tauto.
Qed.

Lemma recorded_new : ~ In v L.
Proof. apply (rec_new _ _ _ _ Rec). Qed.

Lemma recorded_key_D : diff_key_unique D.
Proof. apply distinct_diff_keys. apply (ok_keys _ Ok). Qed.

Lemma recorded_ok : db_ok db'.
Proof.
  destruct recorded_pools as [[Pm Im] [[Pl Il] [Pw Iw]]].
  constructor; try assumption.
  - apply (rec_keys _ _ _ _ Rec). apply (ok_keys _ Ok).
  - intros d Hd. rewrite (rec_versions _ _ _ _ Rec).
    apply (splice_versions D D' L v next (snapshot J)
             (ok_versions _ Ok) recorded_new recorded_least_after
             recorded_spliced).
    assumption.
  - assert (Old : forall d, In d D ->
               In (Diff.measurement_type_id d)
                  (map fst (pool_rows
                     (norostat_raw_datatable_measurement_type_pool db')))
               /\ In (Diff.location_id d)
                     (map fst (pool_rows
                        (norostat_raw_datatable_location_pool db')))
               /\ In (Diff.week_id d)
                     (map fst (pool_rows
                        (norostat_raw_datatable_week_pool db')))).
    { intros d Hd. destruct (ok_ids _ Ok d Hd) as [H1 [H2 H3]].
      repeat split; (eapply incl_map; [|eassumption]); assumption. }
    assert (OfS : forall d x, snapshot J (Diff.cell d) x ->
               In (Diff.measurement_type_id d)
                  (map fst (pool_rows
                     (norostat_raw_datatable_measurement_type_pool db')))
               /\ In (Diff.location_id d)
                     (map fst (pool_rows
                        (norostat_raw_datatable_location_pool db')))
               /\ In (Diff.week_id d)
                     (map fst (pool_rows
                        (norostat_raw_datatable_week_pool db')))).
    { intros d x Hx.
      apply (snapshot_parsed _ _ _ _ recorded_interned) in Hx.
      destruct Hx as [r [_ [[[um [M1 _]] [[ul [L1 _]] [uw [W1 _]]]] _]]].
      simpl in *. repeat split;
        match goal with
        | H : In (?i, ?t) ?rows |- In ?i (map fst ?rows) =>
            apply in_map_iff; exists (i, t); auto
        end. }
    assert (OfH : forall d w x, holds D w (Diff.cell d) x ->
               In (Diff.measurement_type_id d)
                  (map fst (pool_rows
                     (norostat_raw_datatable_measurement_type_pool db')))
               /\ In (Diff.location_id d)
                     (map fst (pool_rows
                        (norostat_raw_datatable_location_pool db')))
               /\ In (Diff.week_id d)
                     (map fst (pool_rows
                        (norostat_raw_datatable_week_pool db')))).
    { intros d w x (d0 & (I0 & C0 & _) & _).
      apply cell_eq_iff in C0. destruct C0 as [<- [<- <-]]. auto. }
    intros d Hd. apply recorded_spliced in Hd.
    destruct Hd as [[Hd _] | [[_ F] | R]].
    + auto.
    + destruct (Diff.new_value d) as [x|].
      * destruct F as [F _]. eauto.
      * destruct F as [[x F] _]. eauto.
    + destruct next as [n|]; [|contradiction]. destruct R as [_ R].
      destruct (Diff.new_value d) as [x|].
      * destruct R as [R _]. eauto.
      * destruct R as [[x R] _]. eauto.
  - rewrite (rec_versions _ _ _ _ Rec). apply NoDup_app.
    + apply (ok_ledger _ Ok).
    + constructor; [intros [] | constructor].
    + intros a Ha [<- | []]. apply recorded_new. assumption.
Qed.
End Recorded.

(** ** What every run preserves *)

Lemma raised_before_plain n e : raised_before n e -> plain e.
Proof. destruct e; simpl; auto. Qed.

Lemma keeps_committed_bind {A B} (m : M A) (k : A -> M B) :
  keeps_committed m -> (forall a, keeps_committed (k a)) ->
  keeps_committed (bind m k).
Proof.
  intros Hm Hk c. unfold bind. specialize (Hm c).
  destruct (m c) as [[e|a] c1]; simpl in *; [assumption|].
  rewrite Hk. assumption.
Qed.

Lemma keeps_work_bind {A B} (m : M A) (k : A -> M B) :
  keeps_work m -> (forall a, keeps_work (k a)) -> keeps_work (bind m k).
Proof.
  intros Hm Hk c. unfold bind. specialize (Hm c).
  destruct (m c) as [[e|a] c1]; simpl in *; [assumption|].
  rewrite Hk. assumption.
Qed.

Lemma raises_before_bind {A B} n (m : M A) (k : A -> M B) :
  raises_before n m -> (forall a, raises_before n (k a)) ->
  raises_before n (bind m k).
Proof.
  intros Hm Hk c e c' H. apply bind_inl in H.
  destruct H as [H | (a & c1 & _ & H)].
  - exact (Hm c e c' H).
  - exact (Hk a c1 e c' H).
Qed.

Lemma keeps_committed_execute {A} f line (m : M A) :
  keeps_committed m -> keeps_committed (execute f line m).
Proof. intros H c. unfold execute. destruct (f line); [reflexivity|apply H]. Qed.

Lemma keeps_work_execute {A} f line (m : M A) :
  keeps_work m -> keeps_work (execute f line m).
Proof. intros H c. unfold execute. destruct (f line); [reflexivity|apply H]. Qed.

Lemma raises_before_execute {A} n f line (m : M A) :
  (line < n)%nat -> raises_before n m -> raises_before n (execute f line m).
Proof.
  intros Hl H c e c' E. unfold execute in E. destruct (f line); [|eauto].
  inversion E; subst. exact Hl.
Qed.

Lemma keeps_committed_executemany {A} (stmt : A -> M unit) l :
  (forall a, keeps_committed (stmt a)) ->
  keeps_committed (executemany stmt l).
Proof.
  intros H. induction l as [|a l IH]; simpl; [intros c; reflexivity|].
  apply keeps_committed_bind; auto.
Qed.

Lemma keeps_work_executemany {A} (stmt : A -> M unit) l :
  (forall a, keeps_work (stmt a)) -> keeps_work (executemany stmt l).
Proof.
  intros H. induction l as [|a l IH]; simpl; [intros c; reflexivity|].
  apply keeps_work_bind; auto.
Qed.

Lemma raises_before_executemany {A} n (stmt : A -> M unit) l :
  (forall a, raises_before n (stmt a)) ->
  raises_before n (executemany stmt l).
Proof.
  intros H. induction l as [|a l IH]; simpl.
  - intros c e c' E. discriminate.
  - apply raises_before_bind; auto.
Qed.

Lemma keeps_committed_try {A} (m : M A) (h : exn -> M A) :
  keeps_committed m -> (forall e, keeps_committed (h e)) ->
  keeps_committed (try_except_IntegrityError m h).
Proof.
  intros Hm Hh c. unfold try_except_IntegrityError. specialize (Hm c).
  destruct (m c) as [[[]|a] c1]; simpl in *; try assumption.
  rewrite Hh. assumption.
Qed.

Lemma insert_rows_plain {R} n (k : R -> R -> bool) t rows e :
  insert_rows k t rows = inl e -> raised_before n e.
Proof. intros H. apply insert_rows_inl in H. subst. exact Logic.I. Qed.

Lemma pool_insert_inl n p texts e :
  pool_insert p texts = inl e -> raised_before n e.
Proof.
  revert p; induction texts as [|t texts IH]; simpl; intros p H.
  - discriminate.
  - destruct (int_max <? auto_increment p);
      [inversion H; subst; exact Logic.I|].
    destruct (mem_string t (pool_texts p)); [|eauto].
    inversion H; subst. exact Logic.I.
Qed.

Lemma sequence_plain {A} n (l : list (result A)) e :
  (forall x e', In x l -> x = inl e' -> raised_before n e') ->
  sequence l = inl e -> raised_before n e.
Proof.
  induction l as [|[e0|a] l IH]; simpl; intros Hl H.
  - discriminate.
  - inversion H; subst. eapply Hl; [left; reflexivity | reflexivity].
  - destruct (sequence l) as [e1|l']; [|discriminate].
    inversion H; subst. apply IH; [|reflexivity].
    intros x e' Hx. apply Hl. right. assumption.
Qed.

Lemma diff_of_joined_plain n v nv j e :
  diff_of_joined v nv j = inl e -> raised_before n e.
Proof.
  unfold diff_of_joined.
  destruct (Joined.measurement_type_id j), (Joined.location_id j),
    (Joined.week_id j); intros H; inversion H; exact Logic.I.
Qed.

Lemma insert_selected_plain n rows :
  (forall c e, rows c = inl e -> raised_before n e) ->
  raises_before n (insert_selected rows).
Proof.
  intros Hr c e c' H. unfold insert_selected, insert_diffs in H.
  destruct (rows c) as [e0|l] eqn:E.
  - inversion H; subst. eauto.
  - destruct (forallb _ l).
    + destruct (insert_rows _ _ l) as [e1|t] eqn:E1; [|discriminate].
      inversion H; subst. eapply insert_rows_plain; eauto.
    + inversion H; subst. exact Logic.I.
Qed.

(** The statements, one by one. *)
Ltac run_statement :=
  intros c; cbv beta delta [create_parsed insert_parsed create_previous
    insert_previous select_next_version expect_result_in create_next
    insert_next insert_version insert_measurement_type_pool
    insert_location_pool insert_week_pool insert_pool insert_selected
    insert_diffs delete_diffs_at ret raise];
  repeat match goal with
         | |- context [match ?x with _ => _ end] => destruct x
         | |- context [if ?x then _ else _] => destruct x
         end;
  reflexivity.

Lemma read_keeps_committed f long_raw :
  keeps_committed (record_long_raw_read f long_raw).
Proof.
  unfold record_long_raw_read.
  repeat first
    [ apply keeps_committed_bind; [|intros ?]
    | apply keeps_committed_execute
    | apply keeps_committed_executemany; intros ?
    | match goal with
      | |- keeps_committed (match ?l with _ => _ end) => destruct l
      end
    | run_statement ].
Qed.

Lemma read_keeps_work f long_raw :
  keeps_work (record_long_raw_read f long_raw).
Proof.
  unfold record_long_raw_read.
  repeat first
    [ apply keeps_work_bind; [|intros ?]
    | apply keeps_work_execute
    | apply keeps_work_executemany; intros ?
    | match goal with
      | |- keeps_work (match ?l with _ => _ end) => destruct l
      end
    | run_statement ].
Qed.

Lemma write_keeps_committed f long_raw nvl :
  keeps_committed (record_long_raw_write f long_raw nvl).
Proof.
  unfold record_long_raw_write, record_long_raw_diffs.
  repeat first
    [ apply keeps_committed_bind; [|intros ?]
    | apply keeps_committed_try; [|intros ?]
    | apply keeps_committed_execute
    | match goal with
      | |- keeps_committed (match ?l with _ => _ end) => destruct l
      end
    | run_statement ].
Qed.

Lemma transaction_keeps_committed f long_raw :
  keeps_committed (record_long_raw_transaction f long_raw).
Proof.
  unfold record_long_raw_transaction. apply keeps_committed_bind.
  - apply read_keeps_committed.
  - intros nvl. apply write_keeps_committed.
Qed.

Ltac plain_statement :=
  intros c e c' H;
  cbv beta delta [create_parsed insert_parsed create_previous
    insert_previous select_next_version expect_result_in create_next
    insert_next insert_version insert_measurement_type_pool
    insert_location_pool insert_week_pool insert_pool
    delete_diffs_at ret raise] in H;
  repeat match type of H with
         | context [match ?x with _ => _ end] =>
             let E := fresh "E" in destruct x eqn:E
         | context [if ?x then _ else _] => destruct x
         end;
  inversion H; subst;
  first [ exact Logic.I
        | eapply insert_rows_plain; eassumption
        | eapply pool_insert_inl; eassumption ].

Lemma read_raises_before f long_raw :
  raises_before 221 (record_long_raw_read f long_raw).
Proof.
  unfold record_long_raw_read.
  repeat first
    [ apply raises_before_bind; [|intros ?]
    | apply raises_before_execute; [repeat constructor|]
    | apply raises_before_executemany; intros ?
    | match goal with
      | |- raises_before _ (match ?l with _ => _ end) => destruct l
      end
    | plain_statement ].
Qed.

Lemma read_raises_plain f long_raw c e c' :
  record_long_raw_read f long_raw c = (inl e, c') -> plain e.
Proof.
  intros H. apply read_raises_before in H.
  apply (raised_before_plain _ _ H).
Qed.

Lemma forward_values_plain n v J T e :
  forward_values v J T = inl e -> raised_before n e.
Proof.
  unfold forward_values. apply sequence_plain.
  intros x e' Hx ->. apply in_map_iff in Hx. destruct Hx as [j [Hj _]].
  eapply diff_of_joined_plain; eauto.
Qed.

Lemma repair_removals_plain n v J T e :
  repair_removals v J T = inl e -> raised_before n e.
Proof.
  unfold repair_removals. apply sequence_plain.
  intros x e' Hx ->. apply in_map_iff in Hx. destruct Hx as [j [Hj _]].
  eapply diff_of_joined_plain; eauto.
Qed.

(** After line 250 no statement raises a bare [Exception]. *)
Lemma write_rest_raises_before f long_raw nvl :
  raises_before 337 (record_long_raw_diffs f long_raw nvl).
Proof.
  unfold record_long_raw_diffs.
  repeat first
    [ apply raises_before_bind; [|intros ?]
    | apply raises_before_execute; [repeat constructor|]
    | match goal with
      | |- raises_before _ (match ?l with _ => _ end) => destruct l
      end
    | apply insert_selected_plain; intros c0 e0 H0;
      first [ eapply forward_values_plain; eassumption
            | eapply repair_removals_plain; eassumption
            | discriminate ]
    | plain_statement ].
Qed.

(** Line 245 on a version already in the ledger. *)
Lemma register_duplicate f v c :
  f 245%nat = false ->
  In v (norostat_raw_datatable_version_list (work c)) ->
  try_except_IntegrityError (execute f 245 (insert_version v))
                            (fun e => raise (Exception e)) c
  = (inl (Exception IntegrityError), c).
Proof.
  intros Hf Hin. unfold try_except_IntegrityError, execute, insert_version.
  rewrite Hf. simpl.
  assert (E : existsb (veqb v) (norostat_raw_datatable_version_list (work c))
              = true).
  { apply existsb_exists. exists v. split; [assumption|].
    apply veqb_spec. reflexivity. }
  rewrite E. reflexivity.
Qed.

(** The only source of a bare [Exception] is a version already in the
    ledger. *)
Lemma register_exception f v c e c' :
  try_except_IntegrityError (execute f 245 (insert_version v))
                            (fun e => raise (Exception e)) c
  = (inl (Exception e), c') ->
  e = IntegrityError
  /\ In v (norostat_raw_datatable_version_list (work c)).
Proof.
  unfold try_except_IntegrityError, execute, insert_version, raise.
  destruct (f 245%nat); [discriminate|]. simpl.
  destruct (existsb _ _) eqn:E; [|discriminate].
  intros H. inversion H; subst. split; [reflexivity|].
  apply existsb_exists in E. destruct E as [w [Hw Ew]].
  apply veqb_spec in Ew. subst. assumption.
Qed.

Lemma write_exception f long_raw nvl c e c' :
  record_long_raw_write f long_raw nvl c = (inl (Exception e), c') ->
  e = IntegrityError
  /\ In (version_of long_raw) (norostat_raw_datatable_version_list (work c)).
Proof.
  unfold record_long_raw_write. intros H. apply bind_inl in H.
  destruct H as [H | (a & c1 & _ & H)].
  - eapply register_exception; eassumption.
  - apply (write_rest_raises_before f long_raw nvl) in H. contradiction.
Qed.

Lemma refines_refl {A} (m : M A) : refines m m.
Proof. intros c a c' H. assumption. Qed.

Lemma refines_bind {A B} (m m0 : M A) (k k0 : A -> M B) :
  refines m m0 -> (forall a, refines (k a) (k0 a)) ->
  refines (bind m k) (bind m0 k0).
Proof.
  intros Hm Hk c b c' H. apply bind_inr in H.
  destruct H as (a & c1 & H1 & H2). unfold bind.
  rewrite (Hm _ _ _ H1). apply Hk. assumption.
Qed.

Lemma refines_execute {A} f line (m : M A) :
  refines (execute f line m) (execute no_faults line m).
Proof. intros c a c' H. apply execute_inr in H. apply H. Qed.

Lemma refines_try {A} (m m0 : M A) :
  refines m m0 ->
  refines (try_except_IntegrityError m (fun e => raise (Exception e)))
          (try_except_IntegrityError m0 (fun e => raise (Exception e))).
Proof.
  intros Hm c a c' H. apply try_except_inr in H. apply Hm in H.
  unfold try_except_IntegrityError. rewrite H. reflexivity.
Qed.

Lemma transaction_refines f long_raw :
  refines (record_long_raw_transaction f long_raw)
          (record_long_raw_transaction no_faults long_raw).
Proof.
  unfold record_long_raw_transaction, record_long_raw_read,
    record_long_raw_write, record_long_raw_diffs.
  repeat first
    [ apply refines_execute
    | apply refines_try
    | apply refines_bind; [|intros ?]
    | match goal with
      | |- refines (match ?l with _ => _ end) _ => destruct l
      end
    | apply refines_refl ].
Qed.

Lemma raw_tables_create_point_version_list db :
  raw_tables (create_point_version_list db) = raw_tables db.
Proof.
  unfold create_point_version_list.
  destruct (norostat_point_version_list db); reflexivity.
Qed.

Lemma raw_tables_create_point_diffs db :
  raw_tables (create_point_diffs db) = raw_tables db.
Proof.
  unfold create_point_diffs.
  destruct (norostat_point_diffs db); reflexivity.
Qed.

(** Every way [record_long_raw] can end: with an exception and nothing
    committed, or with the transaction committed, whether or not the
    statements after it went through. *)
Lemma record_long_raw_outcome f long_raw db :
  (exists e, record_long_raw f long_raw db = (inl e, db))
  \/ exists c,
       record_long_raw_transaction f long_raw (connect db) = (inr tt, c)
       /\ (record_long_raw f long_raw db
           = (inl (OperationalError 358),
              create_point_version_list (work c))
           \/ record_long_raw f long_raw db
              = (inl (OperationalError 371), with_point_tables (work c))
           \/ record_long_raw f long_raw db
              = (inr tt, with_point_tables (work c))).
Proof.
  pose proof (transaction_keeps_committed f long_raw (connect db)) as K.
  assert (Hbody : forall r c,
             record_long_raw_transaction f long_raw (connect db) = (r, c) ->
             record_long_raw f long_raw db
             = match r with
               | inl e => (inl e, committed c)
               | inr _ =>
                   let (r', c') :=
                     (execute f 350
                        (create_table_if_not_exists
                           create_point_version_list) ;;;
                      execute f 358
                        (create_table_if_not_exists create_point_diffs) ;;;
                      execute f 371 commit) c in
                   (r', committed c')
               end).
  { intros r c E. unfold record_long_raw, record_long_raw_body.
    unfold bind at 1. rewrite E. destruct r as [e|[]]; reflexivity. }
  destruct (record_long_raw_transaction f long_raw (connect db))
    as [r c] eqn:E.
  rewrite (Hbody r c eq_refl). simpl in K. clear Hbody.
  destruct r as [e|[]].
  - left. exists e. rewrite K. reflexivity.
  - unfold bind, execute, create_table_if_not_exists, commit, do_commit.
    simpl. destruct (f 350%nat).
    + left. exists (OperationalError 350). rewrite K. reflexivity.
    + right. exists c. split; [reflexivity|].
      destruct (f 358%nat); [left; reflexivity|].
      destruct (f 371%nat); right; [left|right]; reflexivity.
Qed.

Lemma recorded_same_raw db long_raw next w db' :
  raw_tables db' = raw_tables w ->
  recorded db long_raw next w -> recorded db long_raw next db'.
Proof.
  unfold raw_tables. intros E R. injection E as E1 E2 E3 E4 E5.
  destruct R. constructor; try assumption; try congruence.
  - rewrite E5. assumption.
  - cbv zeta in *. rewrite E5.
    rewrite (join_pools_pools db' w _ E2 E3 E4). assumption.
Qed.

Lemma db_ok_same_raw w db' :
  raw_tables db' = raw_tables w -> db_ok w -> db_ok db'.
Proof.
  unfold raw_tables. intros E R. injection E as E1 E2 E3 E4 E5.
  destruct R. constructor; try congruence.
  - rewrite E5, E1. assumption.
  - rewrite E5, E2, E3, E4. assumption.
Qed.

Lemma raw_tables_with_point_tables db :
  raw_tables (with_point_tables db) = raw_tables db.
Proof.
  unfold with_point_tables.
  rewrite raw_tables_create_point_diffs.
  apply raw_tables_create_point_version_list.
Qed.

(** Whatever way the call ends, it leaves the database as it was or with
    the whole snapshot recorded. *)
Lemma record_long_raw_effect f long_raw db :
  snd (record_long_raw f long_raw db) = db
  \/ exists next, recorded db long_raw next
                           (snd (record_long_raw f long_raw db)).
Proof.
  destruct (record_long_raw_outcome f long_raw db)
    as [[e E] | (c & T & [E | [E | E]])]; rewrite E; simpl; [left; reflexivity| | |];
    right; apply transaction_inr in T;
    destruct T as (_ & _ & _ & next & R); exists next; simpl in R.
  - apply (recorded_same_raw _ _ _ _ _
             (raw_tables_create_point_version_list (work c)) R).
  - apply (recorded_same_raw _ _ _ _ _
             (raw_tables_with_point_tables (work c)) R).
  - apply (recorded_same_raw _ _ _ _ _
             (raw_tables_with_point_tables (work c)) R).
Qed.

Lemma record_long_raw_inr f long_raw db db' :
  record_long_raw f long_raw db = (inr tt, db') ->
  exists next, recorded db long_raw next db'.
Proof.
  intros H.
  destruct (record_long_raw_outcome f long_raw db)
    as [[e E] | (c & T & [E | [E | E]])]; rewrite E in H;
    try discriminate.
  inversion H; subst. apply transaction_inr in T.
  destruct T as (_ & _ & _ & next & R). exists next. simpl in R.
  apply (recorded_same_raw _ _ _ _ _
           (raw_tables_with_point_tables (work c)) R).
Qed.

(** Well-formedness is an invariant of [record_long_raw]. *)
Lemma record_long_raw_ok f long_raw db :
  db_ok db -> db_ok (snd (record_long_raw f long_raw db)).
Proof.
  intros Ok. destruct (record_long_raw_effect f long_raw db) as [E | [n R]].
  - rewrite E. assumption.
  - apply (recorded_ok _ _ _ _ Ok R).
Qed.

(** ** The state of a cell, before and after a recorded snapshot *)

Section RecordedState.
Variables (db db' : DB) (long_raw : LongRaw) (next : option Version).
Hypothesis Ok : db_ok db.
Hypothesis Rec : recorded db long_raw next db'.

Let v := version_of long_raw.
Let D := norostat_raw_datatable_diffs db.
Let D' := norostat_raw_datatable_diffs db'.
Let L := norostat_raw_datatable_version_list db.
Let J := join_pools db' (parsed_params long_raw).

Lemma state_before w c x :
  vlt w v -> (holds D' w c x <-> holds D w c x).
Proof.
  apply (splice_before D D' L v next (snapshot J) (ok_versions _ Ok)
           (recorded_new _ _ _ _ Rec)
           (recorded_least_after _ _ _ _ Rec)
           (recorded_spliced _ _ _ _ Ok Rec)).
Qed.

Lemma state_at w :
  vle v w -> (forall n, next = Some n -> vlt w n) ->
  like_state (holds D' w) (snapshot J).
Proof.
  apply (splice_at_like D D' L v next (snapshot J)
           (recorded_key_D _ Ok) (ok_versions _ Ok)
           (recorded_new _ _ _ _ Rec)
           (recorded_least_after _ _ _ _ Rec)
           (recorded_snapshot_functional _ _ _ _ Ok Rec)
           (snapshot_dec J)
           (recorded_spliced _ _ _ _ Ok Rec)).
Qed.

Lemma state_at_cases w c x :
  vle v w -> (forall n, next = Some n -> vlt w n) ->
  (holds D' w c x <->
   (snapshot J c x /\ ~ holds_like D v c x)
   \/ (holds D v c x /\ exists y, snapshot J c y /\ same_text x y)).
Proof.
  apply (splice_at D D' L v next (snapshot J)
           (recorded_key_D _ Ok) (ok_versions _ Ok)
           (recorded_new _ _ _ _ Rec)
           (recorded_least_after _ _ _ _ Rec)
           (recorded_snapshot_functional _ _ _ _ Ok Rec)
           (snapshot_dec J)
           (recorded_spliced _ _ _ _ Ok Rec)).
Qed.

Lemma state_after n w :
  next = Some n -> vle n w -> like_state (holds D' w) (holds D w).
Proof.
  apply (splice_after D D' L v next (snapshot J)
           (recorded_key_D _ Ok) (ok_versions _ Ok)
           (recorded_new _ _ _ _ Rec)
           (recorded_least_after _ _ _ _ Rec)
           (recorded_snapshot_functional _ _ _ _ Ok Rec)
           (snapshot_dec J)
           (recorded_spliced _ _ _ _ Ok Rec)).
Qed.

Lemma state_no_redundant : no_redundant_diffs D -> no_redundant_diffs D'.
Proof.
  apply (splice_no_redundant D D' L v next (snapshot J)
           (recorded_key_D _ Ok) (ok_versions _ Ok)
           (recorded_new _ _ _ _ Rec)
           (recorded_least_after _ _ _ _ Rec)
           (recorded_snapshot_functional _ _ _ _ Ok Rec)
           (snapshot_dec J)
           (recorded_spliced _ _ _ _ Ok Rec)).
Qed.
End RecordedState.

(** ** Reconstruction with the strings resolved *)

Lemma in_resolve p i t : In t (resolve p i) <-> In (i, t) (pool_rows p).
Proof.
  unfold resolve. rewrite in_map_iff. split.
  - intros [[j u] [E H]]. apply filter_In in H. destruct H as [H K].
    simpl in *. apply Z.eqb_eq in K. subst. assumption.
  - intros H. exists (i, t). split; [reflexivity|].
    apply filter_In. split; [assumption|]. simpl. apply Z.eqb_refl.
Qed.

Lemma in_reconstruct db v m l w x :
  In (m, l, w, x) (reconstruct db v) <->
  exists c, holds (norostat_raw_datatable_diffs db) v c x
            /\ In (fst (fst c), m)
                  (pool_rows (norostat_raw_datatable_measurement_type_pool db))
            /\ In (snd (fst c), l)
                  (pool_rows (norostat_raw_datatable_location_pool db))
            /\ In (snd c, w)
                  (pool_rows (norostat_raw_datatable_week_pool db)).
Proof.
  unfold reconstruct. rewrite in_flat_map. split.
  - intros [s [Hs H]]. apply in_flat_map in H. destruct H as [m' [Hm H]].
    apply in_flat_map in H. destruct H as [l' [Hl H]].
    apply in_map_iff in H. destruct H as [w' [E Hw]].
    inversion E; subst. apply in_resolve in Hm, Hl, Hw.
    apply in_select_latest in Hs. exists (State.cell s). auto.
  - intros [[[i j] k] [H [Hm [Hl Hw]]]]. simpl in *.
    exists (State.mk i j k x). split.
    + apply in_select_latest. assumption.
    + simpl. apply in_flat_map. exists m.
      split; [apply in_resolve; assumption|].
      apply in_flat_map. exists l.
      split; [apply in_resolve; assumption|].
      apply in_map_iff. exists w.
      split; [reflexivity | apply in_resolve; assumption].
Qed.

Lemma pool_ok_old_entry p p' i t :
  pool_ok p' -> incl (pool_rows p) (pool_rows p') ->
  In i (map fst (pool_rows p)) -> In (i, t) (pool_rows p') ->
  In (i, t) (pool_rows p).
Proof.
  intros Ok Inc Hi Ht. apply in_map_iff in Hi.
  destruct Hi as [[j u] [E Hu]]. simpl in E. subst j.
  assert (u = t) by (eapply pool_ok_id_text; eauto). subst. assumption.
Qed.

Lemma snapshot_rows_parsed long_raw :
  snapshot_rows long_raw
  = map (fun r => (Parsed.measurement_type r, Parsed.location r,
                   Parsed.week r, Parsed.value r))
        (parsed_params long_raw).
Proof.
  unfold snapshot_rows, parsed_params. rewrite map_map. apply map_ext.
  intros [[week measurement_type] value]. reflexivity.
Qed.

Lemma same_row_refl a : same_row a a.
Proof. unfold same_row. auto using same_text_refl. Qed.

Lemma same_row_sym a b : same_row a b -> same_row b a.
Proof.
  unfold same_row. intros (H1 & H2 & H3 & H4). auto using same_text_sym.
Qed.

Lemma same_row_trans a b c : same_row a b -> same_row b c -> same_row a c.
Proof.
  unfold same_row. intros (H1 & H2 & H3 & H4) (K1 & K2 & K3 & K4).
  repeat split; eapply same_text_trans; eassumption.
Qed.

Lemma same_rows_refl t : same_rows t t.
Proof. split; intros a H; exists a; auto using same_row_refl. Qed.

Lemma same_rows_sym t1 t2 : same_rows t1 t2 -> same_rows t2 t1.
Proof.
  intros [H1 H2]. split.
  - intros a Ha. destruct (H2 a Ha) as [b [Hb E]]. exists b.
    auto using same_row_sym.
  - intros b Hb. destruct (H1 b Hb) as [a [Ha E]]. exists a.
    auto using same_row_sym.
Qed.

Lemma same_rows_trans t1 t2 t3 :
  same_rows t1 t2 -> same_rows t2 t3 -> same_rows t1 t3.
Proof.
  intros [H1 H2] [K1 K2]. split.
  - intros a Ha. destruct (H1 a Ha) as [b [Hb E]].
    destruct (K1 b Hb) as [c [Hc E']]. exists c.
    split; [assumption | eapply same_row_trans; eassumption].
  - intros c Hc. destruct (K2 c Hc) as [b [Hb E]].
    destruct (H2 b Hb) as [a [Ha E']]. exists a.
    split; [assumption | eapply same_row_trans; eassumption].
Qed.

Lemma same_rows_exact t1 t2 :
  (forall row, In row t1 <-> In row t2) -> same_rows t1 t2.
Proof.
  intros H. split; intros a Ha; exists a;
    (split; [apply H; assumption | apply same_row_refl]).
Qed.

Section RecordedRows.
Variables (db db' : DB) (long_raw : LongRaw) (next : option Version).
Hypothesis Ok : db_ok db.
Hypothesis Rec : recorded db long_raw next db'.

(** Where the chain's state is unchanged, so is the reconstruction. *)
Lemma reconstruct_unchanged w :
  (forall c x, holds (norostat_raw_datatable_diffs db') w c x
               <-> holds (norostat_raw_datatable_diffs db) w c x) ->
  forall row, In row (reconstruct db' w) <-> In row (reconstruct db w).
Proof.
  intros Same [[[m l] k] x]. rewrite !in_reconstruct.
  destruct (recorded_pools _ _ _ _ Ok Rec) as [[Pm Im] [[Pl Il] [Pw Iw]]].
  split; intros [c [H [Hm [Hl Hk]]]]; exists c.
  - apply Same in H. split; [assumption|].
    destruct H as (d & (I & C & _) & _).
    destruct (ok_ids _ Ok d I) as [J1 [J2 J3]].
    assert (E1 : Diff.measurement_type_id d = fst (fst c))
      by (rewrite <- C; reflexivity).
    assert (E2 : Diff.location_id d = snd (fst c))
      by (rewrite <- C; reflexivity).
    assert (E3 : Diff.week_id d = snd c) by (rewrite <- C; reflexivity).
    rewrite E1 in J1. rewrite E2 in J2. rewrite E3 in J3.
    split; [exact (pool_ok_old_entry _ _ _ _ Pm Im J1 Hm)|].
    split; [exact (pool_ok_old_entry _ _ _ _ Pl Il J2 Hl)|].
    exact (pool_ok_old_entry _ _ _ _ Pw Iw J3 Hk).
  - split; [apply Same; assumption|]. auto.
Qed.

(** Where the chain's state is the same for MySQL, so is the
    reconstruction: the strings of the keys are those of before, the
    values are equal for MySQL. *)
Lemma reconstruct_like w :
  like_state (holds (norostat_raw_datatable_diffs db') w)
             (holds (norostat_raw_datatable_diffs db) w) ->
  same_rows (reconstruct db' w) (reconstruct db w).
Proof.
  intros [S1 S2].
  destruct (recorded_pools _ _ _ _ Ok Rec) as [[Pm Im] [[Pl Il] [Pw Iw]]].
  split.
  - intros [[[m l] k] x] H. apply in_reconstruct in H.
    destruct H as [c [H [Hm [Hl Hk]]]].
    destruct (S1 c x H) as [z [Hz Exz]].
    exists (m, l, k, z). split.
    + apply in_reconstruct. exists c. split; [assumption|].
      destruct Hz as (d & (I & C & _) & _).
      destruct (ok_ids _ Ok d I) as [J1 [J2 J3]].
      assert (E1 : Diff.measurement_type_id d = fst (fst c))
        by (rewrite <- C; reflexivity).
      assert (E2 : Diff.location_id d = snd (fst c))
        by (rewrite <- C; reflexivity).
      assert (E3 : Diff.week_id d = snd c) by (rewrite <- C; reflexivity).
      rewrite E1 in J1. rewrite E2 in J2. rewrite E3 in J3.
      split; [exact (pool_ok_old_entry _ _ _ _ Pm Im J1 Hm)|].
      split; [exact (pool_ok_old_entry _ _ _ _ Pl Il J2 Hl)|].
      exact (pool_ok_old_entry _ _ _ _ Pw Iw J3 Hk).
    + unfold same_row. simpl. auto using same_text_refl.
  - intros [[[m l] k] z] H. apply in_reconstruct in H.
    destruct H as [c [H [Hm [Hl Hk]]]].
    destruct (S2 c z H) as [x [Hx Exz]].
    exists (m, l, k, x). split.
    + apply in_reconstruct. exists c. auto.
    + unfold same_row. simpl. auto using same_text_refl.
Qed.

(** From the recorded version up to the next one, the reconstruction is
    the snapshot, up to what MySQL takes for equal. *)
Lemma reconstruct_snapshot w :
  vle (version_of long_raw) w ->
  (forall n, next = Some n -> vlt w n) ->
  same_rows (reconstruct db' w) (snapshot_rows long_raw).
Proof.
  intros Hw Hn. destruct (state_at _ _ _ _ Ok Rec w Hw Hn) as [S1 S2].
  destruct (recorded_pools _ _ _ _ Ok Rec) as [[Pm Im] [[Pl Il] [Pw Iw]]].
  pose proof (recorded_interned _ _ _ _ Ok Rec) as AI.
  rewrite snapshot_rows_parsed. split.
  - intros [[[m l] k] x] H. apply in_reconstruct in H.
    destruct H as [c [H [Hm [Hl Hk]]]].
    destruct (S1 c x H) as [y [Sy Exy]].
    apply (snapshot_parsed _ _ _ _ AI) in Sy.
    destruct Sy as [r [Hr [[M1 [L1 W1]] Hy]]].
    exists (Parsed.measurement_type r, Parsed.location r, Parsed.week r,
            Parsed.value r).
    split; [apply in_map_iff; exists r; auto|].
    unfold same_row. simpl. split; [|split; [|split]].
    + exact (interned_same_text _ _ _ _ Pm (interned_text _ _ _ Hm) M1).
    + exact (interned_same_text _ _ _ _ Pl (interned_text _ _ _ Hl) L1).
    + exact (interned_same_text _ _ _ _ Pw (interned_text _ _ _ Hk) W1).
    + rewrite Hy. assumption.
  - intros row H. apply in_map_iff in H. destruct H as [r [<- Hr]].
    destruct (AI r Hr) as [A1 [A2 A3]]. apply pooled_row in A1, A2, A3.
    destruct A1 as [[i1 t1] [A1 E1]], A2 as [[i2 t2] [A2 E2]],
      A3 as [[i3 t3] [A3 E3]]. simpl in *.
    assert (Sc : snapshot (join_pools db' (parsed_params long_raw))
                          (i1, i2, i3) (Parsed.value r)).
    { apply (snapshot_parsed _ _ _ _ AI). exists r.
      split; [assumption|]. split; [|reflexivity].
      unfold parsed_cell, interned. simpl.
      split; [exists t1; auto|]. split; [exists t2; auto | exists t3; auto]. }
    destruct (S2 _ _ Sc) as [x [Hx Ex]].
    exists (t1, t2, t3, x). split.
    + apply in_reconstruct. exists (i1, i2, i3). simpl. auto.
    + unfold same_row. simpl. auto.
Qed.

(** Every row of the snapshot is stored: the reconstruction as of the
    recorded version has a row equal to it for MySQL, whose value is the
    delivered one unless the cell had that row already. *)
Lemma snapshot_row_stored row :
  In row (snapshot_rows long_raw) ->
  exists row',
    In row' (reconstruct db' (version_of long_raw))
    /\ same_row row' row
    /\ (snd row' = snd row
        \/ In row' (reconstruct db (version_of long_raw))).
Proof.
  intros H. rewrite snapshot_rows_parsed in H. apply in_map_iff in H.
  destruct H as [r [<- Hr]].
  destruct (recorded_pools _ _ _ _ Ok Rec) as [[Pm Im] [[Pl Il] [Pw Iw]]].
  pose proof (recorded_interned _ _ _ _ Ok Rec) as AI.
  pose proof (recorded_least_after _ _ _ _ Rec) as LA.
  assert (Hn : forall n, next = Some n -> vlt (version_of long_raw) n).
  { intros n En. rewrite En in LA. apply LA. }
  pose proof (fun c x => state_at_cases _ _ _ _ Ok Rec (version_of long_raw)
                           c x (vle_refl _) Hn) as St.
  destruct (AI r Hr) as [A1 [A2 A3]]. apply pooled_row in A1, A2, A3.
  destruct A1 as [[i1 t1] [A1 E1]], A2 as [[i2 t2] [A2 E2]],
    A3 as [[i3 t3] [A3 E3]]. simpl in *.
  assert (Sc : snapshot (join_pools db' (parsed_params long_raw))
                        (i1, i2, i3) (Parsed.value r)).
  { apply (snapshot_parsed _ _ _ _ AI). exists r.
    split; [assumption|]. split; [|reflexivity].
    unfold parsed_cell, interned. simpl.
    split; [exists t1; auto|]. split; [exists t2; auto | exists t3; auto]. }
  destruct (holds_like_dec (norostat_raw_datatable_diffs db)
              (version_of long_raw) (i1, i2, i3) (Parsed.value r)
              (recorded_key_D _ Ok)) as [[z [Hz Ez]] | N].
  - exists (t1, t2, t3, z). split; [|split].
    + apply in_reconstruct. exists (i1, i2, i3). simpl.
      split; [|auto]. apply St. right. split; [assumption|].
      exists (Parsed.value r). auto.
    + unfold same_row. simpl. auto.
    + right. apply in_reconstruct. exists (i1, i2, i3). simpl.
      split; [assumption|].
      destruct Hz as (d & (I & C & _) & _).
      destruct (ok_ids _ Ok d I) as [J1 [J2 J3]].
      unfold Diff.cell in C. injection C as C1 C2 C3.
      rewrite C1 in J1. rewrite C2 in J2. rewrite C3 in J3.
      split; [exact (pool_ok_old_entry _ _ _ _ Pm Im J1 A1)|].
      split; [exact (pool_ok_old_entry _ _ _ _ Pl Il J2 A2)|].
      exact (pool_ok_old_entry _ _ _ _ Pw Iw J3 A3).
  - exists (t1, t2, t3, Parsed.value r). split; [|split].
    + apply in_reconstruct. exists (i1, i2, i3). simpl.
      split; [|auto]. apply St. left. auto.
    + unfold same_row. simpl. auto using same_text_refl.
    + left. reflexivity.
Qed.

Lemma reconstruct_before w :
  vlt w (version_of long_raw) ->
  forall row, In row (reconstruct db' w) <-> In row (reconstruct db w).
Proof.
  intros Hw. apply reconstruct_unchanged. intros c x.
  apply (state_before _ _ _ _ Ok Rec). assumption.
Qed.

Lemma reconstruct_after n w :
  next = Some n -> vle n w ->
  same_rows (reconstruct db' w) (reconstruct db w).
Proof.
  intros En Hw. apply reconstruct_like.
  apply (state_after _ _ _ _ Ok Rec n); assumption.
Qed.
End RecordedRows.

(** ** The strings of the store *)

Lemma reconstruct_stored db v m l k x :
  In (m, l, k, x) (reconstruct db v) ->
  stored db m /\ stored db l /\ stored db k /\ stored db x.
Proof.
  intros H. apply in_reconstruct in H. destruct H as [c [H [Hm [Hl Hk]]]].
  unfold stored, pool_texts. repeat split.
  - left. apply in_map_iff. exists (fst (fst c), m). auto.
  - right. left. apply in_map_iff. exists (snd (fst c), l). auto.
  - right. right. left. apply in_map_iff. exists (snd c, k). auto.
  - right. right. right. destruct H as (d & (I & _) & V). eauto.
Qed.

Lemma snapshot_rows_delivered long_raw m l k x :
  In (m, l, k, x) (snapshot_rows long_raw) ->
  In m (delivered long_raw) /\ In l (delivered long_raw)
  /\ In k (delivered long_raw) /\ In x (delivered long_raw).
Proof.
  unfold snapshot_rows, delivered. intros H. apply in_map_iff in H.
  destruct H as [r [E H]]. inversion E; subst.
  assert (K : forall s, In s [fst (fst r); snd (fst r); snd r] ->
                        In s (flat_map (fun r => [fst (fst r); snd (fst r);
                                                  snd r])
                                       (long_raw_df long_raw))).
  { intros s Hs. apply in_flat_map. exists r. auto. }
  repeat split; [right | left; reflexivity | right | right]; apply K;
    simpl; auto.
Qed.

Lemma parsed_params_delivered long_raw r :
  In r (parsed_params long_raw) ->
  In (Parsed.measurement_type r) (delivered long_raw)
  /\ In (Parsed.location r) (delivered long_raw)
  /\ In (Parsed.week r) (delivered long_raw)
  /\ In (Parsed.value r) (delivered long_raw).
Proof.
  intros H. apply snapshot_rows_delivered. rewrite snapshot_rows_parsed.
  apply in_map_iff. exists r. auto.
Qed.

(** Where the collation tells the strings apart, two tables with the same
    rows for MySQL have the same rows. *)
Lemma told_apart_rows (l : list string)
      (t1 t2 : list (string * string * string * string)) :
  told_apart l ->
  (forall m lo k x, In (m, lo, k, x) t1 ->
                    In m l /\ In lo l /\ In k l /\ In x l) ->
  (forall m lo k x, In (m, lo, k, x) t2 ->
                    In m l /\ In lo l /\ In k l /\ In x l) ->
  same_rows t1 t2 -> forall row, In row t1 <-> In row t2.
Proof.
  intros Apart H1 H2 [S1 S2] [[[m lo] k] x]. split; intros H.
  - destruct (S1 _ H) as [[[[m' lo'] k'] x'] [Hb (E1 & E2 & E3 & E4)]].
    simpl in *.
    destruct (H1 _ _ _ _ H) as (A1 & A2 & A3 & A4).
    destruct (H2 _ _ _ _ Hb) as (B1 & B2 & B3 & B4).
    rewrite (Apart m m' A1 B1 E1), (Apart lo lo' A2 B2 E2),
      (Apart k k' A3 B3 E3), (Apart x x' A4 B4 E4). assumption.
  - destruct (S2 _ H) as [[[[m' lo'] k'] x'] [Ha (E1 & E2 & E3 & E4)]].
    simpl in *.
    destruct (H2 _ _ _ _ H) as (A1 & A2 & A3 & A4).
    destruct (H1 _ _ _ _ Ha) as (B1 & B2 & B3 & B4).
    rewrite <- (Apart m' m B1 A1 E1), <- (Apart lo' lo B2 A2 E2),
      <- (Apart k' k B3 A3 E3), <- (Apart x' x B4 A4 E4). assumption.
Qed.

Lemma told_apartb_spec l : told_apartb l = true -> told_apart l.
Proof.
  unfold told_apartb, told_apart. intros H s t Hs Ht E.
  rewrite forallb_forall in H. specialize (H s Hs).
  rewrite forallb_forall in H. specialize (H t Ht).
  apply string_eq_spec in E. rewrite E in H. simpl in H.
  apply String.eqb_eq. assumption.
Qed.

Lemma pool_insert_texts p texts p' t :
  pool_ok p -> pool_insert p texts = inr p' ->
  (In t (pool_texts p') <-> In t (pool_texts p) \/ In t texts).
Proof.
  intros Ok H. apply pool_insert_inr in H; [|assumption].
  destruct H as [_ [new [E1 [E2 _]]]]. unfold pool_texts at 1. rewrite E1.
  rewrite map_app, in_app_iff, E2. reflexivity.
Qed.

(** A recorded call stores no string but its own. *)
Lemma recorded_stored db db' long_raw next s :
  db_ok db -> recorded db long_raw next db' ->
  stored db' s -> stored db s \/ In s (delivered long_raw).
Proof.
  intros Ok Rec.
  assert (P : forall (text : Parsed.row -> string) p p',
             pool_ok p ->
             (forall r, In r (parsed_params long_raw) ->
                        In (text r) (delivered long_raw)) ->
             pool_insert p (select_distinct_not_in
                              (map text (parsed_params long_raw)) p)
             = inr p' ->
             In s (pool_texts p') ->
             In s (pool_texts p) \/ In s (delivered long_raw)).
  { intros text p p' Okp Hd E H.
    apply (pool_insert_texts _ _ _ s Okp E) in H.
    destruct H as [H | H]; [auto|]. right.
    apply in_select_distinct_not_in in H. destruct H as [H _].
    apply in_map_iff in H. destruct H as [r [<- Hr]]. auto. }
  unfold stored. intros [H | [H | [H | [d [Hd V]]]]].
  - destruct (P Parsed.measurement_type _ _ (ok_measurement_types _ Ok)
                (fun r Hr => proj1 (parsed_params_delivered _ r Hr))
                (rec_measurement_types _ _ _ _ Rec) H); auto.
  - destruct (P Parsed.location _ _ (ok_locations _ Ok)
                (fun r Hr => proj1 (proj2 (parsed_params_delivered _ r Hr)))
                (rec_locations _ _ _ _ Rec) H); auto.
  - destruct (P Parsed.week _ _ (ok_weeks _ Ok)
                (fun r Hr =>
                   proj1 (proj2 (proj2 (parsed_params_delivered _ r Hr))))
                (rec_weeks _ _ _ _ Rec) H); auto.
  - apply (recorded_spliced _ _ _ _ Ok Rec) in Hd.
    destruct Hd as [[Hd _] | [[_ F] | R]].
    + left. right. right. right. eauto.
    + rewrite V in F. destruct F as [F _]. right.
      apply (snapshot_parsed _ _ _ _ (recorded_interned _ _ _ _ Ok Rec)) in F.
      destruct F as [r [Hr [_ <-]]].
      apply (parsed_params_delivered _ r Hr).
    + destruct next as [n|]; [|contradiction]. destruct R as [_ R].
      rewrite V in R. destruct R as [(d0 & (I0 & _) & V0) _].
      left. right. right. right. eauto.
Qed.

(** ** Sequences of calls *)

Lemma reconstruct_empty_db v : reconstruct empty_db v = [].
Proof. reflexivity. Qed.

Lemma no_rows {A} (l : list A) : (forall x, ~ In x l) -> l = [].
Proof.
  destruct l as [|a l]; [reflexivity|]. intros H. exfalso.
  apply (H a). left. reflexivity.
Qed.

Lemma record_all_app calls c db0 db :
  record_all (calls ++ [c]) db0 = inr db ->
  exists db1, record_all calls db0 = inr db1
              /\ record_long_raw (fst c) (snd c) db1 = (inr tt, db).
Proof.
  revert db0; induction calls as [|[f long_raw] rest IH]; intros db0 H.
  - exists db0. split; [reflexivity|]. simpl in H. destruct c as [f long_raw].
    simpl. destruct (record_long_raw f long_raw db0) as [[e|[]] db1];
      [discriminate|]. inversion H; subst. reflexivity.
  - simpl in H. simpl.
    destruct (record_long_raw f long_raw db0) as [[e|[]] db1];
      [discriminate|]. apply IH. assumption.
Qed.

(** The calls that went through, in whatever order: the store satisfies
    its constraints, the ledger holds the versions of the calls, the
    store holds no string but theirs, and the reconstruction as of [v] is
    the snapshot of the greatest of them at or before [v], up to what
    MySQL takes for equal. *)
Lemma any_order_invariant calls :
  forall db,
    record_all calls empty_db = inr db ->
    db_ok db
    /\ (forall u, In u (norostat_raw_datatable_version_list db)
                  <-> exists c, In c calls /\ version_of (snd c) = u)
    /\ (forall s, stored db s -> In s (delivered_by calls))
    /\ forall v,
        (forall c, In c calls -> vle (version_of (snd c)) v ->
                   (forall c', In c' calls -> vle (version_of (snd c')) v ->
                               vle (version_of (snd c'))
                                   (version_of (snd c))) ->
                   same_rows (reconstruct db v) (snapshot_rows (snd c)))
        /\ ((forall c, In c calls -> ~ vle (version_of (snd c)) v) ->
            forall row, ~ In row (reconstruct db v)).
Proof.
  induction calls as [|[f long_raw] prev IH] using rev_ind; intros db Run.
  - simpl in Run. inversion Run; subst. split; [apply empty_db_ok|].
    split; [|split].
    + intros u. simpl. split; [intros [] | intros [c [[] _]]].
    + intros s [[] | [[] | [[] | [d [[] _]]]]].
    + intros v. split; [intros c []|]. intros _ row H. destruct H.
  - apply record_all_app in Run. destruct Run as [db1 [Run E]].
    simpl in E. destruct (IH db1 Run) as [Ok [Led [Sto St]]].
    destruct (record_long_raw_inr _ _ _ _ E) as [next Rec].
    pose proof (recorded_least_after _ _ _ _ Rec) as LA.
    pose proof (recorded_new _ _ _ _ Rec) as New.
    assert (Led' : forall u,
               In u (norostat_raw_datatable_version_list db)
               <-> exists c, In c (prev ++ [(f, long_raw)])
                             /\ version_of (snd c) = u).
    { intros u. rewrite (rec_versions _ _ _ _ Rec). rewrite in_app_iff.
      rewrite Led. split.
      - intros [[c [Hc Hu]] | [<- | []]].
        + exists c. split; [apply in_or_app; left; assumption | assumption].
        + exists (f, long_raw). split; [|reflexivity].
          apply in_or_app. right. left. reflexivity.
      - intros [c [Hc Hu]]. apply in_app_or in Hc.
        destruct Hc as [Hc | [<- | []]].
        + left. exists c. auto.
        + right. left. assumption. }
    split; [apply (recorded_ok _ _ _ _ Ok Rec)|]. split; [exact Led'|].
    split.
    { intros s Hs. unfold delivered_by. rewrite flat_map_app.
      apply in_or_app.
      destruct (recorded_stored _ _ _ _ s Ok Rec Hs) as [H | H].
      - left. apply Sto. assumption.
      - right. simpl. rewrite app_nil_r. assumption. }
    intros v. destruct (St v) as [St1 St2].
    destruct (vle_total (version_of long_raw) v) as [Hv | Hv].
    + (* the new version is at or before [v] *)
      assert (Cases : (forall n, next = Some n -> vlt v n)
                      \/ exists n, next = Some n /\ vle n v).
      { destruct next as [n|].
        - destruct (vle_total n v) as [H | H].
          + right. exists n. auto.
          + left. intros m Em. inversion Em; subst. assumption.
        - left. intros n En. discriminate. }
      destruct Cases as [Hn | [n [En Hnv]]].
      * split.
        -- intros c Hc Hcv Hmax.
           apply in_app_or in Hc. destruct Hc as [Hc | [<- | []]];
             [|exact (reconstruct_snapshot _ _ _ _ Ok Rec v Hv Hn)].
           exfalso.
           assert (Hu : In (version_of (snd c))
                           (norostat_raw_datatable_version_list db1))
             by (apply Led; exists c; auto).
           assert (Hge : vle (version_of long_raw) (version_of (snd c))).
           { apply (Hmax (f, long_raw)); [|assumption].
             apply in_or_app. right. left. reflexivity. }
           assert (Hne : version_of (snd c) <> version_of long_raw).
           { intros Eq. apply New. rewrite <- Eq. assumption. }
           destruct next as [n|].
           ++ destruct LA as [_ [_ LA]].
              assert (Hlt : vlt (version_of long_raw) (version_of (snd c)))
                by vsolve.
              specialize (LA _ Hu Hlt). specialize (Hn n eq_refl). vsolve.
           ++ apply (LA _ Hu). vsolve.
        -- intros Hno row _.
           apply (Hno (f, long_raw)); [|assumption].
           apply in_or_app. right. left. reflexivity.
      * rewrite En in LA. destruct LA as [Hin [Hlt Hleast]].
        apply Led in Hin. destruct Hin as [cn [Hcn Ecn]].
        split.
        -- intros c Hc Hcv Hmax.
           apply (same_rows_trans _ _ _
                    (reconstruct_after _ _ _ _ Ok Rec n v En Hnv)).
           assert (Hge : vle n (version_of (snd c))).
           { rewrite <- Ecn. apply Hmax; [|rewrite Ecn; assumption].
             apply in_or_app. left. assumption. }
           apply in_app_or in Hc. destruct Hc as [Hc | [<- | []]].
           ++ apply St1; [assumption | assumption|].
              intros c' Hc' Hv'. apply Hmax; [|assumption].
              apply in_or_app. left. assumption.
           ++ exfalso. simpl in Hge. vsolve.
        -- intros Hno row _.
           apply (Hno cn); [apply in_or_app; left; assumption|].
           rewrite Ecn. assumption.
    + (* the new version is after [v] *)
      split.
      * intros c Hc Hcv Hmax.
        apply (same_rows_trans _ _ _
                 (same_rows_exact _ _
                    (reconstruct_before _ _ _ _ Ok Rec v Hv))).
        apply in_app_or in Hc. destruct Hc as [Hc | [<- | []]].
        -- apply St1; [assumption | assumption|].
           intros c' Hc' Hv'. apply Hmax; [|assumption].
           apply in_or_app. left. assumption.
        -- exfalso. simpl in Hcv. vsolve.
      * intros Hno row.
        rewrite (reconstruct_before _ _ _ _ Ok Rec v Hv row).
        apply St2. intros c Hc. apply Hno. apply in_or_app. left.
        assumption.
Qed.

(** Among the calls there is one of greatest version at or before [v],
    unless none is at or before [v]. *)
Lemma greatest_call (calls : list (Faults * LongRaw)) v :
  (exists c, In c calls /\ vle (version_of (snd c)) v
             /\ forall c', In c' calls -> vle (version_of (snd c')) v ->
                           vle (version_of (snd c')) (version_of (snd c)))
  \/ (forall c, In c calls -> ~ vle (version_of (snd c)) v).
Proof.
  induction calls as [|a rest IH].
  - right. intros c [].
  - destruct (vle_total (version_of (snd a)) v) as [Ha | Ha].
    + left. destruct IH as [[c [Hc [Hv Hmax]]] | Hno].
      * destruct (vle_total (version_of (snd c)) (version_of (snd a)))
          as [H | H].
        -- exists a. split; [left; reflexivity|]. split; [assumption|].
           intros c' [<- | Hc'] Hv'; [apply vle_refl|].
           apply (vle_trans _ _ _ (Hmax c' Hc' Hv') H).
        -- exists c. split; [right; assumption|]. split; [assumption|].
           intros c' [<- | Hc'] Hv'; [vsolve | auto].
      * exists a. split; [left; reflexivity|]. split; [assumption|].
        intros c' [<- | Hc'] Hv'; [apply vle_refl|].
        exfalso. apply (Hno c' Hc' Hv').
    + destruct IH as [[c [Hc [Hv Hmax]]] | Hno].
      * left. exists c. split; [right; assumption|]. split; [assumption|].
        intros c' [<- | Hc'] Hv'; [exfalso; vsolve | auto].
      * right. intros c [<- | Hc]; [vsolve | auto].
Qed.

Lemma delivered_by_in calls c s :
  In c calls -> In s (delivered (snd c)) -> In s (delivered_by calls).
Proof. intros Hc Hs. apply in_flat_map. exists c. auto. Qed.

(** The reconstruction and a snapshot of the calls, once they are the same
    for MySQL, are the same where the collation tells the strings of the
    calls apart. *)
Lemma reconstruct_exact calls db v c :
  record_all calls empty_db = inr db -> In c calls ->
  same_rows (reconstruct db v) (snapshot_rows (snd c)) ->
  told_apart (delivered_by calls) ->
  forall row, In row (reconstruct db v) <-> In row (snapshot_rows (snd c)).
Proof.
  intros Run Hc Same Apart.
  destruct (any_order_invariant calls db Run) as [_ [_ [Sto _]]].
  apply (told_apart_rows (delivered_by calls)); try assumption.
  - intros m lo k x H. apply reconstruct_stored in H.
    destruct H as (H1 & H2 & H3 & H4). auto.
  - intros m lo k x H. apply snapshot_rows_delivered in H.
    destruct H as (H1 & H2 & H3 & H4).
    repeat split; apply (delivered_by_in calls c); assumption.
Qed.




(** ** No redundant diffs *)

Lemma run_invariant calls db :
  db_ok db -> no_redundant_diffs (norostat_raw_datatable_diffs db) ->
  db_ok (run calls db)
  /\ no_redundant_diffs (norostat_raw_datatable_diffs (run calls db)).
Proof.
  revert db; induction calls as [|[f long_raw] rest IH]; simpl;
    intros db Ok Inv; [auto|].
  apply IH.
  - apply record_long_raw_ok. assumption.
  - destruct (record_long_raw_effect f long_raw db) as [E | [n R]].
    + rewrite E. assumption.
    + apply (state_no_redundant _ _ _ _ Ok R). assumption.
Qed.

Lemma consecutive_differ D d1 d2 :
  diff_key_unique D -> no_redundant_diffs D ->
  In d1 D -> In d2 D -> Diff.cell d1 = Diff.cell d2 ->
  vlt (Diff.version d1) (Diff.version d2) ->
  (forall d3, In d3 D -> Diff.cell d3 = Diff.cell d1 ->
              ~ (vlt (Diff.version d1) (Diff.version d3)
                 /\ vlt (Diff.version d3) (Diff.version d2))) ->
  Diff.new_value d1 <> Diff.new_value d2.
Proof.
  intros K Inv I1 I2 C Hl Hb E.
  assert (La : latest D (vpred (Diff.version d2)) (Diff.cell d2) d1).
  { split; [assumption|]. split; [assumption|]. split; [vsolve|].
    intros d' I' C' L'.
    destruct (vle_total (Diff.version d') (Diff.version d1)) as [?|Hgt];
      [assumption|].
    exfalso. apply (Hb d' I'); [congruence|]. split; [assumption|vsolve]. }
  specialize (Inv d2 I2). unfold changes in Inv.
  destruct (Diff.new_value d2) as [x|].
  - apply Inv. exists x. split; [exists d1; auto | apply same_text_refl].
  - destruct Inv as (x & d' & La' & V').
    assert (d' = d1) by (eapply latest_unique; eauto). congruence.
Qed.

(** C3. No redundant diffs: after any sequence of calls of
    [record_long_raw] from the empty store, in any order of versions and
    whether the calls succeed or fail, two diffs of the same cell that are
    consecutive in version order carry different values (a removal being
    different from every string). *)
Theorem no_redundant_diffs_kept (calls : list (Faults * LongRaw))
        (d1 d2 : Diff.row) :
  let D := norostat_raw_datatable_diffs (run calls empty_db) in
  In d1 D -> In d2 D -> Diff.cell d1 = Diff.cell d2 ->
  vlt (Diff.version d1) (Diff.version d2) ->
  (forall d3, In d3 D -> Diff.cell d3 = Diff.cell d1 ->
              ~ (vlt (Diff.version d1) (Diff.version d3)
                 /\ vlt (Diff.version d3) (Diff.version d2))) ->
  Diff.new_value d1 <> Diff.new_value d2.
Proof.
  intros D.
  assert (Inv0 : no_redundant_diffs (norostat_raw_datatable_diffs empty_db))
    by (intros d []).
  destruct (run_invariant calls empty_db empty_db_ok Inv0) as [Ok Inv].
  apply consecutive_differ; [|assumption].
  apply distinct_diff_keys. apply (ok_keys _ Ok).
Qed.

(** ** The frame of a call *)

(** C7. Frame condition of the diff chain: whatever way a call of
    [record_long_raw] ends, a diff at a version other than the one being
    inserted and other than the version that immediately follows it in the
    ledger is in the table after the call exactly when it was there
    before; when no recorded version follows, no diff is removed at all;
    and every ledger entry and every pool entry of before is still there
    after. *)
Theorem record_long_raw_frame (f : Faults) (long_raw : LongRaw) (db : DB) :
  db_ok db ->
  let db' := snd (record_long_raw f long_raw db) in
  let v := version_of long_raw in
  exists next,
    least_after (norostat_raw_datatable_version_list db) v next
    /\ (forall d, Diff.version d <> v -> next <> Some (Diff.version d) ->
                  (In d (norostat_raw_datatable_diffs db')
                   <-> In d (norostat_raw_datatable_diffs db)))
    /\ (next = None ->
        incl (norostat_raw_datatable_diffs db)
             (norostat_raw_datatable_diffs db'))
    /\ incl (norostat_raw_datatable_version_list db)
            (norostat_raw_datatable_version_list db')
    /\ incl (pool_rows (norostat_raw_datatable_measurement_type_pool db))
            (pool_rows (norostat_raw_datatable_measurement_type_pool db'))
    /\ incl (pool_rows (norostat_raw_datatable_location_pool db))
            (pool_rows (norostat_raw_datatable_location_pool db'))
    /\ incl (pool_rows (norostat_raw_datatable_week_pool db))
            (pool_rows (norostat_raw_datatable_week_pool db')).
Proof.
  intros Ok db' v.
  destruct (record_long_raw_effect f long_raw db) as [E | [next R]];
    fold db' in E || fold db' in R.
  - exists (match firstn 1 (order_by_version
                              (filter (vltb v)
                                 (norostat_raw_datatable_version_list db)))
            with
            | n :: _ => Some n
            | [] => None
            end).
    rewrite E. split.
    + apply next_version_least.
      destruct (order_by_version _) as [|a l]; reflexivity.
    + split; [intros; tauto|]. split; [intros _; apply incl_refl|].
      repeat split; apply incl_refl.
  - exists next.
    pose proof (recorded_least_after _ _ _ _ R) as LA.
    pose proof (recorded_spliced _ _ _ _ Ok R) as Sp.
    destruct (recorded_pools _ _ _ _ Ok R) as [[_ Im] [[_ Il] [_ Iw]]].
    split; [assumption|]. split; [|split; [|split; [|auto]]].
    + intros d Hv Hn. rewrite (Sp d). split.
      * intros [[H _] | [[Ev _] | Hr]]; [assumption | contradiction|].
        destruct next as [n|]; [|contradiction]. destruct Hr as [Er _].
        exfalso. apply Hn. congruence.
      * intros H. left. split; [assumption|].
        destruct next as [n|]; [|trivial]. intros En. apply Hn. congruence.
    + intros En d Hd. apply Sp. left. split; [assumption|].
      rewrite En. trivial.
    + rewrite (rec_versions _ _ _ _ R). apply incl_appl, incl_refl.
Qed.

(** ** Empty values *)

(** C9, as the code has it. Every value is stored, the empty string
    like any other: after a successful call the reconstruction as of the
    recorded version has, for each row of the snapshot, a row that the
    collation of the columns takes for equal to it, and its value is the
    delivered one unless the cell had that row already. *)
Theorem every_value_is_stored (f : Faults) (long_raw : LongRaw)
        (db db' : DB) (row : string * string * string * string) :
  db_ok db ->
  record_long_raw f long_raw db = (inr tt, db') ->
  In row (snapshot_rows long_raw) ->
  exists row',
    In row' (reconstruct db' (version_of long_raw))
    /\ same_row row' row
    /\ (snd row' = snd row
        \/ In row' (reconstruct db (version_of long_raw))).
Proof.
  intros Ok E Hrow.
  destruct (record_long_raw_inr _ _ _ _ E) as [next Rec].
  apply (snapshot_row_stored _ _ _ _ Ok Rec). assumption.
Qed.

(** ** Atomicity *)

Lemma record_transaction_fails f long_raw db e c :
  record_long_raw_transaction f long_raw (connect db) = (inl e, c) ->
  record_long_raw f long_raw db = (inl e, db).
Proof.
  intros E.
  pose proof (transaction_keeps_committed f long_raw (connect db)) as K.
  rewrite E in K. simpl in K.
  unfold record_long_raw, record_long_raw_body. unfold bind at 1.
  rewrite E. rewrite K. reflexivity.
Qed.

Lemma record_after_transaction f long_raw db c :
  record_long_raw_transaction f long_raw (connect db) = (inr tt, c) ->
  record_long_raw f long_raw db
  = if f 350%nat then (inl (OperationalError 350), db)
    else if f 358%nat
         then (inl (OperationalError 358), create_point_version_list (work c))
         else if f 371%nat
              then (inl (OperationalError 371), with_point_tables (work c))
              else (inr tt, with_point_tables (work c)).
Proof.
  intros E.
  pose proof (transaction_keeps_committed f long_raw (connect db)) as K.
  rewrite E in K. simpl in K.
  unfold record_long_raw, record_long_raw_body. unfold bind at 1.
  rewrite E.
  unfold bind, execute, create_table_if_not_exists, commit, do_commit.
  simpl. destruct (f 350%nat); [rewrite K; reflexivity|].
  destruct (f 358%nat); [reflexivity|].
  destruct (f 371%nat); reflexivity.
Qed.

(** C4. Atomicity: whatever statement fails, a call leaves the database
    exactly as it was, or with the version list, the pools and the diffs
    that the call without failures produces, all of them together; and
    any failure other than one of the two statements after the
    transaction (the creation of the second point table, line 358, and
    the final commit, line 371) leaves the database as it was. *)
Theorem record_long_raw_atomic (f : Faults) (long_raw : LongRaw) (db : DB) :
  (snd (record_long_raw f long_raw db) = db
   \/ (fst (record_long_raw no_faults long_raw db) = inr tt
       /\ raw_tables (snd (record_long_raw f long_raw db))
          = raw_tables (snd (record_long_raw no_faults long_raw db))))
  /\ (forall e, fst (record_long_raw f long_raw db) = inl e ->
                e <> OperationalError 358 -> e <> OperationalError 371 ->
                snd (record_long_raw f long_raw db) = db).
Proof.
  destruct (record_long_raw_transaction f long_raw (connect db))
    as [[e|[]] c] eqn:E.
  - rewrite (record_transaction_fails _ _ _ _ _ E). simpl. auto.
  - pose proof (transaction_refines f long_raw _ _ _ E) as E0.
    rewrite (record_after_transaction _ _ _ _ E).
    rewrite (record_after_transaction _ _ _ _ E0). simpl.
    destruct (f 350%nat); [simpl; auto|].
    destruct (f 358%nat); [|destruct (f 371%nat)]; simpl.
    + split.
      * right. split; [reflexivity|].
        rewrite raw_tables_with_point_tables.
        apply raw_tables_create_point_version_list.
      * intros e He. inversion He; subst. congruence.
    + split; [right; auto|].
      intros e He. inversion He; subst. congruence.
    + split; [right; auto|]. intros e He. discriminate.
Qed.

(** ** The statements that cannot fail on well-formed data *)

Lemma distinct_keys_split {R} (k : R -> R -> bool) l1 l2 :
  distinct_keys k (l1 ++ l2) ->
  distinct_keys k l1 /\ distinct_keys k l2
  /\ forall x y, In x l1 -> In y l2 -> k y x = false.
Proof.
  induction l1 as [|a l1 IH]; simpl.
  - intros H. repeat split; [assumption|]. intros x y [].
  - intros [H1 H2]. destruct (IH H2) as [D1 [D2 C]]. repeat split.
    + intros x Hx. apply H1. apply in_or_app. auto.
    + assumption.
    + assumption.
    + intros x y [<- | Hx] Hy; [|auto]. apply H1. apply in_or_app. auto.
Qed.

Lemma executemany_insert_parsed_total rows c :
  forallb Parsed.fits rows = true ->
  distinct_keys (Parsed.same_key collation)
                (norostat_raw_datatable_parsed c ++ rows) ->
  executemany insert_parsed rows c
  = (inr tt, set_parsed c (norostat_raw_datatable_parsed c ++ rows)).
Proof.
  revert c; induction rows as [|r rows IH]; simpl; intros c F Dk.
  - unfold ret. rewrite app_nil_r. destruct c; reflexivity.
  - apply andb_true_iff in F. destruct F as [F1 F2].
    unfold bind, insert_parsed. rewrite F1. simpl.
    destruct (distinct_keys_split _ _ _ Dk) as [_ [_ C]].
    destruct (existsb (Parsed.same_key collation r)
                      (norostat_raw_datatable_parsed c))
      eqn:E.
    + apply existsb_exists in E. destruct E as [x [Hx K]].
      rewrite (C x r Hx (or_introl eq_refl)) in K. discriminate.
    + rewrite IH; simpl.
      * rewrite <- app_assoc. reflexivity.
      * assumption.
      * rewrite <- app_assoc. assumption.
Qed.

(** The rows that the query of lines 172-194 keeps come from diffs that no
    diff of the same cell follows at or before [v]. *)
Lemma select_latest_cons d l R v :
  flat_map (fun j => match Diff.new_value (fst j) with
                     | Some x => [State.mk (Diff.measurement_type_id (fst j))
                                           (Diff.location_id (fst j))
                                           (Diff.week_id (fst j)) x]
                     | None => []
                     end)
    (filter (fun j => vleb (Diff.version (fst j)) v
                      && match snd j with None => true | Some _ => false end
                      && match Diff.new_value (fst j) with
                         | Some _ => true | None => false end)
       (left_join later_on (d :: l) R))
  = match Diff.new_value d with
    | Some x =>
        if vleb (Diff.version d) v
           && negb (existsb (later_on d) R)
        then [State.mk (Diff.measurement_type_id d) (Diff.location_id d)
                       (Diff.week_id d) x]
        else []
    | None => []
    end
    ++ flat_map (fun j => match Diff.new_value (fst j) with
                          | Some x => [State.mk
                                         (Diff.measurement_type_id (fst j))
                                         (Diff.location_id (fst j))
                                         (Diff.week_id (fst j)) x]
                          | None => []
                          end)
         (filter (fun j => vleb (Diff.version (fst j)) v
                           && match snd j with
                              | None => true | Some _ => false end
                           && match Diff.new_value (fst j) with
                              | Some _ => true | None => false end)
            (left_join later_on l R)).
Proof.
  unfold left_join. simpl. rewrite filter_app, flat_map_app. f_equal.
  destruct (filter (later_on d) R) as [|b bs] eqn:F.
  - assert (E : existsb (later_on d) R = false).
    { destruct (existsb (later_on d) R) eqn:E; [|reflexivity].
      apply existsb_exists in E. destruct E as [x [Hx K]].
      assert (In x (filter (later_on d) R)) by (apply filter_In; auto).
      rewrite F in *. contradiction. }
    rewrite E. simpl.
    destruct (Diff.new_value d) as [x|] eqn:V;
      destruct (vleb (Diff.version d) v); simpl; try rewrite V; reflexivity.
  - assert (E : existsb (later_on d) R = true).
    { apply existsb_exists. exists b.
      assert (In b (filter (later_on d) R)) by (rewrite F; left; reflexivity).
      apply filter_In in H. assumption. }
    rewrite E, andb_false_r.
    replace (filter _ (map (fun b0 => (d, Some b0)) (b :: bs)))
      with (@nil (Diff.row * option Diff.row)).
    + destruct (Diff.new_value d); reflexivity.
    + symmetry. generalize (b :: bs). intros l0.
      induction l0 as [|a l0 IH]; simpl; [reflexivity|].
      rewrite andb_false_r. simpl. assumption.
Qed.

Lemma select_latest_distinct D v :
  distinct_keys Diff.same_key D ->
  distinct_keys State.same_key (select_latest D v).
Proof.
  intros Dk. unfold select_latest, latest_rows.
  set (R := filter (fun d => vleb (Diff.version d) v) D).
  assert (Sub : incl D D) by apply incl_refl.
  revert Dk Sub. generalize D at 1 2 4 as l.
  induction l as [|d l IH]; intros Dk Sub; [exact Logic.I|].
  rewrite select_latest_cons. destruct Dk as [Dk1 Dk2].
  assert (IH' := IH Dk2 (fun x Hx => Sub x (or_intror Hx))).
  destruct (Diff.new_value d) as [x|] eqn:V; [|assumption].
  destruct (vleb (Diff.version d) v) eqn:Ev; [|assumption].
  destruct (existsb (later_on d) R) eqn:El; [assumption|]. simpl.
  split; [|assumption].
  intros s Hs. apply in_flat_map in Hs. destruct Hs as [[d' o] [Hj Hs]].
  apply filter_In in Hj. destruct Hj as [Hj Hc]. simpl in *.
  rewrite !andb_true_iff in Hc. destruct Hc as [[Hv Ho] _].
  destruct o as [?|]; [discriminate|].
  apply in_left_join_none in Hj. destruct Hj as [Hd' Hn].
  destruct (Diff.new_value d') as [y|]; [|contradiction].
  destruct Hs as [<- | []]. unfold State.same_key. simpl.
  destruct ((Diff.measurement_type_id d' =? Diff.measurement_type_id d)
            && (Diff.location_id d' =? Diff.location_id d)
            && (Diff.week_id d' =? Diff.week_id d)) eqn:K; [|reflexivity].
  exfalso. rewrite !andb_true_iff, !Z.eqb_eq in K.
  destruct K as [[K1 K2] K3].
  assert (Cd : Diff.cell d' = Diff.cell d)
    by (apply cell_eq_iff; auto).
  assert (Id : In d R).
  { apply filter_In. split; [apply Sub; left; reflexivity | assumption]. }
  assert (Id' : In d' R).
  { apply filter_In. split; [apply Sub; right; assumption | assumption]. }
  assert (N1 : later_on d' d = false) by (apply Hn; assumption).
  assert (N2 : later_on d d' = false).
  { destruct (later_on d d') eqn:E; [|reflexivity].
    assert (existsb (later_on d) R = true)
      by (apply existsb_exists; eauto).
    congruence. }
  assert (V1 : ~ vlt (Diff.version d') (Diff.version d)).
  { intros Hl. assert (later_on d' d = true)
      by (apply later_on_spec; auto). congruence. }
  assert (V2 : ~ vlt (Diff.version d) (Diff.version d')).
  { intros Hl. assert (later_on d d' = true)
      by (apply later_on_spec; auto). congruence. }
  assert (Diff.same_key d' d = true).
  { apply same_key_spec. split; [vsolve | assumption]. }
  rewrite (Dk1 d' Hd') in H. discriminate.
Qed.

(** The read phase goes through on a well-formed snapshot and a
    well-formed database, when no statement fails on its own. *)
Lemma read_total f long_raw c :
  (forall line, f line = false) ->
  well_formed long_raw ->
  distinct_keys Diff.same_key (norostat_raw_datatable_diffs (work c)) ->
  exists nvl c',
    record_long_raw_read f long_raw c = (inr nvl, c')
    /\ work c' = work c.
Proof.
  intros Hf [Fits Keys] Dk.
  pose proof (read_keeps_work f long_raw c) as Kw.
  destruct (record_long_raw_read f long_raw c) as [[e|nvl] c'] eqn:E.
  - exfalso. revert E. unfold record_long_raw_read.
    unfold bind, execute. rewrite !Hf. simpl.
    unfold create_parsed. simpl.
    rewrite executemany_insert_parsed_total by assumption. simpl.
    unfold insert_previous. simpl.
    rewrite (insert_rows_total State.same_key []
               (select_latest (norostat_raw_datatable_diffs (work c))
                              (version_of long_raw)))
      by (try (intros ? ? ? []); apply select_latest_distinct; assumption).
    simpl.
    destruct (order_by_version _) as [|n rest]; simpl; [discriminate|].
    unfold insert_next. simpl.
    rewrite (insert_rows_total State.same_key []
               (select_latest (norostat_raw_datatable_diffs (work c)) n))
      by (try (intros ? ? ? []); apply select_latest_distinct; assumption).
    simpl. discriminate.
  - exists nvl, c'. split; [reflexivity | exact Kw].
Qed.

(** ** Duplicate versions *)

(** C5. Duplicate version rejection. Recording a snapshot at a version
    that is already in the ledger always fails and leaves the database as
    it was; on a well-formed database and snapshot, with no failure of the
    storage itself, the failure is the bare [Exception] of line 250; and
    this exception, which no other failure of the call raises, is raised
    only for a version already in the ledger. *)
Theorem duplicate_version_rejected (f : Faults) (long_raw : LongRaw)
        (db : DB) :
  (In (version_of long_raw) (norostat_raw_datatable_version_list db) ->
   (exists e, record_long_raw f long_raw db = (inl e, db))
   /\ ((forall line, f line = false) -> well_formed long_raw -> db_ok db ->
       record_long_raw f long_raw db = (inl (Exception IntegrityError), db)))
  /\ (forall e db',
        record_long_raw f long_raw db = (inl (Exception e), db') ->
        e = IntegrityError /\ db' = db
        /\ In (version_of long_raw) (norostat_raw_datatable_version_list db)).
Proof.
  split.
  - intros Dup. split.
    + destruct (record_long_raw_transaction f long_raw (connect db))
        as [[e|[]] c] eqn:E.
      * exists e. apply (record_transaction_fails _ _ _ _ _ E).
      * exfalso. apply transaction_inr in E.
        destruct E as (_ & _ & _ & next & R). simpl in R.
        apply (rec_new _ _ _ _ R). assumption.
    + intros Hf Wf Ok.
      destruct (read_total f long_raw (connect db) Hf Wf (ok_keys _ Ok))
        as (nvl & c1 & E1 & W1).
      apply (record_transaction_fails _ _ _ _ c1).
      unfold record_long_raw_transaction, bind. rewrite E1.
      unfold record_long_raw_write, bind.
      rewrite register_duplicate; [reflexivity | apply Hf|].
      rewrite W1. assumption.
  - intros e db' H.
    destruct (record_long_raw_transaction f long_raw (connect db))
      as [[e0|[]] c] eqn:E.
    + rewrite (record_transaction_fails _ _ _ _ _ E) in H.
      injection H as He Hd. rewrite He in E. clear He e0.
      unfold record_long_raw_transaction in E. apply bind_inl in E.
      destruct E as [E | (nvl & c1 & E1 & E)].
      * apply read_raises_plain in E. contradiction.
      * apply write_exception in E. destruct E as [Ee E].
        pose proof (read_keeps_work f long_raw (connect db)) as W.
        rewrite E1 in W. simpl in W. rewrite W in E. auto.
    + rewrite (record_after_transaction _ _ _ _ E) in H.
      destruct (f 350%nat); [discriminate|].
      destruct (f 358%nat); [discriminate|].
      destruct (f 371%nat); discriminate.
Qed.

(** ** The order of the registration and the forward diff *)

Lemma keeps_versions_bind {A B} (m : M A) (k : A -> M B) :
  keeps_versions m -> (forall a, keeps_versions (k a)) ->
  keeps_versions (bind m k).
Proof.
  intros Hm Hk c. unfold bind. specialize (Hm c).
  destruct (m c) as [[e|a] c1]; simpl in *; [assumption|].
  rewrite Hk. assumption.
Qed.

Lemma keeps_versions_execute {A} f line (m : M A) :
  keeps_versions m -> keeps_versions (execute f line m).
Proof. intros H c. unfold execute. destruct (f line); [reflexivity|apply H]. Qed.

Lemma keeps_versions_insert_selected rows :
  keeps_versions (insert_selected rows).
Proof.
  intros c. unfold insert_selected, insert_diffs.
  destruct (rows c) as [e|l]; [reflexivity|].
  destruct (forallb (diff_references (work c)) l); [|reflexivity].
  destruct (insert_rows Diff.same_key _ l); reflexivity.
Qed.

Lemma diffs_keep_versions f long_raw nvl :
  keeps_versions (record_long_raw_diffs f long_raw nvl).
Proof.
  unfold record_long_raw_diffs.
  repeat first
    [ apply keeps_versions_bind; [|intros ?]
    | apply keeps_versions_execute
    | apply keeps_versions_insert_selected
    | match goal with
      | |- keeps_versions (match ?l with _ => _ end) => destruct l
      end
    | run_statement ].
Qed.

Lemma register_inl f v c e c' :
  try_except_IntegrityError (execute f 245 (insert_version v))
                            (fun e => raise (Exception e)) c
  = (inl e, c') ->
  e = Exception IntegrityError \/ e = OperationalError 245.
Proof.
  unfold try_except_IntegrityError, execute, insert_version, raise.
  destruct (f 245%nat); [intros H; inversion H; auto|]. simpl.
  destruct (existsb _ _); intros H; inversion H; auto.
Qed.

Lemma register_inr f v c c' :
  try_except_IntegrityError (execute f 245 (insert_version v))
                            (fun e => raise (Exception e)) c
  = (inr tt, c') ->
  ~ In v (norostat_raw_datatable_version_list (work c))
  /\ norostat_raw_datatable_version_list (work c')
     = norostat_raw_datatable_version_list (work c) ++ [v].
Proof.
  intros H. apply try_except_inr in H. apply execute_inr in H.
  destruct H as [_ H]. unfold insert_version in H. simpl in H.
  destruct (existsb _ _) eqn:E; [discriminate|].
  inversion H; subst. simpl. split; [|reflexivity]. intros Hin.
  assert (existsb (veqb v) (norostat_raw_datatable_version_list (work c))
          = true).
  { apply existsb_exists. exists v. split; [assumption|].
    apply veqb_spec. reflexivity. }
  congruence.
Qed.

Lemma after_transaction_inl f c e c' :
  (execute f 350 (create_table_if_not_exists create_point_version_list) ;;;
   execute f 358 (create_table_if_not_exists create_point_diffs) ;;;
   execute f 371 commit) c = (inl e, c') ->
  e = OperationalError 350 \/ e = OperationalError 358
  \/ e = OperationalError 371.
Proof.
  unfold bind, execute, create_table_if_not_exists, commit.
  destruct (f 350%nat); [intros H; inversion H; auto|].
  destruct (f 358%nat); [intros H; inversion H; auto|].
  destruct (f 371%nat); intros H; inversion H; auto.
Qed.

(** A version already in the ledger: the call fails and commits
    nothing. *)
Lemma duplicate_fails f long_raw db :
  In (version_of long_raw) (norostat_raw_datatable_version_list db) ->
  exists e, record_long_raw f long_raw db = (inl e, db).
Proof.
  intros Dup.
  destruct (record_long_raw_transaction f long_raw (connect db))
    as [[e|[]] c] eqn:E.
  - exists e. apply (record_transaction_fails _ _ _ _ _ E).
  - exfalso. apply transaction_inr in E.
    destruct E as (_ & _ & _ & next & R). simpl in R.
    apply (rec_new _ _ _ _ R). assumption.
Qed.

(** C6, as the code has it. The version is registered (line 245) before
    the forward diff is written (lines 282 and 297): a run that stops at
    either statement of the forward diff has the version in the ledger of
    its working copy; but the version was not in the ledger before and
    nothing of the run is committed, so no orphan version is left. And
    when the version is already in the ledger, the call fails and commits
    nothing. *)
Theorem registration_precedes_forward_diff (f : Faults) (long_raw : LongRaw)
        (db : DB) :
  (forall e c,
      record_long_raw_body f long_raw (connect db) = (inl e, c) ->
      e = OperationalError 282 \/ e = OperationalError 297 ->
      In (version_of long_raw) (norostat_raw_datatable_version_list (work c))
      /\ ~ In (version_of long_raw) (norostat_raw_datatable_version_list db)
      /\ committed c = db)
  /\ (In (version_of long_raw) (norostat_raw_datatable_version_list db) ->
      exists e, record_long_raw f long_raw db = (inl e, db)).
Proof.
  split; [|apply duplicate_fails].
  intros e c H He. unfold record_long_raw_body in H.
  apply bind_inl in H. destruct H as [H | (u & c1 & _ & H)].
  - pose proof (transaction_keeps_committed f long_raw (connect db)) as K.
    rewrite H in K. simpl in K.
    unfold record_long_raw_transaction in H. apply bind_inl in H.
    destruct H as [H | (nvl & c1 & H1 & H)].
    + apply read_raises_before in H. exfalso.
      destruct He as [-> | ->]; simpl in H; lia.
    + pose proof (read_keeps_work f long_raw (connect db)) as W.
      rewrite H1 in W. simpl in W.
      unfold record_long_raw_write in H. apply bind_inl in H.
      destruct H as [H | ([] & c2 & H2 & H)].
      * apply register_inl in H. exfalso.
        destruct H as [-> | ->], He as [He | He]; discriminate.
      * apply register_inr in H2. destruct H2 as [New Reg].
        pose proof (diffs_keep_versions f long_raw nvl c2) as V.
        rewrite H in V. simpl in V. rewrite W in New, Reg.
        split; [|auto]. rewrite V, Reg. apply in_or_app. right. left.
        reflexivity.
  - apply after_transaction_inl in H. exfalso.
    destruct H as [-> | [-> | ->]], He as [He | He]; discriminate.
Qed.

(** ** [update_point] *)

Lemma insert_point_diff_versions r c c' :
  insert_point_diff r c = (inr tt, c') ->
  norostat_point_version_list (work c')
  = norostat_point_version_list (work c)
  /\ norostat_raw_datatable_version_list (work c')
     = norostat_raw_datatable_version_list (work c).
Proof.
  unfold insert_point_diff. intros H.
  destruct (norostat_point_diffs (work c)) as [t|]; [|discriminate].
  destruct (norostat_point_version_list (work c)) as [pv|] eqn:E;
    [|discriminate].
  destruct (_ || _); [discriminate|].
  destruct (point_references _ _ _); [|discriminate].
  destruct (insert_rows _ _ _); [discriminate|].
  inversion H; subst. simpl. split; [assumption | reflexivity].
Qed.

Lemma executemany_insert_point_diff_versions rows c c' :
  executemany insert_point_diff rows c = (inr tt, c') ->
  norostat_point_version_list (work c')
  = norostat_point_version_list (work c)
  /\ norostat_raw_datatable_version_list (work c')
     = norostat_raw_datatable_version_list (work c).
Proof.
  revert c; induction rows as [|r rows IH]; simpl; intros c H.
  - inversion H; subst. split; reflexivity.
  - apply bind_inr in H. destruct H as ([] & c1 & H1 & H2).
    destruct (IH _ H2) as [E1 E2].
    destruct (insert_point_diff_versions _ _ _ H1) as [E3 E4].
    split; congruence.
Qed.

Section UpdatePointProperties.
Variable season_db_to_epiweek : string -> option string -> result Z.

(** A selected row whose tuple cannot be built makes the whole list
    comprehension raise. *)
Lemma point_diff_insertion_raises selection r :
  In r selection -> selected r = inr true ->
  (exists e, point_diff season_db_to_epiweek r = inl e) ->
  exists e, point_diff_insertion season_db_to_epiweek selection = inl e.
Proof.
  intros Hr Hs [e0 He]. induction selection as [|a l IH]; [destruct Hr|].
  simpl. destruct Hr as [-> | Hr].
  - rewrite Hs, He. eauto.
  - destruct (selected a) as [e|[|]]; [eauto| |auto].
    destruct (point_diff season_db_to_epiweek a) as [e|p]; [eauto|].
    destruct (IH Hr) as [e E]. rewrite E. eauto.
Qed.

(** C10. The conversion of the values is partial: when a raw diff that
    [update_point] selects has a measurement type matching
    [[0-9]+-[0-9]+$] and a value, of ASCII text, that is neither NULL nor
    empty and that [int] rejects, [update_point] raises and leaves the
    database as it was; so it succeeds only if every such value is the
    text of an integer. *)
Theorem update_point_needs_integers (f : Faults) (db : DB)
        (projected : list Version) (r : Selection.row)
        (measurement_type new_value_str : string) :
  norostat_point_version_list db = Some projected ->
  In r (select_raw_datatable_diffs db projected) ->
  Selection.measurement_type r = Some measurement_type ->
  prog_match measurement_type = true ->
  Selection.new_value r = Some new_value_str ->
  new_value_str <> "" ->
  ascii_text new_value_str = true ->
  int new_value_str = None ->
  exists e, update_point season_db_to_epiweek f db = (inl e, db).
Proof.
  intros Hp Hr Hm Hmatch Hv Hne Ascii Hint.
  assert (Sel : selected r = inr true).
  { unfold selected. rewrite Hm, Hmatch, Hv. simpl.
    destruct (new_value_str =? "")%string eqn:E; [|reflexivity].
    apply String.eqb_eq in E. contradiction. }
  assert (Pd : exists e, point_diff season_db_to_epiweek r = inl e).
  { unfold point_diff. rewrite Hm.
    destruct (season_db_to_epiweek measurement_type (Selection.week r))
      as [e|w]; [eauto|].
    rewrite Hv, Hint. eauto. }
  destruct (point_diff_insertion_raises _ r Hr Sel Pd) as [e E].
  unfold update_point, update_point_body, bind, execute.
  destruct (f 380%nat); [eexists; reflexivity|]. simpl.
  destruct (f 381%nat); [eexists; reflexivity|].
  unfold select_raw_diffs. simpl. rewrite Hp. unfold lift. rewrite E.
  eexists. reflexivity.
Qed.

(** What a successful [update_point] leaves in the point ledger. *)
Lemma update_point_inr f db db' :
  update_point season_db_to_epiweek f db = (inr tt, db') ->
  exists projected projected',
    norostat_point_version_list db = Some projected
    /\ norostat_point_version_list db' = Some projected'
    /\ norostat_raw_datatable_version_list db'
       = norostat_raw_datatable_version_list db
    /\ projected'
       = projected
         ++ nodup version_eq_dec
              (filter (fun v => negb (existsb (veqb v) projected))
                      (norostat_raw_datatable_version_list db)).
Proof.
  unfold update_point, update_point_body. intros H.
  destruct (bind _ _ (connect db)) as [r c] eqn:E.
  inversion H; subst. clear H. rename E into H.
  step H H1. inversion H1; subst; clear H1.
  step H H1. unfold select_raw_diffs in H1. simpl in H1.
  destruct (norostat_point_version_list db) as [projected|] eqn:Ep;
    [|discriminate].
  inversion H1; subst; clear H1.
  step H H1. unfold lift in H1. inversion H1; subst; clear H1.
  step H H1. unfold insert_point_versions in H1. simpl in H1.
  rewrite Ep in H1.
  destruct (insert_rows veqb projected _) as [e|t] eqn:Et; [discriminate|].
  apply insert_rows_inr in Et. destruct Et as [-> _].
  inversion H1; subst; clear H1.
  step H H1. apply execute_inr in H. destruct H as [_ H].
  unfold commit in H. inversion H; subst; clear H. simpl.
  destruct (executemany_insert_point_diff_versions _ _ _ H1) as [V1 V2].
  simpl in V1, V2.
  exists projected, (projected
                     ++ nodup version_eq_dec
                          (filter (fun v => negb (existsb (veqb v) projected))
                                  (norostat_raw_datatable_version_list db))).
  split; [reflexivity|]. split; [assumption|]. split; [assumption|].
  reflexivity.
Qed.

(** C8, as the code has it. The point ledger is the ledger of the
    versions already projected: after a successful [update_point] it holds
    the versions it held before and every version of the raw version
    list, whether or not a point diff was written at it. *)
Theorem point_ledger_has_every_version (f : Faults) (db db' : DB) :
  update_point season_db_to_epiweek f db = (inr tt, db') ->
  exists projected projected',
    norostat_point_version_list db = Some projected
    /\ norostat_point_version_list db' = Some projected'
    /\ forall v, In v projected'
                 <-> In v projected
                     \/ In v (norostat_raw_datatable_version_list db).
Proof.
  intros H. destruct (update_point_inr f db db' H)
    as (projected & projected' & E1 & E2 & _ & E3).
  exists projected, projected'. split; [assumption|]. split; [assumption|].
  intros v. rewrite E3, in_app_iff, nodup_In, filter_In, negb_true_iff.
  split; [tauto|]. intros [Hin | Hin]; [auto|].
  destruct (existsb (veqb v) projected) eqn:E; [|auto].
  apply existsb_exists in E. destruct E as [w [Hw Ew]].
  apply veqb_spec in Ew. subst. auto.
Qed.
End UpdatePointProperties.

(** * Further properties *)

(** ** Calls in any order *)

(** X1. Round trip in any order: after calls that all went through from
    the empty store, in whatever order of versions, the reconstruction as
    of [v] has the rows of the snapshot recorded at the greatest ingested
    version at or before [v], up to what the collation of the columns
    takes for equal, and exactly those rows when the collation tells the
    strings of the snapshots apart; it is empty when no ingested version
    is at or before [v]. *)
Theorem reconstruct_any_order (calls : list (Faults * LongRaw)) (db : DB)
        (v : Version) :
  record_all calls empty_db = inr db ->
  (forall c, In c calls -> vle (version_of (snd c)) v ->
             (forall c', In c' calls -> vle (version_of (snd c')) v ->
                         vle (version_of (snd c')) (version_of (snd c))) ->
             same_rows (reconstruct db v) (snapshot_rows (snd c))
             /\ (told_apart (delivered_by calls) ->
                 forall row, In row (reconstruct db v)
                             <-> In row (snapshot_rows (snd c))))
  /\ ((forall c, In c calls -> ~ vle (version_of (snd c)) v) ->
      reconstruct db v = []).
Proof.
  intros Run. destruct (any_order_invariant calls db Run) as [_ [_ [_ St]]].
  destruct (St v) as [St1 St2]. split.
  - intros c Hc Hv Hmax. pose proof (St1 c Hc Hv Hmax) as Same.
    split; [assumption|]. apply (reconstruct_exact calls db v c); assumption.
  - intros Hno. apply no_rows. apply St2. assumption.
Qed.

(** X2. The order of ingestion does not matter: two sequences of calls
    that all went through from the empty store and that recorded the same
    snapshots give, as of every version, reconstructions with the same
    rows for the collation of the columns, and with the same rows when
    the collation tells the strings of the snapshots apart. *)
Theorem ingestion_order_irrelevant (calls1 calls2 : list (Faults * LongRaw))
        (db1 db2 : DB) (v : Version) :
  record_all calls1 empty_db = inr db1 ->
  record_all calls2 empty_db = inr db2 ->
  (forall s, In s (map snd calls1) <-> In s (map snd calls2)) ->
  same_rows (reconstruct db1 v) (reconstruct db2 v)
  /\ (told_apart (delivered_by calls1) ->
      forall row, In row (reconstruct db1 v) <-> In row (reconstruct db2 v)).
Proof.
  intros Run1 Run2 Same.
  destruct (any_order_invariant calls1 db1 Run1) as [_ [_ [Sto1 St1]]].
  destruct (any_order_invariant calls2 db2 Run2) as [_ [_ [Sto2 St2]]].
  destruct (St1 v) as [A1 B1]. destruct (St2 v) as [A2 B2].
  assert (To2 : forall c, In c calls1 ->
                          exists c', In c' calls2 /\ snd c' = snd c).
  { intros c Hc. assert (H : In (snd c) (map snd calls2))
      by (apply Same; apply in_map; assumption).
    apply in_map_iff in H. destruct H as [c' [E H]]. eauto. }
  assert (To1 : forall c, In c calls2 ->
                          exists c', In c' calls1 /\ snd c' = snd c).
  { intros c Hc. assert (H : In (snd c) (map snd calls1))
      by (apply Same; apply in_map; assumption).
    apply in_map_iff in H. destruct H as [c' [E H]]. eauto. }
  assert (Rows : same_rows (reconstruct db1 v) (reconstruct db2 v)).
  { destruct (greatest_call calls1 v) as [[c [Hc [Hv Hmax]]] | Hno].
    - destruct (To2 c Hc) as [c2 [Hc2 E2]].
      apply (same_rows_trans _ _ _ (A1 c Hc Hv Hmax)).
      apply same_rows_sym. rewrite <- E2.
      apply A2; [assumption | rewrite E2; assumption|].
      intros c' Hc' Hv'. destruct (To1 c' Hc') as [c1 [Hc1 E1]].
      rewrite E2, <- E1. apply Hmax; [assumption | rewrite E1; assumption].
    - apply same_rows_exact. intros row. split; intros H; exfalso.
      + apply (B1 Hno row H).
      + refine (B2 _ row H). intros c Hc Hv.
        destruct (To1 c Hc) as [c1 [Hc1 E1]].
        apply (Hno c1 Hc1). rewrite E1. assumption. }
  split; [assumption|]. intros Apart.
  apply (told_apart_rows (delivered_by calls1)); try assumption.
  - intros m lo k x H. apply reconstruct_stored in H.
    destruct H as (H1 & H2 & H3 & H4). auto.
  - assert (Sub : forall s, In s (delivered_by calls2) ->
                            In s (delivered_by calls1)).
    { intros s Hs. apply in_flat_map in Hs. destruct Hs as [c [Hc Hs]].
      destruct (To1 c Hc) as [c1 [Hc1 E1]].
      apply (delivered_by_in calls1 c1); [assumption|]. rewrite E1.
      assumption. }
    intros m lo k x H. apply reconstruct_stored in H.
    destruct H as (H1 & H2 & H3 & H4).
    repeat split; apply Sub; apply Sto2; assumption.
Qed.

(** ** More on [update_point] *)

Lemma insert_point_diff_inr r c c' :
  insert_point_diff r c = (inr tt, c') ->
  exists old,
    norostat_point_diffs (work c) = Some old
    /\ c' = set_work c (set_point_diffs (work c) (Some (old ++ [r]))).
Proof.
  unfold insert_point_diff. intros H.
  destruct (norostat_point_diffs (work c)) as [t|]; [|discriminate].
  destruct (norostat_point_version_list (work c)) as [pv|]; [|discriminate].
  destruct (_ || _); [discriminate|].
  destruct (point_references _ _ _); [|discriminate].
  destruct (insert_rows _ _ _) as [e|t'] eqn:E; [discriminate|].
  apply insert_rows_inr in E. destruct E as [-> _].
  inversion H; subst. exists t. auto.
Qed.

Lemma executemany_insert_point_diff_inr rows c c' :
  executemany insert_point_diff rows c = (inr tt, c') ->
  rows = [] /\ c' = c
  \/ exists old,
       norostat_point_diffs (work c) = Some old
       /\ c' = set_work c (set_point_diffs (work c) (Some (old ++ rows))).
Proof.
  revert c; induction rows as [|r rows IH]; simpl; intros c H.
  - left. inversion H; subst. auto.
  - right. apply bind_inr in H. destruct H as ([] & c1 & H1 & H2).
    apply insert_point_diff_inr in H1. destruct H1 as [old [E ->]].
    exists old. split; [assumption|].
    destruct (IH _ H2) as [[-> ->] | [old' [E' ->]]]; [reflexivity|].
    simpl in E'. inversion E'; subst. simpl. rewrite <- app_assoc.
    reflexivity.
Qed.

Lemma insert_point_diff_keeps_committed r : keeps_committed (insert_point_diff r).
Proof.
  intros c. unfold insert_point_diff.
  destruct (norostat_point_diffs (work c)); [|reflexivity].
  destruct (norostat_point_version_list (work c)); [|reflexivity].
  destruct (_ || _); [reflexivity|].
  destruct (point_references _ _ _); [|reflexivity].
  destruct (insert_rows _ _ _); reflexivity.
Qed.

Lemma set_point_version_list_same db l :
  norostat_point_version_list db = Some l ->
  set_point_version_list db (Some l) = db.
Proof. destruct db; simpl; intros ->; reflexivity. Qed.

Lemma filter_none {A} (p : A -> bool) l :
  (forall x, In x l -> p x = false) -> filter p l = [].
Proof.
  induction l as [|a l IH]; simpl; intros H; [reflexivity|].
  rewrite (H a) by (left; reflexivity). apply IH. intros x Hx. apply H.
  right. assumption.
Qed.

Lemma in_left_join_left {A B} (on : A -> B -> bool) l r a o :
  In (a, o) (left_join on l r) -> In a l.
Proof.
  destruct o as [b|].
  - intros H. apply in_left_join_some in H. tauto.
  - intros H. apply in_left_join_none in H. tauto.
Qed.

Section UpdatePointFurther.
Variable season_db_to_epiweek : string -> option string -> result Z.

(** The rows of the list comprehension are those of the selected rows, in
    their order. *)
Lemma point_diff_insertion_inr selection rows p :
  point_diff_insertion season_db_to_epiweek selection = inr rows ->
  (In p rows <->
   exists r, In r selection /\ selected r = inr true
             /\ point_diff season_db_to_epiweek r = inr p).
Proof.
  revert rows; induction selection as [|a l IH]; simpl; intros rows H.
  - inversion H; subst. split; [intros [] | intros [r [[] _]]].
  - destruct (selected a) as [e|[|]] eqn:Sa; [discriminate| |].
    + destruct (point_diff season_db_to_epiweek a) as [e|q] eqn:Pa;
        [discriminate|].
      destruct (point_diff_insertion season_db_to_epiweek l) as [e|ps];
        [discriminate|].
      inversion H; subst. simpl. rewrite (IH ps eq_refl). split.
      * intros [<- | [r [Hr K]]]; [exists a; auto | exists r; tauto].
      * intros [r [[<- | Hr] [K1 K2]]].
        -- left. congruence.
        -- right. exists r. auto.
    + rewrite (IH rows H). split.
      * intros [r [Hr K]]. exists r. tauto.
      * intros [r [[<- | Hr] [K1 K2]]]; [congruence|]. exists r. auto.
Qed.

(** What a successful [update_point] commits. *)
Lemma update_point_outcome f db db' :
  update_point season_db_to_epiweek f db = (inr tt, db') ->
  exists projected rows,
    norostat_point_version_list db = Some projected
    /\ point_diff_insertion season_db_to_epiweek
         (select_raw_datatable_diffs db projected) = inr rows
    /\ let db1 :=
         set_point_version_list db
           (Some (projected
                  ++ nodup version_eq_dec
                       (filter (fun v => negb (existsb (veqb v) projected))
                               (norostat_raw_datatable_version_list db)))) in
       (rows = [] /\ db' = db1)
       \/ exists old,
            norostat_point_diffs db = Some old
            /\ db' = set_point_diffs db1 (Some (old ++ rows)).
Proof.
  unfold update_point, update_point_body. intros H.
  destruct (bind _ _ (connect db)) as [r c] eqn:E.
  inversion H; subst. clear H. rename E into H.
  step H H1. inversion H1; subst; clear H1.
  step H H1. unfold select_raw_diffs in H1. simpl in H1.
  destruct (norostat_point_version_list db) as [projected|] eqn:Ep;
    [|discriminate].
  inversion H1; subst; clear H1.
  step H H1. unfold lift in H1. inversion H1; subst; clear H1.
  rename H2 into Rows.
  step H H1. unfold insert_point_versions in H1. simpl in H1.
  rewrite Ep in H1.
  destruct (insert_rows veqb projected _) as [e|t] eqn:Et; [discriminate|].
  apply insert_rows_inr in Et. destruct Et as [-> _].
  inversion H1; subst; clear H1.
  step H H1. apply execute_inr in H. destruct H as [_ H].
  unfold commit in H. inversion H; subst; clear H. simpl.
  exists projected, u. split; [reflexivity|]. split; [assumption|].
  apply executemany_insert_point_diff_inr in H1.
  destruct H1 as [[-> ->] | [old [Eo ->]]]; simpl.
  - left. auto.
  - right. exists old. simpl in Eo. auto.
Qed.

Lemma update_point_failure f db e :
  fst (update_point season_db_to_epiweek f db) = inl e ->
  snd (update_point season_db_to_epiweek f db) = db.
Proof.
  unfold update_point.
  destruct (update_point_body season_db_to_epiweek f (connect db))
    as [r c] eqn:E. simpl. intros ->.
  unfold update_point_body in E.
  apply bind_inl in E. destruct E as [E | ([] & c1 & E1 & E)].
  { unfold execute, ret in E. destruct (f 380%nat); inversion E; reflexivity. }
  apply execute_inr in E1. destruct E1 as [_ E1]. inversion E1; subst; clear E1.
  apply bind_inl in E. destruct E as [E | (sel & c1 & E1 & E)].
  { unfold execute, select_raw_diffs in E. destruct (f 381%nat);
      [inversion E; reflexivity|].
    destruct (norostat_point_version_list _); inversion E; reflexivity. }
  apply execute_inr in E1. destruct E1 as [_ E1].
  unfold select_raw_diffs in E1.
  destruct (norostat_point_version_list _); [|discriminate].
  inversion E1; subst; clear E1.
  apply bind_inl in E. destruct E as [E | (rows & c1 & E1 & E)].
  { unfold lift in E. inversion E; reflexivity. }
  unfold lift in E1. inversion E1; subst; clear E1.
  apply bind_inl in E. destruct E as [E | ([] & c1 & E1 & E)].
  { unfold execute, insert_point_versions in E. destruct (f 404%nat);
      [inversion E; reflexivity|].
    destruct (norostat_point_version_list _); [|inversion E; reflexivity].
    destruct (insert_rows _ _ _); inversion E; reflexivity. }
  assert (K1 : committed c1 = db).
  { apply execute_inr in E1. destruct E1 as [_ E1].
    unfold insert_point_versions in E1.
    destruct (norostat_point_version_list _); [|discriminate].
    destruct (insert_rows _ _ _); [discriminate|].
    inversion E1; reflexivity. }
  apply bind_inl in E. destruct E as [E | ([] & c2 & E2 & E)].
  { pose proof (keeps_committed_execute f 414 _
                  (keeps_committed_executemany insert_point_diff rows
                     insert_point_diff_keeps_committed) c1) as K.
    rewrite E in K. simpl in K. congruence. }
  pose proof (keeps_committed_execute f 414 _
                (keeps_committed_executemany insert_point_diff rows
                   insert_point_diff_keeps_committed) c1) as K.
  rewrite E2 in K. simpl in K.
  unfold execute, commit in E. destruct (f 418%nat); [|discriminate].
  inversion E; subst. congruence.
Qed.

(** X13. [update_point] never changes the raw tables, and when it raises
    it leaves the whole database as it was. *)
Theorem update_point_atomic (f : Faults) (db : DB) :
  raw_tables (snd (update_point season_db_to_epiweek f db)) = raw_tables db
  /\ forall e, fst (update_point season_db_to_epiweek f db) = inl e ->
               snd (update_point season_db_to_epiweek f db) = db.
Proof.
  split; [|apply update_point_failure].
  destruct (update_point season_db_to_epiweek f db) as [[e|[]] db'] eqn:E.
  - pose proof (update_point_failure f db e) as K. rewrite E in K.
    simpl in *. rewrite K; reflexivity.
  - simpl. apply update_point_outcome in E.
    destruct E as (projected & rows & _ & _ & [[_ ->] | [old [_ ->]]]);
      reflexivity.
Qed.

Lemma update_point_projects (f : Faults) (db db' : DB)
        (old : list Point.row) :
  update_point season_db_to_epiweek f db = (inr tt, db') ->
  norostat_point_diffs db = Some old ->
  exists projected new,
    norostat_point_version_list db = Some projected
    /\ norostat_point_diffs db' = Some (old ++ new)
    /\ forall p,
        In p new <->
        exists r measurement_type,
          In r (select_raw_datatable_diffs db projected)
          /\ Selection.measurement_type r = Some measurement_type
          /\ prog_match measurement_type = true
          /\ Selection.new_value r <> Some ""
          /\ season_db_to_epiweek measurement_type (Selection.week r)
             = inr (Point.epiweek p)
          /\ Point.release_date p = Selection.release_date r
          /\ Point.parse_time p = Selection.parse_time r
          /\ Point.location_id p = Selection.location_id r
          /\ match Selection.new_value r with
             | Some new_value_str => int new_value_str <> None
                                     /\ Point.new_value p = int new_value_str
             | None => Point.new_value p = None
             end.
Proof.
  intros H Ho. apply update_point_outcome in H.
  destruct H as (projected & rows & Ep & Rows & H).
  exists projected, rows. split; [assumption|]. split.
  { destruct H as [[-> ->] | [old' [Eo ->]]]; simpl.
    - rewrite app_nil_r. assumption.
    - congruence. }
  intros p. rewrite (point_diff_insertion_inr _ _ p Rows). split.
  - intros [r [Hr [Sel Pd]]]. unfold selected in Sel. unfold point_diff in Pd.
    destruct (Selection.measurement_type r) as [mt|] eqn:Em; [|discriminate].
    exists r, mt. split; [assumption|]. split; [exact Em|].
    injection Sel as Sel'. apply andb_true_iff in Sel'.
    destruct Sel' as [S1 S2]. split; [assumption|].
    destruct (season_db_to_epiweek mt (Selection.week r)) as [e|w];
      [discriminate|].
    destruct (Selection.new_value r) as [s|].
    + destruct (int s) as [i|] eqn:Ei; [|discriminate].
      inversion Pd; subst; simpl. split.
      { intros K. inversion K; subst. discriminate. }
      repeat (split; [reflexivity|]). split; [discriminate | reflexivity].
    + inversion Pd; subst; simpl. split; [discriminate|].
      repeat (split; [reflexivity|]). reflexivity.
  - intros (r & mt & Hr & Em & Hm & Hne & Ew & E1 & E2 & E3 & Ev).
    exists r. split; [assumption|]. unfold selected, point_diff.
    rewrite Em, Hm, Ew. destruct (Selection.new_value r) as [s|].
    + destruct Ev as [Hi Ev]. split.
      * destruct (s =? "")%string eqn:Es; [|reflexivity].
        apply String.eqb_eq in Es. subst. exfalso. apply Hne. reflexivity.
      * destruct (int s) as [i|]; [|exfalso; apply Hi; reflexivity].
        destruct p; simpl in *. subst. reflexivity.
    + split; [reflexivity|]. destruct p; simpl in *. subst. reflexivity.
Qed.

(** X15. [update_point] is idempotent: run again after it went through,
    it goes through and changes nothing. *)
Theorem update_point_idempotent (f : Faults) (db db' : DB) :
  db_ok db ->
  update_point season_db_to_epiweek f db = (inr tt, db') ->
  update_point season_db_to_epiweek no_faults db' = (inr tt, db').
Proof.
  intros Ok H. apply update_point_outcome in H.
  destruct H as (projected & rows & Ep & Rows & H).
  set (projected' :=
         projected
         ++ nodup version_eq_dec
              (filter (fun v => negb (existsb (veqb v) projected))
                      (norostat_raw_datatable_version_list db))) in *.
  assert (Raw : raw_tables db' = raw_tables db)
    by (destruct H as [[_ ->] | [old [_ ->]]]; reflexivity).
  assert (Ep' : norostat_point_version_list db' = Some projected')
    by (destruct H as [[_ ->] | [old [_ ->]]]; reflexivity).
  assert (EL : norostat_raw_datatable_version_list db'
               = norostat_raw_datatable_version_list db)
    by (unfold raw_tables in Raw; congruence).
  assert (ED : norostat_raw_datatable_diffs db'
               = norostat_raw_datatable_diffs db)
    by (unfold raw_tables in Raw; congruence).
  assert (All : forall v, In v (norostat_raw_datatable_version_list db) ->
                          existsb (veqb v) projected' = true).
  { intros v Hv. apply existsb_exists. exists v. split; [|apply veqb_spec; reflexivity].
    unfold projected'. apply in_or_app.
    destruct (existsb (veqb v) projected) eqn:E.
    - left. apply existsb_exists in E. destruct E as [u [Hu K]].
      apply veqb_spec in K. subst. assumption.
    - right. apply nodup_In. apply filter_In. rewrite E. auto. }
  assert (Sel : select_raw_datatable_diffs db' projected' = []).
  { unfold select_raw_datatable_diffs. rewrite filter_none; [reflexivity|].
    intros [[d m] w] Hj. simpl. apply negb_false_iff. apply All.
    apply in_left_join_left in Hj. apply in_left_join_left in Hj.
    rewrite ED in Hj. apply (ok_versions _ Ok). assumption. }
  assert (New : filter (fun v => negb (existsb (veqb v) projected'))
                       (norostat_raw_datatable_version_list db') = []).
  { apply filter_none. intros v Hv. apply negb_false_iff. apply All.
    rewrite <- EL. assumption. }
  unfold update_point, update_point_body, bind, execute. simpl.
  unfold select_raw_diffs. simpl. rewrite Ep', Sel. simpl.
  unfold insert_point_versions. simpl. rewrite Ep', New. simpl.
  rewrite (set_point_version_list_same _ _ Ep'). reflexivity.
Qed.

(** X17. [update_point] does not create the point tables: where
    [norostat_point_version_list] is missing it raises (the
    [ProgrammingError] of the [SELECT] of line 381, unless an earlier
    statement failed) and changes nothing. *)
Theorem update_point_needs_point_tables (f : Faults) (db : DB) :
  norostat_point_version_list db = None ->
  exists e, update_point season_db_to_epiweek f db = (inl e, db)
            /\ (f 380%nat = false -> f 381%nat = false ->
                e = ProgrammingError).
Proof.
  intros H. unfold update_point, update_point_body, bind, execute.
  destruct (f 380%nat); [eexists; split; [reflexivity | discriminate]|].
  simpl. destruct (f 381%nat);
    [eexists; split; [reflexivity | discriminate]|].
  unfold select_raw_diffs. simpl. rewrite H. eexists. split; reflexivity.
Qed.

End UpdatePointFurther.

(** X11. A call that went through leaves the two point tables in place:
    created empty when they were missing (lines 350 and 358), with the
    rows they had otherwise. *)
Theorem record_long_raw_creates_point_tables (f : Faults) (long_raw : LongRaw)
        (db db' : DB) :
  record_long_raw f long_raw db = (inr tt, db') ->
  norostat_point_version_list db'
  = Some (match norostat_point_version_list db with
          | Some l => l
          | None => []
          end)
  /\ norostat_point_diffs db'
     = Some (match norostat_point_diffs db with
             | Some l => l
             | None => []
             end).
Proof.
  intros H.
  destruct (record_long_raw_outcome f long_raw db)
    as [[e E] | [c [T [E | [E | E]]]]]; rewrite E in H; try discriminate.
  inversion H; subst. apply transaction_inr in T.
  destruct T as (_ & E1 & E2 & _). simpl in E1, E2.
  unfold with_point_tables, create_point_diffs, create_point_version_list.
  destruct (norostat_point_version_list (work c)) as [pv|] eqn:K1;
    destruct (norostat_point_diffs (work c)) as [pd|] eqn:K2;
    simpl; rewrite ?K1, ?K2; simpl; rewrite <- ?E1, <- ?E2; simpl;
    rewrite ?K1, ?K2; auto.
Qed.

(** ** The queries of the read phase *)

(** X9. The query of lines 172-194 (and 220-242) returns, for a version
    [v], exactly the cells whose diff of greatest version at or before [v]
    is not a removal, with the value of that diff; under the primary key
    of the diff table no cell is returned twice, so the insertion into the
    temporary table cannot fail on its key. *)
Theorem latest_value_query (D : list Diff.row) (v : Version) :
  (forall s,
      In s (select_latest D v) <->
      exists d, In d D /\ Diff.cell d = State.cell s
                /\ Diff.new_value d = Some (State.value s)
                /\ vle (Diff.version d) v
                /\ forall d', In d' D -> Diff.cell d' = State.cell s ->
                              vle (Diff.version d') v ->
                              vle (Diff.version d') (Diff.version d))
  /\ (distinct_keys Diff.same_key D ->
      distinct_keys State.same_key (select_latest D v)).
Proof.
  split; [|apply select_latest_distinct].
  intros s. rewrite in_select_latest. unfold holds, latest. split.
  - intros [d [[H1 [H2 [H3 H4]]] H5]]. exists d. auto.
  - intros [d [H1 [H2 [H3 [H4 H5]]]]]. exists d. auto.
Qed.

(** X10. The query of line 197 returns at most one version, so that the
    check of line 205 passes: none when no recorded version is after [v],
    and else the least recorded version after [v]. *)
Theorem next_version_is_least (v : Version) (c : Cnx) :
  exists l,
    select_next_version v c = (inr l, c)
    /\ expect_result_in l c = (inr tt, c)
    /\ match l with
       | [] => forall w, In w (norostat_raw_datatable_version_list (work c))
                         -> ~ vlt v w
       | n :: l' =>
           l' = []
           /\ In n (norostat_raw_datatable_version_list (work c))
           /\ vlt v n
           /\ forall w, In w (norostat_raw_datatable_version_list (work c))
                        -> vlt v w -> vle n w
       end.
Proof.
  unfold select_next_version.
  set (L := norostat_raw_datatable_version_list (work c)).
  exists (firstn 1 (order_by_version (filter (vltb v) L))).
  split; [reflexivity|].
  destruct (firstn 1 (order_by_version (filter (vltb v) L)))
    as [|n l'] eqn:E.
  - split; [reflexivity|].
    exact (next_version_least L v None E).
  - assert (El : l' = []).
    { destruct (order_by_version (filter (vltb v) L)) as [|a [|b r]];
        simpl in E; inversion E; reflexivity. }
    subst l'. split; [reflexivity|]. split; [reflexivity|].
    exact (next_version_least L v (Some n) E).
Qed.

(** ** The pools after a call *)

Lemma pool_texts_after p texts p' :
  pool_ok p ->
  pool_insert p (select_distinct_not_in texts p) = inr p' ->
  pool_grown p p' texts.
Proof.
  intros Ok H.
  pose proof (fun t => pool_insert_texts p _ p' t Ok H) as T.
  assert (New : forall t, In t (pool_texts p') ->
                          In t (pool_texts p) \/ (In t texts /\ ~ pooled p t)).
  { intros t Ht. apply (T t) in Ht. destruct Ht as [Ht | Ht]; [auto|].
    right. apply in_select_distinct_not_in. assumption. }
  split; [|split; [exact New | split]].
  - intros t Ht. apply (T t). auto.
  - apply (pool_insert_interns _ _ _ H Ok).
  - intros Apart t. split.
    + intros Ht. destruct (New t Ht) as [K | [K _]]; auto.
    + intros K. assert (Ht : In t (pool_texts p ++ texts))
        by (apply in_or_app; assumption).
      assert (P : pooled p' t).
      { destruct K as [K | K].
        - exists t. split; [|apply same_text_refl]. apply (T t).
          auto.
        - apply (pool_insert_interns _ _ _ H Ok). assumption. }
      destruct P as [u [Hu Eu]].
      assert (Hu' : In u (pool_texts p ++ texts)).
      { apply in_or_app. destruct (New u Hu) as [K' | [K' _]]; auto. }
      rewrite <- (Apart u t Hu' Ht Eu). assumption.
Qed.

(** X8. What a call that went through does to the three pools, which
    receive the measurement types of the rows, the location once for every
    row, and the weeks of the rows: each pool keeps its strings; a string
    it gains is one of the snapshot that it did not hold, not even for the
    collation of the column; every string of the snapshot is then held,
    at least for the collation (so that of [a] and [A] only the one that
    came first is held); and where the collation tells the strings apart
    the pool holds its old strings and those of the snapshot, and no
    other. *)
Theorem pools_after_recording (f : Faults) (long_raw : LongRaw)
        (db db' : DB) :
  db_ok db ->
  record_long_raw f long_raw db = (inr tt, db') ->
  pool_grown (norostat_raw_datatable_measurement_type_pool db)
             (norostat_raw_datatable_measurement_type_pool db')
             (map (fun r => snd (fst r)) (long_raw_df long_raw))
  /\ pool_grown (norostat_raw_datatable_location_pool db)
                (norostat_raw_datatable_location_pool db')
                (map (fun _ => location long_raw) (long_raw_df long_raw))
  /\ pool_grown (norostat_raw_datatable_week_pool db)
                (norostat_raw_datatable_week_pool db')
                (map (fun r => fst (fst r)) (long_raw_df long_raw)).
Proof.
  intros Ok E. destruct (record_long_raw_inr _ _ _ _ E) as [next Rec].
  pose proof (pool_texts_after _ _ _ (ok_measurement_types _ Ok)
                (rec_measurement_types _ _ _ _ Rec)) as G1.
  pose proof (pool_texts_after _ _ _ (ok_locations _ Ok)
                (rec_locations _ _ _ _ Rec)) as G2.
  pose proof (pool_texts_after _ _ _ (ok_weeks _ Ok)
                (rec_weeks _ _ _ _ Rec)) as G3.
  unfold parsed_params in G1, G2, G3. rewrite !map_map in G1, G2, G3.
  assert (E1 : map (fun x : string * string * string =>
                      Parsed.measurement_type
                        (let '(week, measurement_type, value) := x in
                         Parsed.mk measurement_type (location long_raw) week
                                   value)) (long_raw_df long_raw)
               = map (fun r => snd (fst r)) (long_raw_df long_raw))
    by (apply map_ext; intros [[w m] x]; reflexivity).
  assert (E2 : map (fun x : string * string * string =>
                      Parsed.location
                        (let '(week, measurement_type, value) := x in
                         Parsed.mk measurement_type (location long_raw) week
                                   value)) (long_raw_df long_raw)
               = map (fun _ => location long_raw) (long_raw_df long_raw))
    by (apply map_ext; intros [[w m] x]; reflexivity).
  assert (E3 : map (fun x : string * string * string =>
                      Parsed.week
                        (let '(week, measurement_type, value) := x in
                         Parsed.mk measurement_type (location long_raw) week
                                   value)) (long_raw_df long_raw)
               = map (fun r => fst (fst r)) (long_raw_df long_raw))
    by (apply map_ext; intros [[w m] x]; reflexivity).
  rewrite E1 in G1. rewrite E2 in G2. rewrite E3 in G3. auto.
Qed.


(** ** The declared constraints, call after call *)

Lemma pool_has_id_spec p i :
  pool_has_id p i = true <-> In i (map fst (pool_rows p)).
Proof.
  unfold pool_has_id. rewrite existsb_exists, in_map_iff. split.
  - intros [r [H E]]. apply Z.eqb_eq in E. eauto.
  - intros [r [E H]]. exists r. split; [assumption|]. apply Z.eqb_eq.
    assumption.
Qed.

Lemma insert_point_diff_checked r c c' :
  insert_point_diff r c = (inr tt, c') ->
  exists old projected,
    norostat_point_diffs (work c) = Some old
    /\ norostat_point_version_list (work c) = Some projected
    /\ c' = set_work c (set_point_diffs (work c) (Some (old ++ [r])))
    /\ (forall x, In x old -> Point.same_key r x = false)
    /\ In (Point.version r) projected
    /\ In (Point.location_id r)
          (map fst (pool_rows (norostat_raw_datatable_location_pool (work c))))
    /\ - 2147483648 <= Point.epiweek r <= 2147483647.
Proof.
  unfold insert_point_diff. intros H.
  destruct (norostat_point_diffs (work c)) as [t|]; [|discriminate].
  destruct (norostat_point_version_list (work c)) as [pv|]; [|discriminate].
  destruct (_ || _) eqn:R; [discriminate|].
  destruct (point_references _ _ _) eqn:F; [|discriminate].
  destruct (insert_rows _ _ _) as [e|t'] eqn:E; [discriminate|].
  apply insert_rows_inr in E. destruct E as [-> E].
  inversion H; subst. exists t, pv. split; [reflexivity|].
  split; [reflexivity|]. split; [reflexivity|].
  split; [intros x Hx; apply E; [left; reflexivity | assumption]|].
  unfold point_references in F. apply andb_true_iff in F.
  destruct F as [F1 F2]. apply existsb_exists in F1.
  destruct F1 as [u [Hu K]]. apply veqb_spec in K. rewrite <- K in Hu.
  split; [assumption|]. split; [apply pool_has_id_spec; assumption|].
  apply orb_false_iff in R. destruct R as [R1 R2].
  apply Z.ltb_ge in R1, R2. lia.
Qed.

Lemma executemany_insert_point_diff_checked rows :
  forall c c' old projected,
    executemany insert_point_diff rows c = (inr tt, c') ->
    norostat_point_diffs (work c) = Some old ->
    norostat_point_version_list (work c) = Some projected ->
    distinct_keys Point.same_key old ->
    c' = set_work c (set_point_diffs (work c) (Some (old ++ rows)))
    /\ distinct_keys Point.same_key (old ++ rows)
    /\ forall p, In p rows ->
         In (Point.version p) projected
         /\ In (Point.location_id p)
               (map fst (pool_rows
                           (norostat_raw_datatable_location_pool (work c))))
         /\ - 2147483648 <= Point.epiweek p <= 2147483647.
Proof.
  induction rows as [|r rows IH]; simpl; intros c c' old pv H Eo Ep Hd.
  - inversion H; subst. rewrite app_nil_r. split.
    + destruct c' as [cm w a b d]. simpl in *. destruct w; simpl in *.
      subst. reflexivity.
    + split; [assumption|]. intros p [].
  - apply bind_inr in H. destruct H as ([] & c1 & H1 & H2).
    apply insert_point_diff_checked in H1.
    destruct H1 as (old' & pv' & Eo' & Ep' & -> & K1 & K2 & K3 & K4).
    rewrite Eo in Eo'. inversion Eo'; subst old'.
    rewrite Ep in Ep'. inversion Ep'; subst pv'.
    assert (Hd1 : distinct_keys Point.same_key (old ++ [r]))
      by (apply distinct_keys_app; auto).
    destruct (IH _ _ (old ++ [r]) pv H2 eq_refl Ep Hd1) as (-> & D & R).
    simpl. rewrite <- app_assoc in *. simpl in *.
    split; [reflexivity|]. split; [assumption|].
    intros p [<- | Hp]; [auto|]. apply R. assumption.
Qed.

Lemma empty_db_point_ok : point_ok empty_db.
Proof. constructor; simpl; intros; discriminate. Qed.

Section CallsProperties.
Variable season_db_to_epiweek : string -> option string -> result Z.

Lemma update_point_raw f db :
  raw_tables (snd (update_point season_db_to_epiweek f db)) = raw_tables db.
Proof.
  destruct (update_point season_db_to_epiweek f db) as [[e|[]] db'] eqn:E.
  - pose proof (update_point_failure season_db_to_epiweek f db e) as K.
    rewrite E in K. simpl in *. rewrite K; reflexivity.
  - simpl. apply update_point_outcome in E.
    destruct E as (projected & rows & _ & _ & [[_ ->] | [old [_ ->]]]);
      reflexivity.
Qed.

Lemma nodup_new_versions projected L :
  NoDup projected ->
  NoDup (projected
         ++ nodup version_eq_dec
              (filter (fun v => negb (existsb (veqb v) projected)) L)).
Proof.
  intros N. induction projected as [|a l IH] using rev_ind.
  - simpl. apply NoDup_nodup.
  - clear IH. revert N.
    generalize (l ++ [a]). intros pv N.
    assert (Dis : forall v, In v pv ->
                ~ In v (nodup version_eq_dec
                          (filter (fun v => negb (existsb (veqb v) pv)) L))).
    { intros v Hv K. apply nodup_In in K. apply filter_In in K.
      destruct K as [_ K]. apply negb_true_iff in K.
      assert (existsb (veqb v) pv = true).
      { apply existsb_exists. exists v. split; [assumption|].
        apply veqb_spec. reflexivity. }
      congruence. }
    induction pv as [|b pv IHp]; simpl; [apply NoDup_nodup|].
    apply NoDup_cons_iff in N. destruct N as [N1 N2].
    apply NoDup_cons_iff. split.
    + intros K. apply in_app_or in K. destruct K as [K | K]; [auto|].
      apply (Dis b); [left; reflexivity | assumption].
    + assert (G : forall l', (forall v, In v (b :: pv) -> ~ In v l') ->
                             NoDup l' -> NoDup (pv ++ l')).
      { clear - N1 N2. intros l' D Nl. induction pv as [|x pv IH];
          simpl; [assumption|].
        apply NoDup_cons_iff in N2. destruct N2 as [M1 M2].
        apply NoDup_cons_iff. split.
        - intros K. apply in_app_or in K. destruct K as [K | K]; [auto|].
          apply (D x); [right; left; reflexivity | assumption].
        - apply IH; [intros K; apply N1; right; assumption | assumption|].
          intros v [<- | Hv]; apply D; [left | right; right]; auto. }
      apply G; [assumption | apply NoDup_nodup].
Qed.

Lemma update_point_point_ok f db :
  db_ok db -> point_ok db ->
  point_ok (snd (update_point season_db_to_epiweek f db)).
Proof.
  intros Ok Pk.
  destruct (update_point season_db_to_epiweek f db) as [[e|[]] db'] eqn:E.
  { pose proof (update_point_failure season_db_to_epiweek f db e) as K.
    rewrite E in K. simpl in *. rewrite K; auto. }
  simpl.
  assert (Out := E). apply update_point_outcome in Out.
  destruct Out as (projected & rows & Ep & Rows & Out).
  destruct (ok_point_ledger _ Pk projected Ep) as [Np Ip].
  set (projected' :=
         projected
         ++ nodup version_eq_dec
              (filter (fun v => negb (existsb (veqb v) projected))
                      (norostat_raw_datatable_version_list db))) in *.
  assert (Np' : NoDup projected') by (apply nodup_new_versions; assumption).
  assert (Ip' : incl projected' (norostat_raw_datatable_version_list db)).
  { intros v Hv. apply in_app_or in Hv. destruct Hv as [Hv | Hv]; [auto|].
    apply nodup_In in Hv. apply filter_In in Hv. tauto. }
  (* the insertion, statement by statement *)
  unfold update_point, update_point_body in E.
  destruct (bind _ _ (connect db)) as [r c] eqn:B.
  inversion E; subst. clear E. rename B into H.
  step H H1. inversion H1; subst; clear H1.
  step H H1. unfold select_raw_diffs in H1. simpl in H1. rewrite Ep in H1.
  inversion H1; subst; clear H1.
  step H H1. unfold lift in H1. inversion H1; subst; clear H1.
  step H H1. unfold insert_point_versions in H1. simpl in H1.
  rewrite Ep in H1.
  destruct (insert_rows veqb projected _) as [e|t] eqn:Et; [discriminate|].
  apply insert_rows_inr in Et. destruct Et as [-> _].
  inversion H1; subst; clear H1.
  step H H1. apply execute_inr in H. destruct H as [_ H].
  unfold commit in H. inversion H; subst; clear H. simpl.
  fold projected' in H1.
  destruct (norostat_point_diffs db) as [old|] eqn:Eo.
  - pose proof (ok_point_keys _ Pk old Eo) as Dk.
    destruct (executemany_insert_point_diff_checked _ _ _ old projected' H1
                Eo eq_refl Dk) as (-> & D & R).
    simpl in R. constructor; simpl.
    + intros pv K. inversion K; subst. auto.
    + intros l K. inversion K; subst. assumption.
    + intros l p K Hp. inversion K; subst. apply in_app_or in Hp.
      destruct Hp as [Hp | Hp].
      * destruct (ok_point_references _ Pk old p Eo Hp)
          as [[pv [K1 K2]] [K3 K4]].
        split; [|auto]. exists projected'. split; [reflexivity|].
        rewrite Ep in K1. inversion K1; subst. apply in_or_app. auto.
      * destruct (R p Hp) as [K2 [K3 K4]]. split; [|auto].
        exists projected'. auto.
  - apply executemany_insert_point_diff_inr in H1.
    destruct H1 as [[-> ->] | [old [K _]]]; [|simpl in K; congruence].
    simpl. constructor; simpl.
    + intros pv K. inversion K; subst. auto.
    + intros l K. congruence.
    + intros l p K. congruence.
Qed.

Lemma record_long_raw_point_ok f long_raw db :
  db_ok db -> point_ok db ->
  point_ok (snd (record_long_raw f long_raw db)).
Proof.
  intros Ok Pk.
  destruct (record_long_raw_outcome f long_raw db)
    as [[e E] | [c [T E]]]; [rewrite E; assumption|].
  apply transaction_inr in T. destruct T as (_ & E1 & E2 & next & Rec).
  simpl in E1, E2, Rec.
  assert (IL : incl (norostat_raw_datatable_version_list db)
                    (norostat_raw_datatable_version_list (work c))).
  { rewrite (rec_versions _ _ _ _ Rec). intros v Hv. apply in_or_app. auto. }
  destruct (recorded_pools _ _ _ _ Ok Rec) as [_ [[_ Il] _]].
  assert (Pw : point_ok (work c)).
  { constructor.
    - intros pv K. rewrite E1 in K.
      destruct (ok_point_ledger _ Pk pv K) as [K1 K2]. split; [assumption|].
      intros v Hv. auto.
    - intros l K. rewrite E2 in K. apply (ok_point_keys _ Pk). assumption.
    - intros l p K Hp. rewrite E2 in K.
      destruct (ok_point_references _ Pk l p K Hp) as [[pv [K1 K2]] [K3 K4]].
      split; [exists pv; rewrite E1; auto|]. split; [|assumption].
      apply in_map_iff in K3. destruct K3 as [r [Er Hr]].
      apply in_map_iff. exists r. auto. }
  assert (P1 : point_ok (create_point_version_list (work c))).
  { unfold create_point_version_list.
    destruct (norostat_point_version_list (work c)) eqn:K; [assumption|].
    constructor; simpl.
    - intros pv K'. inversion K'; subst. split; [constructor|].
      intros v [].
    - apply (ok_point_keys _ Pw).
    - intros l p K1 Hp.
      destruct (ok_point_references _ Pw l p K1 Hp) as [[pv [K2 _]] _].
      congruence. }
  assert (P2 : point_ok (with_point_tables (work c))).
  { unfold with_point_tables, create_point_diffs.
    destruct (norostat_point_diffs (create_point_version_list (work c)))
      eqn:K; [assumption|].
    constructor; simpl.
    - apply (ok_point_ledger _ P1).
    - intros l K'. inversion K'; subst. exact Logic.I.
    - intros l p K'. inversion K'; subst. intros []. }
  destruct E as [E | [E | E]]; rewrite E; assumption.
Qed.

Lemma perform_ok db c :
  db_ok db /\ point_ok db ->
  db_ok (perform season_db_to_epiweek db c)
  /\ point_ok (perform season_db_to_epiweek db c).
Proof.
  intros [Ok Pk]. destruct c as [f long_raw | f]; simpl.
  - split; [apply record_long_raw_ok | apply record_long_raw_point_ok];
      assumption.
  - split; [|apply update_point_point_ok; assumption].
    apply (db_ok_same_raw db); [apply update_point_raw | assumption].
Qed.

(** X12. After any sequence of calls of [record_long_raw] and
    [update_point] from the empty store, whichever of them succeeded or
    failed, the primary keys, unique keys and foreign keys that the schema
    declares on the seven tables hold. *)
Theorem constraints_kept (calls : list call) :
  db_ok (perform_all season_db_to_epiweek calls empty_db)
  /\ point_ok (perform_all season_db_to_epiweek calls empty_db).
Proof.
  unfold perform_all.
  assert (H0 : db_ok empty_db /\ point_ok empty_db)
    by (split; [apply empty_db_ok | apply empty_db_point_ok]).
  revert H0. generalize empty_db.
  induction calls as [|c rest IH]; simpl; intros db H; [assumption|].
  apply IH. apply perform_ok. assumption.
Qed.

End CallsProperties.

(** ** The pattern of the season columns *)

Section Pattern.
Local Open Scope string_scope.

Lemma append_empty_r s : s ++ "" = s.
Proof. induction s as [|a s IH]; simpl; [|rewrite IH]; reflexivity. Qed.

Lemma span_digits_spec s d r :
  span_digits s = (d, r) ->
  s = d ++ r /\ all_digits d = true /\ starts_without_digit r.
Proof.
  revert d r; induction s as [|a s IH]; simpl; intros d r H.
  - inversion H; subst. simpl. auto.
  - destruct (is_digit a) eqn:E.
    + destruct (span_digits s) as [d' r'] eqn:S. inversion H; subst.
      destruct (IH d' r eq_refl) as [-> [K1 K2]]. simpl. rewrite E, K1. auto.
    + inversion H; subst. simpl. auto.
Qed.

Lemma span_digits_app d r :
  all_digits d = true -> starts_without_digit r ->
  span_digits (d ++ r) = (d, r).
Proof.
  induction d as [|a d IH]; simpl; intros Hd Hr.
  - destruct r as [|b r]; simpl; [reflexivity|]. simpl in Hr. rewrite Hr.
    reflexivity.
  - apply andb_true_iff in Hd. destruct Hd as [H1 H2]. rewrite H1.
    rewrite (IH H2 Hr). reflexivity.
Qed.

(** X18. The measurement types that [prog.match] accepts are one or more
    digits, a dash and one or more digits, up to the end of the string or
    to a final newline. *)
Theorem prog_match_language (s : string) :
  prog_match s = true <->
  exists d1 d2,
    d1 <> "" /\ d2 <> "" /\ all_digits d1 = true /\ all_digits d2 = true
    /\ (s = d1 ++ "-" ++ d2 \/ s = d1 ++ "-" ++ d2 ++ newline).
Proof.
  unfold prog_match. split.
  - destruct (span_digits s) as [d1 r1] eqn:S1.
    apply span_digits_spec in S1. destruct S1 as [-> [D1 _]].
    intros H. apply andb_true_iff in H. destruct H as [N1 H].
    destruct r1 as [|a r2]; [discriminate|].
    destruct a as [[] [] [] [] [] [] [] []]; try discriminate.
    destruct (span_digits r2) as [d2 r3] eqn:S2.
    apply span_digits_spec in S2. destruct S2 as [-> [D2 _]].
    apply andb_true_iff in H. destruct H as [N2 H].
    exists d1, d2.
    split; [intros ->; discriminate|]. split; [intros ->; discriminate|].
    split; [assumption|]. split; [assumption|].
    apply orb_true_iff in H. destruct H as [H | H];
      apply String.eqb_eq in H; subst.
    + left. rewrite append_empty_r. reflexivity.
    + right. reflexivity.
  - intros (d1 & d2 & N1 & N2 & D1 & D2 & H).
    assert (E : s = d1 ++ String "-" (d2 ++ (if (s =? d1 ++ "-" ++ d2)%string
                                             then "" else newline))).
    { destruct H as [-> | ->].
      - rewrite String.eqb_refl. rewrite append_empty_r. reflexivity.
      - destruct (_ =? _)%string eqn:K; [|reflexivity].
        apply String.eqb_eq in K. rewrite K at 1.
        rewrite append_empty_r. reflexivity. }
    rewrite E. rewrite span_digits_app; [|assumption | reflexivity].
    rewrite span_digits_app; [|assumption|].
    + destruct d1; [exfalso; apply N1; reflexivity|].
      destruct d2; [exfalso; apply N2; reflexivity|]. simpl.
      destruct (_ =? _)%string; reflexivity.
    + destruct (_ =? _)%string; simpl; [trivial | reflexivity].
Qed.

End Pattern.

(** ** The schema *)

Lemma keeps_tables_refl t : keeps_tables t t.
Proof. unfold keeps_tables. auto 10. Qed.

Lemma keeps_tables_trans t1 t2 t3 :
  keeps_tables t1 t2 -> keeps_tables t2 t3 -> keeps_tables t1 t3.
Proof.
  unfold keeps_tables.
  intros (A1 & A2 & A3 & A4 & A5 & A6 & A7) (B1 & B2 & B3 & B4 & B5 & B6 & B7).
  repeat split; try (intros; auto); congruence.
Qed.

Lemma execute_all_keeps_tables f statements :
  (forall line statement t t',
      In (line, statement) statements -> statement t = inr t' ->
      keeps_tables t t') ->
  forall t, keeps_tables t (snd (execute_all f statements t)).
Proof.
  induction statements as [|[line statement] rest IH]; simpl; intros H t.
  - apply keeps_tables_refl.
  - destruct (f line); [apply keeps_tables_refl|].
    destruct (statement t) as [e|t1] eqn:E; [apply keeps_tables_refl|].
    apply (keeps_tables_trans _ t1).
    + apply (H line statement); [left; reflexivity | assumption].
    + apply IH. intros l s a b Hin. apply (H l s). right. assumption.
Qed.

Lemma ensure_tables_exist_monotone f t :
  keeps_tables t (snd (ensure_tables_exist f t)).
Proof.
  apply execute_all_keeps_tables.
  intros line statement a b Hin E. simpl in Hin.
  destruct Hin as [K | [K | [K | [K | [K | [K | []]]]]]];
    inversion K; subst; clear K.
  - inversion E; subst. unfold keeps_tables. simpl.
    repeat split; try (intros; assumption). intros rows ->. reflexivity.
  - inversion E; subst. unfold keeps_tables. simpl.
    repeat split; try (intros; assumption). intros p ->. reflexivity.
  - inversion E; subst. unfold keeps_tables. simpl.
    repeat split; try (intros; assumption). intros p ->. reflexivity.
  - inversion E; subst. unfold keeps_tables. simpl.
    repeat split; try (intros; assumption). intros p ->. reflexivity.
  - unfold create_diffs in E.
    destruct (Server.norostat_raw_datatable_diffs a) eqn:Ed.
    + inversion E; subst. apply keeps_tables_refl.
    + destruct (Server.norostat_raw_datatable_version_list a) eqn:E1,
        (Server.norostat_raw_datatable_measurement_type_pool a) eqn:E2,
        (Server.norostat_raw_datatable_location_pool a) eqn:E3,
        (Server.norostat_raw_datatable_week_pool a) eqn:E4;
        try discriminate.
      inversion E; subst. unfold keeps_tables. simpl.
      repeat split; try reflexivity; intros; congruence.
  - inversion E; subst. apply keeps_tables_refl.
Qed.

(** X19. [ensure_tables_exist] leaves every existing table as it is,
    however it ends, and never touches the point tables; when it returns,
    the five raw tables exist, the missing ones having been created empty;
    and it returns whenever no statement fails on its own. *)
Theorem ensure_tables_exist_keeps_tables (f : Faults) (t : Server.tables) :
  let t' := snd (ensure_tables_exist f t) in
  keeps_tables t t'
  /\ (fst (ensure_tables_exist f t) = inr tt ->
      t' = Server.mk
             (if_not_exists (Server.norostat_raw_datatable_version_list t) [])
             (if_not_exists
                (Server.norostat_raw_datatable_measurement_type_pool t)
                empty_pool)
             (if_not_exists (Server.norostat_raw_datatable_location_pool t)
                            empty_pool)
             (if_not_exists (Server.norostat_raw_datatable_week_pool t)
                            empty_pool)
             (if_not_exists (Server.norostat_raw_datatable_diffs t) [])
             (Server.norostat_point_version_list t)
             (Server.norostat_point_diffs t))
  /\ ((forall line, f line = false) ->
      fst (ensure_tables_exist f t) = inr tt).
Proof.
  cbv zeta. split; [apply ensure_tables_exist_monotone|]. split.
  - destruct t as [vl mp lp wp d pv pd].
    unfold ensure_tables_exist, execute_all.
    destruct (f 69%nat); [intros H; simpl in H; discriminate|].
    destruct (f 76%nat); [intros H; simpl in H; discriminate|].
    destruct (f 82%nat); [intros H; simpl in H; discriminate|].
    destruct (f 88%nat); [intros H; simpl in H; discriminate|].
    destruct (f 94%nat); [intros H; simpl in H; discriminate|].
    unfold create_version_list, create_measurement_type_pool,
      create_location_pool, create_week_pool, create_diffs. simpl.
    destruct d, vl, mp, lp, wp; simpl;
      (destruct (f 113%nat); [intros H; simpl in H; discriminate|]);
      reflexivity.
  - intros Hf. destruct t as [vl mp lp wp d pv pd].
    unfold ensure_tables_exist, execute_all. rewrite !Hf.
    unfold create_version_list, create_measurement_type_pool,
      create_location_pool, create_week_pool, create_diffs. simpl.
    destruct d; simpl; destruct vl, mp, lp, wp; reflexivity.
Qed.

(** X20. After [dangerously_drop_all_norostat_tables], whatever the
    tables held, [ensure_tables_exist] yields the empty store. *)
Theorem ensure_tables_exist_on_empty_schema (t : Server.tables) :
  database
    (snd (ensure_tables_exist no_faults
            (snd (dangerously_drop_all_norostat_tables no_faults t))))
  = Some empty_db
  /\ fst (ensure_tables_exist no_faults
            (snd (dangerously_drop_all_norostat_tables no_faults t)))
     = inr tt
  /\ fst (dangerously_drop_all_norostat_tables no_faults t) = inr tt.
Proof. repeat split. Qed.

(** ** The write phase on well-formed data *)

Lemma distinct_keys_map {A B} (ka : A -> A -> bool) (kb : B -> B -> bool)
      (g : A -> B) l :
  (forall a b, In a l -> In b l -> kb (g a) (g b) = true -> ka a b = true) ->
  distinct_keys ka l -> distinct_keys kb (map g l).
Proof.
  induction l as [|r l IH]; simpl; intros H D; [trivial|].
  destruct D as [D1 D2]. split.
  - intros x Hx. apply in_map_iff in Hx. destruct Hx as [a [<- Ha]].
    destruct (kb (g a) (g r)) eqn:K; [|reflexivity].
    apply H in K; [|right; assumption | left; reflexivity].
    rewrite (D1 a Ha) in K. discriminate.
  - apply IH; [|assumption]. intros a b Ha Hb. apply H; right; assumption.
Qed.

Lemma distinct_keys_append {R} (k : R -> R -> bool) l1 l2 :
  distinct_keys k l1 -> distinct_keys k l2 ->
  (forall x y, In x l1 -> In y l2 -> k y x = false) ->
  distinct_keys k (l1 ++ l2).
Proof.
  induction l1 as [|a l1 IH]; simpl; intros D1 D2 C; [assumption|].
  destruct D1 as [D11 D12]. split.
  - intros x Hx. apply in_app_or in Hx. destruct Hx as [Hx | Hx]; [auto|].
    apply C; [left; reflexivity | assumption].
  - apply IH; [assumption | assumption|]. intros x y Hx. apply C. right.
    assumption.
Qed.

Lemma at_most_one_text (rows : list (Z * string)) t :
  NoDup (map collation (map snd rows)) ->
  (List.length (filter (fun b => string_eq t (snd b)) rows) <= 1)%nat.
Proof.
  induction rows as [|a rows IH]; simpl; intros N; [lia|].
  apply NoDup_cons_iff in N. destruct N as [N1 N2].
  destruct (string_eq t (snd a)) eqn:E; [|auto].
  apply string_eq_spec in E. rewrite filter_none; [simpl; lia|].
  intros x Hx. destruct (string_eq t (snd x)) eqn:K; [|reflexivity].
  apply string_eq_spec in K. exfalso. apply N1.
  unfold same_text in E, K. rewrite <- E, K.
  apply in_map. apply in_map. assumption.
Qed.

Lemma left_join_distinct {A B} (k : A -> A -> bool) (on : A -> B -> bool)
      l r :
  (forall a, In a l -> (List.length (filter (on a) r) <= 1)%nat) ->
  distinct_keys k l ->
  distinct_keys (fun x y => k (fst x) (fst y)) (left_join on l r).
Proof.
  induction l as [|a l IH]; intros One D; [exact Logic.I|].
  destruct D as [D1 D2].
  assert (IH' : distinct_keys (fun x y => k (fst x) (fst y))
                              (left_join on l r)).
  { apply IH; [|assumption]. intros x Hx. apply One. right. assumption. }
  assert (Rest : forall x, In x (left_join on l r) -> k (fst x) a = false).
  { intros [x o] Hx. apply in_left_join_left in Hx. simpl. auto. }
  unfold left_join in *. simpl.
  specialize (One a (or_introl eq_refl)).
  destruct (filter (on a) r) as [|b [|b' bs]]; simpl in *; [| |lia].
  - split; assumption.
  - split; assumption.
Qed.

Lemma join_pools_distinct db parsed :
  pool_ok (norostat_raw_datatable_measurement_type_pool db) ->
  pool_ok (norostat_raw_datatable_location_pool db) ->
  pool_ok (norostat_raw_datatable_week_pool db) ->
  distinct_keys (Parsed.same_key collation) parsed ->
  distinct_keys (fun a b => Parsed.same_key collation (Joined.parsed a)
                                            (Joined.parsed b))
                (join_pools db parsed).
Proof.
  intros [_ [Nm _]] [_ [Nl _]] [_ [Nw _]] D. unfold join_pools.
  apply (distinct_keys_map
           (fun x y : Parsed.row * option (Z * string) * option (Z * string)
                      * option (Z * string) =>
              Parsed.same_key collation (fst (fst (fst x)))
                              (fst (fst (fst y))))).
  - intros [[[p m] l] w] [[[p' m'] l'] w'] _ _ H. exact H.
  - apply (left_join_distinct
             (fun x y : Parsed.row * option (Z * string)
                        * option (Z * string) =>
                Parsed.same_key collation (fst (fst x)) (fst (fst y)))).
    { intros a _. apply at_most_one_text. assumption. }
    apply (left_join_distinct
             (fun x y : Parsed.row * option (Z * string) =>
                Parsed.same_key collation (fst x) (fst y))).
    { intros a _. apply at_most_one_text. assumption. }
    apply left_join_distinct; [|assumption].
    intros a _. apply at_most_one_text. assumption.
Qed.

Lemma map_inr_injective {A} (l1 l2 : list A) :
  map (@inr exn A) l1 = map (@inr exn A) l2 -> l1 = l2.
Proof.
  revert l2; induction l1 as [|a l1 IH]; intros [|b l2] H;
    try discriminate; [reflexivity|].
  simpl in H. inversion H; subst. f_equal. auto.
Qed.

Lemma sequence_map_inr {A B} (g : A -> result B) (h : A -> B) l :
  (forall a, In a l -> g a = inr (h a)) ->
  sequence (map g l) = inr (map h l).
Proof.
  induction l as [|a l IH]; simpl; intros H; [reflexivity|].
  rewrite (H a (or_introl eq_refl)).
  rewrite IH by (intros x Hx; apply H; right; assumption). reflexivity.
Qed.

Section JoinedRows.
Variables (db : DB) (parsed : list Parsed.row).
Hypothesis AI : all_interned db parsed.
Hypothesis Pm : pool_ok (norostat_raw_datatable_measurement_type_pool db).
Hypothesis Pl : pool_ok (norostat_raw_datatable_location_pool db).
Hypothesis Pw : pool_ok (norostat_raw_datatable_week_pool db).
Hypothesis Keys : distinct_keys (Parsed.same_key collation) parsed.

Lemma joined_ids j :
  In j (join_pools db parsed) -> exists c, joined_cell j = Some c.
Proof.
  intros H. apply (in_join_pools _ _ _ AI) in H.
  destruct H as [r [c [_ [_ ->]]]]. exists c. destruct c as [[m l] w].
  reflexivity.
Qed.

Lemma from_joined_total v (keep : Joined.row -> bool)
      (nv : Joined.row -> option string) :
  sequence (map (fun j => diff_of_joined v (nv j) j)
                (filter keep (join_pools db parsed)))
  = inr (map (fun j => diff_at v (cell_of_joined j) (nv j))
             (filter keep (join_pools db parsed))).
Proof.
  apply sequence_map_inr. intros j Hj. apply filter_In in Hj.
  destruct Hj as [Hj _]. destruct (joined_ids j Hj) as [c Hc].
  unfold cell_of_joined. rewrite Hc. apply diff_of_joined_some. assumption.
Qed.

Lemma same_cell_same_key j1 j2 :
  In j1 (join_pools db parsed) -> In j2 (join_pools db parsed) ->
  cell_of_joined j1 = cell_of_joined j2 ->
  Parsed.same_key collation (Joined.parsed j1) (Joined.parsed j2) = true.
Proof.
  intros H1 H2 E.
  apply (in_join_pools _ _ _ AI) in H1, H2.
  destruct H1 as [r1 [[[m1 l1] w1] [_ [[M1 [L1 W1]] ->]]]].
  destruct H2 as [r2 [[[m2 l2] w2] [_ [[M2 [L2 W2]] ->]]]].
  unfold cell_of_joined in E. simpl in *. inversion E; subst.
  apply parsed_same_key_spec. repeat split.
  - exact (interned_same_text _ _ _ _ Pm M1 M2).
  - exact (interned_same_text _ _ _ _ Pl L1 L2).
  - exact (interned_same_text _ _ _ _ Pw W1 W2).
Qed.

Lemma from_joined_distinct v (keep : Joined.row -> bool)
      (nv : Joined.row -> option string) :
  distinct_keys Diff.same_key
    (map (fun j => diff_at v (cell_of_joined j) (nv j))
         (filter keep (join_pools db parsed))).
Proof.
  apply (distinct_keys_map
           (fun a b => Parsed.same_key collation (Joined.parsed a)
                                       (Joined.parsed b))).
  - intros a b Ha Hb K. apply filter_In in Ha, Hb.
    apply same_key_spec in K. destruct K as [_ K].
    rewrite !diff_at_cell in K. apply same_cell_same_key; tauto.
  - apply distinct_keys_filter. apply join_pools_distinct; assumption.
Qed.

Lemma from_joined_references v (keep : Joined.row -> bool)
      (nv : Joined.row -> option string) d :
  In d (map (fun j => diff_at v (cell_of_joined j) (nv j))
            (filter keep (join_pools db parsed))) ->
  Diff.version d = v
  /\ In (Diff.measurement_type_id d)
        (map fst (pool_rows (norostat_raw_datatable_measurement_type_pool db)))
  /\ In (Diff.location_id d)
        (map fst (pool_rows (norostat_raw_datatable_location_pool db)))
  /\ In (Diff.week_id d)
        (map fst (pool_rows (norostat_raw_datatable_week_pool db))).
Proof.
  intros H. apply in_map_iff in H. destruct H as [j [<- Hj]].
  apply filter_In in Hj. destruct Hj as [Hj _].
  apply (in_join_pools _ _ _ AI) in Hj.
  destruct Hj
    as [r [[[m l] w] [_ [[[um [M _]] [[ul [L _]] [uw [W _]]]] ->]]]].
  unfold cell_of_joined. simpl.
  split; [apply diff_at_version|].
  repeat split; apply in_map_iff; eexists; (split; [|eassumption]);
    reflexivity.
Qed.
End JoinedRows.

Lemma diff_references_spec db d :
  diff_references db d = true <->
  In (Diff.version d) (norostat_raw_datatable_version_list db)
  /\ In (Diff.measurement_type_id d)
        (map fst (pool_rows (norostat_raw_datatable_measurement_type_pool db)))
  /\ In (Diff.location_id d)
        (map fst (pool_rows (norostat_raw_datatable_location_pool db)))
  /\ In (Diff.week_id d)
        (map fst (pool_rows (norostat_raw_datatable_week_pool db))).
Proof.
  unfold diff_references. rewrite !andb_true_iff, !pool_has_id_spec.
  rewrite existsb_exists. split.
  - intros [[[[u [Hu K]] H1] H2] H3]. apply veqb_spec in K.
    rewrite K. auto.
  - intros [H0 [H1 [H2 H3]]]. repeat split; try assumption.
    exists (Diff.version d). split; [assumption|]. apply veqb_spec.
    reflexivity.
Qed.

Lemma insert_selected_total (rows : Cnx -> result (list Diff.row)) c l :
  rows c = inr l ->
  (forall d, In d l -> diff_references (work c) d = true) ->
  (forall r x, In r l -> In x (norostat_raw_datatable_diffs (work c)) ->
               Diff.same_key r x = false) ->
  distinct_keys Diff.same_key l ->
  insert_selected rows c
  = (inr tt, set_work c (set_diffs (work c)
                           (norostat_raw_datatable_diffs (work c) ++ l))).
Proof.
  intros E R C D. unfold insert_selected, insert_diffs. rewrite E.
  assert (F : forallb (diff_references (work c)) l = true)
    by (apply forallb_forall; assumption).
  rewrite F. rewrite (insert_rows_total Diff.same_key _ l C D). reflexivity.
Qed.

Lemma insert_pool_total pool set text c :
  pool_ok (pool (work c)) ->
  auto_increment (pool (work c))
  + Z.of_nat (List.length (norostat_raw_datatable_parsed c)) <= int_max + 1 ->
  exists p',
    pool_insert (pool (work c))
      (select_distinct_not_in
         (map text (norostat_raw_datatable_parsed c)) (pool (work c)))
    = inr p'
    /\ insert_pool pool set text c = (inr tt, set_work c (set (work c) p')).
Proof.
  intros Ok Room.
  destruct (pool_insert_total (pool (work c))
              (select_distinct_not_in
                 (map text (norostat_raw_datatable_parsed c))
                 (pool (work c)))) as [p' E].
  - apply select_distinct_nodup.
  - intros t Ht. apply in_select_distinct_not_in in Ht. tauto.
  - pose proof (select_distinct_not_in_length
                  (map text (norostat_raw_datatable_parsed c))
                  (pool (work c))) as L.
    rewrite length_map in L. lia.
  - exists p'. split; [assumption|]. unfold insert_pool. rewrite E.
    reflexivity.
Qed.

Lemma bind_ok {A B} (m : M A) (k : A -> M B) c a c1 :
  m c = (inr a, c1) -> bind m k c = k a c1.
Proof. unfold bind. intros ->. reflexivity. Qed.

Lemma execute_ok {A} f line (m : M A) c :
  f line = false -> execute f line m c = m c.
Proof. unfold execute. intros ->. reflexivity. Qed.

Lemma state_references db w s :
  db_ok db ->
  In s (select_latest (norostat_raw_datatable_diffs db) w) ->
  In (State.measurement_type_id s)
     (map fst (pool_rows (norostat_raw_datatable_measurement_type_pool db)))
  /\ In (State.location_id s)
        (map fst (pool_rows (norostat_raw_datatable_location_pool db)))
  /\ In (State.week_id s)
        (map fst (pool_rows (norostat_raw_datatable_week_pool db))).
Proof.
  intros Ok H. apply in_select_latest in H.
  destruct H as (d & (I & C & _) & _).
  destruct (ok_ids _ Ok d I) as [H1 [H2 H3]].
  unfold Diff.cell, State.cell in C. injection C as C1 C2 C3.
  rewrite <- C1, <- C2, <- C3. auto.
Qed.

Lemma from_state_distinct v (nv : State.row -> option string)
      (keep : State.row -> bool) T :
  distinct_keys State.same_key T ->
  distinct_keys Diff.same_key
    (map (fun s => diff_of_state v (nv s) s) (filter keep T)).
Proof.
  intros D. apply (distinct_keys_map State.same_key).
  - intros a b _ _ K. apply same_key_spec in K. destruct K as [_ K].
    rewrite !diff_of_state_at, !diff_at_cell in K.
    unfold State.cell in K. injection K as K1 K2 K3.
    unfold State.same_key. rewrite K1, K2, K3, !Z.eqb_refl. reflexivity.
  - apply distinct_keys_filter. assumption.
Qed.

(** The write phase goes through when the read phase did, on a database
    that satisfies its constraints and for a version that is new. *)
Lemma write_total f long_raw db cm nxt :
  (forall line, f line = false) ->
  db_ok db ->
  distinct_keys (Parsed.same_key collation) (parsed_params long_raw) ->
  room db (List.length (long_raw_df long_raw)) ->
  ~ In (version_of long_raw) (norostat_raw_datatable_version_list db) ->
  (forall n rest,
      firstn 1 (order_by_version
                  (filter (vltb (version_of long_raw))
                          (norostat_raw_datatable_version_list db)))
      = n :: rest ->
      nxt = select_latest (norostat_raw_datatable_diffs db) n) ->
  exists c',
    record_long_raw_write f long_raw
      (firstn 1 (order_by_version
                   (filter (vltb (version_of long_raw))
                           (norostat_raw_datatable_version_list db))))
      (mkCnx cm db (parsed_params long_raw)
             (select_latest (norostat_raw_datatable_diffs db)
                            (version_of long_raw))
             nxt)
    = (inr tt, c').
Proof.
  intros Hf Ok Keys [Rm [Rl Rw]] New Hnxt.
  assert (Len : List.length (parsed_params long_raw)
                = List.length (long_raw_df long_raw))
    by (unfold parsed_params; apply length_map).
  rewrite <- Len in Rm, Rl, Rw. clear Len.
  set (v := version_of long_raw) in *.
  set (L := norostat_raw_datatable_version_list db) in *.
  set (D := norostat_raw_datatable_diffs db) in *.
  set (parsed := parsed_params long_raw) in *.
  set (prev := select_latest D v).
  set (c0 := mkCnx cm db parsed prev nxt).
  unfold record_long_raw_write.
  (* line 245 *)
  assert (E1 : try_except_IntegrityError
                 (execute f 245 (insert_version v))
                 (fun e => raise (Exception e)) c0
               = (inr tt, set_work c0 (set_version_list db (L ++ [v])))).
  { unfold try_except_IntegrityError. rewrite execute_ok by apply Hf.
    unfold insert_version. simpl. fold L.
    destruct (existsb (veqb v) L) eqn:E; [|reflexivity].
    apply existsb_exists in E. destruct E as [u [Hu K]].
    apply veqb_spec in K. subst u. contradiction. }
  rewrite (bind_ok _ _ _ _ _ E1). clear E1.
  set (c1 := set_work c0 (set_version_list db (L ++ [v]))).
  unfold record_long_raw_diffs.
  (* lines 253, 262, 271 *)
  destruct (insert_pool_total norostat_raw_datatable_measurement_type_pool
              set_measurement_type_pool Parsed.measurement_type c1
              (ok_measurement_types _ Ok) Rm) as [pm [Em E2]].
  rewrite (bind_ok _ _ _ _ _
             (eq_trans (execute_ok f 253 _ c1 (Hf _)) E2)). clear E2.
  set (c2 := set_work c1 (set_measurement_type_pool (work c1) pm)).
  destruct (insert_pool_total norostat_raw_datatable_location_pool
              set_location_pool Parsed.location c2
              (ok_locations _ Ok) Rl) as [pl [El E3]].
  rewrite (bind_ok _ _ _ _ _
             (eq_trans (execute_ok f 262 _ c2 (Hf _)) E3)). clear E3.
  set (c3 := set_work c2 (set_location_pool (work c2) pl)).
  destruct (insert_pool_total norostat_raw_datatable_week_pool
              set_week_pool Parsed.week c3
              (ok_weeks _ Ok) Rw) as [pw [Ew E4]].
  rewrite (bind_ok _ _ _ _ _
             (eq_trans (execute_ok f 271 _ c3 (Hf _)) E4)). clear E4.
  set (c4 := set_work c3 (set_week_pool (work c3) pw)).
  simpl in Em, El, Ew.
  destruct (pool_insert_grows _ _ _ Em (ok_measurement_types _ Ok))
    as [Pm Im].
  destruct (pool_insert_grows _ _ _ El (ok_locations _ Ok)) as [Pl Il].
  destruct (pool_insert_grows _ _ _ Ew (ok_weeks _ Ok)) as [Pw Iw].
  set (w4 := work c4).
  assert (AI : all_interned w4 parsed).
  { intros r Hr. simpl. split; [|split].
    - apply (pool_insert_interns _ _ _ Em (ok_measurement_types _ Ok)).
      apply in_map. assumption.
    - apply (pool_insert_interns _ _ _ El (ok_locations _ Ok)).
      apply in_map. assumption.
    - apply (pool_insert_interns _ _ _ Ew (ok_weeks _ Ok)).
      apply in_map. assumption. }
  set (J := join_pools w4 parsed).
  assert (Jids : forall j, In j J -> exists c, joined_cell j = Some c)
    by (apply joined_ids; assumption).
  assert (OldIds : forall w s, In s (select_latest D w) ->
             In (State.measurement_type_id s) (map fst (pool_rows pm))
             /\ In (State.location_id s) (map fst (pool_rows pl))
             /\ In (State.week_id s) (map fst (pool_rows pw))).
  { intros w s Hs. destruct (state_references db w s Ok Hs) as [H1 [H2 H3]].
    repeat split; (eapply incl_map; [|eassumption]); assumption. }
  assert (Tprev : forall s, In s prev
                            <-> holds D v (State.cell s) (State.value s))
    by (intros s; apply in_select_latest).
  (* line 282 *)
  set (fv := map (fun j => diff_at v (cell_of_joined j)
                                   (Some (Parsed.value (Joined.parsed j))))
                 (filter (fun j => is_true
                            (not_in3 joined_eq_state_value j prev)) J)).
  assert (E5 : insert_selected
                 (fun c => forward_values v (joined_parsed c)
                             (norostat_raw_datatable_previous c)) c4
               = (inr tt, set_work c4 (set_diffs w4 (D ++ fv)))).
  { apply (insert_selected_total _ c4 fv).
    - unfold forward_values, joined_parsed. simpl.
      apply (from_joined_total w4 parsed AI).
    - intros d Hd.
      destruct (from_joined_references w4 parsed AI v _ _ d Hd)
        as [Hv [H1 [H2 H3]]].
      apply diff_references_spec. simpl in *. rewrite Hv.
      split; [apply in_or_app; right; left; reflexivity | auto].
    - intros r x Hr Hx. simpl in Hx.
      destruct (from_joined_references w4 parsed AI v _ _ r Hr) as [Hv _].
      destruct (Diff.same_key r x) eqn:K; [|reflexivity].
      apply same_key_spec in K. destruct K as [K _]. exfalso. apply New.
      rewrite <- Hv, K. apply (ok_versions _ Ok). assumption.
    - apply (from_joined_distinct w4 parsed AI Pm Pl Pw Keys). }
  rewrite (bind_ok _ _ _ _ _
             (eq_trans (execute_ok f 282 _ c4 (Hf _)) E5)). clear E5.
  set (c5 := set_work c4 (set_diffs w4 (D ++ fv))).
  (* line 297 *)
  set (fr := map (diff_of_state v None)
                 (filter (fun s => is_true
                            (not_in3 (fun s j => joined_eq_state j s) s J))
                         prev)).
  assert (SnapJ : forall j, In j J ->
             snapshot J (cell_of_joined j) (Parsed.value (Joined.parsed j))).
  { intros j Hj. exists j. split; [assumption|]. split; [|reflexivity].
    destruct (Jids j Hj) as [c Hc]. unfold cell_of_joined. rewrite Hc.
    reflexivity. }
  assert (E6 : insert_selected
                 (fun c => forward_removals v (joined_parsed c)
                             (norostat_raw_datatable_previous c)) c5
               = (inr tt, set_work c5 (set_diffs (work c5)
                                         ((D ++ fv) ++ fr)))).
  { apply (insert_selected_total _ c5 fr).
    - reflexivity.
    - intros d Hd. apply in_map_iff in Hd. destruct Hd as [s [<- Hs]].
      apply filter_In in Hs. destruct Hs as [Hs _].
      destruct (OldIds v s Hs) as [H1 [H2 H3]].
      apply diff_references_spec. simpl.
      split; [apply in_or_app; right; left; destruct v; reflexivity | auto].
    - intros r x Hr Hx. simpl in Hx.
      apply in_map_iff in Hr. destruct Hr as [s [<- Hs]].
      apply filter_In in Hs. destruct Hs as [Hs Keep].
      destruct (Diff.same_key (diff_of_state v None s) x) eqn:K;
        [|reflexivity].
      apply same_key_spec in K. destruct K as [K1 K2]. exfalso.
      rewrite diff_of_state_at, diff_at_version in K1.
      rewrite diff_of_state_at, diff_at_cell in K2.
      apply in_app_or in Hx. destruct Hx as [Hx | Hx].
      + apply New. rewrite K1. apply (ok_versions _ Ok). assumption.
      + apply in_map_iff in Hx. destruct Hx as [j [<- Hj]].
        apply filter_In in Hj. destruct Hj as [Hj _].
        rewrite diff_at_cell in K2.
        pose proof (proj1 (cell_not_in_J J Jids s) Keep) as Keep'.
        apply (Keep' (Parsed.value (Joined.parsed j))). rewrite K2.
        apply SnapJ. assumption.
    - apply (from_state_distinct v (fun _ => None)).
      apply select_latest_distinct. apply (ok_keys _ Ok). }
  rewrite (bind_ok _ _ _ _ _
             (eq_trans (execute_ok f 297 _ c5 (Hf _)) E6)). clear E6.
  set (c6 := set_work c5 (set_diffs (work c5) ((D ++ fv) ++ fr))).
  (* lines 315-349 *)
  destruct (firstn 1 (order_by_version (filter (vltb v) L)))
    as [|n rest] eqn:En; [eexists; reflexivity|].
  assert (Hn : In n L).
  { assert (H : In n (order_by_version (filter (vltb v) L))).
    { destruct (order_by_version (filter (vltb v) L)) as [|a l];
        simpl in En; [discriminate|]. inversion En; subst. left.
      reflexivity. }
    apply (proj1 (order_by_version_in _ _)) in H.
    apply filter_In in H. tauto. }
  specialize (Hnxt n rest eq_refl). subst nxt.
  set (nxt := select_latest D n) in *.
  set (c7 := set_work c6
               (set_diffs (work c6)
                  (filter (fun d => negb ((Diff.release_date d =? fst n)
                                          && (Diff.parse_time d =? snd n)))
                          (norostat_raw_datatable_diffs (work c6))))).
  assert (E7 : delete_diffs_at n c6 = (inr tt, c7)) by reflexivity.
  rewrite (bind_ok _ _ _ _ _
             (eq_trans (execute_ok f 316 _ c6 (Hf _)) E7)). clear E7.
  assert (NotAt : forall x, In x (norostat_raw_datatable_diffs (work c7)) ->
                            Diff.version x <> n).
  { intros x Hx. simpl in Hx.
    apply (in_delete_at n ((D ++ fv) ++ fr) x) in Hx. tauto. }
  (* line 320 *)
  set (rv := map (fun s => diff_of_state n (Some (State.value s)) s)
                 (filter (fun s => is_true
                            (not_in3 (fun s j => joined_eq_state_value j s)
                                     s J))
                         nxt)).
  assert (E8 : insert_selected
                 (fun c => repair_values n (joined_parsed c)
                             (norostat_raw_datatable_next c)) c7
               = (inr tt,
                  set_work c7
                    (set_diffs (work c7)
                       (norostat_raw_datatable_diffs (work c7) ++ rv)))).
  { apply (insert_selected_total _ c7 rv).
    - reflexivity.
    - intros d Hd. apply in_map_iff in Hd. destruct Hd as [s [<- Hs]].
      apply filter_In in Hs. destruct Hs as [Hs _].
      destruct (OldIds n s Hs) as [H1 [H2 H3]].
      apply diff_references_spec. simpl.
      split; [apply in_or_app; left; destruct n; assumption | auto].
    - intros r x Hr Hx. apply NotAt in Hx.
      apply in_map_iff in Hr. destruct Hr as [s [<- Hs]].
      destruct (Diff.same_key _ x) eqn:K; [|reflexivity].
      apply same_key_spec in K. destruct K as [K1 _]. exfalso.
      rewrite diff_of_state_at, diff_at_version in K1. congruence.
    - apply (from_state_distinct n (fun s => Some (State.value s))).
      apply select_latest_distinct. apply (ok_keys _ Ok). }
  rewrite (bind_ok _ _ _ _ _
             (eq_trans (execute_ok f 320 _ c7 (Hf _)) E8)). clear E8.
  set (c8 := set_work c7
               (set_diffs (work c7)
                  (norostat_raw_datatable_diffs (work c7) ++ rv))).
  (* line 336 *)
  set (rr := map (fun j => diff_at n (cell_of_joined j) None)
                 (filter (fun j => is_true (not_in3 joined_eq_state j nxt))
                         J)).
  assert (E9 : insert_selected
                 (fun c => repair_removals n (joined_parsed c)
                             (norostat_raw_datatable_next c)) c8
               = (inr tt,
                  set_work c8
                    (set_diffs (work c8)
                       (norostat_raw_datatable_diffs (work c8) ++ rr)))).
  { apply (insert_selected_total _ c8 rr).
    - unfold repair_removals, joined_parsed. simpl.
      apply (from_joined_total w4 parsed AI n _ (fun _ => None)).
    - intros d Hd.
      destruct (from_joined_references w4 parsed AI n _ _ d Hd)
        as [Hv [H1 [H2 H3]]].
      apply diff_references_spec. simpl in *. rewrite Hv.
      split; [apply in_or_app; left; assumption | auto].
    - intros r x Hr Hx.
      destruct (Diff.same_key r x) eqn:K; [|reflexivity].
      apply same_key_spec in K. destruct K as [K1 K2]. exfalso.
      destruct (from_joined_references w4 parsed AI n _ _ r Hr) as [Hv _].
      simpl in Hx. apply in_app_or in Hx. destruct Hx as [Hx | Hx].
      + apply (NotAt x); [assumption | congruence].
      + apply in_map_iff in Hr. destruct Hr as [j [<- Hj]].
        apply filter_In in Hj. destruct Hj as [Hj Keep].
        apply in_map_iff in Hx. destruct Hx as [s [<- Hs]].
        apply filter_In in Hs. destruct Hs as [Hs _].
        rewrite diff_at_cell, diff_of_state_at, diff_at_cell in K2.
        destruct (Jids j Hj) as [c Hc].
        pose proof (proj1 (cell_not_in_T nxt (holds D n)
                             (fun s => in_select_latest D n s) j c Hc)
                          Keep) as Keep'.
        apply (Keep' (State.value s)).
        unfold cell_of_joined in K2. rewrite Hc in K2. rewrite K2.
        apply in_select_latest. assumption.
    - apply (from_joined_distinct w4 parsed AI Pm Pl Pw Keys). }
  rewrite (eq_trans (execute_ok f 336 _ c8 (Hf _)) E9).
  eexists. reflexivity.
Qed.

(** ** When a call goes through *)

Lemma record_long_raw_total f long_raw db :
  (forall line, f line = false) ->
  db_ok db ->
  well_formed long_raw ->
  room db (List.length (long_raw_df long_raw)) ->
  ~ In (version_of long_raw) (norostat_raw_datatable_version_list db) ->
  exists db', record_long_raw f long_raw db = (inr tt, db').
Proof.
  intros Hf Ok Wf Room New.
  destruct (read_total f long_raw (connect db) Hf Wf (ok_keys _ Ok))
    as (nvl & c1 & E1 & W1).
  destruct (read_inr _ _ _ _ _ E1) as (En & _ & _ & nxt & Ec & Hn).
  change (work (connect db)) with db in En, Ec, Hn.
  change (committed (connect db)) with db in Ec. subst c1.
  destruct Wf as [_ Keys].
  assert (Hnxt : forall n rest,
             firstn 1 (order_by_version
                         (filter (vltb (version_of long_raw))
                                 (norostat_raw_datatable_version_list db)))
             = n :: rest ->
             nxt = select_latest (norostat_raw_datatable_diffs db) n).
  { intros n rest K. rewrite <- En in K. rewrite K in Hn. assumption. }
  destruct (write_total f long_raw db db nxt Hf Ok Keys Room New Hnxt)
    as [c' E2].
  rewrite <- En in E2.
  assert (T : record_long_raw_transaction f long_raw (connect db)
              = (inr tt, c')).
  { unfold record_long_raw_transaction.
    rewrite (bind_ok _ _ _ _ _ E1). assumption. }
  rewrite (record_after_transaction _ _ _ _ T). rewrite !Hf. eauto.
Qed.

(** X3. On a store that satisfies its constraints, whose AUTO_INCREMENT
    counters leave room for the strings of the snapshot, and with no
    statement failing on its own, a well-formed snapshot (every string
    fits its column, no two rows for the same cell) is recorded exactly
    when its version is not in the ledger yet. *)
Theorem record_long_raw_succeeds (f : Faults) (long_raw : LongRaw) (db : DB) :
  (forall line, f line = false) ->
  db_ok db ->
  well_formed long_raw ->
  room db (List.length (long_raw_df long_raw)) ->
  ((exists db', record_long_raw f long_raw db = (inr tt, db'))
   <-> ~ In (version_of long_raw)
            (norostat_raw_datatable_version_list db)).
Proof.
  intros Hf Ok Wf Room. split.
  - intros [db' E]. destruct (record_long_raw_inr _ _ _ _ E) as [next Rec].
    apply (rec_new _ _ _ _ Rec).
  - apply record_long_raw_total; assumption.
Qed.

(** A recorded call advances each counter by at most the number of rows
    of the snapshot. *)
Lemma recorded_room db long_raw next db' n :
  db_ok db -> recorded db long_raw next db' ->
  room db (List.length (long_raw_df long_raw) + n) -> room db' n.
Proof.
  intros Ok Rec [Rm [Rl Rw]].
  assert (P : forall (text : Parsed.row -> string) p p',
             pool_ok p ->
             pool_insert p (select_distinct_not_in
                              (map text (parsed_params long_raw)) p)
             = inr p' ->
             auto_increment p
             + Z.of_nat (List.length (long_raw_df long_raw) + n)
             <= int_max + 1 ->
             auto_increment p' + Z.of_nat n <= int_max + 1).
  { intros text p p' Okp E R.
    destruct (pool_insert_inr _ _ _ E Okp) as [_ [new [_ [_ A]]]].
    pose proof (select_distinct_not_in_length
                  (map text (parsed_params long_raw)) p) as L.
    rewrite length_map in L.
    assert (Len : List.length (parsed_params long_raw)
                  = List.length (long_raw_df long_raw))
      by (unfold parsed_params; apply length_map).
    lia. }
  split; [|split].
  - exact (P _ _ _ (ok_measurement_types _ Ok)
             (rec_measurement_types _ _ _ _ Rec) Rm).
  - exact (P _ _ _ (ok_locations _ Ok) (rec_locations _ _ _ _ Rec) Rl).
  - exact (P _ _ _ (ok_weeks _ Ok) (rec_weeks _ _ _ _ Rec) Rw).
Qed.

Lemma record_all_total calls :
  forall db,
    db_ok db ->
    (forall c line, In c calls -> fst c line = false) ->
    (forall c, In c calls -> well_formed (snd c)) ->
    NoDup (map (fun c => version_of (snd c)) calls) ->
    (forall c, In c calls ->
               ~ In (version_of (snd c))
                    (norostat_raw_datatable_version_list db)) ->
    room db (List.length (flat_map (fun c => long_raw_df (snd c)) calls)) ->
    exists db', record_all calls db = inr db'.
Proof.
  induction calls as [|[f long_raw] rest IH];
    intros db Ok Hf Wf Nd New Room.
  - exists db. reflexivity.
  - simpl. simpl in Room. rewrite length_app in Room.
    destruct (record_long_raw_total f long_raw db) as [db1 E].
    + intros line. apply (Hf (f, long_raw)). left. reflexivity.
    + assumption.
    + apply (Wf (f, long_raw)). left. reflexivity.
    + destruct Room as [Rm [Rl Rw]]. unfold room. lia.
    + apply (New (f, long_raw)). left. reflexivity.
    + rewrite E. simpl in Nd. apply NoDup_cons_iff in Nd.
      destruct Nd as [Nd1 Nd2].
      destruct (record_long_raw_inr _ _ _ _ E) as [next Rec].
      apply IH.
      * apply (recorded_ok _ _ _ _ Ok Rec).
      * intros c line Hc. apply Hf. right. assumption.
      * intros c Hc. apply Wf. right. assumption.
      * assumption.
      * intros c Hc Hin. rewrite (rec_versions _ _ _ _ Rec) in Hin.
        apply in_app_or in Hin. destruct Hin as [Hin | [Hin | []]].
        -- apply (New c); [right; assumption | assumption].
        -- apply Nd1. simpl. rewrite Hin. apply in_map_iff. exists c. auto.
      * apply (recorded_room _ _ _ _ _ Ok Rec Room).
Qed.

(** X21. Ingestion never gets stuck: from the empty store, well-formed
    snapshots of pairwise distinct versions, with no more rows in all
    than an INT counts, are all recorded, in whatever order they come,
    when no statement fails on its own. *)
Theorem record_all_succeeds (calls : list (Faults * LongRaw)) :
  (forall c line, In c calls -> fst c line = false) ->
  (forall c, In c calls -> well_formed (snd c)) ->
  NoDup (map (fun c => version_of (snd c)) calls) ->
  Z.of_nat (List.length (flat_map (fun c => long_raw_df (snd c)) calls))
  <= int_max ->
  exists db, record_all calls empty_db = inr db.
Proof.
  intros Hf Wf Nd Rows. apply record_all_total; try assumption.
  - apply empty_db_ok.
  - intros c _ [].
  - unfold room, empty_db, empty_pool.
    cbn [auto_increment norostat_raw_datatable_measurement_type_pool
         norostat_raw_datatable_location_pool
         norostat_raw_datatable_week_pool].
    rewrite Z.add_comm.
    pose proof (proj1 (Z.add_le_mono_r _ _ 1) Rows) as R. auto.
Qed.

Lemma insert_parsed_fitting rows :
  forallb Parsed.fits rows = true ->
  forall c e c',
    executemany insert_parsed rows c = (inl e, c') ->
    e = IntegrityError.
Proof.
  induction rows as [|r rows IH]; simpl; intros F c e c' H; [discriminate|].
  apply andb_true_iff in F. destruct F as [F1 F2].
  apply bind_inl in H. destruct H as [H | (u & c1 & _ & H)]; [|eauto].
  unfold insert_parsed in H. rewrite F1 in H.
  destruct (insert_rows _ _ _) as [e0|t] eqn:E; [|discriminate].
  apply insert_rows_inl in E. inversion H; subst. reflexivity.
Qed.

(** X4. A snapshot with two rows for the same measurement type and week,
    all of whose strings fit their columns, is refused by the primary key
    of the parsed table (line 153): the call raises the bare
    [IntegrityError], not the [Exception] of a duplicate version, and
    leaves the database as it was. *)
Theorem duplicate_cell_rejected (f : Faults) (long_raw : LongRaw) (db : DB) :
  (forall line, f line = false) ->
  forallb Parsed.fits (parsed_params long_raw) = true ->
  ~ distinct_keys (Parsed.same_key collation) (parsed_params long_raw) ->
  record_long_raw f long_raw db = (inl IntegrityError, db).
Proof.
  intros Hf Fits Dup.
  destruct (executemany insert_parsed (parsed_params long_raw)
              (set_parsed (connect db) [])) as [[e|[]] c1] eqn:E.
  - rewrite <- (insert_parsed_fitting _ Fits _ _ _ E).
    apply (record_transaction_fails _ _ _ _ c1).
    unfold record_long_raw_transaction, record_long_raw_read.
    unfold bind at 1. unfold bind at 1.
    rewrite execute_ok by apply Hf. unfold ret at 1.
    unfold bind at 1. rewrite execute_ok by apply Hf.
    unfold create_parsed at 1.
    unfold bind at 1. rewrite execute_ok by apply Hf.
    rewrite E. reflexivity.
  - exfalso. apply Dup. apply executemany_insert_parsed in E.
    destruct E as [_ [_ D]]. apply D. exact Logic.I.
Qed.

(** ** A snapshot that changes nothing *)

Lemma nothing_to_intern texts p :
  (forall t, In t texts -> pooled p t) ->
  select_distinct_not_in texts p = [].
Proof.
  intros H. unfold select_distinct_not_in. rewrite filter_none; [reflexivity|].
  intros t Ht. apply negb_false_iff. apply mem_string_spec. apply H.
  assumption.
Qed.

(** X5. Recording, at a version later than all the recorded ones, a
    snapshot whose rows are those of the current reconstruction (for the
    collation of the columns) writes no diff and interns no string: the
    ledger gains the version, and nothing else changes in the raw
    tables. *)
Theorem unchanged_snapshot_adds_no_diff (f : Faults) (long_raw : LongRaw)
        (db db' : DB) :
  db_ok db ->
  record_long_raw f long_raw db = (inr tt, db') ->
  (forall u, In u (norostat_raw_datatable_version_list db) ->
             vlt u (version_of long_raw)) ->
  same_rows (reconstruct db (version_of long_raw)) (snapshot_rows long_raw) ->
  norostat_raw_datatable_version_list db'
  = norostat_raw_datatable_version_list db ++ [version_of long_raw]
  /\ norostat_raw_datatable_diffs db' = norostat_raw_datatable_diffs db
  /\ norostat_raw_datatable_measurement_type_pool db'
     = norostat_raw_datatable_measurement_type_pool db
  /\ norostat_raw_datatable_location_pool db'
     = norostat_raw_datatable_location_pool db
  /\ norostat_raw_datatable_week_pool db'
     = norostat_raw_datatable_week_pool db.
Proof.
  intros Ok E Newest [Same1 Same2].
  destruct (record_long_raw_inr _ _ _ _ E) as [next Rec].
  split; [exact (rec_versions _ _ _ _ Rec)|].
  set (v := version_of long_raw) in *.
  set (D := norostat_raw_datatable_diffs db) in *.
  set (J := join_pools db' (parsed_params long_raw)).
  assert (Nn : next = None).
  { pose proof (recorded_least_after _ _ _ _ Rec) as LA.
    destruct next as [n|]; [|reflexivity]. destruct LA as [Hn [Hl _]].
    specialize (Newest n Hn). exfalso. fold v in Hl. vsolve. }
  subst next.
  pose proof (rec_diffs _ _ _ _ Rec) as HR. cbv zeta in HR.
  destruct HR as (fv & fr & Efv & Efr & HD). fold v D J in Efv, Efr, HD.
  pose proof (recorded_J_ids _ _ _ _ Ok Rec) as Jids. fold J in Jids.
  pose proof (recorded_interned _ _ _ _ Ok Rec) as AI.
  destruct (recorded_pools _ _ _ _ Ok Rec) as [[Pm Im] [[Pl Il] [Pw Iw]]].
  rewrite snapshot_rows_parsed in Same1, Same2.
  (* the snapshot by cell is the state of the chain, for MySQL *)
  assert (S1 : forall c x, snapshot J c x -> holds_like D v c x).
  { intros [[m l] w] x H. apply (snapshot_parsed _ _ _ _ AI) in H.
    destruct H as [r [Hr [[M [Lc W]] Ex]]]. simpl in M, Lc, W.
    destruct (Same2 (Parsed.measurement_type r, Parsed.location r,
                     Parsed.week r, Parsed.value r))
      as [[[[tm tl] tw] y] [Hrow (E1 & E2 & E3 & E4)]].
    { apply in_map_iff. exists r. auto. }
    simpl in E1, E2, E3, E4.
    apply in_reconstruct in Hrow.
    destruct Hrow as [[[m0 l0] w0] [Hh [M0 [L0 W0]]]]. simpl in M0, L0, W0.
    exists y. split; [|rewrite <- Ex; assumption].
    rewrite (interned_same_id _ _ _ _ _ Pm M
               (interned_text _ _ _ (Im _ M0)) (same_text_sym _ _ E1)).
    rewrite (interned_same_id _ _ _ _ _ Pl Lc
               (interned_text _ _ _ (Il _ L0)) (same_text_sym _ _ E2)).
    rewrite (interned_same_id _ _ _ _ _ Pw W
               (interned_text _ _ _ (Iw _ W0)) (same_text_sym _ _ E3)).
    assumption. }
  assert (S2 : forall c x, holds D v c x -> exists y, snapshot J c y).
  { intros [[m l] w] x H.
    assert (H' := H). destruct H' as (d & (I & C & _) & _).
    destruct (ok_ids _ Ok d I) as [H1 [H2 H3]].
    unfold Diff.cell in C. injection C as C1 C2 C3.
    rewrite C1 in H1. rewrite C2 in H2. rewrite C3 in H3.
    apply in_map_iff in H1, H2, H3.
    destruct H1 as [[m' tm] [Em Hm]]. destruct H2 as [[l' tl] [El Hl]].
    destruct H3 as [[w' tw] [Ew Hw]]. simpl in Em, El, Ew. subst m' l' w'.
    destruct (Same1 (tm, tl, tw, x))
      as [[[[um ul] uw] y] [Hrow (E1 & E2 & E3 & E4)]].
    { apply in_reconstruct. exists (m, l, w). simpl. auto. }
    simpl in E1, E2, E3, E4.
    apply in_map_iff in Hrow. destruct Hrow as [r [Er Hr]].
    injection Er as K1 K2 K3 K4. subst um ul uw y.
    exists (Parsed.value r).
    apply (snapshot_parsed _ _ _ _ AI). exists r. split; [assumption|].
    split; [|reflexivity]. unfold parsed_cell. simpl.
    split; [exists tm; auto|]. split; [exists tl; auto | exists tw; auto]. }
  assert (Nfv : fv = []).
  { apply no_rows. intros d Hd.
    apply (forward_values_spec J (select_latest D v) (holds D v) Jids
             (in_select_latest D v) v fv d Efv) in Hd.
    destruct Hd as [_ [x [_ [Sx Nx]]]]. apply Nx. apply S1. assumption. }
  assert (Nfr : fr = []).
  { apply no_rows. intros d Hd.
    apply (forward_removals_spec J (select_latest D v) (holds D v) Jids
             (in_select_latest D v) v fr d Efr) in Hd.
    destruct Hd as [_ [_ [[x Hx] Nx]]]. destruct (S2 _ _ Hx) as [y Hy].
    apply (Nx y). assumption. }
  split; [rewrite HD, Nfv, Nfr, !app_nil_r; reflexivity|].
  assert (Known : forall r, In r (parsed_params long_raw) ->
             pooled (norostat_raw_datatable_measurement_type_pool db)
                    (Parsed.measurement_type r)
             /\ pooled (norostat_raw_datatable_location_pool db)
                       (Parsed.location r)
             /\ pooled (norostat_raw_datatable_week_pool db)
                       (Parsed.week r)).
  { intros r Hr.
    destruct (Same2 (Parsed.measurement_type r, Parsed.location r,
                     Parsed.week r, Parsed.value r))
      as [[[[tm tl] tw] y] [Hrow (E1 & E2 & E3 & E4)]].
    { apply in_map_iff. exists r. auto. }
    simpl in E1, E2, E3, E4.
    apply in_reconstruct in Hrow. destruct Hrow as [c [_ [M0 [L0 W0]]]].
    unfold pooled, pool_texts.
    split; [exists tm|split; [exists tl | exists tw]];
      (split; [|assumption]); apply in_map_iff; eexists;
      (split; [|eassumption]); reflexivity. }
  pose proof (rec_measurement_types _ _ _ _ Rec) as Rm.
  pose proof (rec_locations _ _ _ _ Rec) as Rl.
  pose proof (rec_weeks _ _ _ _ Rec) as Rw.
  rewrite nothing_to_intern in Rm, Rl, Rw;
    try (intros t Ht; apply in_map_iff in Ht; destruct Ht as [r [<- Hr]];
         apply (Known r Hr)).
  simpl in Rm, Rl, Rw. inversion Rm. inversion Rl. inversion Rw. auto.
Qed.

(** ** The reconstruction as a function of the cell *)

(** X7. On a store that satisfies its constraints the reconstruction has
    at most one value for a measurement type, location and week. *)
Theorem reconstruct_functional (db : DB) (v : Version)
        (measurement_type location week x y : string) :
  db_ok db ->
  In (measurement_type, location, week, x) (reconstruct db v) ->
  In (measurement_type, location, week, y) (reconstruct db v) ->
  x = y.
Proof.
  intros Ok Hx Hy. apply in_reconstruct in Hx, Hy.
  destruct Hx as [[[m1 l1] w1] [H1 [M1 [L1 W1]]]].
  destruct Hy as [[[m2 l2] w2] [H2 [M2 [L2 W2]]]]. simpl in *.
  rewrite (pool_ok_text_id _ _ _ _ (ok_measurement_types _ Ok) M1 M2) in H1.
  rewrite (pool_ok_text_id _ _ _ _ (ok_locations _ Ok) L1 L2) in H1.
  rewrite (pool_ok_text_id _ _ _ _ (ok_weeks _ Ok) W1 W2) in H1.
  apply (holds_functional _ _ _ _ _
           (distinct_diff_keys _ (ok_keys _ Ok)) H1 H2).
Qed.

(** ** Where a call changes the reconstruction *)

(** X6. Whatever way a call ends, it leaves the reconstruction as it was
    as of every version before the one it records: the past is never
    rewritten. As of every version at or after an already recorded version
    that follows the one it records, it leaves the reconstruction the same
    for the collation of the columns, and the same where the collation
    tells the strings of the store and of the snapshot apart. *)
Theorem reconstruction_changes_in_window (f : Faults) (long_raw : LongRaw)
        (db : DB) (w : Version) :
  db_ok db ->
  (vlt w (version_of long_raw) ->
   forall row,
     In row (reconstruct (snd (record_long_raw f long_raw db)) w)
     <-> In row (reconstruct db w))
  /\ ((exists n, In n (norostat_raw_datatable_version_list db)
                 /\ vlt (version_of long_raw) n /\ vle n w) ->
      same_rows (reconstruct (snd (record_long_raw f long_raw db)) w)
                (reconstruct db w)
      /\ forall l,
          (forall s, stored db s \/ In s (delivered long_raw) -> In s l) ->
          told_apart l ->
          forall row,
            In row (reconstruct (snd (record_long_raw f long_raw db)) w)
            <-> In row (reconstruct db w)).
Proof.
  intros Ok.
  destruct (record_long_raw_effect f long_raw db) as [E | [next Rec]].
  { rewrite E. split; [tauto|]. intros _.
    split; [apply same_rows_refl | tauto]. }
  split.
  - intros Hw. apply (reconstruct_before _ _ _ _ Ok Rec). assumption.
  - intros [n [Hn [Hl Hle]]].
    pose proof (recorded_least_after _ _ _ _ Rec) as LA.
    destruct next as [m|]; [|exfalso; apply (LA n Hn Hl)].
    destruct LA as [_ [_ LA]].
    assert (Same : same_rows
                     (reconstruct (snd (record_long_raw f long_raw db)) w)
                     (reconstruct db w)).
    { apply (reconstruct_after _ _ _ _ Ok Rec m w eq_refl).
      specialize (LA n Hn Hl). vsolve. }
    split; [assumption|]. intros l Hl' Apart.
    apply (told_apart_rows l); try assumption.
    + intros tm tl tw x H. apply reconstruct_stored in H.
      destruct H as (H1 & H2 & H3 & H4).
      repeat split; apply Hl';
        apply (recorded_stored _ _ _ _ _ Ok Rec); assumption.
    + intros tm tl tw x H. apply reconstruct_stored in H.
      destruct H as (H1 & H2 & H3 & H4).
      repeat split; apply Hl'; left; assumption.
Qed.

(** ** The rows that [update_point] selects *)

Lemma left_join_id {A} (id : A -> Z) (l : list A) (rows : list (Z * string))
      a o :
  In (a, o) (left_join (fun a (b : Z * string) => id a =? fst b) l rows) <->
  In a l /\ match o with
            | Some r => In r rows /\ fst r = id a
            | None => ~ In (id a) (map fst rows)
            end.
Proof.
  destruct o as [r|].
  - rewrite in_left_join_some. rewrite Z.eqb_eq. intuition.
  - rewrite in_left_join_none. split; intros [H1 H2]; (split; [assumption|]).
    + intros Hin. apply in_map_iff in Hin. destruct Hin as [b [E Hb]].
      specialize (H2 b Hb). apply Z.eqb_neq in H2. congruence.
    + intros b Hb. apply Z.eqb_neq. intros E. apply H2. rewrite E.
      apply in_map. assumption.
Qed.

Lemma in_select_raw_datatable_diffs db projected r :
  db_ok db ->
  (In r (select_raw_datatable_diffs db projected) <->
   exists d measurement_type week,
     In d (norostat_raw_datatable_diffs db)
     /\ ~ In (Diff.version d) projected
     /\ In (Diff.measurement_type_id d, measurement_type)
           (pool_rows (norostat_raw_datatable_measurement_type_pool db))
     /\ In (Diff.week_id d, week)
           (pool_rows (norostat_raw_datatable_week_pool db))
     /\ r = Selection.mk (Diff.release_date d) (Diff.parse_time d)
                         (Some measurement_type) (Diff.location_id d)
                         (Some week) (Diff.new_value d)).
Proof.
  intros Ok. unfold select_raw_datatable_diffs. rewrite in_map_iff.
  assert (NotIn : forall d, negb (existsb (veqb (Diff.version d)) projected)
                            = true <-> ~ In (Diff.version d) projected).
  { intros d. rewrite negb_true_iff. split.
    - intros E Hin. assert (existsb (veqb (Diff.version d)) projected = true).
      { apply existsb_exists. exists (Diff.version d). split; [assumption|].
        apply veqb_spec. reflexivity. }
      congruence.
    - intros N. destruct (existsb _ projected) eqn:E; [|reflexivity].
      apply existsb_exists in E. destruct E as [u [Hu K]].
      apply veqb_spec in K. subst u. contradiction. }
  split.
  - intros [[[d m] w] [<- Hj]]. apply filter_In in Hj.
    destruct Hj as [Hj Keep]. simpl in Keep. apply NotIn in Keep.
    apply (left_join_id (fun j : Diff.row * option (Z * string) =>
                           Diff.week_id (fst j))) in Hj.
    destruct Hj as [Hj Hw].
    apply (left_join_id Diff.measurement_type_id) in Hj.
    destruct Hj as [Hd Hm]. simpl in *.
    destruct (ok_ids _ Ok d Hd) as [I1 [_ I3]].
    destruct m as [[mi mt]|]; [|contradiction].
    destruct w as [[wi wt]|]; [|contradiction].
    destruct Hm as [Hm Em]. destruct Hw as [Hw Ew]. simpl in *. subst.
    exists d, mt, wt. auto.
  - intros (d & mt & wk & Hd & Np & Hm & Hw & ->).
    exists (d, Some (Diff.measurement_type_id d, mt),
            Some (Diff.week_id d, wk)).
    split; [reflexivity|]. apply filter_In. split.
    + apply (left_join_id (fun j : Diff.row * option (Z * string) =>
                             Diff.week_id (fst j))).
      split; [|simpl; auto].
      apply (left_join_id Diff.measurement_type_id). simpl. auto.
    + simpl. apply NotIn. assumption.
Qed.

Section UpdatePointRaw.
Variable season_db_to_epiweek : string -> option string -> result Z.

(** X14. What [update_point] projects, the values of the raw diffs being
    ASCII text that fits its column: the rows it appends to
    [norostat_point_diffs] are those of the raw diffs at versions not yet
    in the point ledger whose measurement type matches the season pattern
    and whose value is not the empty string, with the epiweek computed by
    [season_db_to_epiweek] and the value converted by [int], a removal
    (NULL) staying a removal. *)
Theorem update_point_projects_raw_diffs (f : Faults) (db db' : DB)
        (projected : list Version) (old : list Point.row) :
  db_ok db ->
  ascii_values db ->
  update_point season_db_to_epiweek f db = (inr tt, db') ->
  norostat_point_version_list db = Some projected ->
  norostat_point_diffs db = Some old ->
  exists new,
    norostat_point_diffs db' = Some (old ++ new)
    /\ forall p,
        In p new <->
        exists d measurement_type week,
          In d (norostat_raw_datatable_diffs db)
          /\ ~ In (Diff.version d) projected
          /\ In (Diff.measurement_type_id d, measurement_type)
                (pool_rows (norostat_raw_datatable_measurement_type_pool db))
          /\ In (Diff.week_id d, week)
                (pool_rows (norostat_raw_datatable_week_pool db))
          /\ prog_match measurement_type = true
          /\ Diff.new_value d <> Some ""
          /\ season_db_to_epiweek measurement_type (Some week)
             = inr (Point.epiweek p)
          /\ Point.version p = Diff.version d
          /\ Point.location_id p = Diff.location_id d
          /\ match Diff.new_value d with
             | Some new_value_str => int new_value_str <> None
                                     /\ Point.new_value p = int new_value_str
             | None => Point.new_value p = None
             end.
Proof.
  intros Ok Ascii H Ep Eo.
  destruct (update_point_projects season_db_to_epiweek f db db' old H Eo)
    as (projected0 & new & Ep0 & En & Hp).
  rewrite Ep in Ep0. inversion Ep0; subst projected0.
  exists new. split; [assumption|]. intros p. rewrite Hp. split.
  - intros (r & mt & Hr & Em & Hm & Hne & Ew & E1 & E2 & E3 & Ev).
    apply (in_select_raw_datatable_diffs _ _ _ Ok) in Hr.
    destruct Hr as (d & mt' & wk & Hd & Np & Im & Iw & ->). simpl in *.
    inversion Em; subst mt'. exists d, mt, wk.
    repeat (split; [assumption|]).
    split; [unfold Point.version, Diff.version; congruence|].
    split; assumption.
  - intros (d & mt & wk & Hd & Np & Im & Iw & Hm & Hne & Ew & E1 & E3 & Ev).
    exists (Selection.mk (Diff.release_date d) (Diff.parse_time d)
                         (Some mt) (Diff.location_id d) (Some wk)
                         (Diff.new_value d)), mt.
    split.
    { apply (in_select_raw_datatable_diffs _ _ _ Ok). exists d, mt, wk.
      auto. }
    simpl. unfold Point.version, Diff.version in E1.
    injection E1 as E1 E2. auto 10.
Qed.
End UpdatePointRaw.

(** ** When [update_point] goes through *)

Lemma nodup_distinct_versions l :
  NoDup l -> distinct_keys veqb l.
Proof.
  induction l as [|a l IH]; simpl; intros N; [exact Logic.I|].
  apply NoDup_cons_iff in N. destruct N as [N1 N2]. split; [|auto].
  intros x Hx. apply veqb_false. intros ->. contradiction.
Qed.

Lemma insert_new_versions projected L :
  insert_rows veqb projected
    (nodup version_eq_dec
       (filter (fun v => negb (existsb (veqb v) projected)) L))
  = inr (projected
         ++ nodup version_eq_dec
              (filter (fun v => negb (existsb (veqb v) projected)) L)).
Proof.
  apply insert_rows_total.
  - intros r x Hr Hx. apply nodup_In in Hr. apply filter_In in Hr.
    destruct Hr as [_ Hr]. apply negb_true_iff in Hr.
    apply veqb_false. intros ->.
    assert (existsb (veqb x) projected = true).
    { apply existsb_exists. exists x. split; [assumption|].
      apply veqb_spec. reflexivity. }
    congruence.
  - apply nodup_distinct_versions. apply NoDup_nodup.
Qed.

Lemma point_same_key_spec a b :
  Point.same_key a b = true <->
  Point.version a = Point.version b
  /\ Point.location_id a = Point.location_id b
  /\ Point.epiweek a = Point.epiweek b.
Proof.
  unfold Point.same_key. rewrite !andb_true_iff, veqb_spec, !Z.eqb_eq.
  tauto.
Qed.

Lemma executemany_insert_point_diff_total rows :
  forall c old projected,
    norostat_point_diffs (work c) = Some old ->
    norostat_point_version_list (work c) = Some projected ->
    distinct_keys Point.same_key (old ++ rows) ->
    (forall p, In p rows ->
       In (Point.version p) projected
       /\ In (Point.location_id p)
             (map fst (pool_rows
                         (norostat_raw_datatable_location_pool (work c))))
       /\ - 2147483648 <= Point.epiweek p <= 2147483647) ->
    executemany insert_point_diff rows c
    = (inr tt, set_work c (set_point_diffs (work c) (Some (old ++ rows)))).
Proof.
  induction rows as [|r rows IH]; simpl; intros c old pv Eo Ep D R.
  - rewrite app_nil_r. unfold ret. f_equal.
    destruct c as [cm w a b d]. simpl in *. destruct w; simpl in *.
    subst. reflexivity.
  - destruct (R r (or_introl eq_refl)) as [R1 [R2 R3]].
    assert (E : insert_point_diff r c
                = (inr tt, set_work c (set_point_diffs (work c)
                                         (Some (old ++ [r]))))).
    { unfold insert_point_diff. rewrite Eo, Ep.
      assert (Rg : (Point.epiweek r <? - 2147483648)
                   || (2147483647 <? Point.epiweek r) = false).
      { apply orb_false_iff. split; apply Z.ltb_ge; lia. }
      rewrite Rg.
      assert (Rf : point_references (work c) pv r = true).
      { unfold point_references. apply andb_true_iff. split.
        - apply existsb_exists. exists (Point.version r).
          split; [assumption | apply veqb_spec; reflexivity].
        - apply pool_has_id_spec. assumption. }
      rewrite Rf.
      rewrite (insert_rows_total Point.same_key old [r]);
        [reflexivity| |simpl; split; [intros x [] | exact Logic.I]].
      intros r' x [<- | []] Hx.
      destruct (distinct_keys_split _ _ _ D) as [_ [_ C]].
      apply C; [assumption | left; reflexivity]. }
    rewrite (bind_ok _ _ _ _ _ E).
    rewrite (IH _ (old ++ [r]) pv); simpl; try reflexivity; try assumption.
    + rewrite <- app_assoc. reflexivity.
    + rewrite <- app_assoc. assumption.
    + intros p Hp. apply R. right. assumption.
Qed.

Section UpdatePointSucceeds.
Variable season_db_to_epiweek : string -> option string -> result Z.

(** X16. When the point tables exist, the constraints hold, the values
    of the raw diffs are ASCII text that fits its column and no statement
    fails on its own, [update_point] goes through exactly when
    the list comprehension of lines 394-403 raises nothing and its rows
    have distinct keys and epiweeks in the range of [INT]: the foreign
    keys never refuse a row, nor does a row of an earlier run. *)
Theorem update_point_succeeds (f : Faults) (db : DB)
        (projected : list Version) (old : list Point.row) :
  (forall line, f line = false) ->
  db_ok db -> point_ok db -> ascii_values db ->
  norostat_point_version_list db = Some projected ->
  norostat_point_diffs db = Some old ->
  ((exists db', update_point season_db_to_epiweek f db = (inr tt, db'))
   <-> exists rows,
         point_diff_insertion season_db_to_epiweek
           (select_raw_datatable_diffs db projected) = inr rows
         /\ distinct_keys Point.same_key rows
         /\ forall p, In p rows ->
                      - 2147483648 <= Point.epiweek p <= 2147483647).
Proof.
  intros Hf Ok Pk Ascii Ep Eo.
  set (projected' :=
         projected
         ++ nodup version_eq_dec
              (filter (fun v => negb (existsb (veqb v) projected))
                      (norostat_raw_datatable_version_list db))).
  set (c0 := set_work (connect db)
               (set_point_version_list db (Some projected'))).
  assert (Eq : update_point season_db_to_epiweek f db
               = match point_diff_insertion season_db_to_epiweek
                         (select_raw_datatable_diffs db projected) with
                 | inl e => (inl e, db)
                 | inr rows =>
                     match executemany insert_point_diff rows c0 with
                     | (inl e, c) => (inl e, committed c)
                     | (inr _, c) => (inr tt, work c)
                     end
                 end).
  { unfold update_point, update_point_body.
    rewrite (bind_ok _ _ _ _ _ (execute_ok f 380 (ret tt) _ (Hf _))).
    assert (E1 : execute f 381 select_raw_diffs (connect db)
                 = (inr (select_raw_datatable_diffs db projected),
                    connect db)).
    { rewrite execute_ok by apply Hf. unfold select_raw_diffs. simpl.
      rewrite Ep. reflexivity. }
    rewrite (bind_ok _ _ _ _ _ E1).
    destruct (point_diff_insertion season_db_to_epiweek
                (select_raw_datatable_diffs db projected)) as [e|rows] eqn:R.
    { unfold bind, lift. reflexivity. }
    assert (E2 : lift (@inr exn _ rows) (connect db)
                 = (inr rows, connect db)) by reflexivity.
    rewrite (bind_ok _ _ _ _ _ E2).
    assert (E3 : execute f 404 insert_point_versions (connect db)
                 = (inr tt, c0)).
    { rewrite execute_ok by apply Hf. unfold insert_point_versions. simpl.
      rewrite Ep, insert_new_versions. reflexivity. }
    rewrite (bind_ok _ _ _ _ _ E3).
    unfold bind. rewrite execute_ok by apply Hf.
    destruct (executemany insert_point_diff rows c0) as [[e|[]] c];
      [reflexivity|].
    rewrite execute_ok by apply Hf. reflexivity. }
  rewrite Eq. clear Eq.
  destruct (ok_point_ledger _ Pk projected Ep) as [Np Ip].
  split.
  - intros [db' H].
    destruct (point_diff_insertion season_db_to_epiweek
                (select_raw_datatable_diffs db projected)) as [e|rows] eqn:R;
      [discriminate|].
    exists rows. split; [reflexivity|].
    destruct (executemany insert_point_diff rows c0) as [[e|[]] c] eqn:E;
      [discriminate|].
    destruct (executemany_insert_point_diff_checked rows c0 c old projected'
                E Eo eq_refl (ok_point_keys _ Pk old Eo)) as (_ & D & Rg).
    destruct (distinct_keys_split _ _ _ D) as [_ [D2 _]].
    split; [assumption|]. intros p Hp. apply Rg. assumption.
  - intros [rows [R [D Rg]]]. rewrite R.
    rewrite (executemany_insert_point_diff_total rows c0 old projected').
    + eauto.
    + exact Eo.
    + reflexivity.
    + (* the rows of before are at projected versions, the new ones not *)
      apply distinct_keys_append;
        [apply (ok_point_keys _ Pk old Eo) | assumption|].
      intros x y Hx Hy.
      destruct (Point.same_key y x) eqn:K; [|reflexivity]. exfalso.
      apply point_same_key_spec in K. destruct K as [K _].
      destruct (ok_point_references _ Pk old x Eo Hx) as [[pv [E1 E2]] _].
      rewrite Ep in E1. inversion E1; subst pv.
      apply (point_diff_insertion_inr _ _ _ y R) in Hy.
      destruct Hy as [r [Hr [_ Pd]]].
      apply (in_select_raw_datatable_diffs _ _ _ Ok) in Hr.
      destruct Hr as (d & mt & wk & _ & Np' & _ & _ & ->).
      unfold point_diff in Pd. simpl in Pd.
      destruct (season_db_to_epiweek mt (Some wk)); [discriminate|].
      destruct (Diff.new_value d) as [s|];
        [destruct (int s); [|discriminate]|];
        inversion Pd; subst y; apply Np'; unfold Point.version in K;
        simpl in K; unfold Diff.version; rewrite K; assumption.
    + intros p Hp. split; [|split; [|apply Rg; assumption]].
      * apply (point_diff_insertion_inr _ _ _ p R) in Hp.
        destruct Hp as [r [Hr [_ Pd]]].
        apply (in_select_raw_datatable_diffs _ _ _ Ok) in Hr.
        destruct Hr as (d & mt & wk & Hd & _ & _ & _ & ->).
        assert (Ev : Point.version p = Diff.version d).
        { unfold point_diff in Pd. simpl in Pd.
          destruct (season_db_to_epiweek mt (Some wk)); [discriminate|].
          destruct (Diff.new_value d) as [s|];
            [destruct (int s); [|discriminate]|];
            inversion Pd; reflexivity. }
        rewrite Ev. unfold projected'. apply in_or_app.
        destruct (existsb (veqb (Diff.version d)) projected) eqn:Ex.
        -- left. apply existsb_exists in Ex. destruct Ex as [u [Hu K]].
           apply veqb_spec in K. rewrite K. assumption.
        -- right. apply nodup_In. apply filter_In. rewrite Ex.
           split; [|reflexivity]. apply (ok_versions _ Ok). assumption.
      * apply (point_diff_insertion_inr _ _ _ p R) in Hp.
        destruct Hp as [r [Hr [_ Pd]]].
        apply (in_select_raw_datatable_diffs _ _ _ Ok) in Hr.
        destruct Hr as (d & mt & wk & Hd & _ & _ & _ & ->).
        assert (El : Point.location_id p = Diff.location_id d).
        { unfold point_diff in Pd. simpl in Pd.
          destruct (season_db_to_epiweek mt (Some wk)); [discriminate|].
          destruct (Diff.new_value d) as [s|];
            [destruct (int s); [|discriminate]|];
            inversion Pd; reflexivity. }
        rewrite El. simpl. apply (ok_ids _ Ok d Hd).
Qed.
End UpdatePointSucceeds.

End Collation.

(** * The statements at concrete inputs *)

(** The examples are run under [general_ci]. *)

Lemma example_snapshot_well_formed collation release_date value :
  (String.length value <= 255)%nat ->
  well_formed collation (example_snapshot release_date value).
Proof.
  intros H. split.
  - unfold example_snapshot, parsed_params, Parsed.fits. simpl.
    apply Nat.leb_le in H. rewrite H. reflexivity.
  - simpl. split; [intros x [] | exact Logic.I].
Qed.





(** C3 on the same three calls: the diffs at days 10 and 15 are
    consecutive and carry different values. *)
Lemma no_redundant_diffs_kept_witness :
  let calls := [(no_faults, example_snapshot 10 "5");
                (no_faults, example_snapshot 20 "7");
                (no_faults, example_snapshot 15 "3")] in
  let D := norostat_raw_datatable_diffs (run general_ci calls empty_db) in
  let d1 := Diff.mk 10 0 1 1 1 (Some "5") in
  let d2 := Diff.mk 15 0 1 1 1 (Some "3") in
  In d1 D /\ In d2 D
  /\ Diff.new_value d1 <> Diff.new_value d2.
Proof.
  cbv zeta.
  set (calls := [(no_faults, example_snapshot 10 "5");
                 (no_faults, example_snapshot 20 "7");
                 (no_faults, example_snapshot 15 "3")]).
  set (d1 := Diff.mk 10 0 1 1 1 (Some "5")).
  set (d2 := Diff.mk 15 0 1 1 1 (Some "3")).
  assert (DE : norostat_raw_datatable_diffs (run general_ci calls empty_db)
               = [d1; d2; Diff.mk 20 0 1 1 1 (Some "7")])
    by (vm_compute; reflexivity).
  assert (H1 : In d1 (norostat_raw_datatable_diffs
                        (run general_ci calls empty_db)))
    by (rewrite DE; left; reflexivity).
  assert (H2 : In d2 (norostat_raw_datatable_diffs
                        (run general_ci calls empty_db)))
    by (rewrite DE; right; left; reflexivity).
  assert (Hc : Diff.cell d1 = Diff.cell d2) by reflexivity.
  assert (Hv : vlt (Diff.version d1) (Diff.version d2))
    by (vm_compute; left; reflexivity).
  assert (Hb : forall d3,
             In d3 (norostat_raw_datatable_diffs
                      (run general_ci calls empty_db)) ->
             Diff.cell d3 = Diff.cell d1 ->
             ~ (vlt (Diff.version d1) (Diff.version d3)
                /\ vlt (Diff.version d3) (Diff.version d2))).
  { rewrite DE. clear. intros d3 [<- | [<- | [<- | []]]] _; vm_compute;
      intros [[A | [_ A]] [B | [_ B]]];
      first [discriminate A | discriminate B]. }
  split; [exact H1|]. split; [exact H2|].
  exact (no_redundant_diffs_kept general_ci calls d1 d2 H1 H2 Hc Hv Hb).
Defined.

(** C7 on a second call after a first one: the ledger of before is kept. *)
Lemma record_long_raw_frame_witness :
  let s1 := example_snapshot 10 "5" in
  let s2 := example_snapshot 20 "7" in
  let db := snd (record_long_raw general_ci no_faults s1 empty_db) in
  let db' := snd (record_long_raw general_ci no_faults s2 db) in
  db_ok general_ci db
  /\ incl (norostat_raw_datatable_version_list db)
          (norostat_raw_datatable_version_list db').
Proof.
  cbv zeta.
  set (s1 := example_snapshot 10 "5").
  set (s2 := example_snapshot 20 "7").
  set (db := snd (record_long_raw general_ci no_faults s1 empty_db)).
  assert (Ok : db_ok general_ci db)
    by (apply record_long_raw_ok; apply empty_db_ok).
  split; [exact Ok|].
  exact (match record_long_raw_frame general_ci no_faults s2 db Ok with
         | ex_intro _ _ (conj _ (conj _ (conj _ (conj Hled _)))) => Hled
         end).
Defined.

(** C9 does not hold of the code. That a snapshot with an empty value is
    rejected fails: such a snapshot is recorded, and the diff of the cell
    carries the empty string, next to the diff of a cell with a value. *)
Lemma empty_value_is_recorded :
  let long_raw := mkLongRaw [("201201", "2012-13", "");
                             ("201202", "2012-13", "5")] 10 0 "B" in
  let r := record_long_raw general_ci no_faults long_raw empty_db in
  In ("201201", "2012-13", "") (long_raw_df long_raw)
  /\ fst r = inr tt
  /\ norostat_raw_datatable_diffs (snd r)
     = [Diff.mk 10 0 1 1 1 (Some ""); Diff.mk 10 0 1 1 2 (Some "5")]
  /\ reconstruct (snd r) (10, 0)
     = [("2012-13", "B", "201201", ""); ("2012-13", "B", "201202", "5")].
Proof.
  cbv zeta. split; [left; reflexivity|].
  split; [vm_compute; reflexivity|]. split; vm_compute; reflexivity.
Qed.

(** C9, as the code has it, on a snapshot with an empty value and with
    the value [5]: the row of the latter is in the reconstruction. *)
Lemma every_value_is_stored_witness :
  let long_raw := mkLongRaw [("201201", "2012-13", "");
                             ("201202", "2012-13", "5")] 10 0 "B" in
  let db' := snd (record_long_raw general_ci no_faults long_raw empty_db) in
  let row := ("2012-13", "B", "201202", "5") in
  db_ok general_ci empty_db
  /\ record_long_raw general_ci no_faults long_raw empty_db = (inr tt, db')
  /\ In row (snapshot_rows long_raw)
  /\ exists row',
       In row' (reconstruct db' (10, 0))
       /\ same_row general_ci row' row
       /\ (snd row' = "5" \/ In row' (reconstruct empty_db (10, 0))).
Proof.
  cbv zeta.
  set (long_raw := mkLongRaw [("201201", "2012-13", "");
                              ("201202", "2012-13", "5")] 10 0 "B").
  set (db' := snd (record_long_raw general_ci no_faults long_raw empty_db)).
  assert (E : record_long_raw general_ci no_faults long_raw empty_db
              = (inr tt, db')) by (vm_compute; reflexivity).
  assert (Hrow : In ("2012-13", "B", "201202", "5") (snapshot_rows long_raw))
    by (right; left; reflexivity).
  split; [exact (empty_db_ok general_ci)|]. split; [exact E|].
  split; [exact Hrow|].
  exact (every_value_is_stored general_ci no_faults long_raw empty_db db' _
           (empty_db_ok general_ci) E Hrow).
Defined.

(** C6 does not hold of the code. That the version is registered only
    after the forward diff fails: a run stopped at the first statement of
    the forward diff (line 282) has the version in the ledger of its
    working copy already, and no diff yet. *)
Lemma version_registered_before_forward_diff :
  let long_raw := mkLongRaw [("201201", "2012-13", "5")] 10 0 "B" in
  let r := record_long_raw_body general_ci (fails_at 282) long_raw
             (connect empty_db) in
  fst r = inl (OperationalError 282)
  /\ In (version_of long_raw)
        (norostat_raw_datatable_version_list (work (snd r)))
  /\ norostat_raw_datatable_diffs (work (snd r)) = [].
Proof.
  cbv zeta. split; [vm_compute; reflexivity|].
  split; [vm_compute; left; reflexivity | vm_compute; reflexivity].
Qed.

(** C10 on a recorded value that is not the text of an integer. *)
Lemma update_point_needs_integers_witness :
  let db := snd (record_long_raw general_ci no_faults
                   (example_snapshot 10 "n/a") empty_db) in
  let r := Selection.mk 10 0 (Some "2012-13") 1 (Some "201201")
             (Some "n/a") in
  norostat_point_version_list db = Some []
  /\ In r (select_raw_datatable_diffs db [])
  /\ prog_match "2012-13" = true
  /\ ascii_text "n/a" = true
  /\ int "n/a" = None
  /\ exists e, update_point (fun _ _ => inr 201201) no_faults db = (inl e, db).
Proof.
  cbv zeta.
  set (db := snd (record_long_raw general_ci no_faults
                    (example_snapshot 10 "n/a") empty_db)).
  set (r := Selection.mk 10 0 (Some "2012-13") 1 (Some "201201")
              (Some "n/a")).
  assert (Hp : norostat_point_version_list db = Some [])
    by (vm_compute; reflexivity).
  assert (Hr : In r (select_raw_datatable_diffs db []))
    by (vm_compute; left; reflexivity).
  assert (Hm : prog_match "2012-13" = true) by (vm_compute; reflexivity).
  assert (Ha : ascii_text "n/a" = true) by (vm_compute; reflexivity).
  assert (Hi : int "n/a" = None) by (vm_compute; reflexivity).
  assert (Hne : "n/a" <> "") by discriminate.
  split; [exact Hp|]. split; [exact Hr|]. split; [exact Hm|].
  split; [exact Ha|]. split; [exact Hi|].
  exact (update_point_needs_integers (fun _ _ => inr 201201) no_faults db
           [] r "2012-13" "n/a" Hp Hr eq_refl Hm eq_refl Hne Ha Hi).
Defined.

(** C8 does not hold of the code. That the point ledger holds only the
    versions at which a point diff was written fails: a version whose only
    diff has a measurement type outside the pattern is in the point ledger
    after [update_point], and the point diff table is empty. *)
Lemma point_ledger_holds_untouched_version :
  let long_raw := mkLongRaw [("201201", "Outbreaks", "5")] 10 0 "B" in
  let db := run general_ci [(no_faults, long_raw)] empty_db in
  let r := update_point (fun _ _ => inr 201201) no_faults db in
  fst r = inr tt
  /\ norostat_point_version_list (snd r) = Some [(10, 0)]
  /\ norostat_point_diffs (snd r) = Some [].
Proof.
  cbv zeta. split; [vm_compute; reflexivity|].
  split; vm_compute; reflexivity.
Qed.

(** C8, as the code has it, on one recorded version. *)
Lemma point_ledger_has_every_version_witness :
  let db := snd (record_long_raw general_ci no_faults
                   (example_snapshot 10 "5") empty_db) in
  let db' := snd (update_point (fun _ _ => inr 201201) no_faults db) in
  update_point (fun _ _ => inr 201201) no_faults db = (inr tt, db')
  /\ exists projected projected',
       norostat_point_version_list db = Some projected
       /\ norostat_point_version_list db' = Some projected'
       /\ forall v, In v projected'
                    <-> In v projected
                        \/ In v (norostat_raw_datatable_version_list db).
Proof.
  cbv zeta.
  set (db := snd (record_long_raw general_ci no_faults
                    (example_snapshot 10 "5") empty_db)).
  set (db' := snd (update_point (fun _ _ => inr 201201) no_faults db)).
  assert (E : update_point (fun _ _ => inr 201201) no_faults db
              = (inr tt, db')) by (vm_compute; reflexivity).
  split; [exact E|].
  exact (point_ledger_has_every_version (fun _ _ => inr 201201) no_faults
           db db' E).
Defined.

(** X1 on the calls at days 10, 20 and then 15: as of day 17 the
    reconstruction is the snapshot of day 15. *)
Lemma reconstruct_any_order_witness :
  let calls := [(no_faults, example_snapshot 10 "5");
                (no_faults, example_snapshot 20 "7");
                (no_faults, example_snapshot 15 "3")] in
  let db := run general_ci calls empty_db in
  record_all general_ci calls empty_db = inr db
  /\ told_apart general_ci (delivered_by calls)
  /\ forall row, In row (reconstruct db (17, 0))
                 <-> In row [("2012-13", "B", "201201", "3")].
Proof.
  cbv zeta.
  set (calls := [(no_faults, example_snapshot 10 "5");
                 (no_faults, example_snapshot 20 "7");
                 (no_faults, example_snapshot 15 "3")]).
  assert (Run : record_all general_ci calls empty_db
                = inr (run general_ci calls empty_db))
    by (vm_compute; reflexivity).
  assert (Apart : told_apart general_ci (delivered_by calls))
    by (apply told_apartb_spec; vm_compute; reflexivity).
  assert (H1 : In (no_faults, example_snapshot 15 "3") calls)
    by (right; right; left; reflexivity).
  assert (H2 : vle (version_of (snd (no_faults, example_snapshot 15 "3")))
                   (17, 0)) by (vm_compute; left; reflexivity).
  assert (H3 : forall c', In c' calls -> vle (version_of (snd c')) (17, 0) ->
                 vle (version_of (snd c'))
                     (version_of (snd (no_faults, example_snapshot 15 "3")))).
  { clear. intros c' [<- | [<- | [<- | []]]] H.
    - vm_compute. left. reflexivity.
    - exfalso. revert H. vm_compute. intros [H | [H _]]; discriminate H.
    - vm_compute. right. split; [reflexivity | discriminate]. }
  split; [exact Run|]. split; [exact Apart|].
  exact (proj2 (proj1 (reconstruct_any_order general_ci calls
                         (run general_ci calls empty_db) (17, 0) Run)
                      (no_faults, example_snapshot 15 "3") H1 H2 H3) Apart).
Defined.

(** X2 on days 10 and 20, in the two orders. *)
Lemma ingestion_order_irrelevant_witness :
  let calls1 := [(no_faults, example_snapshot 10 "5");
                 (no_faults, example_snapshot 20 "7")] in
  let calls2 := [(no_faults, example_snapshot 20 "7");
                 (no_faults, example_snapshot 10 "5")] in
  record_all general_ci calls1 empty_db = inr (run general_ci calls1 empty_db)
  /\ record_all general_ci calls2 empty_db
     = inr (run general_ci calls2 empty_db)
  /\ told_apart general_ci (delivered_by calls1)
  /\ forall row,
       In row (reconstruct (run general_ci calls1 empty_db) (25, 0))
       <-> In row (reconstruct (run general_ci calls2 empty_db) (25, 0)).
Proof.
  cbv zeta.
  set (calls1 := [(no_faults, example_snapshot 10 "5");
                  (no_faults, example_snapshot 20 "7")]).
  set (calls2 := [(no_faults, example_snapshot 20 "7");
                  (no_faults, example_snapshot 10 "5")]).
  assert (Run1 : record_all general_ci calls1 empty_db
                 = inr (run general_ci calls1 empty_db))
    by (vm_compute; reflexivity).
  assert (Run2 : record_all general_ci calls2 empty_db
                 = inr (run general_ci calls2 empty_db))
    by (vm_compute; reflexivity).
  assert (Apart : told_apart general_ci (delivered_by calls1))
    by (apply told_apartb_spec; vm_compute; reflexivity).
  assert (Same : forall s, In s (map snd calls1) <-> In s (map snd calls2))
    by (clear; intros s; simpl; tauto).
  split; [exact Run1|]. split; [exact Run2|]. split; [exact Apart|].
  exact (proj2 (ingestion_order_irrelevant general_ci calls1 calls2 _ _
                  (25, 0) Run1 Run2 Same) Apart).
Defined.

(** X3 on the first snapshot of an empty store. *)
Lemma record_long_raw_succeeds_witness :
  (forall line, no_faults line = false)
  /\ db_ok general_ci empty_db
  /\ well_formed general_ci (example_snapshot 10 "5")
  /\ room empty_db (List.length (long_raw_df (example_snapshot 10 "5")))
  /\ exists db',
       record_long_raw general_ci no_faults (example_snapshot 10 "5")
         empty_db
       = (inr tt, db').
Proof.
  assert (Wf : well_formed general_ci (example_snapshot 10 "5"))
    by (apply example_snapshot_well_formed; simpl; lia).
  assert (Room : room empty_db
                   (List.length (long_raw_df (example_snapshot 10 "5"))))
    by (vm_compute; repeat split; discriminate).
  split; [intros line; reflexivity|].
  split; [exact (empty_db_ok general_ci)|].
  split; [exact Wf|]. split; [exact Room|].
  apply (proj2 (record_long_raw_succeeds general_ci no_faults
                  (example_snapshot 10 "5") empty_db (fun _ => eq_refl)
                  (empty_db_ok general_ci) Wf Room)).
  intros [].
Defined.

(** X4 on two rows for the same week and for measurement types that
    differ in case only. *)
Lemma duplicate_cell_rejected_witness :
  let long_raw := mkLongRaw [("201201", "Outbreaks", "5");
                             ("201201", "outbreaks", "6")] 10 0 "B" in
  (forall line, no_faults line = false)
  /\ forallb Parsed.fits (parsed_params long_raw) = true
  /\ ~ distinct_keys (Parsed.same_key general_ci) (parsed_params long_raw)
  /\ record_long_raw general_ci no_faults long_raw empty_db
     = (inl IntegrityError, empty_db).
Proof.
  cbv zeta.
  set (long_raw := mkLongRaw [("201201", "Outbreaks", "5");
                              ("201201", "outbreaks", "6")] 10 0 "B").
  assert (F : forallb Parsed.fits (parsed_params long_raw) = true)
    by reflexivity.
  assert (N : ~ distinct_keys (Parsed.same_key general_ci)
                  (parsed_params long_raw)).
  { intros D. simpl in D. destruct D as [D _].
    specialize (D _ (or_introl eq_refl)). vm_compute in D. discriminate D. }
  split; [intros line; reflexivity|]. split; [exact F|]. split; [exact N|].
  exact (duplicate_cell_rejected general_ci no_faults long_raw empty_db
           (fun _ => eq_refl) F N).
Defined.

(** X5 on the same cell at days 10 and 20, with values that differ in
    case only. *)
Lemma unchanged_snapshot_adds_no_diff_witness :
  let db := snd (record_long_raw general_ci no_faults
                   (example_snapshot 10 "a") empty_db) in
  let long_raw := example_snapshot 20 "A" in
  let db' := snd (record_long_raw general_ci no_faults long_raw db) in
  db_ok general_ci db
  /\ record_long_raw general_ci no_faults long_raw db = (inr tt, db')
  /\ same_rows general_ci (reconstruct db (version_of long_raw))
               (snapshot_rows long_raw)
  /\ norostat_raw_datatable_version_list db' = [(10, 0); (20, 0)]
  /\ norostat_raw_datatable_diffs db' = norostat_raw_datatable_diffs db.
Proof.
  cbv zeta.
  set (db := snd (record_long_raw general_ci no_faults
                    (example_snapshot 10 "a") empty_db)).
  set (long_raw := example_snapshot 20 "A").
  set (db' := snd (record_long_raw general_ci no_faults long_raw db)).
  assert (Ok : db_ok general_ci db)
    by (apply record_long_raw_ok; apply empty_db_ok).
  assert (E : record_long_raw general_ci no_faults long_raw db
              = (inr tt, db')) by (vm_compute; reflexivity).
  assert (Newest : forall u, In u (norostat_raw_datatable_version_list db) ->
                             vlt u (version_of long_raw)).
  { clear. assert (L : norostat_raw_datatable_version_list db = [(10, 0)])
      by (vm_compute; reflexivity).
    rewrite L. intros u [<- | []]. vm_compute. left. reflexivity. }
  assert (Same : same_rows general_ci (reconstruct db (version_of long_raw))
                           (snapshot_rows long_raw)).
  { clear.
    assert (R : reconstruct db (version_of long_raw)
                = [("2012-13", "B", "201201", "a")])
      by (vm_compute; reflexivity).
    rewrite R. split.
    - intros a [<- | []]. exists ("2012-13", "B", "201201", "A").
      split; [left; reflexivity|]. repeat split.
    - intros b [<- | []]. exists ("2012-13", "B", "201201", "a").
      split; [left; reflexivity|]. repeat split. }
  split; [exact Ok|]. split; [exact E|]. split; [exact Same|].
  pose proof (unchanged_snapshot_adds_no_diff general_ci no_faults long_raw
                db db' Ok E Newest Same) as [HL [HD _]].
  split; [exact HL | exact HD].
Defined.

(** X8 on the first snapshot of an empty store. *)
Lemma pools_after_recording_witness :
  let long_raw := example_snapshot 10 "5" in
  let db' := snd (record_long_raw general_ci no_faults long_raw empty_db) in
  db_ok general_ci empty_db
  /\ record_long_raw general_ci no_faults long_raw empty_db = (inr tt, db')
  /\ pool_grown general_ci
       (norostat_raw_datatable_measurement_type_pool empty_db)
       (norostat_raw_datatable_measurement_type_pool db') ["2012-13"].
Proof.
  cbv zeta.
  set (long_raw := example_snapshot 10 "5").
  set (db' := snd (record_long_raw general_ci no_faults long_raw empty_db)).
  assert (E : record_long_raw general_ci no_faults long_raw empty_db
              = (inr tt, db')) by (vm_compute; reflexivity).
  split; [exact (empty_db_ok general_ci)|]. split; [exact E|].
  exact (proj1 (pools_after_recording general_ci no_faults long_raw empty_db
                  db' (empty_db_ok general_ci) E)).
Defined.

(** X11 on the first snapshot of an empty store. *)
Lemma record_long_raw_creates_point_tables_witness :
  let long_raw := example_snapshot 10 "5" in
  let db' := snd (record_long_raw general_ci no_faults long_raw empty_db) in
  record_long_raw general_ci no_faults long_raw empty_db = (inr tt, db')
  /\ norostat_point_version_list db' = Some []
  /\ norostat_point_diffs db' = Some [].
Proof.
  cbv zeta.
  set (long_raw := example_snapshot 10 "5").
  set (db' := snd (record_long_raw general_ci no_faults long_raw empty_db)).
  assert (E : record_long_raw general_ci no_faults long_raw empty_db
              = (inr tt, db')) by (vm_compute; reflexivity).
  split; [exact E|].
  exact (record_long_raw_creates_point_tables general_ci no_faults long_raw
           empty_db db' E).
Defined.

(** X14 after one recorded snapshot. *)
Lemma update_point_projects_raw_diffs_witness :
  let db := snd (record_long_raw general_ci no_faults
                   (example_snapshot 10 "5") empty_db) in
  let db' := snd (update_point (fun _ _ => inr 201201) no_faults db) in
  db_ok general_ci db
  /\ ascii_values db
  /\ update_point (fun _ _ => inr 201201) no_faults db = (inr tt, db')
  /\ norostat_point_version_list db = Some []
  /\ norostat_point_diffs db = Some []
  /\ exists new, norostat_point_diffs db' = Some ([] ++ new).
Proof.
  cbv zeta.
  set (db := snd (record_long_raw general_ci no_faults
                    (example_snapshot 10 "5") empty_db)).
  set (db' := snd (update_point (fun _ _ => inr 201201) no_faults db)).
  assert (Ok : db_ok general_ci db)
    by (apply record_long_raw_ok; apply empty_db_ok).
  assert (Av : ascii_values db).
  { clear. assert (D : norostat_raw_datatable_diffs db
                       = [Diff.mk 10 0 1 1 1 (Some "5")])
      by (vm_compute; reflexivity).
    unfold ascii_values. rewrite D. intros d s [<- | []] V.
    inversion V. split; [reflexivity | simpl; lia]. }
  assert (E : update_point (fun _ _ => inr 201201) no_faults db
              = (inr tt, db')) by (vm_compute; reflexivity).
  assert (Ep : norostat_point_version_list db = Some [])
    by (vm_compute; reflexivity).
  assert (Eo : norostat_point_diffs db = Some [])
    by (vm_compute; reflexivity).
  split; [exact Ok|]. split; [exact Av|]. split; [exact E|].
  split; [exact Ep|]. split; [exact Eo|].
  exact (match update_point_projects_raw_diffs general_ci
                 (fun _ _ => inr 201201) no_faults db db' [] [] Ok Av E Ep Eo
         with
         | ex_intro _ new (conj H _) => ex_intro _ new H
         end).
Defined.

(** X15 after one recorded snapshot. *)
Lemma update_point_idempotent_witness :
  let db := snd (record_long_raw general_ci no_faults
                   (example_snapshot 10 "5") empty_db) in
  let db' := snd (update_point (fun _ _ => inr 201201) no_faults db) in
  db_ok general_ci db
  /\ update_point (fun _ _ => inr 201201) no_faults db = (inr tt, db')
  /\ update_point (fun _ _ => inr 201201) no_faults db' = (inr tt, db').
Proof.
  cbv zeta.
  set (db := snd (record_long_raw general_ci no_faults
                    (example_snapshot 10 "5") empty_db)).
  set (db' := snd (update_point (fun _ _ => inr 201201) no_faults db)).
  assert (Ok : db_ok general_ci db)
    by (apply record_long_raw_ok; apply empty_db_ok).
  assert (E : update_point (fun _ _ => inr 201201) no_faults db
              = (inr tt, db')) by (vm_compute; reflexivity).
  split; [exact Ok|]. split; [exact E|].
  exact (update_point_idempotent general_ci (fun _ _ => inr 201201)
           no_faults db db' Ok E).
Defined.

(** X17 on the empty store. *)
Lemma update_point_needs_point_tables_witness :
  norostat_point_version_list empty_db = None
  /\ exists e, update_point (fun _ _ => inr 201201) no_faults empty_db
               = (inl e, empty_db)
               /\ (no_faults 380%nat = false -> no_faults 381%nat = false ->
                   e = ProgrammingError).
Proof.
  split; [reflexivity|].
  exact (update_point_needs_point_tables (fun _ _ => inr 201201) no_faults
           empty_db eq_refl).
Defined.

(** X7 after one recorded snapshot. *)
Lemma reconstruct_functional_witness :
  let db := snd (record_long_raw general_ci no_faults
                   (example_snapshot 10 "5") empty_db) in
  db_ok general_ci db
  /\ In ("2012-13", "B", "201201", "5") (reconstruct db (10, 0))
  /\ "5" = "5".
Proof.
  cbv zeta.
  set (db := snd (record_long_raw general_ci no_faults
                    (example_snapshot 10 "5") empty_db)).
  assert (Ok : db_ok general_ci db)
    by (apply record_long_raw_ok; apply empty_db_ok).
  assert (H : In ("2012-13", "B", "201201", "5") (reconstruct db (10, 0)))
    by (vm_compute; left; reflexivity).
  split; [exact Ok|]. split; [exact H|].
  exact (reconstruct_functional general_ci db (10, 0) "2012-13" "B" "201201"
           "5" "5" Ok H H).
Defined.

(** X6: a call at day 30 leaves the reconstruction as of day 25 alone. *)
Lemma reconstruction_changes_in_window_witness :
  let db := snd (record_long_raw general_ci no_faults
                   (example_snapshot 20 "7") empty_db) in
  let long_raw := example_snapshot 30 "9" in
  db_ok general_ci db
  /\ vlt (25, 0) (version_of long_raw)
  /\ forall row,
       In row (reconstruct
                 (snd (record_long_raw general_ci no_faults long_raw db))
                 (25, 0))
       <-> In row (reconstruct db (25, 0)).
Proof.
  cbv zeta.
  set (db := snd (record_long_raw general_ci no_faults
                    (example_snapshot 20 "7") empty_db)).
  set (long_raw := example_snapshot 30 "9").
  assert (Ok : db_ok general_ci db)
    by (apply record_long_raw_ok; apply empty_db_ok).
  assert (Hw : vlt (25, 0) (version_of long_raw))
    by (vm_compute; left; reflexivity).
  split; [exact Ok|]. split; [exact Hw|].
  exact (proj1 (reconstruction_changes_in_window general_ci no_faults
                  long_raw db (25, 0) Ok) Hw).
Defined.

(** X16 after one recorded snapshot. *)
Lemma update_point_succeeds_witness :
  let db := snd (record_long_raw general_ci no_faults
                   (example_snapshot 10 "5") empty_db) in
  (forall line, no_faults line = false)
  /\ db_ok general_ci db /\ point_ok db /\ ascii_values db
  /\ norostat_point_version_list db = Some []
  /\ norostat_point_diffs db = Some []
  /\ exists db', update_point (fun _ _ => inr 201201) no_faults db
                 = (inr tt, db').
Proof.
  cbv zeta.
  set (db := snd (record_long_raw general_ci no_faults
                    (example_snapshot 10 "5") empty_db)).
  assert (Ok : db_ok general_ci db)
    by (apply record_long_raw_ok; apply empty_db_ok).
  assert (Pk : point_ok db)
    by (apply record_long_raw_point_ok;
        [apply empty_db_ok | apply empty_db_point_ok]).
  assert (Av : ascii_values db).
  { clear. assert (D : norostat_raw_datatable_diffs db
                       = [Diff.mk 10 0 1 1 1 (Some "5")])
      by (vm_compute; reflexivity).
    unfold ascii_values. rewrite D. intros d s [<- | []] V.
    inversion V. split; [reflexivity | simpl; lia]. }
  assert (Ep : norostat_point_version_list db = Some [])
    by (vm_compute; reflexivity).
  assert (Eo : norostat_point_diffs db = Some [])
    by (vm_compute; reflexivity).
  assert (Rows : exists rows,
             point_diff_insertion (fun _ _ => inr 201201)
               (select_raw_datatable_diffs db []) = inr rows
             /\ distinct_keys Point.same_key rows
             /\ forall p, In p rows ->
                          - 2147483648 <= Point.epiweek p <= 2147483647).
  { clear. exists [Point.mk 10 0 1 201201 (Some 5)].
    split; [vm_compute; reflexivity|].
    split; [simpl; split; [intros x [] | exact Logic.I]|].
    intros p [<- | []]. simpl. lia. }
  split; [intros line; reflexivity|]. split; [exact Ok|]. split; [exact Pk|].
  split; [exact Av|]. split; [exact Ep|]. split; [exact Eo|].
  exact (proj2 (update_point_succeeds general_ci (fun _ _ => inr 201201)
                  no_faults db [] [] (fun _ => eq_refl) Ok Pk Av Ep Eo)
               Rows).
Defined.

(** X21 on the calls at days 20 and then 10. *)
Lemma record_all_succeeds_witness :
  let calls := [(no_faults, example_snapshot 20 "7");
                (no_faults, example_snapshot 10 "5")] in
  NoDup (map (fun c => version_of (snd c)) calls)
  /\ Z.of_nat (List.length (flat_map (fun c => long_raw_df (snd c)) calls))
     <= int_max
  /\ exists db, record_all general_ci calls empty_db = inr db.
Proof.
  cbv zeta.
  set (calls := [(no_faults, example_snapshot 20 "7");
                 (no_faults, example_snapshot 10 "5")]).
  assert (Hf : forall c line, In c calls -> fst c line = false)
    by (intros c line [<- | [<- | []]]; reflexivity).
  assert (Wf : forall c, In c calls -> well_formed general_ci (snd c))
    by (intros c [<- | [<- | []]]; apply example_snapshot_well_formed;
        simpl; lia).
  assert (Nd : NoDup (map (fun c => version_of (snd c)) calls)).
  { simpl. constructor; [|constructor; [intros [] | constructor]].
    intros [H | []]. discriminate H. }
  assert (Rows : Z.of_nat (List.length
                             (flat_map (fun c => long_raw_df (snd c)) calls))
                 <= int_max) by (vm_compute; discriminate).
  split; [exact Nd|]. split; [exact Rows|].
  exact (record_all_succeeds general_ci calls Hf Wf Nd Rows).
Defined.
